(** * e3nn.point.message_passing: a shallow embedding

    The layers of [e3nn/point/message_passing.py] are embedded over the
    real numbers: a float tensor of shape [[n, d]] is a list of [n] rows
    together with its column count [d], index tensors are lists of
    naturals, and every library call that can raise returns a [result].
    Rounding is not modelled: sums and products are the exact ones. *)

From Stdlib Require Import Reals List Arith Bool Lia Lra Relations
  Permutation Sorted.
Import ListNotations.
Open Scope R_scope.

(* ================================================================== *)
(** * Errors *)

(** The exceptions the tensor library raises, by the call that raises. *)
Inductive error : Type :=
| ViewError        (* Tensor.view / reshape: shape invalid for input size *)
| EinsumError      (* torch.einsum: operand ranks or sizes do not match  *)
| IndexError       (* index_select / scatter: index out of range          *)
| ScatterError     (* scatter: the index cannot be expanded to src        *)
| SizeError        (* propagate: given size differs from the tensor's     *)
| BroadcastError   (* elementwise op on shapes that do not broadcast      *)
| ReduceEmptyError (* max / cat of a tensor or list with no elements      *)
| TypeError        (* [None] where a tensor is expected                   *)
| UnboundLocalError (* a local read before any assignment                 *)
| NonNumeric.      (* not a raise: a division by zero put inf or nan in
                      the result                                          *)

Inductive result (A : Type) : Type :=
| Ok (a : A)
| Err (e : error).
Arguments Ok {A} a.
Arguments Err {A} e.

Definition bind {A B : Type} (m : result A) (f : A -> result B) : result B :=
  match m with
  | Ok a => f a
  | Err e => Err e
  end.

Notation "x <- m ;; k" := (bind m (fun x => k))
  (at level 61, m at next level, right associativity).

Definition is_ok {A : Type} (m : result A) : bool :=
  match m with Ok _ => true | Err _ => false end.

Fixpoint mapM {A B : Type} (f : A -> result B) (l : list A) : result (list B) :=
  match l with
  | [] => Ok []
  | a :: l' => b <- f a ;; bs <- mapM f l' ;; Ok (b :: bs)
  end.

(** Comparisons of floats, as booleans. *)
Definition Rltb (a b : R) : bool := if Rlt_dec a b then true else false.
Definition Rleb (a b : R) : bool := if Rle_dec a b then true else false.

(* ================================================================== *)
(** * Tensors *)

Module Tensor.

(** A 2-D float tensor of shape [[length t_rows, t_cols]]. *)
Record tensor2 : Type := mk2 { t_cols : nat; t_rows : list (list R) }.

Definition shape0 (t : tensor2) : nat := length (t_rows t).

(** Every row has the declared width. *)
Definition wf2 (t : tensor2) : Prop :=
  Forall (fun r => length r = t_cols t) (t_rows t).

Definition zeros1 (d : nat) : list R := repeat 0 d.

(** [torch.zeros(n, d)] *)
Definition zeros (n d : nat) : tensor2 := mk2 d (repeat (zeros1 d) n).

Fixpoint vadd (a b : list R) : list R :=
  match a, b with
  | x :: a', y :: b' => (x + y) :: vadd a' b'
  | _, _ => []
  end.

Definition vscale (c : R) (a : list R) : list R := map (fun x => c * x) a.

Definition vdiv (a : list R) (c : R) : list R := map (fun x => x / c) a.

Fixpoint dot (a b : list R) : R :=
  match a, b with
  | x :: a', y :: b' => x * y + dot a' b'
  | _, _ => 0
  end.

(** [K @ x] for a matrix given by its rows: entry [i] is [sum_j K[i][j] * x[j]]. *)
Definition matvec (K : list (list R)) (x : list R) : list R :=
  map (fun row => dot row x) K.

(** [x @ D] for a row vector [x] and a matrix [D] with [d] columns:
    entry [j] is [sum_i x[i] * D[i][j]]. *)
Fixpoint vecmat (d : nat) (x : list R) (D : list (list R)) : list R :=
  match x, D with
  | xi :: x', row :: D' => vadd (vscale xi row) (vecmat d x' D')
  | _, _ => zeros1 d
  end.

(** [t @ D.T]: every row [f] becomes [D f]. *)
Definition matmul_T (t : tensor2) (D : list (list R)) : tensor2 :=
  mk2 (length D) (map (matvec D) (t_rows t)).

(** [t @ D] for a matrix [D] of [d] columns. *)
Definition matmul (t : tensor2) (d : nat) (D : list (list R)) : tensor2 :=
  mk2 d (map (fun x => vecmat d x D) (t_rows t)).

Fixpoint all_lt (idx : list nat) (n : nat) : bool :=
  match idx with
  | [] => true
  | i :: idx' => (i <? n)%nat && all_lt idx' n
  end.

(** [x.index_select(0, idx)]: raises when an index is out of range. *)
Definition index_select (x : tensor2) (idx : list nat) : result tensor2 :=
  if all_lt idx (shape0 x)
  then Ok (mk2 (t_cols x) (map (fun i => nth i (t_rows x) []) idx))
  else Err IndexError.

(** The sum of the rows of [src] whose index is [s]. *)
Fixpoint sum_rows_at (d s : nat) (src : list (list R)) (index : list nat) : list R :=
  match src, index with
  | row :: src', i :: index' =>
      if (i =? s)%nat then vadd row (sum_rows_at d s src' index')
      else sum_rows_at d s src' index'
  | _, _ => zeros1 d
  end.

(** A dimension of size 1 repeated [n] times; any other is left as it is. *)
Definition expand {A : Type} (n : nat) (l : list A) : list A :=
  match l with
  | [x] => repeat x n
  | _ => l
  end.

(** [broadcast(index, src, dim=0)] of torch_scatter: the 1-D index is
    unsqueezed to one column and expanded to the shape of [src], which
    has [n] rows. [expand_as] repeats a dimension of size 1 and refuses
    any other size that is not the one asked for. The result is the index
    of each row of [src]. *)
Definition broadcast (index : list nat) (n : nat) : result (list nat) :=
  if (length index =? n)%nat then Ok index
  else if (length index =? 1)%nat then Ok (expand n index)
  else Err ScatterError.

(** [torch_scatter.scatter_add(src, index, dim=0, dim_size=dim_size)]:
    output row [s] is the sum of the rows [src[e]] with [index[e] = s].
    One index is read for each element of [src]: a source of no rows or
    of no columns has no element, and no index is checked against
    [dim_size] then. *)
Definition scatter_add (src : tensor2) (index : list nat) (dim_size : nat)
  : result tensor2 :=
  index <- broadcast index (shape0 src) ;;
  if negb (t_cols src =? 0)%nat && negb (all_lt index dim_size)
  then Err IndexError
  else Ok (mk2 (t_cols src)
             (map (fun s => sum_rows_at (t_cols src) s (t_rows src) index)
                  (seq 0 dim_size))).

(** A row of [g * c] entries cut into [g] chunks of [c] entries each. *)
Fixpoint chunks {A : Type} (g c : nat) (row : list A) : list (list A) :=
  match g with
  | O => []
  | S g' => firstn c row :: chunks g' c (skipn c row)
  end.

(** [x.view(N, g, c)] with [N = x.shape[0]]: raises unless the element
    counts agree; a tensor of no rows takes any shape of no elements. *)
Definition view (x : tensor2) (N g c : nat) : result (list (list (list R))) :=
  if (shape0 x * t_cols x =? N * g * c)%nat
  then Ok (map (chunks g c) (t_rows x))
  else Err ViewError.

(** [t.reshape(N, d)] of a 3-D tensor [[e, g, c]] given by its rows. *)
Definition reshape (e g c : nat) (t : list (list (list R))) (N d : nat)
  : result tensor2 :=
  if (e * g * c =? N * d)%nat
  then Ok (mk2 d (map (@concat R) t))
  else Err ViewError.

(** The size two broadcast dimensions of sizes [a] and [b] take. *)
Definition bdim (a b : nat) : option nat :=
  if (a =? b)%nat then Some a
  else if (a =? 1)%nat then Some b
  else if (b =? 1)%nat then Some a
  else None.

Definition map2 {A B C : Type} (f : A -> B -> C) (xs : list A) (ys : list B)
  : list C :=
  map (fun p => f (fst p) (snd p)) (combine xs ys).

(** Pairing along one broadcastable dimension. *)
Definition bzip {A B C : Type} (f : A -> B -> C) (xs : list A) (ys : list B)
  : option (list C) :=
  match bdim (length xs) (length ys) with
  | Some n => Some (map2 f (expand n xs) (expand n ys))
  | None => None
  end.

(** An elementwise binary operation on two 2-D tensors, with broadcasting
    on both dimensions. *)
Definition bop2 (f : R -> R -> R) (a b : tensor2) : result tensor2 :=
  match bdim (shape0 a) (shape0 b), bdim (t_cols a) (t_cols b) with
  | Some n, Some d =>
      Ok (mk2 d (map2 (fun ra rb => map2 f (expand d ra) (expand d rb))
                      (expand n (t_rows a)) (expand n (t_rows b))))
  | _, _ => Err BroadcastError
  end.

(** [c * t] for a Python float [c]. *)
Definition smul (c : R) (t : tensor2) : tensor2 :=
  mk2 (t_cols t) (map (vscale c) (t_rows t)).

(** [t / c] for a Python float [c]. *)
Definition sdiv (t : tensor2) (c : R) : tensor2 :=
  mk2 (t_cols t) (map (fun row => vdiv row c) (t_rows t)).

Definition vsub (a b : list R) : list R := map2 Rminus a b.

(** [v.norm(2)] and [v.norm(1)] of one row. *)
Definition norm2 (v : list R) : R := sqrt (dot v v).
Definition norm1 (v : list R) : R := fold_right (fun x acc => Rabs x + acc) 0 v.

(** [v.norm(p)] of one row. *)
Definition pnorm (p : nat) (v : list R) : R :=
  match p with
  | 1%nat => norm1 v
  | 2%nat => norm2 v
  | _ =>
      let s := fold_right (fun x acc => Rabs x ^ p + acc) 0 v in
      if Req_dec_T s 0 then 0 else Rpower s (/ INR p)
  end.

(** Float division: a zero divisor yields inf or nan. *)
Definition fdiv (x y : R) : result R :=
  if Req_dec_T y 0 then Err NonNumeric else Ok (x / y).

(** [torch_scatter.scatter_mean(src, index, dim=0, dim_size=dim_size)]:
    the sum of the rows at each index over the count of that index
    clamped to 1. The count is itself a scatter of one 1 per entry of
    [index], as given: every entry is checked against [dim_size] there. *)
Definition scatter_mean (src : tensor2) (index : list nat) (dim_size : nat)
  : result tensor2 :=
  out <- scatter_add src index dim_size ;;
  if negb (all_lt index dim_size) then Err IndexError
  else
    rows <- mapM (fun p : nat * list R =>
                    let count := INR (count_occ Nat.eq_dec index (fst p)) in
                    mapM (fun x => fdiv x (Rmax count 1)) (snd p))
                 (combine (seq 0 dim_size) (t_rows out)) ;;
    Ok (mk2 (t_cols out) rows).

(** The sum of the entries of a 1-D [src] whose index is [s]. *)
Fixpoint sum_at (s : nat) (src : list R) (index : list nat) : R :=
  match src, index with
  | x :: src', i :: index' =>
      if (i =? s)%nat then x + sum_at s src' index' else sum_at s src' index'
  | _, _ => 0
  end.

(** [scatter_add(src, index, dim=0)] on a 1-D [src], the output size
    inferred: [index.max() + 1], or 0 for no index. *)
Definition scatter_add1 (src : list R) (index : list nat) : result (list R) :=
  index <- broadcast index (length src) ;;
  let dim_size := match index with
                  | [] => 0%nat
                  | i :: index' => S (fold_right Nat.max i index')
                  end in
  Ok (map (fun s => sum_at s src index) (seq 0 dim_size)).

(** [l[idx]] on a 1-D index tensor: raises when an index is out of range. *)
Definition index_select1 (l : list nat) (idx : list nat) : result (list nat) :=
  if all_lt idx (length l) then Ok (map (fun i => nth i l 0%nat) idx)
  else Err IndexError.

(** [l.reshape(r, -1)] on a 1-D tensor. *)
Definition reshape_rows {A : Type} (r : nat) (l : list A) : result (list (list A)) :=
  match r with
  | O => Err ViewError
  | _ => if (length l mod r =? 0)%nat then Ok (chunks r (length l / r) l)
         else Err ViewError
  end.

(** [max(index) + 1] for an index tensor; [max] of nothing raises. *)
Definition max_plus_1 (index : list nat) : result nat :=
  match index with
  | [] => Err ReduceEmptyError
  | i :: index' => Ok (S (fold_right Nat.max i index'))
  end.

End Tensor.
Import Tensor.

(* ================================================================== *)
(** * Message passing (torch_geometric.nn.MessagePassing) *)

Module MessagePassing.

(** A [[2, E]] index tensor, held by its columns: entry [e] is
    [(edge_index[0][e], edge_index[1][e])], source first, target second. *)
Definition edge_index : Type := list (nat * nat).

Definition sources (ei : edge_index) : list nat := map fst ei.
Definition targets (ei : edge_index) : list nat := map snd ei.

(** [propagate(edge_index, size=size, x=x, ...)] with [aggr='add'] and
    [flow='target_to_source']: [x_j] gathers the rows of [x] at
    [edge_index[1]], [message] is called once on all edges, and the
    messages are summed at [edge_index[0]] into [size[1]] rows
    ([x.size(0)] rows when [size] is [None]). [size[0]], when given, must
    be the row count of [x]. *)
Definition propagate (ei : edge_index) (size : option (nat * nat))
    (x : tensor2) (message : tensor2 -> result tensor2) : result tensor2 :=
  match size with
  | Some (n_target, n_source) =>
      if negb (n_target =? shape0 x)%nat then Err SizeError
      else
        x_j <- index_select x (targets ei) ;;
        out <- message x_j ;;
        scatter_add out (sources ei) n_source
  | None =>
      x_j <- index_select x (targets ei) ;;
      out <- message x_j ;;
      scatter_add out (sources ei) (shape0 x)
  end.

End MessagePassing.
Import MessagePassing.

(* ================================================================== *)
(** * Convolution *)

Module Convolution.

(** What [self.kernel(edge_r)] returns: a tensor [[E, cout, cin]], or
    [[E, groups, cout, cin]] for a kernel with a group dimension. The
    trailing sizes are carried with the data because [E] can be 0. *)
Inductive kernel_out : Type :=
| K3 (cout cin : nat) (k : list (list (list R)))
| K4 (g cout cin : nat) (k : list (list (list (list R)))).

(** The kernel collaborator: a callable on [edge_r]. *)
Definition kernel : Type := list (list R) -> kernel_out.

(** [k.shape[0]] *)
Definition k_shape0 (k : kernel_out) : nat :=
  match k with
  | K3 _ _ ks => length ks
  | K4 _ _ _ ks => length ks
  end.

(** [k.shape[-2:]] *)
Definition k_shape_last2 (k : kernel_out) : nat * nat :=
  match k with
  | K3 cout cin _ => (cout, cin)
  | K4 _ cout cin _ => (cout, cin)
  end.

Definition mdiv (m : list (list R)) (c : R) : list (list R) :=
  map (fun row => vdiv row c) m.

(** [k.div_(c)] *)
Definition k_div (k : kernel_out) (c : R) : kernel_out :=
  match k with
  | K3 cout cin ks => K3 cout cin (map (fun m => mdiv m c) ks)
  | K4 g cout cin ks => K4 g cout cin (map (map (fun m => mdiv m c)) ks)
  end.

(** [torch.einsum('eij,egj->egi', k, x)]: the edge dimension broadcasts. *)
Definition einsum_eij_egj (ks : list (list (list R)))
    (x : list (list (list R))) : result (list (list (list R))) :=
  match bzip (fun K xe => map (matvec K) xe) ks x with
  | Some out => Ok out
  | None => Err EinsumError
  end.

(** [torch.einsum('egij,egj->egi', k, x)]: the edge dimension broadcasts,
    the group dimension has the same size on both sides. *)
Definition einsum_egij_egj (ks : list (list (list (list R))))
    (x : list (list (list R))) : result (list (list (list R))) :=
  match bzip (fun Kg xe => map (fun p => matvec (fst p) (snd p)) (combine Kg xe))
             ks x with
  | Some out => Ok out
  | None => Err EinsumError
  end.

(** [Convolution.message(x_j, k, groups)] *)
Definition message (x_j : tensor2) (k : kernel_out) (groups : nat)
  : result tensor2 :=
  let N := shape0 x_j in
  let '(cout, cin) := k_shape_last2 k in
  x_j' <- view x_j N groups cin ;;
  if (k_shape0 k =? 0)%nat then Ok (zeros 0 (groups * cout))
  else
    match k with
    | K4 g _ _ ks =>
        if (g =? groups)%nat then
          out <- einsum_egij_egj ks x_j' ;;
          reshape (length out) groups cout out N (groups * cout)
        else Err EinsumError
    | K3 _ _ ks =>
        out <- einsum_eij_egj ks x_j' ;;
        reshape (length out) groups cout out N (groups * cout)
    end.

(** [Convolution.forward(features, edge_index, edge_r, size, n_norm, groups)] *)
Definition forward (kern : kernel) (features : tensor2) (ei : edge_index)
    (edge_r : list (list R)) (size : option (nat * nat)) (n_norm : R)
    (groups : nat) : result tensor2 :=
  let k := kern edge_r in
  let k := k_div k (sqrt n_norm) in
  propagate ei size features (fun x_j => message x_j k groups).

End Convolution.

(* ================================================================== *)
(** * Representation lists *)

(** One block [(mul, l, p)] of a representation list. *)
Definition rs_block : Type := (nat * nat * Z)%type.

Definition block_dim (b : rs_block) : nat :=
  let '(mul, l, _) := b in (mul * (2 * l + 1))%nat.

(** [rs.dim(Rs)] *)
Definition rs_dim (Rs : list rs_block) : nat :=
  fold_right (fun b acc => (block_dim b + acc)%nat) 0%nat Rs.

(* ================================================================== *)
(** * WTPConv *)

Module WTPConv.

(** The collaborators a layer holds: the weighted tensor product
    [self.tp], the radial model [self.rm], and
    [rsh.spherical_harmonics_xyz(self.Rs_sh, . , self.normalization)]. *)
Record layer : Type := {
  tp : tensor2 -> tensor2 -> tensor2 -> result tensor2;
  rm : list R -> tensor2;
  spherical_harmonics_xyz : list (list R) -> tensor2
}.

(** [WTPConv.message(x_j, sh, w)] *)
Definition message (L : layer) (x_j sh w : tensor2) : result tensor2 :=
  tp L x_j sh w.

(** [WTPConv.forward(features, edge_index, edge_r, sh, size, n_norm)] *)
Definition forward (L : layer) (features : tensor2) (ei : edge_index)
    (edge_r : list (list R)) (sh : option tensor2)
    (size : option (nat * nat)) (n_norm : R) : result tensor2 :=
  let sh := match sh with
            | None => spherical_harmonics_xyz L edge_r
            | Some s => s
            end in
  let sh := sdiv sh (sqrt n_norm) in
  let w := rm L (map norm2 edge_r) in
  propagate ei size features (fun x_j => message L x_j sh w).

End WTPConv.

(* ================================================================== *)
(** * WTPConv2 *)

Module WTPConv2.

Record layer : Type := {
  Rs_in : list rs_block;    (* self.Rs_in  *)
  Rs_out : list rs_block;   (* self.Rs_out *)
  lin1 : tensor2 -> result tensor2;
  tp : tensor2 -> tensor2 -> tensor2 -> result tensor2;
  rm : list R -> tensor2;
  lin2 : tensor2 -> result tensor2;
  spherical_harmonics_xyz : list (list R) -> tensor2
}.

Definition message (L : layer) (x_j sh w : tensor2) : result tensor2 :=
  tp L x_j sh w.

(** [any(l_in == l and p_in == p for _, l_in, p_in in self.Rs_in)] *)
Definition any_same_lp (Rs : list rs_block) (l : nat) (p : Z) : bool :=
  existsb (fun b : rs_block =>
             let '(_, l_in, p_in) := b in (l_in =? l)%nat && (p_in =? p)%Z) Rs.

(** The 0/1 vector [has_self_interaction], one entry per output column;
    [torch.cat] of an empty list raises. *)
Definition has_self_interaction (L : layer) : result (list R) :=
  match Rs_out L with
  | [] => Err ReduceEmptyError
  | _ =>
      Ok (concat (map (fun b : rs_block =>
                         let '(mul, l, p) := b in
                         if any_same_lp (Rs_in L) l p
                         then repeat 1 (mul * (2 * l + 1))
                         else repeat 0 (mul * (2 * l + 1)))
                      (Rs_out L)))
  end.

(** [WTPConv2.forward(features, edge_index, edge_r, sh, size, n_norm)] *)
Definition forward (L : layer) (features : tensor2) (ei : edge_index)
    (edge_r : list (list R)) (sh : option tensor2)
    (size : option (nat * nat)) (n_norm : R) : result tensor2 :=
  let sh := match sh with
            | None => spherical_harmonics_xyz L edge_r
            | Some s => s
            end in
  let sh := sdiv sh (sqrt n_norm) in
  let w := rm L (map norm2 edge_r) in
  self_interation <- lin1 L features ;;
  features <- propagate ei size features (fun x_j => message L x_j sh w) ;;
  features <- lin2 L features ;;
  has <- has_self_interaction L ;;
  let coef := mk2 (length has)
                  [map (fun h => 1 + (sqrt (1 / 2) - 1) * h) has] in
  weighted <- bop2 Rmult coef features ;;
  bop2 Rplus (smul (sqrt (1 / 2)) self_interation) weighted.

End WTPConv2.

(* ================================================================== *)
(** * Bloom *)

Module Bloom.

(** [SphericalTensor(sig).find_peaks(res)]: the peaks of one signal, each
    a direction and a radius; [peaks] and [radii] are its two columns. *)
Definition peak_finder : Type := nat -> list R -> list (list R * R).

(** [keep_indices]: a boolean mask over the peaks when [percentage] is
    set, the positions of the kept peaks otherwise. *)
Inductive keep : Type :=
| Mask (m : list bool)
| Indices (ix : list nat).

(** [keep_indices.shape[0]] and [len(keep_indices)] *)
Definition keep_len (k : keep) : nat :=
  match k with
  | Mask m => length m
  | Indices ix => length ix
  end.

Fixpoint select_mask {A : Type} (l : list A) (m : list bool) : list A :=
  match l, m with
  | a :: l', true :: m' => a :: select_mask l' m'
  | _ :: l', false :: m' => select_mask l' m'
  | _, _ => []
  end.

(** [t[keep_indices]] *)
Definition select {A : Type} (d : A) (l : list A) (k : keep) : list A :=
  match k with
  | Mask m => select_mask l m
  | Indices ix => map (fun i => nth i l d) ix
  end.

(** [(radii > thr).nonzero().reshape(-1)] *)
Fixpoint nonzero_gt (radii : list R) (thr : R) (i : nat) : list nat :=
  match radii with
  | [] => []
  | r :: radii' =>
      if Rltb thr r then i :: nonzero_gt radii' thr (S i)
      else nonzero_gt radii' thr (S i)
  end.

(** [torch.max(radii)] and [sig.abs().max(0)[0]]: raise on no elements. *)
Definition tensor_max (v : list R) : result R :=
  match v with
  | [] => Err ReduceEmptyError
  | x :: v' => Ok (fold_left Rmax v' x)
  end.

(** [torch.cat(pieces, dim=0)] of 2-D tensors: the widths must agree. *)
Fixpoint cat (pieces : list tensor2) : result tensor2 :=
  match pieces with
  | [] => Err ReduceEmptyError
  | [t] => Ok t
  | t :: pieces' =>
      rest <- cat pieces' ;;
      if (t_cols t =? t_cols rest)%nat
      then Ok (mk2 (t_cols t) (t_rows t ++ t_rows rest))
      else Err BroadcastError
  end.

(** The body of the loop over [enumerate(signal)] for node [i]: the pair
    appended to [all_peaks] and [new_indices]. *)
Definition bloom_node (find_peaks : peak_finder) (res : nat) (min_radius : R)
    (percentage : bool) (absolute_min : R) (use_L1 : bool) (i : nat)
    (sig : list R) : result (tensor2 * list nat) :=
  m <- tensor_max (map Rabs sig) ;;
  let found := if Rltb 0 m then find_peaks res sig else [] in
  let peaks := map fst found in
  let radii := map snd found in
  keep_indices <-
    (if percentage then
       mx <- tensor_max radii ;;
       let thr := Rmax (min_radius * mx) absolute_min in
       Ok (Mask (map (fun r => Rltb thr r) radii))
     else Ok (Indices (nonzero_gt radii min_radius 0))) ;;
  if (keep_len keep_indices =? 0)%nat then
    if use_L1 then Ok (mk2 (length (firstn 3 (skipn 1 sig)))
                           [firstn 3 (skipn 1 sig)], [i])
    else Ok (mk2 3 [zeros1 3], [i])
  else
    Ok (mk2 3 (map2 (fun pk r => vscale r pk)
                    (select [] peaks keep_indices)
                    (select 0 radii keep_indices)),
        repeat i (keep_len keep_indices)).

Fixpoint bloom_loop (find_peaks : peak_finder) (res : nat) (min_radius : R)
    (percentage : bool) (absolute_min : R) (use_L1 : bool) (i : nat)
    (signal : list (list R)) : result (list tensor2 * list (list nat)) :=
  match signal with
  | [] => Ok ([], [])
  | sig :: signal' =>
      node <- bloom_node find_peaks res min_radius percentage absolute_min
                         use_L1 i sig ;;
      rest <- bloom_loop find_peaks res min_radius percentage absolute_min
                         use_L1 (S i) signal' ;;
      Ok (fst node :: fst rest, snd node :: snd rest)
  end.

(** [Bloom.forward(signal, pos, min_radius, percentage, absolute_min,
    use_L1)]: the bloomed positions and, for each, its node of origin. *)
Definition forward (find_peaks : peak_finder) (res : nat) (signal pos : tensor2)
    (min_radius : R) (percentage : bool) (absolute_min : R) (use_L1 : bool)
  : result (tensor2 * list nat) :=
  acc <- bloom_loop find_peaks res min_radius percentage absolute_min use_L1
                    0 (t_rows signal) ;;
  all_peaks <- cat (fst acc) ;;
  let new_indices := concat (snd acc) in
  origin <- index_select pos new_indices ;;
  out <- bop2 Rplus all_peaks origin ;;
  Ok (out, new_indices).

End Bloom.

(* ================================================================== *)
(** * KMeans *)

Module KMeans.

Record params : Type := {
  tol : R;
  max_iter : nat;
  score_norm : nat
}.

(** [torch_cluster.fps(pos, batch, ratio)]: the sampled row indices. The
    sampler starts from a random point; it is a parameter of the model. *)
Definition sampler : Type := tensor2 -> list nat -> R -> list nat.

Definition sqdist (a b : list R) : R := dot (vsub a b) (vsub a b).

(** The nearest row of [y] of batch [b] to the point [p], scanning [y]
    from index [i] on; [best] is the closest row seen so far. *)
Fixpoint nearest_from (p : list R) (b : nat) (i : nat)
    (y : list (list R * nat)) (best : option (nat * R)) : option nat :=
  match y with
  | [] => option_map fst best
  | (c, cb) :: y' =>
      if (cb =? b)%nat then
        match best with
        | None => nearest_from p b (S i) y' (Some (i, sqdist p c))
        | Some (j, dj) =>
            if Rltb (sqdist p c) dj
            then nearest_from p b (S i) y' (Some (i, sqdist p c))
            else nearest_from p b (S i) y' best
        end
      else nearest_from p b (S i) y' best
  end.

(** [torch_cluster.nearest(x, y, batch_x, batch_y)]: for every row of
    [x] the index of the closest row of [y] in the same batch. The library
    leaves a batch of [x] with no row in [y] undefined; it is an error
    here. *)
Definition nearest (x y : tensor2) (batch_x batch_y : list nat)
  : result (list nat) :=
  if negb (shape0 x =? length batch_x)%nat then Err SizeError
  else if negb (shape0 y =? length batch_y)%nat then Err SizeError
  else
    mapM (fun pb : list R * nat =>
            match nearest_from (fst pb) (snd pb) 0
                               (combine (t_rows y) batch_y) None with
            | Some c => Ok c
            | None => Err IndexError
            end)
         (combine (t_rows x) batch_x).

(** [KMeans.score(pos, batch, centroids, classification)] *)
Definition score (P : params) (pos : tensor2) (batch : list nat)
    (centroids : tensor2) (classification : list nat) : result (list R) :=
  assigned <- index_select centroids classification ;;
  diff <- bop2 Rminus pos assigned ;;
  scatter_add1 (map (pnorm (score_norm P)) (t_rows diff)) batch.

(** [KMeans.update_centroids(pos, batch, centroids, centroids_batch)] *)
Definition update_centroids (pos : tensor2) (batch : list nat)
    (centroids : tensor2) (centroids_batch : list nat)
  : result (tensor2 * list nat) :=
  let N := shape0 pos in
  let M := shape0 centroids in
  classification <- nearest pos centroids batch centroids_batch ;;
  update <- scatter_mean pos classification M ;;
  mask <- scatter_mean (mk2 1 (repeat [1] N)) classification M ;;
  kept <- bop2 Rmult update mask ;;
  let one_minus_mask := mk2 (t_cols mask)
                            (map (map (fun m => 1 - m)) (t_rows mask)) in
  old <- bop2 Rmult centroids one_minus_mask ;;
  new_centroids <- bop2 Rplus kept old ;;
  Ok (new_centroids, classification).

(** [((centroids - new_centroids).norm(2, -1) < self.tol).all()] *)
Definition converged (P : params) (centroids new_centroids : tensor2)
  : result bool :=
  diff <- bop2 Rminus centroids new_centroids ;;
  Ok (forallb (fun row => Rltb (norm2 row) (tol P)) (t_rows diff)).

(** The loop [for _ in range(self.max_iter)] with [n] iterations left;
    [last] is [classification] as the previous iteration bound it. *)
Fixpoint iterate (P : params) (n : nat) (pos : tensor2) (batch : list nat)
    (centroids : tensor2) (centroids_batch : list nat)
    (last : option (list nat)) : result (list nat * tensor2 * list nat) :=
  match n with
  | O =>
      match last with
      | Some classification => Ok (classification, centroids, centroids_batch)
      | None => Err UnboundLocalError
      end
  | S n' =>
      step <- update_centroids pos batch centroids centroids_batch ;;
      let '(new_centroids, classification) := step in
      stop <- converged P centroids new_centroids ;;
      if stop then Ok (classification, new_centroids, centroids_batch)
      else iterate P n' pos batch new_centroids centroids_batch
                   (Some classification)
  end.

(** [KMeans.forward(pos, batch, start_pos, start_batch, fps_ratio)] *)
Definition forward (P : params) (fps : sampler) (pos : tensor2)
    (batch : list nat) (start_pos : option tensor2)
    (start_batch : option (list nat)) (fps_ratio : R)
  : result (list nat * tensor2 * list nat) :=
  start <- match start_pos, start_batch with
           | None, _ => Ok (pos, batch)
           | Some sp, Some sb => Ok (sp, sb)
           | Some sp, None => Err TypeError
           end ;;
  let '(start_pos, start_batch) := start in
  let fps_indices := fps start_pos start_batch fps_ratio in
  centroids <- index_select start_pos fps_indices ;;
  centroids_batch <- index_select1 start_batch fps_indices ;;
  iterate P (max_iter P) pos batch centroids centroids_batch None.

End KMeans.

(* ================================================================== *)
(** * Sparse index products and graph components *)

Module Sparse.

(** The index of a sparse matrix in COO form: its [(row, col)] pairs. *)
Definition coo : Type := list (nat * nat).

Definition in_range (A : coo) (m n : nat) : bool :=
  forallb (fun rc : nat * nat => (fst rc <? m)%nat && (snd rc <? n)%nat) A.

Definition has_entry (A : coo) (i j : nat) : bool :=
  existsb (fun rc : nat * nat => (fst rc =? i)%nat && (snd rc =? j)%nat) A.

(** The index part of [torch_sparse.spspmm(A, ones, B, ones, m, k, n,
    coalesced=True)]: the pairs [(i, j)] with an entry [(i, l)] in [A] and
    an entry [(l, j)] in [B], each once, in row-major order. With all
    values 1 no product entry cancels. *)
Definition spspmm (A B : coo) (m k n : nat) : result coo :=
  if negb (in_range A m k && in_range B k n) then Err IndexError
  else
    Ok (filter (fun ij : nat * nat =>
                  existsb (fun l => has_entry A (fst ij) l && has_entry B l (snd ij))
                          (seq 0 k))
               (list_prod (seq 0 m) (seq 0 n))).

End Sparse.

Module Graph.

(** Joining the components of [u] and [v]: both take the smaller of the
    two component labels. *)
Definition merge (lab : list nat) (u v : nat) : list nat :=
  let a := nth u lab u in
  let b := nth v lab v in
  map (fun x => if (x =? a)%nat || (x =? b)%nat then Nat.min a b else x) lab.

(** For every node of [0..N-1] the first node of its component. *)
Definition component_labels (N : nat) (edges : list (nat * nat)) : list nat :=
  fold_left (fun lab e => merge lab (fst e) (snd e)) edges (seq 0 N).

(** [[list(G.subgraph(c).nodes) for c in nx.connected_components(G)]] for
    the graph [G] on the nodes [0..N-1], added in that order, with the
    given edges between them: the components in the order of their first
    node, each in node order. *)
Definition connected_components (N : nat) (edges : list (nat * nat))
  : list (list nat) :=
  let lab := component_labels N edges in
  map (fun r => filter (fun n => (nth n lab n =? r)%nat) (seq 0 N))
      (filter (fun r => (nth r lab r =? r)%nat) (seq 0 N)).

End Graph.

(* ================================================================== *)
(** * SymmetricKMeans *)

Module SymmetricKMeans.

Record params : Type := {
  base : KMeans.params;   (* tol, max_iter, score_norm *)
  rand_iter : nat
}.

(** [torch.cat(n * [t], dim=0)] *)
Definition cat_copies (n : nat) (t : tensor2) : result tensor2 :=
  match n with
  | O => Err ReduceEmptyError
  | _ => Ok (mk2 (t_cols t) (concat (repeat (t_rows t) n)))
  end.

(** [(batch.unsqueeze(0).repeat(n, 1) + torch.arange(n).unsqueeze(-1) *
    (batch.max() + 1)).reshape(-1)] for [n = rand_iter] *)
Definition big_batch_of (n_rand : nat) (batch : list nat) : result (list nat) :=
  B <- max_plus_1 batch ;;
  Ok (concat (map (fun r => map (fun b => (b + r * B)%nat) batch)
                  (seq 0 n_rand))).

(** [scores.min(dim=0)[0]] for [scores] of shape [[R, B]]. *)
Definition min_dim0 (scores : list (list R)) : result (list R) :=
  match scores with
  | [] => Err ReduceEmptyError
  | row :: rows => Ok (fold_left (map2 Rmin) rows row)
  end.

(** [(scores <= min_scores).nonzero()]: the pairs [(r, b)] in row-major
    order. *)
Definition nonzero_le (scores : list (list R)) (min_scores : list R)
  : list (nat * nat) :=
  concat (map (fun rrow : nat * list R =>
                 concat (map (fun bsm : nat * (R * R) =>
                                if Rleb (fst (snd bsm)) (snd (snd bsm))
                                then [(fst rrow, fst bsm)] else [])
                             (combine (seq 0 (length (snd rrow)))
                                      (combine (snd rrow) min_scores))))
              (combine (seq 0 (length scores)) scores)).

(** [classification[rows, cols]] for [classification] of shape [[R, N]]. *)
Definition index2 (classification : list (list nat)) (rn : list (nat * nat))
  : result (list nat) :=
  mapM (fun p : nat * nat =>
          match nth_error classification (fst p) with
          | Some row =>
              match nth_error row (snd p) with
              | Some c => Ok c
              | None => Err IndexError
              end
          | None => Err IndexError
          end) rn.

(** [SymmetricKMeans.cluster_edge_index_by_score(scores, classification,
    num_centroids, batch)] *)
Definition cluster_edge_index_by_score (P : params) (scores : list (list R))
    (classification : list (list nat)) (num_centroids : nat)
    (batch : list nat) : result Sparse.coo :=
  let N := length batch in
  let batch_index := combine batch (seq 0 N) in
  min_scores <- min_dim0 scores ;;
  let best_scores := nonzero_le scores min_scores in
  B <- max_plus_1 batch ;;
  let n_rand := rand_iter P in
  let C := num_centroids in
  best_classifications <- Sparse.spspmm best_scores batch_index n_rand B N ;;
  best_clusters <- index2 classification best_classifications ;;
  let cluster_index := combine best_clusters (map snd best_classifications) in
  Sparse.spspmm (map (fun cn : nat * nat => (snd cn, fst cn)) cluster_index)
                cluster_index N C N.

(** [labels[node_groups[i]] = i] for every [i], on [labels] of [N] zeros. *)
Fixpoint assign_labels (labels : list nat) (i : nat)
    (node_groups : list (list nat)) : result (list nat) :=
  match node_groups with
  | [] => Ok labels
  | g :: node_groups' =>
      if all_lt g (length labels)
      then assign_labels
             (fold_left (fun lb n => firstn n lb ++ i :: skipn (S n) lb) g labels)
             (S i) node_groups'
      else Err IndexError
  end.

(** [SymmetricKMeans.forward(pos, batch, start_pos, start_batch,
    fps_ratio)] *)
Definition forward (P : params) (fps : KMeans.sampler) (pos : tensor2)
    (batch : list nat) (start_pos : option tensor2)
    (start_batch : option (list nat)) (fps_ratio : R) : result (list nat) :=
  let N := shape0 pos in
  big_pos <- cat_copies (rand_iter P) pos ;;
  big_batch <- big_batch_of (rand_iter P) batch ;;
  big_start <-
    match start_batch with
    | Some sb =>
        match start_pos with
        | Some sp =>
            big_start_pos <- cat_copies (rand_iter P) sp ;;
            big_start_batch <- big_batch_of (rand_iter P) sb ;;
            Ok (Some big_start_pos, Some big_start_batch)
        | None => Err TypeError
        end
    | None => Ok (None, None)
    end ;;
  km <- KMeans.forward (base P) fps big_pos big_batch (fst big_start)
                       (snd big_start) fps_ratio ;;
  let '(classification, centroids, _) := km in
  scores <- KMeans.score (base P) big_pos big_batch centroids classification ;;
  scores <- reshape_rows (rand_iter P) scores ;;
  classification <- reshape_rows (rand_iter P) classification ;;
  let num_centroids := shape0 centroids in
  cluster_edge_index <- cluster_edge_index_by_score P scores classification
                                                    num_centroids batch ;;
  let edges := filter (fun ij : nat * nat => (fst ij <=? snd ij)%nat)
                      cluster_edge_index in
  let node_groups := Graph.connected_components N edges in
  assign_labels (repeat 0%nat N) 0 node_groups.

End SymmetricKMeans.

(* ================================================================== *)
(** * Pooling *)

Module Pooling.

(** The modules a pooling layer holds: the bloom convolution
    [layers['conv']], the [Bloom] module (its peak finder and resolution)
    and the [SymmetricKMeans] cluster module with its sampler. *)
Record layer : Type := {
  Rs_bloom : list rs_block;
  conv : tensor2 -> edge_index -> list (list R) -> R -> result tensor2;
  find_peaks : Bloom.peak_finder;
  res : nat;
  cluster : SymmetricKMeans.params;
  fps : KMeans.sampler
}.

(** [out[..., :d]] and [out[..., d:]] *)
Definition cols_to (d : nat) (t : tensor2) : tensor2 :=
  mk2 (Nat.min d (t_cols t)) (map (firstn d) (t_rows t)).
Definition cols_from (d : nat) (t : tensor2) : tensor2 :=
  mk2 (t_cols t - d) (map (skipn d) (t_rows t)).

(** What [Pooling.forward] knows once the clusters are made. *)
Record clustering : Type := {
  features : tensor2;         (* x = out[..., dim(Rs_bloom):]            *)
  bloom_pos : tensor2;
  bloom_batch : list nat;     (* bloomed point -> original node           *)
  clusters : list nat;        (* bloomed point -> output cluster          *)
  n_clusters : nat            (* C = int(max(clusters)) + 1               *)
}.

(** [Pooling.forward(x, pos, edge_index, edge_attr, min_radius, batch,
    n_norm)] from its first line to the cluster assignment: the bloom
    convolution, the split of its output, [Bloom], the cluster module on
    the bloomed points seeded with the original positions, and [C]. The
    gather convolution and the new edges are built from this record. *)
Definition forward_clusters (L : layer) (x pos : tensor2) (ei : edge_index)
    (edge_attr : list (list R)) (min_radius : R) (batch : option (list nat))
    (n_norm : R) : result clustering :=
  out <- conv L x ei edge_attr n_norm ;;
  let sph := cols_to (rs_dim (Rs_bloom L)) out in
  let x := cols_from (rs_dim (Rs_bloom L)) out in
  bloomed <- Bloom.forward (find_peaks L) (res L) sph pos min_radius false
                           (1 / 100) true ;;
  let '(bloom_pos, bloom_batch) := bloomed in
  match batch with
  | None => Err TypeError
  | Some batch =>
      point_batch <- index_select1 batch bloom_batch ;;
      clusters <- SymmetricKMeans.forward (cluster L) (fps L) bloom_pos
                    point_batch (Some pos) (Some batch) (5 / 10) ;;
      C <- max_plus_1 clusters ;;
      Ok {| features := x; bloom_pos := bloom_pos; bloom_batch := bloom_batch;
            clusters := clusters; n_clusters := C |}
  end.

End Pooling.

(* ================================================================== *)
(** * The pooled graph: new edges and new batch *)

(** [torch.stack([a, b], dim=0)] of two 1-D index tensors, held by its
    columns: the two must have the same length. *)
Definition stack2 (a b : list nat) : result (list (nat * nat)) :=
  if (length a =? length b)%nat then Ok (combine a b) else Err SizeError.

(** [get_new_edge_index(N, edge_index, bloom_batch, cluster)] *)
Definition get_new_edge_index (N : nat) (ei : edge_index)
    (bloom_batch cluster : list nat) : result Sparse.coo :=
  let B := length bloom_batch in
  C <- max_plus_1 cluster ;;
  bloom_index <- stack2 bloom_batch (seq 0 B) ;;
  cluster_index <- stack2 (seq 0 B) cluster ;;
  convert_edge_index <- Sparse.spspmm ei bloom_index N N B ;;
  convert_edge_index <- Sparse.spspmm convert_edge_index cluster_index N B C ;;
  Sparse.spspmm (map (fun rc : nat * nat => (snd rc, fst rc)) convert_edge_index)
                convert_edge_index C N C.

(** [get_new_batch(gather_edge_index, batch)]. The values handed to the
    product for [gather_edge_index] are [batch.new_ones(N)]: an index of
    another length than [batch] is refused. *)
Definition get_new_batch (gather_edge_index : Sparse.coo) (batch : list nat)
  : result (list nat) :=
  C <- max_plus_1 (map fst gather_edge_index) ;;
  let N := length batch in
  B <- max_plus_1 batch ;;
  batch_index <- stack2 (seq 0 N) batch ;;
  if negb (length gather_edge_index =? N)%nat then Err SizeError
  else
    new_batch_index <- Sparse.spspmm gather_edge_index batch_index C N B ;;
    Ok (map snd new_batch_index).

(* ================================================================== *)
(** * Unpooling *)

Module Unpooling.

(** [self.Rs_bloom = [(1, L, (-1)**L) for L in range(bloom_lmax + 1)]],
    as [Pooling.__init__] and [Unpooling.__init__] both build it. *)
Definition Rs_bloom (bloom_lmax : nat) : list rs_block :=
  map (fun L => (1%nat, L, ((-1) ^ Z.of_nat L)%Z)) (seq 0 (bloom_lmax + 1)).

(** [self.Rs_inter = self.Rs_bloom + Rs_out] *)
Definition Rs_inter (bloom_lmax : nat) (Rs_out : list rs_block) : list rs_block :=
  Rs_bloom bloom_lmax ++ Rs_out.

(** [torch_cluster.radius_graph(pos, r, batch=batch, loop=False)]: the
    pairs of points of one example that lie within [r] of each other, up
    to a cap on the neighbours of a point; a parameter of the model. *)
Definition radius_graph : Type := tensor2 -> R -> list nat -> edge_index.

(** [Unpooling.merge_clusters(pos, r, batch)]: a [[2, N_old]] index
    tensor, held by its columns [(group, node)]. An edge [(u, v)] with
    [v > u] is skipped; the groups are the connected components of what
    is left, and [torch.cat] of no group raises. *)
Definition merge_clusters (rg : radius_graph) (pos : tensor2) (r : R)
    (batch : list nat) : result (list (nat * nat)) :=
  let ei := rg pos r batch in
  let kept := filter (fun uv : nat * nat => negb (fst uv <? snd uv)%nat) ei in
  let node_groups := Graph.connected_components (shape0 pos) kept in
  let pos_map := map (fun ig : nat * list nat =>
                        combine (repeat (fst ig) (length (snd ig))) (snd ig))
                     (combine (seq 0 (length node_groups)) node_groups) in
  match pos_map with
  | [] => Err ReduceEmptyError
  | _ => Ok (concat pos_map)
  end.

End Unpooling.

(* ================================================================== *)
(** * Vocabulary of the statements *)

(** The entry [t[i, j]] *)
Definition entry (t : tensor2) (i j : nat) : R := nth j (nth i (t_rows t) []) 0.

(** The index a broadcast dimension of size [len] is read at. *)
Definition bidx (len i : nat) : nat := if (len =? 1)%nat then 0%nat else i.

Definition rmap {A B : Type} (f : A -> B) (m : result A) : result B :=
  match m with
  | Ok a => Ok (f a)
  | Err e => Err e
  end.

(** [torch.allclose]-style closeness: every entry within [tol]. *)
Definition allclose (tol : R) (a b : tensor2) : Prop :=
  t_cols a = t_cols b /\
  Forall2 (Forall2 (fun x y => Rabs (x - y) < tol)) (t_rows a) (t_rows b).

(** The row count of a convolution's output and the check on [size[0]]. *)
Definition n_source_of (size : option (nat * nat)) (features : tensor2) : nat :=
  match size with
  | Some (_, n_source) => n_source
  | None => shape0 features
  end.

Definition size_ok (size : option (nat * nat)) (features : tensor2) : bool :=
  match size with
  | Some (n_target, _) => (n_target =? shape0 features)%nat
  | None => true
  end.

(** The message of one edge: the kernel of its geometry, scaled, applied
    to the feature row of its target. *)
Definition edge_message (K : list R -> list (list R)) (c : R)
    (features : tensor2) (r : list R) (e : nat * nat) : list R :=
  matvec (Convolution.mdiv (K r) c) (nth (snd e) (t_rows features) []).

(** The rows a convolution with an ungrouped kernel returns: row [s] sums
    the messages of the edges whose source is [s]. *)
Definition conv_rows (K : list R -> list (list R)) (cout : nat) (c : R)
    (features : tensor2) (ei : edge_index) (edge_r : list (list R))
    (n_source : nat) : list (list R) :=
  map (fun s => sum_rows_at cout s
                  (map2 (edge_message K c features) edge_r ei) (sources ei))
      (seq 0 n_source).

(** Equivariance as the specification writes it: the output on rotated
    inputs is the output on the original inputs times [D_out]. The kernel
    acts edge by edge and intertwines the two representations, and
    [D_out] is orthogonal. *)
Definition equivariance_as_stated : Prop :=
  forall (K : list R -> list (list R)) (cout cin : nat)
         (kern : Convolution.kernel) (D_in D_out Rm : list (list R)),
    (forall edge_r, kern edge_r = Convolution.K3 cout cin (map K edge_r)) ->
    (forall r, length (K r) = cout) ->
    length D_in = cin ->
    Forall (fun row => length row = cout) D_out ->
    (forall r x, length r = 3%nat -> length x = cin ->
       matvec (K (matvec Rm r)) (matvec D_in x) = matvec D_out (matvec (K r) x)) ->
    (forall y, length y = cout -> vecmat cout (matvec D_out y) D_out = y) ->
    forall (features : tensor2) (ei : edge_index) (edge_r : list (list R))
           (size : option (nat * nat)) (n_norm : R) (out_rot out : tensor2),
      wf2 features -> t_cols features = cin -> length edge_r = length ei ->
      Forall (fun r => length r = 3%nat) edge_r ->
      Convolution.forward kern (matmul_T features D_in) ei
        (map (matvec Rm) edge_r) size n_norm 1 = Ok out_rot ->
      Convolution.forward kern features ei edge_r size n_norm 1 = Ok out ->
      allclose (1 / 10 ^ 10) out_rot (matmul out cout D_out).

(** Fail-fast validation as the specification writes it: a mismatch
    between the attribute count and the edge count, or between the
    feature width and the kernel's input width, makes [forward] raise. *)
Definition fails_fast_as_stated : Prop :=
  forall (kern : Convolution.kernel) (features : tensor2) (ei : edge_index)
         (edge_r : list (list R)) (size : option (nat * nat)) (n_norm : R)
         (groups : nat),
    length edge_r <> length ei \/
    t_cols features <>
      (groups * snd (Convolution.k_shape_last2 (kern edge_r)))%nat ->
    exists e, Convolution.forward kern features ei edge_r size n_norm groups
              = Err e.

(** The column at which block [b] of a representation list starts. *)
Definition block_offset (Rs : list rs_block) (b : nat) : nat :=
  rs_dim (firstn b Rs).

(** The indicator entries of one output block. *)
Definition block_vec (Rs_in : list rs_block) (b : rs_block) : list R :=
  let '(mul, l, p) := b in
  if WTPConv2.any_same_lp Rs_in l p then repeat 1 (mul * (2 * l + 1))
  else repeat 0 (mul * (2 * l + 1)).

(** The rows of a mean: the sum at each index over its clamped count. *)
Definition mean_rows (src : tensor2) (index : list nat) (dim_size : nat)
  : list (list R) :=
  map (fun s => vdiv (sum_rows_at (t_cols src) s (t_rows src) index)
                     (Rmax (INR (count_occ Nat.eq_dec index s)) 1))
      (seq 0 dim_size).

(** The mean of the points assigned to centroid [c], by column. *)
Definition assigned_mean (pos : tensor2) (classification : list nat)
    (c j : nat) : R :=
  nth j (sum_rows_at (t_cols pos) c (t_rows pos) classification) 0 /
  INR (count_occ Nat.eq_dec classification c).

(** The Euclidean distance of two rows. *)
Definition distance (a b : list R) : R := norm2 (vsub a b).

(** Stability as the specification writes it: once an update moves every
    centroid by less than [tol], the next update assigns the points as
    this one did. *)
Definition stable_below_tol_as_stated : Prop :=
  forall (P : KMeans.params) (pos centroids : tensor2)
         (batch centroids_batch : list nat)
         (new_centroids newer_centroids : tensor2)
         (classification classification' : list nat),
    wf2 pos -> wf2 centroids -> t_cols pos = t_cols centroids ->
    KMeans.update_centroids pos batch centroids centroids_batch =
      Ok (new_centroids, classification) ->
    KMeans.converged P centroids new_centroids = Ok true ->
    KMeans.update_centroids pos batch new_centroids centroids_batch =
      Ok (newer_centroids, classification') ->
    classification' = classification.

(** An assignment of the points of [pos] to centroids of their batch. *)
Definition batch_respecting (pos : tensor2) (batch centroids_batch cl : list nat)
  : Prop :=
  length cl = shape0 pos /\ length batch = shape0 pos /\
  forall i, (i < shape0 pos)%nat ->
    nth (nth i cl 0%nat) centroids_batch 0%nat = nth i batch 0%nat.

(** The label of node [n], a node outside the list being its own. *)
Definition lab_at (lab : list nat) (n : nat) : nat := nth n lab n.

(** What a component labelling of [N] nodes keeps true while edges are
    merged in: labels are nodes, the label of a label is itself, and a
    node shares the [key] (its batch, say) of its label. *)
Definition labelling (N : nat) (key : nat -> nat) (lab : list nat) : Prop :=
  length lab = N /\
  (forall n, (n < N)%nat ->
     (lab_at lab n < N)%nat /\ lab_at lab (lab_at lab n) = lab_at lab n /\
     key (lab_at lab n) = key n).

(** Two nodes joined by a chain of edges, in either direction. *)
Definition connected (edges : list (nat * nat)) : nat -> nat -> Prop :=
  clos_refl_sym_trans nat (fun u v => In (u, v) edges).

(** The sum of a 1-D float tensor. *)
Definition Rsum (l : list R) : R := fold_right Rplus 0 l.

(** [a * x + y] for two tensors of one shape. *)
Definition axpy (a : R) (x y : tensor2) : tensor2 :=
  mk2 (t_cols x) (map2 (fun r s => vadd (vscale a r) s) (t_rows x) (t_rows y)).

(** [t[:, q*w : (q+1)*w]]: the columns of group [q], every group [w] wide. *)
Definition group_cols (q w : nat) (t : tensor2) : tensor2 :=
  mk2 w (map (fun row => firstn w (skipn (q * w) row)) (t_rows t)).

(* ================================================================== *)
(** * Inputs the statements are checked on *)

(** [Kernel([0], [0], ConstantRadialModel)] with its weight set to 1: the
    identity on scalars, whatever the edge. *)
Definition identity_scalar_kernel : Convolution.kernel :=
  fun edge_r => Convolution.K3 1 1 (map (fun _ => [[1]]) edge_r).

(** The star graph of [test_flow]: a centre and four leaves. *)
Definition star_features : tensor2 := mk2 1 [[-1]; [1]; [1]; [1]; [1]].
Definition star_edges : edge_index := [(0, 1); (0, 2); (0, 3); (0, 4)]%nat.
Definition star_edges_reversed : edge_index :=
  [(1, 0); (2, 0); (3, 0); (4, 0)]%nat.
Definition ones_4_3 : list (list R) := repeat [1; 1; 1] 4.

(** The kernel of a scalar input and a vector output: [K(r)] is the
    column [r]. *)
Definition vector_K (r : list R) : list (list R) :=
  [[nth 0 r 0]; [nth 1 r 0]; [nth 2 r 0]].
Definition vector_kernel : Convolution.kernel :=
  fun edge_r => Convolution.K3 3 1 (map vector_K edge_r).

(** The rotation by a quarter turn about the third axis. *)
Definition quarter_turn : list (list R) := [[0; -1; 0]; [1; 0; 0]; [0; 0; 1]].

(** A layer from scalars to a scalar and a vector: only the scalar
    output block has an input block of its own [(l, p)]. *)
Definition mixed_layer : WTPConv2.layer :=
  {| WTPConv2.Rs_in := [(1, 0, 1%Z)]%nat;
     WTPConv2.Rs_out := [(1, 0, 1%Z); (1, 1, (-1)%Z)]%nat;
     WTPConv2.lin1 :=
       fun t => Ok (mk2 4 (map (fun _ => [1; 2; 3; 4]) (t_rows t)));
     WTPConv2.tp :=
       fun x_j _ _ => Ok (mk2 4 (map (fun _ => [1; 1; 1; 1]) (t_rows x_j)));
     WTPConv2.rm := fun norms => mk2 1 (map (fun n => [n]) norms);
     WTPConv2.lin2 := fun t => Ok t;
     WTPConv2.spherical_harmonics_xyz := fun edge_r => mk2 3 edge_r |}.

(** A [WTPConv2] layer whose tensor product hands back [sh], whose first
    linear map is zero and whose second is the identity. *)
Definition echo_layer : WTPConv2.layer :=
  {| WTPConv2.Rs_in := [(1, 1, 1%Z)]%nat;
     WTPConv2.Rs_out := [(1, 0, 1%Z)]%nat;
     WTPConv2.lin1 := fun x => Ok (mk2 1 (map (fun _ => [0]) (t_rows x)));
     WTPConv2.tp := fun _ sh _ => Ok sh;
     WTPConv2.rm := fun r => mk2 1 (map (fun x => [x]) r);
     WTPConv2.lin2 := fun x => Ok x;
     WTPConv2.spherical_harmonics_xyz := fun edge_r => mk2 3 edge_r |}.

(** [KMeans()] with its default arguments. *)
Definition default_params : KMeans.params :=
  {| KMeans.tol := 1 / 1000; KMeans.max_iter := 300; KMeans.score_norm := 1 |}.

(** Three points on a line and two centroids, the middle point just left
    of the midpoint of the centroids; [line_moved] is the centroids after
    one update. Every coordinate is a binary fraction. *)
Definition line_pos : tensor2 :=
  mk2 3 [[- (65543 / 8192); 0; 0]; [65535 / 8192; 0; 0]; [16; 0; 0]].
Definition line_centroids : tensor2 := mk2 3 [[0; 0; 0]; [16; 0; 0]].
Definition line_moved : tensor2 := mk2 3 [[- (1 / 2048); 0; 0]; [16; 0; 0]].

(** One point of batch 0, one centroid of batch 0 and one of batch 1,
    which no point can reach. *)
Definition lone_pos : tensor2 := mk2 3 [[1; 2; 3]].
Definition two_centroids : tensor2 := mk2 3 [[0; 0; 0]; [5; 5; 5]].

(** Two nodes, one per example, whose bloom signal is zero. *)
Definition pair_pos : tensor2 := mk2 3 [[0; 0; 0]; [1; 0; 0]].

Definition pair_layer : Pooling.layer :=
  {| Pooling.Rs_bloom := [(1, 0, 1%Z); (1, 1, (-1)%Z)]%nat;
     Pooling.conv := fun _ _ _ _ => Ok (mk2 4 [[0; 0; 0; 0]; [0; 0; 0; 0]]);
     Pooling.find_peaks := fun _ _ => [];
     Pooling.res := 200;
     Pooling.cluster := {| SymmetricKMeans.base := default_params;
                           SymmetricKMeans.rand_iter := 1 |};
     Pooling.fps := fun _ _ _ => [0; 1]%nat |}.

(** A radius graph that joins the first two points, in both directions. *)
Definition close_pair_graph : Unpooling.radius_graph :=
  fun _ _ _ => [(1, 0); (0, 1)]%nat.

(** [KMeans(max_iter=0)] and [KMeans(tol=0)]. *)
Definition no_rounds : KMeans.params :=
  {| KMeans.tol := 1 / 1000; KMeans.max_iter := 0; KMeans.score_norm := 1 |}.
Definition exact_params : KMeans.params :=
  {| KMeans.tol := 0; KMeans.max_iter := 300; KMeans.score_norm := 1 |}.

(** A kernel with a group dimension of size 2: the identity on scalars
    in both groups. *)
Definition two_group_kernel : Convolution.kernel :=
  fun edge_r => Convolution.K4 2 1 1 (map (fun _ => [[[1]]; [[1]]]) edge_r).

(** A layer whose tensor product hands the gathered features on. *)
Definition copy_layer : WTPConv.layer :=
  {| WTPConv.tp := fun x_j _ _ => Ok x_j;
     WTPConv.rm := fun norms => mk2 1 (map (fun n => [n]) norms);
     WTPConv.spherical_harmonics_xyz := fun edge_r => mk2 3 edge_r |}.

(** A layer with an empty output representation. *)
Definition no_output_layer : WTPConv2.layer :=
  {| WTPConv2.Rs_in := [(1, 0, 1%Z)]%nat;
     WTPConv2.Rs_out := [];
     WTPConv2.lin1 := fun t => Ok (mk2 0 (map (fun _ => []) (t_rows t)));
     WTPConv2.tp := fun x_j _ _ => Ok (mk2 0 (map (fun _ => []) (t_rows x_j)));
     WTPConv2.rm := fun norms => mk2 1 (map (fun n => [n]) norms);
     WTPConv2.lin2 := fun t => Ok t;
     WTPConv2.spherical_harmonics_xyz := fun edge_r => mk2 3 edge_r |}.

(** A peak finder that finds one peak of radius 1 along the third axis. *)
Definition one_peak : Bloom.peak_finder := fun _ _ => [([0; 0; 1], 1)].

(* ================================================================== *)
(** * Proof tools *)

(** Splits an equation between concrete tensors into its entries. *)
Tactic Notation "entrywise" tactic(tac) :=
  repeat match goal with
         | |- Ok _ = Ok _ => apply f_equal
         | |- mk2 _ _ = mk2 _ _ => apply f_equal2
         | |- _ :: _ = _ :: _ => apply f_equal2
         | |- (_, _) = (_, _) => apply f_equal2
         end;
  try reflexivity; tac.

(* ================================================================== *)
(** * Facts on rows and matrices *)

Section RowFacts.

Lemma zeros1_length (d : nat) : length (zeros1 d) = d.
Proof. apply repeat_length. Qed.

Lemma vadd_length (a b : list R) :
  length a = length b -> length (vadd a b) = length a.
Proof.
  revert b; induction a as [|x a IH]; intros [|y b] H; simpl in *; try lia.
  rewrite IH; lia.
Qed.

Lemma vscale_length (c : R) (a : list R) : length (vscale c a) = length a.
Proof. apply length_map. Qed.

Lemma matvec_length (K : list (list R)) (x : list R) :
  length (matvec K x) = length K.
Proof. apply length_map. Qed.

Lemma vadd_zeros_r (a : list R) : vadd a (zeros1 (length a)) = a.
Proof.
  unfold zeros1. induction a as [|x a IH]; simpl; [reflexivity|].
  rewrite IH. f_equal. lra.
Qed.

Lemma vadd_zeros_zeros (d : nat) : vadd (zeros1 d) (zeros1 d) = zeros1 d.
Proof.
  unfold zeros1. induction d as [|d IH]; simpl; [reflexivity|].
  rewrite IH. f_equal. lra.
Qed.

Lemma vscale_zero (row : list R) : vscale 0 row = zeros1 (length row).
Proof.
  unfold vscale, zeros1. induction row as [|x row IH]; simpl; [reflexivity|].
  rewrite IH. f_equal. lra.
Qed.

Lemma vscale_vadd (c : R) (a b : list R) :
  vscale c (vadd a b) = vadd (vscale c a) (vscale c b).
Proof.
  revert b; induction a as [|x a IH]; intros [|y b]; simpl; try reflexivity.
  rewrite <- IH. f_equal. lra.
Qed.

Lemma vscale_plus (c1 c2 : R) (a : list R) :
  vscale (c1 + c2) a = vadd (vscale c1 a) (vscale c2 a).
Proof.
  unfold vscale. induction a as [|x a IH]; simpl; [reflexivity|].
  rewrite IH. f_equal. lra.
Qed.

(** Sums of four rows regroup. *)
Lemma vadd_interchange (a b c e : list R) :
  vadd (vadd a b) (vadd c e) = vadd (vadd a c) (vadd b e).
Proof.
  revert b c e; induction a as [|x a IH]; intros [|y b] [|z c] [|w e];
    simpl; try reflexivity.
  rewrite IH. f_equal. lra.
Qed.

Lemma vecmat_length (d : nat) (x : list R) (D : list (list R)) :
  Forall (fun row => length row = d) D -> length (vecmat d x D) = d.
Proof.
  intros HD. revert x. induction HD as [|row D Hrow HD IH]; intros [|xi x]; simpl;
    try apply zeros1_length.
  rewrite vadd_length; rewrite vscale_length; [assumption|].
  rewrite IH. assumption.
Qed.

Lemma vecmat_zeros (d n : nat) (D : list (list R)) :
  Forall (fun row => length row = d) D -> vecmat d (zeros1 n) D = zeros1 d.
Proof.
  intros HD. revert n. induction HD as [|row D Hrow HD IH]; intros [|n]; simpl;
    try reflexivity.
  fold (zeros1 n). rewrite IH, vscale_zero, Hrow. apply vadd_zeros_zeros.
Qed.

Lemma vecmat_vadd (d : nat) (a b : list R) (D : list (list R)) :
  Forall (fun row => length row = d) D -> length a = length b ->
  vecmat d (vadd a b) D = vadd (vecmat d a D) (vecmat d b D).
Proof.
  intros HD. revert a b.
  induction HD as [|row D Hrow HD IH]; intros [|x a] [|y b] Hlen; simpl in *;
    try lia; try (symmetry; apply vadd_zeros_zeros).
  rewrite IH by lia. rewrite vscale_plus. apply vadd_interchange.
Qed.

Lemma dot_vdiv_l (a x : list R) (c : R) : dot (vdiv a c) x = dot a x / c.
Proof.
  unfold vdiv. revert x; induction a as [|y a IH]; intros [|z x]; simpl;
    try (unfold Rdiv; lra).
  rewrite IH. unfold Rdiv. lra.
Qed.

Lemma dot_vdiv_r (a x : list R) (c : R) : dot a (vdiv x c) = dot a x / c.
Proof.
  unfold vdiv. revert x; induction a as [|y a IH]; intros [|z x]; simpl;
    try (unfold Rdiv; lra).
  rewrite IH. unfold Rdiv. lra.
Qed.

(** Dividing the matrix divides the product. *)
Lemma matvec_mdiv (K : list (list R)) (x : list R) (c : R) :
  matvec (map (fun row => vdiv row c) K) x = vdiv (matvec K x) c.
Proof.
  unfold matvec, vdiv. rewrite !map_map. apply map_ext. intros row.
  apply dot_vdiv_l.
Qed.

Lemma matvec_vdiv (D : list (list R)) (y : list R) (c : R) :
  matvec D (vdiv y c) = vdiv (matvec D y) c.
Proof.
  unfold matvec. unfold vdiv at 2. rewrite map_map. apply map_ext. intros row.
  apply dot_vdiv_r.
Qed.

Lemma sum_rows_at_length (d s : nat) (src : list (list R)) (index : list nat) :
  Forall (fun row => length row = d) src ->
  length (sum_rows_at d s src index) = d.
Proof.
  intros H. revert index. induction H as [|row src Hrow H IH]; intros [|i index];
    simpl; try apply zeros1_length.
  destruct (i =? s)%nat; [|apply IH].
  rewrite vadd_length; [exact Hrow|]. rewrite IH. exact Hrow.
Qed.

Lemma vdiv_one (row : list R) : vdiv row 1 = row.
Proof.
  unfold vdiv. rewrite <- (map_id row) at 2. apply map_ext. intros x. field.
Qed.

Lemma dot_self_nonneg (v : list R) : 0 <= dot v v.
Proof.
  induction v as [|x v IH]; simpl; [lra|]. pose proof (Rle_0_sqr x) as Hx.
  unfold Rsqr in Hx. lra.
Qed.

Lemma dot_self_zero (v : list R) (j : nat) : dot v v = 0 -> nth j v 0 = 0.
Proof.
  revert j. induction v as [|x v IH]; intros j H; simpl in *.
  - destruct j; reflexivity.
  - pose proof (dot_self_nonneg v) as Hv. pose proof (Rle_0_sqr x) as Hx.
    unfold Rsqr in Hx.
    destruct j as [|j]; [nra|]. apply IH. nra.
Qed.

Lemma norm2_zero (v : list R) (j : nat) : norm2 v = 0 -> nth j v 0 = 0.
Proof.
  unfold norm2. intros H. apply dot_self_zero.
  apply sqrt_eq_0; [apply dot_self_nonneg | exact H].
Qed.

Lemma sqrt_below (x t : R) : 0 <= x -> 0 < t -> x < t * t -> sqrt x < t.
Proof.
  intros Hx Ht Hlt. rewrite <- (sqrt_square t) by lra.
  apply sqrt_lt_1_alt. lra.
Qed.

End RowFacts.

(* ================================================================== *)
(** * Facts on lists, indices and broadcasting *)

Section ListFacts.

Lemma all_lt_spec (idx : list nat) (n : nat) :
  all_lt idx n = true <-> Forall (fun i => (i < n)%nat) idx.
Proof.
  induction idx as [|i idx IH]; simpl.
  - split; [constructor | reflexivity].
  - rewrite andb_true_iff, IH, Nat.ltb_lt. split.
    + intros [H1 H2]. constructor; assumption.
    + intros H. inversion H; subst. split; assumption.
Qed.

Lemma expand_same {A : Type} (l : list A) : expand (length l) l = l.
Proof. destruct l as [|x [|y l]]; reflexivity. Qed.

Lemma bdim_same (n : nat) : bdim n n = Some n.
Proof. unfold bdim. rewrite Nat.eqb_refl. reflexivity. Qed.

Lemma bzip_same {A B C : Type} (f : A -> B -> C) (xs : list A) (ys : list B) :
  length xs = length ys -> bzip f xs ys = Some (map2 f xs ys).
Proof.
  intros H. unfold bzip. rewrite H, bdim_same.
  rewrite expand_same. rewrite <- H, expand_same. reflexivity.
Qed.

Lemma map2_length {A B C : Type} (f : A -> B -> C) (xs : list A) (ys : list B) :
  length xs = length ys -> length (map2 f xs ys) = length xs.
Proof.
  intros H. unfold map2. rewrite length_map, length_combine. lia.
Qed.

Lemma map2_map_l {A A' B C : Type} (f : A' -> B -> C) (g : A -> A')
    (xs : list A) (ys : list B) :
  map2 f (map g xs) ys = map2 (fun x y => f (g x) y) xs ys.
Proof.
  unfold map2. revert ys. induction xs as [|x xs IH]; intros [|y ys]; simpl;
    try reflexivity.
  f_equal. apply IH.
Qed.

Lemma map2_map_r {A B B' C : Type} (f : A -> B' -> C) (g : B -> B')
    (xs : list A) (ys : list B) :
  map2 f xs (map g ys) = map2 (fun x y => f x (g y)) xs ys.
Proof.
  unfold map2. revert ys. induction xs as [|x xs IH]; intros [|y ys]; simpl;
    try reflexivity.
  f_equal. apply IH.
Qed.

Lemma map_map2 {A B C D : Type} (g : C -> D) (f : A -> B -> C)
    (xs : list A) (ys : list B) :
  map g (map2 f xs ys) = map2 (fun x y => g (f x y)) xs ys.
Proof. unfold map2. rewrite map_map. reflexivity. Qed.

Lemma map2_ext_in {A B C : Type} (f g : A -> B -> C) (xs : list A) (ys : list B) :
  (forall x y, In x xs -> In y ys -> f x y = g x y) ->
  map2 f xs ys = map2 g xs ys.
Proof.
  unfold map2. intros H. apply map_ext_in. intros [x y] Hin. simpl.
  apply H; [eapply in_combine_l | eapply in_combine_r]; eassumption.
Qed.

Lemma map_const_seq {A : Type} (a : A) (start n : nat) :
  map (fun _ => a) (seq start n) = repeat a n.
Proof.
  revert start; induction n as [|n IH]; intros start; simpl; [reflexivity|].
  f_equal. apply IH.
Qed.

Lemma expand_length {A : Type} (n : nat) (l : list A) :
  length l = n \/ length l = 1%nat -> length (expand n l) = n.
Proof.
  intros [H|H].
  - rewrite <- H. rewrite expand_same. reflexivity.
  - destruct l as [|x [|y l]]; try discriminate. simpl. apply repeat_length.
Qed.

Lemma map2_length_min {A B C : Type} (f : A -> B -> C) (xs : list A) (ys : list B) :
  length (map2 f xs ys) = Nat.min (length xs) (length ys).
Proof. unfold map2. rewrite length_map. apply length_combine. Qed.

Lemma bzip_length {A B C : Type} (f : A -> B -> C) (xs : list A) (ys : list B)
    (out : list C) :
  bzip f xs ys = Some out ->
  bdim (length xs) (length ys) = Some (length out).
Proof.
  unfold bzip. destruct (bdim (length xs) (length ys)) as [n|] eqn:Hb;
    [|discriminate].
  intros Hout. injection Hout as <-. f_equal. symmetry.
  rewrite map2_length_min. unfold bdim in Hb.
  destruct (length xs =? length ys)%nat eqn:E1.
  - apply Nat.eqb_eq in E1. injection Hb as <-.
    rewrite !expand_length by auto. lia.
  - destruct (length xs =? 1)%nat eqn:E2.
    + apply Nat.eqb_eq in E2. injection Hb as <-.
      rewrite !expand_length by auto. lia.
    + destruct (length ys =? 1)%nat eqn:E3; [|discriminate].
      apply Nat.eqb_eq in E3. injection Hb as <-.
      rewrite !expand_length by auto. lia.
Qed.

Lemma bdim_mismatch (a b n : nat) :
  a <> b -> a <> 1%nat -> bdim a b = Some n -> b = 1%nat /\ n = a.
Proof.
  intros Hab Ha. unfold bdim.
  destruct (a =? b)%nat eqn:E1; [apply Nat.eqb_eq in E1; contradiction|].
  destruct (a =? 1)%nat eqn:E2; [apply Nat.eqb_eq in E2; contradiction|].
  destruct (b =? 1)%nat eqn:E3; [|discriminate].
  apply Nat.eqb_eq in E3. intros H. injection H as <-. auto.
Qed.

Lemma nth_map2 {A B C : Type} (f : A -> B -> C) (xs : list A) (ys : list B)
    (i : nat) (da : A) (db : B) (dc : C) :
  (i < length xs)%nat -> (i < length ys)%nat ->
  nth i (map2 f xs ys) dc = f (nth i xs da) (nth i ys db).
Proof.
  unfold map2. revert ys i.
  induction xs as [|x xs IH]; intros [|y ys] [|i] Hx Hy; simpl in *; try lia.
  - reflexivity.
  - apply IH; lia.
Qed.

Lemma nth_repeat_lt {A : Type} (a d : A) (n i : nat) :
  (i < n)%nat -> nth i (repeat a n) d = a.
Proof.
  revert i; induction n as [|n IH]; intros [|i] H; simpl; try lia; auto.
  apply IH. lia.
Qed.

Lemma bdim_inv (a b n : nat) :
  bdim a b = Some n -> (a = n \/ a = 1%nat) /\ (b = n \/ b = 1%nat).
Proof.
  unfold bdim. destruct (a =? b)%nat eqn:E1.
  - apply Nat.eqb_eq in E1. intros H; injection H as <-. auto.
  - destruct (a =? 1)%nat eqn:E2.
    + apply Nat.eqb_eq in E2. intros H; injection H as <-. auto.
    + destruct (b =? 1)%nat eqn:E3; [|discriminate].
      apply Nat.eqb_eq in E3. intros H; injection H as <-. auto.
Qed.

Lemma bdim_one_l (n : nat) : bdim 1 n = Some n.
Proof.
  unfold bdim. destruct (1 =? n)%nat eqn:E.
  - apply Nat.eqb_eq in E. subst. reflexivity.
  - reflexivity.
Qed.

Lemma bdim_one_r (n : nat) : bdim n 1 = Some n.
Proof.
  unfold bdim. destruct (n =? 1)%nat eqn:E.
  - reflexivity.
  - reflexivity.
Qed.

Lemma bidx_same (len i : nat) : (i < len)%nat -> bidx len i = i.
Proof.
  unfold bidx. destruct (len =? 1)%nat eqn:E; [|reflexivity].
  apply Nat.eqb_eq in E. lia.
Qed.

Lemma nth_expand {A : Type} (n i : nat) (l : list A) (d : A) :
  length l = n \/ length l = 1%nat -> (i < n)%nat ->
  nth i (expand n l) d = nth (bidx (length l) i) l d.
Proof.
  intros Hl Hi. destruct l as [|x [|y l]].
  - simpl in *. destruct Hl; [lia | discriminate].
  - simpl. apply nth_repeat_lt. exact Hi.
  - destruct Hl as [Hl|Hl]; [|discriminate]. reflexivity.
Qed.

Lemma wf2_row (t : tensor2) (i : nat) :
  wf2 t -> (i < shape0 t)%nat -> length (nth i (t_rows t) []) = t_cols t.
Proof.
  unfold wf2. rewrite Forall_forall. intros H Hi. apply H. apply nth_In. exact Hi.
Qed.

Lemma combine_map_r {A B : Type} (h : A -> B) (l : list A) :
  combine l (map h l) = map (fun a => (a, h a)) l.
Proof. induction l as [|a l IH]; simpl; [reflexivity|]. f_equal. exact IH. Qed.

Lemma in_concat_nth (ids : list (list nat)) (n x : nat) :
  (n < length ids)%nat -> In x (nth n ids []) -> In x (concat ids).
Proof.
  intros Hn Hx. apply in_concat. exists (nth n ids []).
  split; [apply nth_In; exact Hn | exact Hx].
Qed.

Lemma concat_length_ge (ids : list (list nat)) :
  (forall n, (n < length ids)%nat -> nth n ids [] <> []) ->
  (length ids <= length (concat ids))%nat.
Proof.
  induction ids as [|l ids IH]; intros H; simpl; [lia|].
  rewrite length_app.
  assert (Hl : l <> []) by (apply (H 0%nat); simpl; lia).
  assert (Hrest : (length ids <= length (concat ids))%nat).
  { apply IH. intros n Hn. apply (H (S n)). simpl. lia. }
  destruct l; [contradiction|]. simpl. lia.
Qed.

Lemma fold_max_ge (i : nat) (l : list nat) :
  (i <= fold_right Nat.max i l)%nat /\
  Forall (fun x => (x <= fold_right Nat.max i l)%nat) l.
Proof.
  induction l as [|x l [IH1 IH2]]; simpl.
  - split; [lia | constructor].
  - split; [lia|]. constructor; [lia|].
    eapply Forall_impl; [|exact IH2]. cbv beta. intros a Ha. lia.
Qed.

Lemma fold_max_attained (i : nat) (l : list nat) :
  fold_right Nat.max i l = i \/ In (fold_right Nat.max i l) l.
Proof.
  induction l as [|x l IH]; simpl; [left; reflexivity|].
  destruct (Nat.max_spec x (fold_right Nat.max i l)) as [[_ ->] | [_ ->]].
  - destruct IH as [IH|IH]; [left; exact IH | right; right; exact IH].
  - right. left. reflexivity.
Qed.

(** [max(index) + 1] exceeds every entry and is one more than some entry. *)
Lemma max_plus_1_spec (index : list nat) (B : nat) :
  max_plus_1 index = Ok B ->
  (forall n, (n < length index)%nat -> (nth n index 0 < B)%nat) /\
  (exists n, (n < length index)%nat /\ S (nth n index 0%nat) = B).
Proof.
  destruct index as [|i index]; [discriminate|]. cbn [max_plus_1].
  intros H. injection H as <-.
  destruct (fold_max_ge i index) as [Hi Hall]. split.
  - intros [|n] Hn; simpl in *; [lia|].
    rewrite Forall_forall in Hall.
    assert (Hin : In (nth n index 0%nat) index) by (apply nth_In; lia).
    specialize (Hall _ Hin). lia.
  - destruct (fold_max_attained i index) as [E|Hin].
    + exists 0%nat. simpl. split; [lia | congruence].
    + apply (In_nth _ _ 0%nat) in Hin. destruct Hin as [n [Hn E]].
      exists (S n). simpl. split; [lia | congruence].
Qed.

Lemma nth_concat_blocks {A : Type} (blocks : list (list A)) (len r n : nat) (d : A) :
  Forall (fun b => length b = len) blocks ->
  (r < length blocks)%nat -> (n < len)%nat ->
  nth (r * len + n) (concat blocks) d = nth n (nth r blocks []) d.
Proof.
  intros H. revert r. induction H as [|b blocks Hb H IH]; intros r Hr Hn;
    simpl in Hr; [lia|].
  destruct r as [|r]; simpl.
  - rewrite app_nth1 by lia. reflexivity.
  - rewrite app_nth2 by lia. rewrite Hb.
    replace (len + r * len + n - len)%nat with (r * len + n)%nat by lia.
    apply IH; [lia | exact Hn].
Qed.

Lemma length_concat_blocks {A : Type} (blocks : list (list A)) (len : nat) :
  Forall (fun b => length b = len) blocks ->
  length (concat blocks) = (length blocks * len)%nat.
Proof.
  intros H. induction H as [|b blocks Hb H IH]; simpl; [reflexivity|].
  rewrite length_app, IH, Hb. reflexivity.
Qed.

Lemma chunks_nth_error {A : Type} (g c : nat) (l : list A) (r : nat)
    (row : list A) :
  nth_error (chunks g c l) r = Some row ->
  (r < g)%nat /\ row = firstn c (skipn (r * c) l).
Proof.
  revert l r. induction g as [|g IH]; intros l r H; simpl in H.
  - destruct r; discriminate.
  - destruct r as [|r]; simpl in H.
    + injection H as <-. split; [lia | reflexivity].
    + apply IH in H. destruct H as [Hr ->]. split; [lia|].
      rewrite skipn_skipn. do 2 f_equal. simpl. lia.
Qed.

(** A row of [l.reshape(r, -1)] and its entries, in terms of [l]. *)
Lemma reshape_rows_entry (R N : nat) (l : list nat) (rows : list (list nat))
    (r n c : nat) (row : list nat) :
  (0 < R)%nat -> length l = (R * N)%nat ->
  reshape_rows R l = Ok rows ->
  nth_error rows r = Some row -> nth_error row n = Some c ->
  (r < R)%nat /\ (n < N)%nat /\ c = nth (r * N + n) l 0%nat.
Proof.
  intros HR Hlen Hre Hrow Hc. unfold reshape_rows in Hre.
  destruct R as [|R']; [lia|].
  destruct (length l mod S R' =? 0)%nat; [|discriminate].
  assert (Hdiv : (length l / S R' = N)%nat)
    by (rewrite Hlen, Nat.mul_comm; apply Nat.div_mul; lia).
  rewrite Hdiv in Hre.
  assert (Hrows : rows = chunks (S R') N l) by congruence.
  rewrite Hrows in Hrow. apply chunks_nth_error in Hrow.
  destruct Hrow as [Hr ->]. split; [exact Hr|].
  assert (Hn : (n < length (firstn N (skipn (r * N) l)))%nat)
    by (apply nth_error_Some; congruence).
  rewrite length_firstn, length_skipn in Hn.
  split; [lia|].
  apply (nth_error_nth _ _ 0%nat) in Hc. rewrite <- Hc.
  rewrite nth_firstn. replace (n <? N)%nat with true by (symmetry; apply Nat.ltb_lt; lia).
  rewrite nth_skipn. reflexivity.
Qed.

Lemma index_select1_spec (l idx out : list nat) :
  index_select1 l idx = Ok out ->
  length out = length idx /\
  forall k, (k < length idx)%nat ->
    nth k out 0%nat = nth (nth k idx 0%nat) l 0%nat.
Proof.
  unfold index_select1. destruct (all_lt idx (length l)); [|discriminate].
  intros H. injection H as <-. split; [apply length_map|].
  intros k Hk.
  rewrite (nth_indep _ 0%nat ((fun i => nth i l 0%nat) 0%nat))
    by (rewrite length_map; exact Hk).
  apply (map_nth (fun i => nth i l 0%nat)).
Qed.

End ListFacts.

Section BroadcastFacts.

Variable f : R -> R -> R.

Lemma bop2_shape (a b out : tensor2) :
  bop2 f a b = Ok out ->
  bdim (shape0 a) (shape0 b) = Some (shape0 out) /\
  bdim (t_cols a) (t_cols b) = Some (t_cols out).
Proof.
  unfold bop2.
  destruct (bdim (shape0 a) (shape0 b)) as [n|] eqn:Hn; [|discriminate].
  destruct (bdim (t_cols a) (t_cols b)) as [d|] eqn:Hd; [|discriminate].
  intros H. injection H as <-. unfold shape0. cbn [t_rows t_cols].
  split; [|reflexivity]. f_equal. symmetry.
  apply bdim_inv in Hn. destruct Hn as [Ha Hb].
  rewrite map2_length_min, !expand_length by assumption. apply Nat.min_id.
Qed.

Lemma bop2_defined (a b : tensor2) (n d : nat) :
  bdim (shape0 a) (shape0 b) = Some n -> bdim (t_cols a) (t_cols b) = Some d ->
  exists out, bop2 f a b = Ok out.
Proof.
  intros Hn Hd. unfold bop2. rewrite Hn, Hd. eexists. reflexivity.
Qed.

Lemma bop2_entry (a b out : tensor2) (i j : nat) :
  bop2 f a b = Ok out -> wf2 a -> wf2 b ->
  (i < shape0 out)%nat -> (j < t_cols out)%nat ->
  entry out i j =
  f (entry a (bidx (shape0 a) i) (bidx (t_cols a) j))
    (entry b (bidx (shape0 b) i) (bidx (t_cols b) j)).
Proof.
  intros Hop Ha Hb Hi Hj. pose proof (bop2_shape _ _ _ Hop) as [Hn Hd].
  unfold bop2 in Hop. rewrite Hn, Hd in Hop. injection Hop as Hout.
  apply bdim_inv in Hn, Hd. destruct Hn as [Hna Hnb]. destruct Hd as [Hda Hdb].
  unfold entry. rewrite <- Hout at 1. cbn [t_rows].
  rewrite (nth_map2 _ _ _ i [] [] []) by (rewrite expand_length; assumption).
  rewrite !nth_expand by assumption. fold (shape0 a) (shape0 b).
  assert (Hra : length (nth (bidx (shape0 a) i) (t_rows a) []) = t_cols a).
  { apply wf2_row; [exact Ha|]. unfold bidx.
    destruct (shape0 a =? 1)%nat eqn:E; [apply Nat.eqb_eq in E; lia|].
    apply Nat.eqb_neq in E. destruct Hna; [lia | contradiction]. }
  assert (Hrb : length (nth (bidx (shape0 b) i) (t_rows b) []) = t_cols b).
  { apply wf2_row; [exact Hb|]. unfold bidx.
    destruct (shape0 b =? 1)%nat eqn:E; [apply Nat.eqb_eq in E; lia|].
    apply Nat.eqb_neq in E. destruct Hnb; [lia | contradiction]. }
  rewrite (nth_map2 _ _ _ j 0 0 0)
    by (rewrite expand_length; [assumption | rewrite ?Hra, ?Hrb; assumption]).
  rewrite !nth_expand by (rewrite ?Hra, ?Hrb; assumption).
  rewrite Hra, Hrb. reflexivity.
Qed.

Lemma bop2_wf (a b out : tensor2) :
  bop2 f a b = Ok out -> wf2 a -> wf2 b -> wf2 out.
Proof.
  intros Hop Ha Hb. pose proof (bop2_shape _ _ _ Hop) as [Hn Hd].
  unfold bop2 in Hop. rewrite Hn, Hd in Hop. injection Hop as Hout.
  apply bdim_inv in Hn, Hd. destruct Hn as [Hna Hnb]. destruct Hd as [Hda Hdb].
  unfold wf2. rewrite <- Hout at 1. cbn [t_rows]. apply Forall_forall.
  intros row Hin. unfold map2 in Hin at 1. apply in_map_iff in Hin.
  destruct Hin as [[ra rb] [<- Hin]]. cbn [fst snd].
  assert (Hexp : forall (t : tensor2) (r : list R),
             wf2 t -> In r (expand (shape0 out) (t_rows t)) -> length r = t_cols t).
  { intros t r Ht Hr. unfold wf2 in Ht. rewrite Forall_forall in Ht.
    apply Ht. destruct (t_rows t) as [|x [|y l]]; try exact Hr.
    simpl in Hr. apply repeat_spec in Hr. subst. left. reflexivity. }
  rewrite map2_length_min, !expand_length.
  - apply Nat.min_id.
  - rewrite (Hexp b rb Hb); [assumption|]. eapply in_combine_r. exact Hin.
  - rewrite (Hexp a ra Ha); [assumption|]. eapply in_combine_l. exact Hin.
Qed.

End BroadcastFacts.

Lemma extensionality (a b : tensor2) :
  wf2 a -> wf2 b -> shape0 a = shape0 b -> t_cols a = t_cols b ->
  (forall i j, (i < shape0 a)%nat -> (j < t_cols a)%nat ->
               entry a i j = entry b i j) ->
  a = b.
Proof.
  destruct a as [da ra], b as [db rb]. unfold shape0, entry. cbn [t_rows t_cols].
  intros Ha Hb Hn Hd H. subst db. f_equal.
  apply (nth_ext _ _ [] []); [exact Hn|]. intros i Hi.
  assert (Hla : length (nth i ra []) = da)
    by (apply (wf2_row (mk2 da ra)); assumption).
  assert (Hlb : length (nth i rb []) = da)
    by (apply (wf2_row (mk2 da rb)); [assumption | unfold shape0; cbn; lia]).
  apply (nth_ext _ _ 0 0); [lia|]. intros j Hj. apply H; lia.
Qed.

(* ================================================================== *)
(** * Facts on the result monad and on float comparisons *)

Section MapM.

Context {A B : Type}.

Lemma mapM_ok (f : A -> result B) (g : A -> B) (l : list A) :
  (forall a, In a l -> f a = Ok (g a)) -> mapM f l = Ok (map g l).
Proof.
  induction l as [|a l IH]; intros H; simpl; [reflexivity|].
  rewrite (H a) by (left; reflexivity). cbn [bind].
  rewrite IH by (intros a' Ha'; apply H; right; exact Ha'). reflexivity.
Qed.

Lemma mapM_inv (f : A -> result B) (l : list A) (out : list B) :
  mapM f l = Ok out -> Forall2 (fun a b => f a = Ok b) l out.
Proof.
  revert out. induction l as [|a l IH]; intros out H; simpl in H.
  - injection H as <-. constructor.
  - destruct (f a) as [b|] eqn:Hb; [|discriminate]. cbn [bind] in H.
    destruct (mapM f l) as [bs|]; [|discriminate]. cbn [bind] in H.
    injection H as <-. constructor; [exact Hb | apply IH; reflexivity].
Qed.

Lemma mapM_length (f : A -> result B) (l : list A) (out : list B) :
  mapM f l = Ok out -> length out = length l.
Proof.
  intros H. apply mapM_inv in H. symmetry. eapply Forall2_length. exact H.
Qed.

Lemma Forall2_nth_lt {P : A -> B -> Prop} (l : list A) (out : list B)
    (i : nat) (da : A) (db : B) :
  Forall2 P l out -> (i < length l)%nat -> P (nth i l da) (nth i out db).
Proof.
  intros H. revert i. induction H as [|a b l out Hab H IH]; intros [|i] Hi;
    simpl in *; try lia; [exact Hab|]. apply IH. lia.
Qed.

End MapM.

Lemma Rltb_true (a b : R) : a < b -> Rltb a b = true.
Proof. intros H. unfold Rltb. destruct (Rlt_dec a b); [reflexivity|contradiction]. Qed.

Lemma Rltb_false (a b : R) : ~ a < b -> Rltb a b = false.
Proof. intros H. unfold Rltb. destruct (Rlt_dec a b); [contradiction|reflexivity]. Qed.

Lemma Rltb_lt (a b : R) : Rltb a b = true -> a < b.
Proof. unfold Rltb. destruct (Rlt_dec a b); [auto | discriminate]. Qed.

Lemma Rleb_true (a b : R) : a <= b -> Rleb a b = true.
Proof. intros H. unfold Rleb. destruct (Rle_dec a b); [reflexivity|contradiction]. Qed.

Lemma fdiv_ok (x y : R) : y <> 0 -> fdiv x y = Ok (x / y).
Proof. intros H. unfold fdiv. destruct (Req_dec_T y 0); [contradiction|reflexivity]. Qed.

Lemma count_clamped_nonzero (n : nat) : Rmax (INR n) 1 <> 0.
Proof. pose proof (Rmax_r (INR n) 1). lra. Qed.

Lemma count_clamped_pos (n : nat) : (0 < n)%nat -> Rmax (INR n) 1 = INR n.
Proof.
  intros H. apply Rmax_left. replace 1 with (INR 1) by reflexivity.
  apply le_INR. lia.
Qed.

Lemma Rleb_refl (a : R) : Rleb a a = true.
Proof. apply Rleb_true. lra. Qed.

Lemma Rmax_0_0 : Rmax 0 0 = 0.
Proof. apply Rmax_left. lra. Qed.

(* ================================================================== *)
(** * Facts on scatter *)

Section ScatterFacts.

(** An index with one entry per row is taken as it is. *)
Lemma broadcast_same (index : list nat) (n : nat) :
  length index = n -> broadcast index n = Ok index.
Proof. intros <-. unfold broadcast. rewrite Nat.eqb_refl. reflexivity. Qed.

(** What [broadcast] returns has one entry per row, and the entries are
    those of the index. *)
Lemma broadcast_spec (index ix : list nat) (n : nat) :
  broadcast index n = Ok ix ->
  length ix = n /\ forall i, In i ix -> In i index.
Proof.
  unfold broadcast. destruct (length index =? n)%nat eqn:E.
  - intros H. injection H as <-. apply Nat.eqb_eq in E. split; [exact E | tauto].
  - destruct (length index =? 1)%nat eqn:E1; [|discriminate].
    intros H. injection H as <-. apply Nat.eqb_eq in E1.
    destruct index as [|i [|? ?]]; try discriminate. cbn [expand]. split.
    + apply repeat_length.
    + intros j Hj. apply repeat_spec in Hj. left. symmetry. exact Hj.
Qed.

Lemma scatter_add_ok (src : tensor2) (index : list nat) (dim_size : nat) :
  shape0 src = length index -> Forall (fun i => (i < dim_size)%nat) index ->
  scatter_add src index dim_size =
  Ok (mk2 (t_cols src)
          (map (fun s => sum_rows_at (t_cols src) s (t_rows src) index)
               (seq 0 dim_size))).
Proof.
  intros Hlen Hin. unfold scatter_add.
  rewrite broadcast_same by (symmetry; exact Hlen). cbn [bind].
  apply all_lt_spec in Hin. rewrite Hin. cbn [negb]. rewrite andb_false_r.
  reflexivity.
Qed.

(** [scatter_mean] never divides by zero. *)
Lemma scatter_mean_ok (src : tensor2) (index : list nat) (dim_size : nat) :
  shape0 src = length index -> Forall (fun i => (i < dim_size)%nat) index ->
  scatter_mean src index dim_size =
  Ok (mk2 (t_cols src) (mean_rows src index dim_size)).
Proof.
  intros Hlen Hin. unfold scatter_mean. rewrite scatter_add_ok by assumption.
  cbn [bind t_rows t_cols].
  rewrite (proj2 (all_lt_spec index dim_size) Hin). cbn [negb].
  rewrite (mapM_ok _ (fun p : nat * list R =>
                        vdiv (snd p) (Rmax (INR (count_occ Nat.eq_dec index (fst p))) 1))).
  - cbn [bind]. do 2 f_equal. rewrite combine_map_r, map_map. reflexivity.
  - intros [s row] _. cbn [fst snd]. apply mapM_ok. intros x _.
    apply fdiv_ok. apply count_clamped_nonzero.
Qed.

Lemma entry_map_seq (d M c j : nat) (F : nat -> list R) :
  (c < M)%nat -> entry (mk2 d (map F (seq 0 M))) c j = nth j (F c) 0.
Proof.
  intros Hc. unfold entry. cbn [t_rows].
  rewrite (nth_indep _ [] (F 0%nat)) by (rewrite length_map, length_seq; exact Hc).
  rewrite map_nth, seq_nth by exact Hc. reflexivity.
Qed.

Lemma nth_vdiv (row : list R) (c : R) (j : nat) :
  nth j (vdiv row c) 0 = nth j row 0 / c.
Proof.
  unfold vdiv. destruct (Nat.lt_ge_cases j (length row)) as [H|H].
  - rewrite (nth_indep _ 0 (0 / c)) by (rewrite length_map; exact H).
    apply (map_nth (fun x => x / c)).
  - rewrite !nth_overflow by (rewrite ?length_map; exact H). unfold Rdiv. lra.
Qed.

(** Scattering a column of ones counts the members of each index. *)
Lemma sum_rows_at_ones (s : nat) (index : list nat) :
  sum_rows_at 1 s (repeat [1] (length index)) index =
  [INR (count_occ Nat.eq_dec index s)].
Proof.
  induction index as [|i index IH]; [reflexivity|].
  cbn [length repeat sum_rows_at count_occ]. rewrite IH.
  destruct (Nat.eq_dec i s) as [->|Hne].
  - rewrite Nat.eqb_refl. cbn [vadd]. rewrite S_INR. f_equal. lra.
  - apply Nat.eqb_neq in Hne. rewrite Hne. reflexivity.
Qed.

Lemma mean_rows_wf (src : tensor2) (index : list nat) (dim_size : nat) :
  wf2 src -> wf2 (mk2 (t_cols src) (mean_rows src index dim_size)).
Proof.
  intros Hwf. unfold wf2, mean_rows. cbn [t_rows t_cols]. apply Forall_forall.
  intros row Hin. apply in_map_iff in Hin. destruct Hin as [s [<- _]].
  unfold vdiv. rewrite length_map. apply sum_rows_at_length. exact Hwf.
Qed.

End ScatterFacts.

(* ================================================================== *)
(** * Convolution: what [forward] computes *)

Module ConvolutionFacts.
Import Convolution.

Section Ungrouped.

Variables (K : list R -> list (list R)) (cout cin : nat) (kern : kernel).
Hypothesis kern_per_edge : forall edge_r, kern edge_r = K3 cout cin (map K edge_r).

Lemma message_ungrouped (x_j : tensor2) (ks : list (list (list R))) :
  wf2 x_j -> t_cols x_j = cin -> length ks = shape0 x_j ->
  message x_j (K3 cout cin ks) 1 =
  Ok (mk2 cout (map2 matvec ks (t_rows x_j))).
Proof.
  intros Hwf Hcols Hlen. unfold message. cbn [k_shape_last2 k_shape0].
  unfold view. rewrite Hcols.
  replace (shape0 x_j * cin =? shape0 x_j * 1 * cin)%nat with true
    by (symmetry; apply Nat.eqb_eq; lia).
  cbn [bind]. destruct (length ks =? 0)%nat eqn:E0.
  - apply Nat.eqb_eq in E0. destruct ks; [|discriminate].
    destruct x_j as [c rows]. unfold shape0 in Hlen. simpl in *.
    destruct rows; [|discriminate]. rewrite Nat.add_0_r. reflexivity.
  - unfold einsum_eij_egj. rewrite bzip_same by (rewrite length_map; exact Hlen).
    cbn [bind]. unfold reshape.
    rewrite map2_length by (rewrite length_map; exact Hlen).
    replace (length ks * 1 * cout =? shape0 x_j * (1 * cout))%nat with true
      by (symmetry; apply Nat.eqb_eq; lia).
    rewrite Nat.mul_1_l. do 2 f_equal.
    rewrite map_map2, map2_map_r. apply map2_ext_in. intros Kx x _ Hx.
    simpl. rewrite app_nil_r. f_equal.
    apply firstn_all2. unfold wf2 in Hwf. rewrite Forall_forall in Hwf.
    rewrite (Hwf x Hx). lia.
Qed.

(** [forward] with one group, in closed form. *)
Lemma forward_ungrouped (features : tensor2) (ei : edge_index)
    (edge_r : list (list R)) (size : option (nat * nat)) (n_norm : R) :
  wf2 features -> t_cols features = cin -> length edge_r = length ei ->
  forward kern features ei edge_r size n_norm 1 =
  if negb (size_ok size features) then Err SizeError
  else if negb (all_lt (targets ei) (shape0 features)) then Err IndexError
  else if negb (cout =? 0)%nat &&
          negb (all_lt (sources ei) (n_source_of size features))
  then Err IndexError
  else Ok (mk2 cout (conv_rows K cout (sqrt n_norm) features ei edge_r
                               (n_source_of size features))).
Proof.
  intros Hwf Hcols Hlen. unfold forward. rewrite kern_per_edge.
  cbn [k_div]. rewrite map_map.
  assert (Hmsg : forall x_j, index_select features (targets ei) = Ok x_j ->
            (out <- message x_j
                      (K3 cout cin (map (fun r => mdiv (K r) (sqrt n_norm)) edge_r)) 1 ;;
             scatter_add out (sources ei) (n_source_of size features)) =
            if negb (cout =? 0)%nat &&
               negb (all_lt (sources ei) (n_source_of size features))
            then Err IndexError
            else Ok (mk2 cout (conv_rows K cout (sqrt n_norm) features ei edge_r
                                         (n_source_of size features)))).
  { intros x_j Hsel. unfold index_select in Hsel.
    destruct (all_lt (targets ei) (shape0 features)) eqn:Hin; [|discriminate].
    injection Hsel as <-.
    rewrite message_ungrouped.
    - cbn [bind]. unfold scatter_add.
      rewrite broadcast_same.
      2:{ unfold shape0, sources. cbn [t_rows].
          rewrite map2_length by (rewrite !length_map; unfold targets;
                                  rewrite length_map; exact Hlen).
          rewrite !length_map. symmetry. exact Hlen. }
      cbn [bind t_rows t_cols].
      destruct (negb (cout =? 0)%nat &&
                negb (all_lt (sources ei) (n_source_of size features)));
        [reflexivity|].
      unfold conv_rows. do 3 f_equal.
      rewrite map2_map_l. unfold targets. rewrite !map2_map_r.
      reflexivity.
    - unfold wf2. cbn [t_rows t_cols]. apply Forall_forall. intros row Hrow.
      apply in_map_iff in Hrow. destruct Hrow as [i [<- Hi]].
      apply all_lt_spec in Hin. rewrite Forall_forall in Hin.
      specialize (Hin i Hi). unfold wf2 in Hwf. rewrite Forall_forall in Hwf.
      apply Hwf. apply nth_In. exact Hin.
    - exact Hcols.
    - unfold shape0. cbn [t_rows]. rewrite !length_map. unfold targets.
      rewrite length_map. exact Hlen. }
  unfold propagate, size_ok, n_source_of in *.
  destruct size as [[n_target n_source]|].
  - destruct (n_target =? shape0 features)%nat; cbn [negb]; [|reflexivity].
    unfold index_select at 1.
    destruct (all_lt (targets ei) (shape0 features)) eqn:Hin; cbn [negb bind].
    + apply Hmsg. unfold index_select. rewrite Hin. reflexivity.
    + reflexivity.
  - cbn [negb]. unfold index_select at 1.
    destruct (all_lt (targets ei) (shape0 features)) eqn:Hin; cbn [negb bind].
    + apply Hmsg. unfold index_select. rewrite Hin. reflexivity.
    + reflexivity.
Qed.

End Ungrouped.

Lemma k_div_shape0 (k : kernel_out) (c : R) : k_shape0 (k_div k c) = k_shape0 k.
Proof. destruct k; simpl; apply length_map. Qed.

Lemma k_div_shape_last2 (k : kernel_out) (c : R) :
  k_shape_last2 (k_div k c) = k_shape_last2 k.
Proof. destruct k; reflexivity. Qed.

Lemma message_no_edges (x_j : tensor2) (k : kernel_out) (groups : nat) :
  shape0 x_j = 0%nat -> k_shape0 k = 0%nat ->
  message x_j k groups = Ok (zeros 0 (groups * fst (k_shape_last2 k))).
Proof.
  intros Hx Hk. unfold message. destruct (k_shape_last2 k) as [cout cin].
  unfold view. rewrite Hx. cbn [Nat.mul Nat.eqb bind]. rewrite Hk. reflexivity.
Qed.

Lemma propagate_err (ei : edge_index) (size : option (nat * nat)) (x : tensor2)
    (message : tensor2 -> result tensor2) :
  (forall x_j, shape0 x_j = length ei -> t_cols x_j = t_cols x ->
               is_ok (out <- message x_j ;;
                      scatter_add out (sources ei)
                                  (n_source_of size x)) = false) ->
  is_ok (propagate ei size x message) = false.
Proof.
  intros H. unfold propagate, n_source_of in *.
  assert (Hsel : forall n,
    (forall x_j, shape0 x_j = length ei -> t_cols x_j = t_cols x ->
        is_ok (out <- message x_j ;; scatter_add out (sources ei) n) = false) ->
    is_ok (x_j <- index_select x (targets ei) ;;
           out <- message x_j ;; scatter_add out (sources ei) n) = false).
  { intros n Hn. unfold index_select.
    destruct (all_lt (targets ei) (shape0 x)); [|reflexivity].
    cbn [bind]. apply Hn; [|reflexivity].
    unfold shape0, targets. cbn [t_rows]. rewrite !length_map. reflexivity. }
  destruct size as [[n_target n_source]|].
  - destruct (negb (n_target =? shape0 x)%nat); [reflexivity|]. apply Hsel, H.
  - apply Hsel, H.
Qed.

End ConvolutionFacts.

(* ================================================================== *)
(** * Convolution: rotation equivariance *)

Module ConvolutionEquivariance.
Import Convolution ConvolutionFacts.

Section Equivariance.

Variables (K : list R -> list (list R)) (cout cin : nat) (kern : kernel).
Variables (D_in D_out Rm : list (list R)).

Hypothesis kern_per_edge : forall edge_r, kern edge_r = K3 cout cin (map K edge_r).
Hypothesis K_rows : forall r, length (K r) = cout.
Hypothesis D_in_rows : length D_in = cin.
Hypothesis D_out_cols : Forall (fun row => length row = cout) D_out.

(** The kernel intertwines the two representations:
    [K(R r) D_in = D_out K(r)]. *)
Hypothesis intertwines : forall r x,
  length r = 3%nat -> length x = cin ->
  matvec (K (matvec Rm r)) (matvec D_in x) = matvec D_out (matvec (K r) x).

(** [D_out] is orthogonal: [(D_out y) @ D_out = y]. *)
Hypothesis D_out_orthogonal : forall y,
  length y = cout -> vecmat cout (matvec D_out y) D_out = y.

Lemma edge_message_length (c : R) (features : tensor2) (r : list R) (e : nat * nat) :
  length (edge_message K c features r e) = cout.
Proof.
  unfold edge_message, mdiv. rewrite matvec_length, length_map. apply K_rows.
Qed.

Lemma edge_message_rotated (c : R) (features : tensor2) (r : list R) (e : nat * nat) :
  wf2 features -> t_cols features = cin -> length r = 3%nat ->
  (snd e < shape0 features)%nat ->
  edge_message K c (matmul_T features D_in) (matvec Rm r) e =
  matvec D_out (edge_message K c features r e).
Proof.
  intros Hwf Hcols Hr He. unfold edge_message, matmul_T. cbn [t_rows].
  rewrite (nth_indep _ [] (matvec D_in []))
    by (rewrite length_map; exact He).
  rewrite map_nth. unfold mdiv. rewrite !matvec_mdiv, matvec_vdiv.
  f_equal. apply intertwines; [exact Hr|].
  unfold wf2 in Hwf. rewrite Forall_forall in Hwf. rewrite <- Hcols.
  apply Hwf. apply nth_In. exact He.
Qed.

Lemma sum_rows_rotated (c : R) (features : tensor2) (s : nat)
    (edge_r : list (list R)) (ei : edge_index) :
  wf2 features -> t_cols features = cin ->
  Forall (fun r => length r = 3%nat) edge_r ->
  Forall (fun t => (t < shape0 features)%nat) (targets ei) ->
  vecmat cout
    (sum_rows_at cout s
       (map2 (edge_message K c (matmul_T features D_in))
             (map (matvec Rm) edge_r) ei) (sources ei)) D_out =
  sum_rows_at cout s (map2 (edge_message K c features) edge_r ei) (sources ei).
Proof.
  intros Hwf Hcols Hr. revert ei.
  induction Hr as [|r edge_r Hr3 Hr IH]; intros [|e ei] Ht;
    try (simpl; apply (vecmat_zeros cout cout); exact D_out_cols).
  unfold map2, sources, targets in *. simpl in *.
  apply Forall_cons_iff in Ht. destruct Ht as [Ht1 Ht2].
  destruct (fst e =? s)%nat; [|apply IH; assumption].
  rewrite vecmat_vadd.
  - rewrite IH by assumption. f_equal.
    rewrite edge_message_rotated by assumption.
    apply D_out_orthogonal. apply edge_message_length.
  - exact D_out_cols.
  - rewrite edge_message_length, sum_rows_at_length; [reflexivity|].
    apply Forall_forall. intros row Hin. apply in_map_iff in Hin.
    destruct Hin as [[r' e'] [<- _]]. apply edge_message_length.
Qed.

(** C1, amended. With one group and a kernel that acts edge by edge and
    intertwines the representations ([K(R r) D_in = D_out K(r)], [D_out]
    orthogonal), rotating the inputs and multiplying the output by
    [D_out] gives back the output on the original inputs:
    [forward(features @ D_in.T, edge_index, edge_r @ R.T) @ D_out =
    forward(features, edge_index, edge_r)], as [test_equivariance]
    asserts, and exactly so in exact arithmetic. Both sides raise the same
    error when the indices or [size] are invalid. *)
Theorem equivariance_ungrouped (features : tensor2) (ei : edge_index)
    (edge_r : list (list R)) (size : option (nat * nat)) (n_norm : R) :
  wf2 features -> t_cols features = cin -> length edge_r = length ei ->
  Forall (fun r => length r = 3%nat) edge_r ->
  rmap (fun out => matmul out cout D_out)
       (forward kern (matmul_T features D_in) ei (map (matvec Rm) edge_r)
                size n_norm 1) =
  forward kern features ei edge_r size n_norm 1.
Proof.
  intros Hwf Hcols Hlen Hr.
  rewrite (forward_ungrouped K cout cin kern kern_per_edge features) by assumption.
  rewrite (forward_ungrouped K cout cin kern kern_per_edge (matmul_T features D_in)).
  - assert (Hshape : shape0 (matmul_T features D_in) = shape0 features)
      by (unfold shape0, matmul_T; cbn [t_rows]; apply length_map).
    assert (Hsz : size_ok size (matmul_T features D_in) = size_ok size features)
      by (unfold size_ok; rewrite Hshape; reflexivity).
    assert (Hns : n_source_of size (matmul_T features D_in) = n_source_of size features)
      by (unfold n_source_of; rewrite Hshape; reflexivity).
    rewrite Hsz, Hns, Hshape.
    destruct (size_ok size features); cbn [negb]; [|reflexivity].
    destruct (all_lt (targets ei) (shape0 features)) eqn:Ht; cbn [negb];
      [|reflexivity].
    destruct (negb (cout =? 0)%nat &&
              negb (all_lt (sources ei) (n_source_of size features)));
      [reflexivity|].
    cbn [rmap]. unfold matmul. cbn [t_rows]. do 2 f_equal.
    unfold conv_rows. rewrite map_map. apply map_ext. intros s.
    apply sum_rows_rotated; try assumption.
    apply all_lt_spec. exact Ht.
  - unfold wf2, matmul_T. cbn [t_rows t_cols]. apply Forall_forall.
    intros row Hin. apply in_map_iff in Hin. destruct Hin as [x [<- _]].
    apply matvec_length.
  - unfold matmul_T. cbn [t_cols]. exact D_in_rows.
  - rewrite length_map. exact Hlen.
Qed.

End Equivariance.

Lemma vector_K_intertwines (r x : list R) :
  length r = 3%nat -> length x = 1%nat ->
  matvec (vector_K (matvec quarter_turn r)) (matvec [[1]] x) =
  matvec quarter_turn (matvec (vector_K r) x).
Proof.
  destruct r as [|a [|b [|c [|]]]]; try discriminate.
  destruct x as [|x0 [|]]; try discriminate. intros _ _.
  cbn. entrywise ring.
Qed.

Lemma quarter_turn_orthogonal (y : list R) :
  length y = 3%nat -> vecmat 3 (matvec quarter_turn y) quarter_turn = y.
Proof.
  destruct y as [|a [|b [|c [|]]]]; try discriminate. intros _.
  cbn. entrywise ring.
Qed.

Lemma vector_forward : forward vector_kernel (mk2 1 [[1]]) [(0, 0)%nat] [[1; 0; 0]] None 1 1
           = Ok (mk2 3 [[1; 0; 0]]).
Proof.
  unfold forward. cbn. rewrite sqrt_1. entrywise field.
Qed.

Lemma vector_forward_rotated : forward vector_kernel (matmul_T (mk2 1 [[1]]) [[1]]) [(0, 0)%nat]
             (map (matvec quarter_turn) [[1; 0; 0]]) None 1 1
           = Ok (mk2 3 [[0; 1; 0]]).
Proof.
  unfold forward. cbn. rewrite sqrt_1. entrywise field.
Qed.

Lemma equivariance_as_stated_fails : ~ equivariance_as_stated.
Proof.
  intros H.
  specialize (H vector_K 3%nat 1%nat vector_kernel [[1]] quarter_turn quarter_turn).
  specialize (H (fun _ => eq_refl) (fun _ => eq_refl) eq_refl).
  assert (Hc : Forall (fun row : list R => length row = 3%nat) quarter_turn)
    by (repeat constructor).
  specialize (H Hc vector_K_intertwines quarter_turn_orthogonal).
  specialize (H (mk2 1 [[1]]) [(0, 0)%nat] [[1; 0; 0]] None 1
                (mk2 3 [[0; 1; 0]]) (mk2 3 [[1; 0; 0]])).
  assert (Hw : wf2 (mk2 1 [[1]])) by (repeat constructor).
  assert (Hr : Forall (fun r : list R => length r = 3%nat) [[1; 0; 0]])
    by (repeat constructor).
  specialize (H Hw eq_refl eq_refl Hr vector_forward_rotated vector_forward).
  destruct H as [_ H]. cbn in H.
  inversion H as [|? ? ? ? Hrow _]; subst.
  inversion Hrow as [|? ? ? ? _ Hrest]; subst.
  inversion Hrest as [|? ? ? ? Hy _]; subst.
  revert Hy. unfold Rabs. destruct (Rcase_abs _); intros Hy; lra.
Qed.

Lemma equivariance_ungrouped_witness :
  rmap (fun out => matmul out 3 quarter_turn)
       (forward vector_kernel (matmul_T (mk2 1 [[1]]) [[1]]) [(0, 0)%nat]
                (map (matvec quarter_turn) [[1; 0; 0]]) None 1 1) =
  forward vector_kernel (mk2 1 [[1]]) [(0, 0)%nat] [[1; 0; 0]] None 1 1.
Proof.
  apply (equivariance_ungrouped vector_K 3 1 vector_kernel [[1]] quarter_turn
           quarter_turn).
  - intros edge_r. reflexivity.
  - intros r. reflexivity.
  - reflexivity.
  - repeat constructor.
  - exact vector_K_intertwines.
  - exact quarter_turn_orthogonal.
  - repeat constructor.
  - reflexivity.
  - reflexivity.
  - repeat constructor.
Defined.

End ConvolutionEquivariance.

(* ================================================================== *)
(** * Convolution: flow, empty edge sets and shape mismatches *)

Module ConvolutionClaims.
Import Convolution ConvolutionFacts.

(** C2. Messages are computed from the feature of the edge's target and
    summed at the edge's source: on the star graph with features
    [-1, 1, 1, 1, 1], the identity scalar kernel of weight 1 and
    [edge_index = [[0, 0, 0, 0], [1, 2, 3, 4]]] the output is 4 at row 0,
    the sum of the four leaves, and 0 at rows 1 to 4. *)
Theorem flow_star_graph :
  forward identity_scalar_kernel star_features star_edges ones_4_3 None 1 1 =
  Ok (mk2 1 [[4]; [0]; [0]; [0]; [0]]).
Proof.
  unfold forward. cbn. rewrite sqrt_1. entrywise lra.
Qed.

(** Reversing the two rows of [edge_index] reverses the flow: every leaf
    receives the value of the centre. *)
Lemma flow_star_graph_reversed :
  forward identity_scalar_kernel star_features star_edges_reversed ones_4_3
          None 1 1 =
  Ok (mk2 1 [[0]; [-1]; [-1]; [-1]; [-1]]).
Proof.
  unfold forward. cbn. rewrite sqrt_1. entrywise lra.
Qed.

(** C3. With no edge ([E = 0], the kernel returning no rows) and any
    features, [forward] does not raise: it returns the all-zero tensor
    of shape [[n_source, groups * cout]], where [n_source] is [size[1]],
    or the row count of the features when [size] is [None]. *)
Theorem forward_no_edges (kern : kernel) (features : tensor2)
    (size : option (nat * nat)) (n_norm : R) (groups : nat) :
  k_shape0 (kern []) = 0%nat ->
  size_ok size features = true ->
  forward kern features [] [] size n_norm groups =
  Ok (zeros (n_source_of size features)
            (groups * fst (k_shape_last2 (kern [])))).
Proof.
  intros Hk Hsize. unfold forward.
  assert (Hrun : forall n,
    (x_j <- index_select features (targets []) ;;
     out <- message x_j (k_div (kern []) (sqrt n_norm)) groups ;;
     scatter_add out (sources []) n) =
    Ok (zeros n (groups * fst (k_shape_last2 (kern []))))).
  { intros n. unfold index_select. cbn [targets map all_lt bind].
    rewrite message_no_edges; [|reflexivity|rewrite k_div_shape0; exact Hk].
    rewrite k_div_shape_last2. cbn [bind]. unfold scatter_add, zeros, shape0.
    cbn [t_rows t_cols repeat length sources map]. unfold broadcast.
    cbn [length Nat.eqb bind all_lt negb]. rewrite andb_false_r.
    do 2 f_equal. cbn [sum_rows_at]. apply map_const_seq. }
  unfold propagate, size_ok, n_source_of in *.
  destruct size as [[n_target n_source]|].
  - rewrite Hsize. cbn [negb]. apply Hrun.
  - apply Hrun.
Qed.

Lemma forward_no_edges_witness :
  forward identity_scalar_kernel star_features [] [] None 4 1 = Ok (zeros 5 1).
Proof.
  apply (forward_no_edges identity_scalar_kernel star_features None 4 1);
    reflexivity.
Defined.

(** A feature tensor of width 2 offered to a kernel of one input column. *)
Lemma wrong_width_accepted :
  forward identity_scalar_kernel (mk2 2 [[1; 2]]) [] [] None 1 1 = Ok (zeros 1 1).
Proof. reflexivity. Qed.

Lemma fails_fast_as_stated_fails : ~ fails_fast_as_stated.
Proof.
  intros H.
  destruct (H identity_scalar_kernel (mk2 2 [[1; 2]]) [] [] None 1 1%nat) as [e He].
  - right. cbn. lia.
  - rewrite wrong_width_accepted in He. discriminate.
Qed.

Section Mismatch.

Variables (kern : kernel) (features : tensor2) (ei : edge_index)
          (edge_r : list (list R)) (size : option (nat * nat)) (n_norm : R)
          (groups : nat).

(** A feature width other than [groups * cin] is caught by the [view] in
    [message], provided there is an edge to send a message along. *)
Lemma wrong_width_caught_in_view :
  size_ok size features = true ->
  all_lt (targets ei) (shape0 features) = true ->
  ei <> [] ->
  t_cols features <> (groups * snd (k_shape_last2 (kern edge_r)))%nat ->
  forward kern features ei edge_r size n_norm groups = Err ViewError.
Proof.
  intros Hsize Ht Hne Hw. unfold forward.
  assert (Hrun : forall n,
    (x_j <- index_select features (targets ei) ;;
     out <- message x_j (k_div (kern edge_r) (sqrt n_norm)) groups ;;
     scatter_add out (sources ei) n) = Err ViewError).
  { intros n. unfold index_select. rewrite Ht. cbn [bind]. unfold message.
    rewrite k_div_shape_last2.
    destruct (k_shape_last2 (kern edge_r)) as [cout cin]. cbn [snd] in Hw.
    unfold view, shape0. cbn [t_rows t_cols]. unfold targets.
    rewrite !length_map.
    destruct (length ei * t_cols features =? length ei * groups * cin)%nat eqn:E;
      [|reflexivity].
    apply Nat.eqb_eq in E. exfalso. apply Hw.
    destruct ei; [contradiction|]. simpl in E. nia. }
  unfold propagate, size_ok in *. destruct size as [[n_target n_source]|].
  - rewrite Hsize. cbn [negb]. apply Hrun.
  - apply Hrun.
Qed.

(** With two or more attributes, a count other than the edge count is
    caught inside [message], by [einsum] or by the [reshape] after it,
    when the output has a column. *)
Lemma wrong_count_caught_in_message (x_j : tensor2) :
  shape0 x_j = length ei ->
  k_shape0 (kern edge_r) = length edge_r ->
  (2 <= length edge_r)%nat -> length edge_r <> length ei ->
  (groups * fst (k_shape_last2 (kern edge_r)) <> 0)%nat ->
  is_ok (message x_j (k_div (kern edge_r) (sqrt n_norm)) groups) = false.
Proof.
  intros Hx Hk H2 Hne Hd. unfold message.
  pose proof (k_div_shape0 (kern edge_r) (sqrt n_norm)) as Hs0.
  pose proof (k_div_shape_last2 (kern edge_r) (sqrt n_norm)) as Hs2.
  destruct (k_div (kern edge_r) (sqrt n_norm)) as [cout cin ks | g cout cin ks];
    cbn [k_shape_last2 k_shape0] in *; rewrite <- Hs2 in Hd; cbn [fst] in Hd;
    rewrite Hk in Hs0.
  - destruct (view x_j (shape0 x_j) groups cin) as [x'|] eqn:Hv; [|reflexivity].
    cbn [bind]. unfold view in Hv.
    destruct (shape0 x_j * t_cols x_j =? shape0 x_j * groups * cin)%nat;
      [|discriminate].
    injection Hv as <-.
    destruct (length ks =? 0)%nat eqn:E0; [apply Nat.eqb_eq in E0; lia|].
    unfold einsum_eij_egj.
    destruct (bzip _ ks _) as [out|] eqn:Hz; [|reflexivity].
    apply bzip_length in Hz. rewrite length_map in Hz. fold (shape0 x_j) in Hz.
    apply bdim_mismatch in Hz; [|lia|lia]. destruct Hz as [Hz1 Hz2].
    cbn [bind]. unfold reshape. rewrite Hz2, Hz1.
    destruct (length ks * groups * cout =? 1 * (groups * cout))%nat eqn:E;
      [|reflexivity].
    apply Nat.eqb_eq in E. nia.
  - destruct (view x_j (shape0 x_j) groups cin) as [x'|] eqn:Hv; [|reflexivity].
    cbn [bind]. unfold view in Hv.
    destruct (shape0 x_j * t_cols x_j =? shape0 x_j * groups * cin)%nat;
      [|discriminate].
    injection Hv as <-.
    destruct (length ks =? 0)%nat eqn:E0; [apply Nat.eqb_eq in E0; lia|].
    destruct (g =? groups)%nat; [|reflexivity].
    unfold einsum_egij_egj.
    destruct (bzip _ ks _) as [out|] eqn:Hz; [|reflexivity].
    apply bzip_length in Hz. rewrite length_map in Hz. fold (shape0 x_j) in Hz.
    apply bdim_mismatch in Hz; [|lia|lia]. destruct Hz as [Hz1 Hz2].
    cbn [bind]. unfold reshape. rewrite Hz2, Hz1.
    destruct (length ks * groups * cout =? 1 * (groups * cout))%nat eqn:E;
      [|reflexivity].
    apply Nat.eqb_eq in E. nia.
Qed.

(** A kernel of no rows makes [message] return no row: two or more edges
    are then caught by the scatter, which cannot expand their index over
    nothing. *)
Lemma no_attribute_caught_in_scatter :
  k_shape0 (kern edge_r) = 0%nat -> (2 <= length ei)%nat ->
  is_ok (forward kern features ei edge_r size n_norm groups) = false.
Proof.
  intros Hk H2. unfold forward. apply propagate_err.
  intros x_j Hx _. unfold message.
  destruct (k_shape_last2 (k_div (kern edge_r) (sqrt n_norm))) as [cout cin].
  destruct (view x_j (shape0 x_j) groups cin) as [x'|]; [|reflexivity].
  cbn [bind]. rewrite k_div_shape0, Hk. cbn [Nat.eqb bind].
  unfold scatter_add, broadcast, zeros, shape0, sources.
  cbn [t_rows repeat length]. rewrite length_map.
  destruct (length ei) as [|[|n]]; [lia | lia | reflexivity].
Qed.

(** A kernel of no rows and a single edge: the one index is expanded over
    the rows of the message, of which there is none, nothing is scattered
    and the source index is never read. *)
Lemma no_attribute_one_edge_accepted :
  k_shape0 (kern edge_r) = 0%nat -> length ei = 1%nat ->
  size_ok size features = true ->
  all_lt (targets ei) (shape0 features) = true ->
  t_cols features = (groups * snd (k_shape_last2 (kern edge_r)))%nat ->
  forward kern features ei edge_r size n_norm groups =
  Ok (zeros (n_source_of size features)
            (groups * fst (k_shape_last2 (kern edge_r)))).
Proof.
  intros Hk H1 Hsize Ht Hw. unfold forward.
  assert (Hrun : forall n,
    (x_j <- index_select features (targets ei) ;;
     out <- message x_j (k_div (kern edge_r) (sqrt n_norm)) groups ;;
     scatter_add out (sources ei) n) =
    Ok (zeros n (groups * fst (k_shape_last2 (kern edge_r))))).
  { intros n. unfold index_select. rewrite Ht. cbn [bind]. unfold message.
    rewrite k_div_shape_last2, k_div_shape0, Hk.
    destruct (k_shape_last2 (kern edge_r)) as [cout cin]. cbn [fst snd] in *.
    unfold view, shape0. cbn [t_rows t_cols]. unfold targets.
    rewrite !length_map, H1, Hw.
    replace (1 * (groups * cin) =? 1 * groups * cin)%nat with true
      by (symmetry; apply Nat.eqb_eq; lia).
    cbn [bind Nat.eqb]. unfold scatter_add, broadcast, zeros, shape0, sources.
    cbn [t_rows t_cols repeat length]. rewrite length_map, H1.
    cbn [Nat.eqb bind]. destruct ei as [|e [|? ?]]; try discriminate.
    cbn [map expand repeat all_lt negb]. rewrite andb_false_r.
    do 2 f_equal. cbn [sum_rows_at]. apply map_const_seq. }
  unfold propagate, size_ok, n_source_of in *.
  destruct size as [[n_target n_source]|].
  - rewrite Hsize. cbn [negb]. apply Hrun.
  - apply Hrun.
Qed.

End Mismatch.

(** C9, amended. [Convolution.forward] validates no shape up front: a
    mismatch is found, if at all, by the operation that trips over it.
    With valid indices and at least one edge, a feature width other than
    [groups * cin] is caught by the [view] inside [message]. When the
    kernel returns one row per edge attribute: two or more attributes, in
    another number than the edges, make [message] itself fail on the
    gathered features (the output having a column), and so the call; no
    attribute for two or more edges makes the call fail; no attribute for
    one edge is not caught, the call returns zeros whatever the source
    index of the edge. *)
Theorem mismatch_caught_inside_message (kern : kernel) (features : tensor2)
    (ei : edge_index) (edge_r : list (list R)) (size : option (nat * nat))
    (n_norm : R) (groups : nat) :
  (size_ok size features = true ->
   all_lt (targets ei) (shape0 features) = true ->
   ei <> [] ->
   t_cols features <> (groups * snd (k_shape_last2 (kern edge_r)))%nat ->
   forward kern features ei edge_r size n_norm groups = Err ViewError) /\
  (k_shape0 (kern edge_r) = length edge_r ->
   (2 <= length edge_r)%nat -> length edge_r <> length ei ->
   (groups * fst (k_shape_last2 (kern edge_r)) <> 0)%nat ->
   (forall x_j, shape0 x_j = length ei ->
      is_ok (message x_j (k_div (kern edge_r) (sqrt n_norm)) groups) = false) /\
   is_ok (forward kern features ei edge_r size n_norm groups) = false) /\
  (k_shape0 (kern edge_r) = length edge_r ->
   length edge_r = 0%nat -> (2 <= length ei)%nat ->
   is_ok (forward kern features ei edge_r size n_norm groups) = false) /\
  (k_shape0 (kern edge_r) = length edge_r ->
   length edge_r = 0%nat -> length ei = 1%nat ->
   size_ok size features = true ->
   all_lt (targets ei) (shape0 features) = true ->
   t_cols features = (groups * snd (k_shape_last2 (kern edge_r)))%nat ->
   forward kern features ei edge_r size n_norm groups =
   Ok (zeros (n_source_of size features)
             (groups * fst (k_shape_last2 (kern edge_r))))).
Proof.
  split; [apply wrong_width_caught_in_view|].
  split; [|split].
  - intros Hk H2 Hne Hd. split.
    + intros x_j Hx.
      apply (wrong_count_caught_in_message kern ei edge_r n_norm groups x_j);
        assumption.
    + unfold forward. apply propagate_err. intros x_j Hx _.
      pose proof (wrong_count_caught_in_message kern ei edge_r n_norm groups
                    x_j Hx Hk H2 Hne Hd) as Hm.
      destruct (message x_j _ groups); [discriminate | reflexivity].
  - intros Hk H0 H2. apply no_attribute_caught_in_scatter; [lia | exact H2].
  - intros Hk H0 H1. apply no_attribute_one_edge_accepted; [lia | exact H1].
Qed.

Lemma mismatch_caught_inside_message_witness :
  forward identity_scalar_kernel (mk2 2 [[1; 2]]) [(0, 0)%nat] [[1; 1; 1]]
          None 1 1 = Err ViewError /\
  is_ok (forward identity_scalar_kernel star_features star_edges
                 [[1; 1; 1]; [1; 1; 1]] None 1 1) = false /\
  is_ok (forward identity_scalar_kernel star_features star_edges [] None 1 1)
    = false /\
  forward identity_scalar_kernel star_features [(7, 0)%nat] [] None 1 1 =
  Ok (zeros 5 1).
Proof.
  split; [|split; [|split]].
  - apply (proj1 (mismatch_caught_inside_message identity_scalar_kernel
                    (mk2 2 [[1; 2]]) [(0, 0)%nat] [[1; 1; 1]] None 1 1)).
    + reflexivity.
    + reflexivity.
    + discriminate.
    + cbn. lia.
  - refine (proj2 (proj1 (proj2 (mismatch_caught_inside_message
                    identity_scalar_kernel star_features star_edges
                    [[1; 1; 1]; [1; 1; 1]] None 1 1)) _ _ _ _)).
    + reflexivity.
    + cbn. lia.
    + cbn. lia.
    + cbn. lia.
  - apply (proj1 (proj2 (proj2 (mismatch_caught_inside_message
                    identity_scalar_kernel star_features star_edges [] None 1 1)))).
    + reflexivity.
    + reflexivity.
    + cbn. lia.
  - apply (proj2 (proj2 (proj2 (mismatch_caught_inside_message
                    identity_scalar_kernel star_features [(7, 0)%nat] [] None 1 1)))).
    + reflexivity.
    + reflexivity.
    + reflexivity.
    + reflexivity.
    + reflexivity.
    + reflexivity.
Defined.

End ConvolutionClaims.

(* ================================================================== *)
(** * WTPConv and WTPConv2 *)

Module WTPConvClaims.

Lemma sdiv_one (t : tensor2) : sdiv t 1 = t.
Proof.
  destruct t as [c rows]. unfold sdiv. cbn [t_cols t_rows]. f_equal.
  rewrite <- (map_id rows) at 2. apply map_ext. intros row. apply vdiv_one.
Qed.

(** C10. In [WTPConv.forward] and [WTPConv2.forward] a supplied [sh] is
    divided by [sqrt(n_norm)] like a computed one: the output for
    [sh = s] and [n_norm = c] is the output for [sh = s / sqrt(c)] and
    [n_norm = 1], and in both layers the tensor product is called on
    [s / sqrt(c)]: [WTPConv.forward] is the propagation of that product,
    [WTPConv2.forward] is that propagation passed through [lin2] and
    mixed with [lin1] of the features. *)
Theorem supplied_sh_is_scaled (features : tensor2) (ei : edge_index)
    (edge_r : list (list R)) (s : tensor2) (size : option (nat * nat)) (c : R) :
  (forall L : WTPConv.layer,
     WTPConv.forward L features ei edge_r (Some s) size c =
     WTPConv.forward L features ei edge_r (Some (sdiv s (sqrt c))) size 1 /\
     WTPConv.forward L features ei edge_r (Some s) size c =
     propagate ei size features
       (fun x_j => WTPConv.tp L x_j (sdiv s (sqrt c))
                     (WTPConv.rm L (map norm2 edge_r)))) /\
  (forall L : WTPConv2.layer,
     WTPConv2.forward L features ei edge_r (Some s) size c =
     WTPConv2.forward L features ei edge_r (Some (sdiv s (sqrt c))) size 1 /\
     WTPConv2.forward L features ei edge_r (Some s) size c =
     (self_interation <- WTPConv2.lin1 L features ;;
      summed <- propagate ei size features
                  (fun x_j => WTPConv2.tp L x_j (sdiv s (sqrt c))
                                (WTPConv2.rm L (map norm2 edge_r))) ;;
      mixed <- WTPConv2.lin2 L summed ;;
      has <- WTPConv2.has_self_interaction L ;;
      weighted <- bop2 Rmult
                    (mk2 (length has)
                         [map (fun h => 1 + (sqrt (1 / 2) - 1) * h) has])
                    mixed ;;
      bop2 Rplus (smul (sqrt (1 / 2)) self_interation) weighted)).
Proof.
  split.
  - intros L. split; [|reflexivity].
    unfold WTPConv.forward. rewrite sqrt_1, sdiv_one. reflexivity.
  - intros L. split; [|reflexivity].
    unfold WTPConv2.forward. rewrite sqrt_1, sdiv_one. reflexivity.
Qed.

(** A tensor product that hands back [sh] makes the division visible in
    the output of [WTPConv2.forward]: with [n_norm = 4] the supplied
    [sh = 2] arrives as 1. *)
Lemma supplied_sh_observed :
  WTPConv2.forward echo_layer (mk2 1 [[0]]) [(0, 0)%nat] [[1; 0; 0]]
                   (Some (mk2 1 [[2]])) None 4 =
  Ok (mk2 1 [[1]]).
Proof.
  assert (Hs : sqrt 4 = 2).
  { replace 4 with (2 * 2) by lra. apply sqrt_square. lra. }
  unfold WTPConv2.forward, echo_layer.
  cbn [WTPConv2.lin1 WTPConv2.lin2 WTPConv2.tp WTPConv2.rm bind].
  unfold propagate, index_select, WTPConv2.message, scatter_add, broadcast,
    WTPConv2.has_self_interaction, bop2, sdiv, smul, shape0.
  cbn. rewrite Hs. do 4 f_equal. lra.
Qed.

End WTPConvClaims.

Module WTPConv2Facts.
Import WTPConv2.

Lemma block_vec_length (Rs_in : list rs_block) (b : rs_block) :
  length (block_vec Rs_in b) = block_dim b.
Proof.
  destruct b as [[mul l] p]. simpl. destruct (any_same_lp Rs_in l p);
    apply repeat_length.
Qed.

Lemma concat_blocks_length (Rs_in Rs : list rs_block) :
  length (concat (map (block_vec Rs_in) Rs)) = rs_dim Rs.
Proof.
  induction Rs as [|b Rs IH]; simpl; [reflexivity|].
  rewrite length_app, block_vec_length, IH. reflexivity.
Qed.

(** Inside block [b] the indicator is 1 exactly when the input has a
    block of the same [(l, p)]. *)
Lemma concat_blocks_nth (Rs_in Rs : list rs_block) (b c : nat)
    (mul l : nat) (p : Z) :
  nth_error Rs b = Some (mul, l, p) -> (c < mul * (2 * l + 1))%nat ->
  nth (block_offset Rs b + c) (concat (map (block_vec Rs_in) Rs)) 0 =
  if any_same_lp Rs_in l p then 1 else 0.
Proof.
  revert b. induction Rs as [|b0 Rs IH]; intros [|b] Hb Hc; simpl in Hb;
    try discriminate.
  - injection Hb as ->. unfold block_offset. cbn [firstn rs_dim fold_right map concat].
    rewrite Nat.add_0_l. rewrite app_nth1 by (rewrite block_vec_length; exact Hc).
    cbn [block_vec]. destruct (any_same_lp Rs_in l p); apply nth_repeat_lt; exact Hc.
  - unfold block_offset in *. cbn [firstn map concat]. 
    change (rs_dim (b0 :: firstn b Rs)) with (block_dim b0 + rs_dim (firstn b Rs))%nat.
    rewrite app_nth2 by (rewrite block_vec_length; lia).
    rewrite block_vec_length.
    replace (block_dim b0 + rs_dim (firstn b Rs) + c - block_dim b0)%nat
      with (rs_dim (firstn b Rs) + c)%nat by lia.
    apply IH; assumption.
Qed.

Lemma block_in_range (Rs : list rs_block) (b c : nat) (mul l : nat) (p : Z) :
  nth_error Rs b = Some (mul, l, p) -> (c < mul * (2 * l + 1))%nat ->
  (block_offset Rs b + c < rs_dim Rs)%nat.
Proof.
  revert b. induction Rs as [|b0 Rs IH]; intros [|b] Hb Hc; simpl in Hb;
    try discriminate.
  - injection Hb as ->. unfold block_offset. cbn. lia.
  - unfold block_offset in *. cbn [firstn].
    change (rs_dim (b0 :: firstn b Rs)) with (block_dim b0 + rs_dim (firstn b Rs))%nat.
    change (rs_dim (b0 :: Rs)) with (block_dim b0 + rs_dim Rs)%nat.
    specialize (IH b Hb Hc). lia.
Qed.

Lemma has_self_interaction_ok (L : layer) :
  Rs_out L <> [] ->
  has_self_interaction L = Ok (concat (map (block_vec (Rs_in L)) (Rs_out L))).
Proof.
  unfold has_self_interaction. destruct (Rs_out L) as [|b Rs] eqn:E;
    [contradiction|]. intros _. reflexivity.
Qed.

Section Mixing.

Variables (L : layer) (features : tensor2) (ei : edge_index)
          (edge_r : list (list R)) (sh : option tensor2)
          (size : option (nat * nat)) (n_norm : R).

(** The two paths [forward] mixes. *)
Variables (self_interaction aggregated messages : tensor2).

Local Abbreviation sh' :=
  (sdiv (match sh with
         | None => spherical_harmonics_xyz L edge_r
         | Some s => s
         end) (sqrt n_norm)).

Hypothesis self_path : lin1 L features = Ok self_interaction.
Hypothesis message_path :
  propagate ei size features
    (fun x_j => message L x_j sh' (rm L (map norm2 edge_r))) = Ok aggregated.
Hypothesis linear_path : lin2 L aggregated = Ok messages.

Hypothesis out_nonempty : Rs_out L <> [].
Hypothesis self_wf : wf2 self_interaction.
Hypothesis self_cols : t_cols self_interaction = rs_dim (Rs_out L).
Hypothesis messages_wf : wf2 messages.
Hypothesis messages_cols : t_cols messages = rs_dim (Rs_out L).
Hypothesis same_rows : shape0 self_interaction = shape0 messages.

(** C4. In [WTPConv2.forward], in every column of every output block
    [(mul, l, p)], the output is [sqrt(1/2)] times the self-interaction
    path plus [c] times the aggregated and linearly mapped message path,
    with [c = sqrt(1/2)] when [Rs_in] has a block of the same [(l, p)]
    and [c = 1] otherwise. *)
Theorem mixing_rule :
  exists out,
    forward L features ei edge_r sh size n_norm = Ok out /\
    shape0 out = shape0 messages /\ t_cols out = rs_dim (Rs_out L) /\
    forall i b mul l p c,
      (i < shape0 messages)%nat ->
      nth_error (Rs_out L) b = Some (mul, l, p) ->
      (c < mul * (2 * l + 1))%nat ->
      entry out i (block_offset (Rs_out L) b + c) =
      sqrt (1 / 2) * entry self_interaction i (block_offset (Rs_out L) b + c) +
      (if any_same_lp (Rs_in L) l p then sqrt (1 / 2) else 1) *
      entry messages i (block_offset (Rs_out L) b + c).
Proof.
  unfold forward. rewrite self_path. cbn [bind].
  rewrite message_path. cbn [bind]. rewrite linear_path. cbn [bind].
  rewrite has_self_interaction_ok by exact out_nonempty. cbn [bind].
  set (has := concat (map (block_vec (Rs_in L)) (Rs_out L))).
  assert (Hhas : length has = rs_dim (Rs_out L)) by apply concat_blocks_length.
  set (coef := mk2 (length has) [map (fun h => 1 + (sqrt (1 / 2) - 1) * h) has]).
  assert (Hcoef : wf2 coef) by (repeat constructor; apply length_map).
  destruct (bop2_defined Rmult coef messages (shape0 messages) (rs_dim (Rs_out L))) as [weighted Hw].
  { apply bdim_one_l. }
  { cbn [coef t_cols]. rewrite Hhas, messages_cols. apply bdim_same. }
  rewrite Hw. cbn [bind].
  pose proof (bop2_shape _ _ _ _ Hw) as [Hwn Hwd].
  cbn [coef t_cols] in Hwd. rewrite Hhas, messages_cols, bdim_same in Hwd.
  unfold shape0 at 1 in Hwn. cbn [coef t_rows length] in Hwn.
  rewrite bdim_one_l in Hwn. injection Hwn as Hwn. injection Hwd as Hwd.
  pose proof (bop2_wf _ _ _ _ Hw Hcoef messages_wf) as Hwwf.
  set (scaled := smul (sqrt (1 / 2)) self_interaction).
  assert (Hsn : shape0 scaled = shape0 messages)
    by (unfold scaled, smul, shape0; cbn [t_rows]; rewrite length_map; exact same_rows).
  assert (Hsd : t_cols scaled = rs_dim (Rs_out L)) by exact self_cols.
  assert (Hswf : wf2 scaled).
  { unfold wf2, scaled, smul. cbn [t_rows t_cols]. apply Forall_forall.
    intros row Hin. apply in_map_iff in Hin. destruct Hin as [r [<- Hr]].
    rewrite vscale_length. unfold wf2 in self_wf. rewrite Forall_forall in self_wf.
    apply self_wf. exact Hr. }
  destruct (bop2_defined Rplus scaled weighted (shape0 messages) (rs_dim (Rs_out L))) as [out Hout].
  { rewrite Hsn, <- Hwn. apply bdim_same. }
  { rewrite Hsd, <- Hwd. apply bdim_same. }
  exists out. split; [exact Hout|].
  pose proof (bop2_shape _ _ _ _ Hout) as [Hon Hod].
  rewrite Hsn, <- Hwn, bdim_same in Hon. rewrite Hsd, <- Hwd, bdim_same in Hod.
  injection Hon as Hon. injection Hod as Hod.
  split; [symmetry; exact Hon|]. split; [symmetry; exact Hod|].
  intros i b mul l p c Hi Hb Hc.
  pose proof (block_in_range _ _ _ _ _ _ Hb Hc) as Hj.
  set (j := (block_offset (Rs_out L) b + c)%nat) in *.
  rewrite (bop2_entry _ _ _ _ i j Hout Hswf Hwwf) by lia.
  rewrite Hsn, Hsd, <- Hwn, <- Hwd.
  rewrite (bidx_same _ i Hi), (bidx_same _ j Hj).
  rewrite (bop2_entry _ _ _ _ i j Hw Hcoef messages_wf) by lia.
  change (shape0 coef) with 1%nat. change (bidx 1 i) with 0%nat.
  change (t_cols coef) with (length has). rewrite Hhas, messages_cols.
  rewrite (bidx_same _ i Hi), (bidx_same _ j Hj).
  unfold entry at 1 2. cbn [scaled smul coef t_rows nth].
  rewrite (nth_indep _ [] (vscale (sqrt (1 / 2)) []))
    by (rewrite length_map; fold (shape0 self_interaction); rewrite same_rows; exact Hi).
  rewrite map_nth. unfold vscale.
  assert (Hrs : length (nth i (t_rows self_interaction) []) = rs_dim (Rs_out L))
    by (rewrite wf2_row; [exact self_cols | exact self_wf | rewrite same_rows; exact Hi]).
  rewrite (nth_indep (map _ (nth i (t_rows self_interaction) [])) 0
                     (sqrt (1 / 2) * 0))
    by (rewrite length_map, Hrs; exact Hj).
  rewrite (map_nth (fun x => sqrt (1 / 2) * x)).
  rewrite (nth_indep (map _ has) 0 (1 + (sqrt (1 / 2) - 1) * 0))
    by (rewrite length_map, Hhas; exact Hj).
  rewrite (map_nth (fun h => 1 + (sqrt (1 / 2) - 1) * h)).
  unfold j, has. rewrite (concat_blocks_nth _ _ _ _ mul l p Hb Hc).
  unfold entry. destruct (any_same_lp (Rs_in L) l p); ring.
Qed.

End Mixing.

Lemma mixing_rule_witness :
  exists out,
    forward mixed_layer (mk2 1 [[1]]) [(0, 0)%nat] [[1; 0; 0]] None None 1 =
      Ok out /\
    entry out 0 0 = sqrt (1 / 2) * 1 + sqrt (1 / 2) * (1 + 0) /\
    entry out 0 1 = sqrt (1 / 2) * 2 + 1 * (1 + 0).
Proof.
  destruct (mixing_rule mixed_layer (mk2 1 [[1]]) [(0, 0)%nat] [[1; 0; 0]] None
              None 1 (mk2 4 [[1; 2; 3; 4]])
              (mk2 4 [[1 + 0; 1 + 0; 1 + 0; 1 + 0]])
              (mk2 4 [[1 + 0; 1 + 0; 1 + 0; 1 + 0]]))
    as [out [Hout [_ [_ Hentries]]]].
  - reflexivity.
  - reflexivity.
  - reflexivity.
  - discriminate.
  - repeat constructor.
  - reflexivity.
  - repeat constructor.
  - reflexivity.
  - reflexivity.
  - exists out. split; [exact Hout|]. split.
    + apply (Hentries 0%nat 0%nat 1%nat 0%nat 1%Z 0%nat);
        [unfold shape0; simpl; lia | reflexivity | simpl; lia].
    + apply (Hentries 0%nat 1%nat 1%nat 1%nat (-1)%Z 0%nat);
        [unfold shape0; simpl; lia | reflexivity | simpl; lia].
Defined.

End WTPConv2Facts.

(* ================================================================== *)
(** * Bloom *)

Module BloomFacts.
Import Bloom.

(** A node whose signal is zero finds no peak. *)
Lemma zero_signal_max : tensor_max (map Rabs [0; 0; 0; 0]) = Ok 0.
Proof.
  cbn [map tensor_max fold_left]. rewrite Rabs_R0, !Rmax_0_0. reflexivity.
Qed.

(** C5, where the code departs from it. With [percentage=True] a node of
    all-zero signal gets no fallback peak: [forward] raises, at
    [torch.max(radii)] on a tensor of no radii, whatever the peak finder,
    the positions, the thresholds and [use_L1]. *)
Theorem percentage_zero_signal_raises (find_peaks : peak_finder) (res : nat)
    (pos : tensor2) (min_radius absolute_min : R) (use_L1 : bool) :
  forward find_peaks res (mk2 4 [[0; 0; 0; 0]]) pos min_radius true
          absolute_min use_L1 = Err ReduceEmptyError.
Proof.
  unfold forward. cbn [t_rows bloom_loop]. unfold bloom_node.
  rewrite zero_signal_max. cbn [bind].
  rewrite Rltb_false by lra. reflexivity.
Qed.

(** The same node blooms into one fallback point when [percentage] is
    off. *)
Lemma absolute_zero_signal_falls_back (find_peaks : peak_finder) (res : nat)
    (p : list R) (min_radius absolute_min : R) :
  length p = 3%nat ->
  forward find_peaks res (mk2 4 [[0; 0; 0; 0]]) (mk2 3 [p]) min_radius false
          absolute_min true =
  Ok (mk2 3 [map2 Rplus [0; 0; 0] p], [0%nat]).
Proof.
  intros Hp. unfold forward. cbn [t_rows bloom_loop]. unfold bloom_node.
  rewrite zero_signal_max. cbn [bind].
  rewrite Rltb_false by lra. cbn.
  destruct p as [|a [|b [|c [|]]]]; try discriminate. reflexivity.
Qed.

(** With [percentage=True] a node whose only peak is below the threshold
    gets no point at all, yet keeps an entry in the origin index. *)
Lemma percentage_weak_peak_dropped (res : nat) :
  forward (fun _ _ => [([0; 0; 1], 1 / 200)]) res (mk2 4 [[1; 0; 0; 0]])
          (mk2 3 [[0; 0; 0]]) (1 / 10) true (1 / 100) true =
  Ok (mk2 3 [], [0%nat]).
Proof.
  unfold forward. cbn [t_rows bloom_loop]. unfold bloom_node.
  cbn [map tensor_max fold_left bind fst snd].
  rewrite Rltb_true.
  - cbn [map fst snd tensor_max fold_left bind].
    rewrite Rltb_false.
    + reflexivity.
    + unfold Rmax. destruct (Rle_dec _ _); lra.
  - rewrite Rabs_R0, Rabs_R1. unfold Rmax.
    repeat destruct (Rle_dec _ _); lra.
Qed.

(** What one node contributes when [percentage] is off: at least one
    origin entry, all of them the node itself. *)
Lemma bloom_node_absolute (find_peaks : peak_finder) (res : nat)
    (min_radius absolute_min : R) (use_L1 : bool) (i : nat) (sig : list R)
    (piece : tensor2) (ids : list nat) :
  bloom_node find_peaks res min_radius false absolute_min use_L1 i sig =
    Ok (piece, ids) ->
  exists k, ids = repeat i (S k).
Proof.
  unfold bloom_node. destruct (tensor_max (map Rabs sig)) as [m|]; [|discriminate].
  cbn [bind].
  set (found := if Rltb 0 m then find_peaks res sig else []).
  cbn [keep_len]. destruct (length (nonzero_gt (map snd found) min_radius 0)) as [|k] eqn:E.
  - cbn [Nat.eqb]. destruct use_L1; intros H; injection H as _ <-;
      exists 0%nat; reflexivity.
  - cbn [Nat.eqb]. intros H. injection H as _ <-. exists k. reflexivity.
Qed.

Lemma bloom_loop_absolute (find_peaks : peak_finder) (res : nat)
    (min_radius absolute_min : R) (use_L1 : bool) (signal : list (list R))
    (i : nat) (pieces : list tensor2) (ids : list (list nat)) :
  bloom_loop find_peaks res min_radius false absolute_min use_L1 i signal =
    Ok (pieces, ids) ->
  length ids = length signal /\
  forall n, (n < length signal)%nat ->
    exists k, nth n ids [] = repeat (i + n)%nat (S k).
Proof.
  revert i pieces ids. induction signal as [|sig signal IH];
    intros i pieces ids H; simpl in H.
  - injection H as <- <-. split; [reflexivity|]. intros n Hn. simpl in Hn. lia.
  - destruct (bloom_node _ _ _ _ _ _ i sig) as [[piece id]|] eqn:Hnode;
      [|discriminate].
    cbn [bind] in H.
    destruct (bloom_loop _ _ _ _ _ _ (S i) signal) as [[ps is']|] eqn:Hloop;
      [|discriminate].
    cbn [bind fst snd] in H. injection H as <- <-.
    destruct (IH _ _ _ Hloop) as [Hlen Hnth].
    split; [simpl; lia|]. intros [|n] Hn.
    + rewrite Nat.add_0_r. simpl. eapply bloom_node_absolute. exact Hnode.
    + simpl in Hn. destruct (Hnth n) as [k Hk]; [lia|].
      exists k. replace (i + S n)%nat with (S i + n)%nat by lia. exact Hk.
Qed.

(** Bloom completeness when [percentage] is off: every node is the
    origin of a bloomed point. *)
Lemma absolute_complete (find_peaks : peak_finder) (res : nat)
    (signal pos : tensor2) (min_radius absolute_min : R) (use_L1 : bool)
    (out : tensor2) (origin_index : list nat) :
  forward find_peaks res signal pos min_radius false absolute_min use_L1 =
    Ok (out, origin_index) ->
  (shape0 signal <= length origin_index)%nat /\
  (forall n, (n < shape0 signal)%nat -> In n origin_index) /\
  (forall x, In x origin_index -> (x < shape0 signal)%nat).
Proof.
  unfold forward.
  destruct (bloom_loop _ _ _ _ _ _ 0 (t_rows signal)) as [[pieces ids]|] eqn:Hloop;
    [|discriminate].
  cbn [bind fst snd]. destruct (cat pieces) as [all_peaks|]; [|discriminate].
  cbn [bind]. destruct (index_select pos (concat ids)) as [origin|]; [|discriminate].
  cbn [bind]. destruct (bop2 Rplus all_peaks origin) as [o|]; [|discriminate].
  cbn [bind]. intros H. injection H as _ <-.
  destruct (bloom_loop_absolute _ _ _ _ _ _ _ _ _ Hloop) as [Hlen Hnth].
  fold (shape0 signal) in Hlen, Hnth.
  split; [|split].
  - rewrite <- Hlen. apply concat_length_ge. intros n Hn.
    destruct (Hnth n) as [k Hk]; [lia|]. rewrite Hk. discriminate.
  - intros n Hn. apply (in_concat_nth ids n); [lia|].
    destruct (Hnth n Hn) as [k Hk]. rewrite Hk. left. reflexivity.
  - intros x Hx. apply in_concat in Hx. destruct Hx as [l [Hl Hx]].
    apply (In_nth _ _ []) in Hl. destruct Hl as [n [Hn <-]].
    destruct (Hnth n) as [k Hk]; [lia|]. rewrite Hk in Hx.
    apply repeat_spec in Hx. subst x. simpl. lia.
Qed.

Lemma zero_signal_node (fp : Bloom.peak_finder) (res : nat) (min_radius am : R)
    (i : nat) :
  Bloom.bloom_node fp res min_radius false am true i [0; 0; 0; 0] =
  Ok (mk2 3 [[0; 0; 0]], [i]).
Proof.
  unfold Bloom.bloom_node. rewrite zero_signal_max. cbn [bind].
  rewrite Rltb_false by lra. reflexivity.
Qed.

End BloomFacts.

(* ================================================================== *)
(** * KMeans *)

Module KMeansFacts.
Import KMeans.

Lemma nearest_from_spec (p : list R) (b : nat) (y : list (list R * nat))
    (i : nat) (best : option (nat * R)) (c : nat) :
  nearest_from p b i y best = Some c ->
  (exists dj, best = Some (c, dj)) \/
  (exists k, (k < length y)%nat /\ c = (i + k)%nat /\ snd (nth k y ([], 0%nat)) = b).
Proof.
  revert i best. induction y as [|[c0 cb0] y IH]; intros i best H; simpl in H.
  - left. destruct best as [[j dj]|]; [|discriminate]. simpl in H.
    injection H as ->. exists dj. reflexivity.
  - assert (Hshift : forall best',
        nearest_from p b (S i) y best' = Some c ->
        (exists dj, best' = Some (c, dj)) \/
        (exists k, (k < length ((c0, cb0) :: y))%nat /\ c = (i + k)%nat /\
                   snd (nth k ((c0, cb0) :: y) ([], 0%nat)) = b)).
    { intros best' H'. destruct (IH _ _ H') as [Hb|[k [Hk [Hc Hs]]]].
      - left. exact Hb.
      - right. exists (S k). simpl. split; [lia|]. split; [lia|exact Hs]. }
    destruct (cb0 =? b)%nat eqn:E.
    + apply Nat.eqb_eq in E.
      assert (Hhere : (exists dj : R, Some (i, sqdist p c0) = Some (c, dj)) ->
                exists k, (k < length ((c0, cb0) :: y))%nat /\ c = (i + k)%nat /\
                          snd (nth k ((c0, cb0) :: y) ([], 0%nat)) = b).
      { intros [dj Hd]. injection Hd as -> _. exists 0%nat. simpl.
        split; [lia|]. split; [lia|exact E]. }
      destruct best as [[j dj]|].
      * destruct (Rltb (sqdist p c0) dj).
        -- destruct (Hshift _ H) as [Hb|Hk]; [right; apply Hhere; exact Hb | right; exact Hk].
        -- apply Hshift. exact H.
      * destruct (Hshift _ H) as [Hb|Hk]; [right; apply Hhere; exact Hb | right; exact Hk].
    + apply Hshift. exact H.
Qed.

(** What [nearest] promises: one centroid per point, in range and of the
    point's batch. *)
Lemma nearest_spec (x y : tensor2) (batch_x batch_y cl : list nat) :
  nearest x y batch_x batch_y = Ok cl ->
  length cl = shape0 x /\ length batch_x = shape0 x /\
  length batch_y = shape0 y /\
  forall i, (i < shape0 x)%nat ->
    (nth i cl 0%nat < shape0 y)%nat /\
    nth (nth i cl 0%nat) batch_y 0%nat = nth i batch_x 0%nat.
Proof.
  unfold nearest.
  destruct (shape0 x =? length batch_x)%nat eqn:Ex; [|discriminate].
  destruct (shape0 y =? length batch_y)%nat eqn:Ey; [|discriminate].
  apply Nat.eqb_eq in Ex, Ey. cbn [negb]. intros H.
  pose proof (mapM_length _ _ _ H) as Hlen.
  rewrite length_combine in Hlen. fold (shape0 x) in Hlen.
  rewrite <- Ex, Nat.min_id in Hlen.
  split; [exact Hlen|]. split; [symmetry; exact Ex|]. split; [symmetry; exact Ey|].
  intros i Hi. apply mapM_inv in H.
  pose proof (Forall2_nth_lt _ _ i ([], 0%nat) 0%nat H) as Hnth.
  cbv beta in Hnth. rewrite length_combine in Hnth. fold (shape0 x) in Hnth.
  rewrite <- Ex, Nat.min_id in Hnth. specialize (Hnth Hi).
  rewrite combine_nth in Hnth by exact Ex. cbn [fst snd] in Hnth.
  destruct (nearest_from _ _ _ _ _) as [c|] eqn:Hn; [|discriminate].
  injection Hnth as <-.
  apply nearest_from_spec in Hn. destruct Hn as [[dj Hd]|[k [Hk [Hc Hs]]]];
    [discriminate|].
  rewrite length_combine in Hk. fold (shape0 y) in Hk.
  rewrite <- Ey, Nat.min_id in Hk. simpl in Hc. subst c.
  split; [exact Hk|].
  rewrite combine_nth in Hs by exact Ey. exact Hs.
Qed.

(** The scan returns a closest row: its distance is no more than that of
    the row held so far and of every row of the batch still to come. *)
Lemma nearest_from_minimal (p : list R) (b : nat) (y : list (list R * nat))
    (i : nat) (best : option (nat * R)) (c : nat) :
  nearest_from p b i y best = Some c ->
  exists d,
    ((best = Some (c, d)) \/
     (exists k, (k < length y)%nat /\ c = (i + k)%nat /\
                snd (nth k y ([], 0%nat)) = b /\
                d = sqdist p (fst (nth k y ([], 0%nat))))) /\
    (forall j dj, best = Some (j, dj) -> d <= dj) /\
    (forall k, (k < length y)%nat -> snd (nth k y ([], 0%nat)) = b ->
               d <= sqdist p (fst (nth k y ([], 0%nat)))).
Proof.
  revert i best. induction y as [|[c0 cb0] y IH]; intros i best H; simpl in H.
  - destruct best as [[j dj]|]; [|discriminate]. simpl in H. injection H as ->.
    exists dj. split; [left; reflexivity|]. split.
    + intros j' dj' E. injection E as _ <-. lra.
    + intros k Hk. simpl in Hk. lia.
  - assert (Hlift : forall best' d,
        ((best' = Some (c, d)) \/
         (exists k, (k < length y)%nat /\ c = (S i + k)%nat /\
                    snd (nth k y ([], 0%nat)) = b /\
                    d = sqdist p (fst (nth k y ([], 0%nat))))) ->
        (best' = best \/ (cb0 = b /\ best' = Some (i, sqdist p c0))) ->
        (best = Some (c, d)) \/
        (exists k, (k < length ((c0, cb0) :: y))%nat /\ c = (i + k)%nat /\
                   snd (nth k ((c0, cb0) :: y) ([], 0%nat)) = b /\
                   d = sqdist p (fst (nth k ((c0, cb0) :: y) ([], 0%nat))))).
    { intros best' d [Hb|[k [Hk [Hc [Hs Hd]]]]] Hfrom.
      - destruct Hfrom as [->|[Hcb ->]]; [left; exact Hb|].
        injection Hb as <- <-. right. exists 0%nat. simpl.
        split; [lia|]. split; [lia|]. split; [exact Hcb | reflexivity].
      - right. exists (S k). simpl. split; [lia|]. split; [lia|].
        split; assumption. }
    destruct (cb0 =? b)%nat eqn:E.
    + apply Nat.eqb_eq in E. destruct best as [[j dj]|].
      * unfold Rltb in H. destruct (Rlt_dec (sqdist p c0) dj) as [Hlt|Hge].
        -- destruct (IH _ _ H) as [d [Hwhere [Hbest Hrest]]].
           exists d. split; [apply (Hlift _ d Hwhere); right; auto|].
           specialize (Hbest i (sqdist p c0) eq_refl). split.
           ++ intros j' dj' E'. injection E' as _ <-. lra.
           ++ intros [|k] Hk Hs; simpl in *; [exact Hbest|]. apply Hrest; [lia|exact Hs].
        -- destruct (IH _ _ H) as [d [Hwhere [Hbest Hrest]]].
           exists d. split; [apply (Hlift _ d Hwhere); left; reflexivity|].
           specialize (Hbest j dj eq_refl). split.
           ++ intros j' dj' E'. injection E' as _ <-. exact Hbest.
           ++ intros [|k] Hk Hs; simpl in *; [lra|]. apply Hrest; [lia|exact Hs].
      * destruct (IH _ _ H) as [d [Hwhere [Hbest Hrest]]].
        exists d. split; [apply (Hlift _ d Hwhere); right; auto|].
        specialize (Hbest i (sqdist p c0) eq_refl). split.
        -- intros j' dj' E'. discriminate.
        -- intros [|k] Hk Hs; simpl in *; [exact Hbest|]. apply Hrest; [lia|exact Hs].
    + apply Nat.eqb_neq in E. destruct (IH _ _ H) as [d [Hwhere [Hbest Hrest]]].
      exists d. split; [apply (Hlift _ d Hwhere); left; reflexivity|].
      split; [exact Hbest|].
      intros [|k] Hk Hs; simpl in *; [congruence|]. apply Hrest; [lia|exact Hs].
Qed.

(** [nearest] assigns every point a closest centroid of its batch. *)
Lemma nearest_minimal (x y : tensor2) (batch_x batch_y cl : list nat)
    (i k : nat) :
  nearest x y batch_x batch_y = Ok cl ->
  (i < shape0 x)%nat -> (k < shape0 y)%nat ->
  nth k batch_y 0%nat = nth i batch_x 0%nat ->
  sqdist (nth i (t_rows x) []) (nth (nth i cl 0%nat) (t_rows y) []) <=
  sqdist (nth i (t_rows x) []) (nth k (t_rows y) []).
Proof.
  unfold nearest.
  destruct (shape0 x =? length batch_x)%nat eqn:Ex; [|discriminate].
  destruct (shape0 y =? length batch_y)%nat eqn:Ey; [|discriminate].
  apply Nat.eqb_eq in Ex, Ey. cbn [negb]. intros H Hi Hk Hb.
  apply mapM_inv in H.
  pose proof (Forall2_nth_lt _ _ i ([], 0%nat) 0%nat H) as Hnth.
  cbv beta in Hnth. rewrite length_combine in Hnth. fold (shape0 x) in Hnth.
  rewrite <- Ex, Nat.min_id in Hnth. specialize (Hnth Hi).
  rewrite combine_nth in Hnth by exact Ex. cbn [fst snd] in Hnth.
  destruct (nearest_from _ _ _ _ _) as [c|] eqn:Hn; [|discriminate].
  injection Hnth as <-.
  apply nearest_from_minimal in Hn.
  destruct Hn as [d [[Hd|[k' [Hk' [Hc [_ Hd]]]]] [_ Hmin]]]; [discriminate|].
  rewrite length_combine in Hk'. fold (shape0 y) in Hk'.
  rewrite <- Ey, Nat.min_id in Hk'. simpl in Hc. subst c.
  rewrite combine_nth in Hd by exact Ey. cbn [fst] in Hd. rewrite <- Hd.
  specialize (Hmin k). rewrite length_combine in Hmin. fold (shape0 y) in Hmin.
  rewrite <- Ey, Nat.min_id in Hmin.
  rewrite combine_nth in Hmin by exact Ey. cbn [fst snd] in Hmin.
  apply Hmin; assumption.
Qed.

(** ** The triangle inequality *)

Lemma square_le_product (a b s p q : R) :
  0 <= p -> 0 <= q -> s * s <= p * p * (q * q) ->
  (a * b + s) * (a * b + s) <= (a * a + p * p) * (b * b + q * q).
Proof.
  intros Hp Hq Hle.
  assert (Hpq : 0 <= p * q) by nra.
  assert (Hsq : s * s <= p * q * (p * q)) by lra.
  assert (Hs : s <= p * q /\ - s <= p * q).
  { clear Hle. generalize dependent (p * q). intros t Ht Hsq. split.
    - apply Rnot_lt_le. intros Hlt.
      assert (0 < (s - t) * (s + t)) by (apply Rmult_lt_0_compat; lra). nra.
    - apply Rnot_lt_le. intros Hlt.
      assert (0 < (- s - t) * (- s + t)).
      { apply Rmult_lt_0_compat; [lra|]. lra. }
      nra. }
  destruct Hs as [Hs1 Hs2].
  pose proof (Rle_0_sqr (a * q - b * p)) as H1. unfold Rsqr in H1.
  pose proof (Rle_0_sqr (a * q + b * p)) as H2. unfold Rsqr in H2.
  assert (H3 : a * b * s <= a * a * (q * q) / 2 + b * b * (p * p) / 2).
  { destruct (Rle_dec 0 (a * b)) as [Hab|Hab].
    - assert (a * b * s <= a * b * (p * q))
        by (apply Rmult_le_compat_l; assumption).
      lra.
    - assert (- (a * b) * - s <= - (a * b) * (p * q))
        by (apply Rmult_le_compat_l; [lra | assumption]).
      lra. }
  lra.
Qed.

(** Cauchy-Schwarz, squared. *)
Lemma dot_square_le (u v : list R) :
  dot u v * dot u v <= dot u u * dot v v.
Proof.
  revert v. induction u as [|a u IH]; intros [|b v]; simpl; try lra.
  specialize (IH v).
  rewrite <- (sqrt_sqrt (dot u u)) in * by apply dot_self_nonneg.
  rewrite <- (sqrt_sqrt (dot v v)) in * by apply dot_self_nonneg.
  apply square_le_product; [apply sqrt_pos | apply sqrt_pos | exact IH].
Qed.

Lemma dot_le_norms (u v : list R) : dot u v <= norm2 u * norm2 v.
Proof.
  unfold norm2. rewrite <- sqrt_mult by apply dot_self_nonneg.
  destruct (Rle_dec 0 (dot u v)) as [H|H].
  - rewrite <- (sqrt_square (dot u v)) at 1 by exact H.
    apply sqrt_le_1_alt. apply dot_square_le.
  - pose proof (sqrt_pos (dot u u * dot v v)). lra.
Qed.

Lemma sqdist_split (x y z : list R) :
  length x = length y -> length y = length z ->
  sqdist x z = sqdist x y + 2 * dot (vsub x y) (vsub y z) + sqdist y z.
Proof.
  unfold sqdist, vsub, map2. revert y z.
  induction x as [|a x IH]; intros [|b y] [|c z] H1 H2; try discriminate;
    simpl; [lra|].
  rewrite (IH y z) by (simpl in *; lia). ring.
Qed.

(** The triangle inequality of the Euclidean distance on rows of one width. *)
Lemma distance_triangle (x y z : list R) :
  length x = length y -> length y = length z ->
  distance x z <= distance x y + distance y z.
Proof.
  intros H1 H2. unfold distance.
  pose proof (dot_le_norms (vsub x y) (vsub y z)) as Hcs.
  assert (Hu : 0 <= norm2 (vsub x y)) by apply sqrt_pos.
  assert (Hv : 0 <= norm2 (vsub y z)) by apply sqrt_pos.
  rewrite <- (sqrt_square (norm2 (vsub x y) + norm2 (vsub y z))) by lra.
  unfold norm2 at 1. apply sqrt_le_1_alt.
  fold (sqdist x z). rewrite (sqdist_split x y z H1 H2).
  assert (Ha : norm2 (vsub x y) * norm2 (vsub x y) = sqdist x y)
    by (unfold norm2; apply sqrt_sqrt; apply dot_self_nonneg).
  assert (Hb : norm2 (vsub y z) * norm2 (vsub y z) = sqdist y z)
    by (unfold norm2; apply sqrt_sqrt; apply dot_self_nonneg).
  nra.
Qed.

Lemma distance_sym (x y : list R) : distance x y = distance y x.
Proof.
  unfold distance, norm2. f_equal. unfold vsub, map2. revert y.
  induction x as [|a x IH]; intros [|b y]; simpl; try reflexivity.
  rewrite IH. ring.
Qed.

Lemma distance_sqdist_le (x a b : list R) :
  sqdist x a <= sqdist x b -> distance x a <= distance x b.
Proof. intros H. unfold distance, norm2. apply sqrt_le_1_alt. exact H. Qed.

End KMeansFacts.

Module UpdateFacts.
Import KMeans KMeansFacts.

Section Update.

Variables (pos centroids : tensor2) (batch centroids_batch : list nat)
          (classification : list nat).

Hypothesis pos_wf : wf2 pos.
Hypothesis centroids_wf : wf2 centroids.
Hypothesis same_cols : t_cols pos = t_cols centroids.
Hypothesis assigned :
  nearest pos centroids batch centroids_batch = Ok classification.

Lemma classification_length : length classification = shape0 pos.
Proof. apply (nearest_spec _ _ _ _ _ assigned). Qed.

Lemma classification_in_range :
  Forall (fun c => (c < shape0 centroids)%nat) classification.
Proof.
  apply Forall_forall. intros c Hin. apply (In_nth _ _ 0%nat) in Hin.
  destruct Hin as [i [Hi <-]]. rewrite classification_length in Hi.
  apply (nearest_spec _ _ _ _ _ assigned). exact Hi.
Qed.

Lemma update_centroids_entries :
  exists new_centroids,
    update_centroids pos batch centroids centroids_batch =
      Ok (new_centroids, classification) /\
    wf2 new_centroids /\
    shape0 new_centroids = shape0 centroids /\
    t_cols new_centroids = t_cols centroids /\
    forall c j, (c < shape0 centroids)%nat -> (j < t_cols centroids)%nat ->
      entry new_centroids c j =
      if (count_occ Nat.eq_dec classification c =? 0)%nat
      then entry centroids c j
      else assigned_mean pos classification c j.
Proof.
  pose proof classification_length as Hlen.
  pose proof classification_in_range as Hrange.
  set (M := shape0 centroids) in *. set (d := t_cols centroids) in *.
  unfold update_centroids. rewrite assigned. cbn [bind]. fold M.
  rewrite scatter_mean_ok by (first [symmetry; exact Hlen | exact Hrange]).
  cbn [bind].
  rewrite scatter_mean_ok;
    [| unfold shape0; cbn [t_rows]; rewrite repeat_length; symmetry; exact Hlen
     | exact Hrange].
  cbn [bind t_cols].
  set (update := mk2 (t_cols pos) (mean_rows pos classification M)).
  set (ones := mk2 1 (repeat [1] (shape0 pos))).
  set (mask := mk2 1 (mean_rows ones classification M)).
  set (omm := mk2 1 (map (map (fun m => 1 - m)) (t_rows mask))).
  assert (Hones : wf2 ones).
  { unfold wf2, ones. cbn [t_rows t_cols]. apply Forall_forall.
    intros row Hin. apply repeat_spec in Hin. subst. reflexivity. }
  assert (Huwf : wf2 update) by (apply mean_rows_wf; exact pos_wf).
  assert (Hmwf : wf2 mask) by (apply (mean_rows_wf ones); exact Hones).
  assert (Howf : wf2 omm).
  { unfold wf2, omm. cbn [t_rows t_cols]. apply Forall_forall.
    intros row Hin. apply in_map_iff in Hin. destruct Hin as [r [<- Hr]].
    rewrite length_map. unfold wf2 in Hmwf. rewrite Forall_forall in Hmwf.
    apply (Hmwf r Hr). }
  assert (Hun : shape0 update = M)
    by (unfold shape0, update, mean_rows; cbn [t_rows];
        rewrite length_map; apply length_seq).
  assert (Hmn : shape0 mask = M)
    by (unfold shape0, mask, mean_rows; cbn [t_rows];
        rewrite length_map; apply length_seq).
  assert (Hon : shape0 omm = M)
    by (unfold shape0, omm; cbn [t_rows]; rewrite length_map; exact Hmn).
  assert (Hud : t_cols update = d) by exact same_cols.
  destruct (bop2_defined Rmult update mask M d) as [kept Hkept].
  { rewrite Hun, Hmn. apply bdim_same. }
  { rewrite Hud. apply bdim_one_r. }
  destruct (bop2_defined Rmult centroids omm M d) as [old Hold].
  { fold M. rewrite Hon. apply bdim_same. }
  { apply bdim_one_r. }
  rewrite Hkept. cbn [bind]. fold omm. rewrite Hold. cbn [bind].
  pose proof (bop2_shape _ _ _ _ Hkept) as [Hkn Hkd].
  rewrite Hun, Hmn, bdim_same in Hkn. rewrite Hud in Hkd.
  change (t_cols mask) with 1%nat in Hkd. rewrite bdim_one_r in Hkd.
  injection Hkn as Hkn. injection Hkd as Hkd.
  pose proof (bop2_shape _ _ _ _ Hold) as [Hon' Hod].
  fold M in Hon'. rewrite Hon, bdim_same in Hon'.
  change (t_cols omm) with 1%nat in Hod. fold d in Hod. rewrite bdim_one_r in Hod.
  injection Hon' as Hon'. injection Hod as Hod.
  pose proof (bop2_wf _ _ _ _ Hkept Huwf Hmwf) as Hkwf.
  pose proof (bop2_wf _ _ _ _ Hold centroids_wf Howf) as Holdwf.
  destruct (bop2_defined Rplus kept old M d) as [new_c Hnew].
  { rewrite <- Hkn, <- Hon'. apply bdim_same. }
  { rewrite <- Hkd, <- Hod. apply bdim_same. }
  rewrite Hnew. cbn [bind].
  pose proof (bop2_shape _ _ _ _ Hnew) as [Hnn Hnd].
  rewrite <- Hkn, <- Hon', bdim_same in Hnn.
  rewrite <- Hkd, <- Hod, bdim_same in Hnd.
  injection Hnn as Hnn. injection Hnd as Hnd.
  exists new_c. split; [reflexivity|].
  split; [exact (bop2_wf _ _ _ _ Hnew Hkwf Holdwf)|].
  split; [symmetry; exact Hnn|]. split; [symmetry; exact Hnd|].
  intros c j Hc Hj.
  rewrite (bop2_entry _ _ _ _ c j Hnew Hkwf Holdwf) by lia.
  rewrite <- Hkn, <- Hkd, <- Hon', <- Hod.
  rewrite (bidx_same _ c Hc), (bidx_same _ j Hj).
  rewrite (bop2_entry _ _ _ _ c j Hkept Huwf Hmwf) by lia.
  rewrite (bop2_entry _ _ _ _ c j Hold centroids_wf Howf) by lia.
  rewrite Hun, Hmn, Hon, Hud. fold M d.
  rewrite (bidx_same _ c Hc), (bidx_same _ j Hj).
  change (t_cols mask) with 1%nat. change (t_cols omm) with 1%nat.
  change (bidx 1 j) with 0%nat.
  assert (Hmask : entry mask c 0 =
                  INR (count_occ Nat.eq_dec classification c) /
                  Rmax (INR (count_occ Nat.eq_dec classification c)) 1).
  { unfold mask, mean_rows. rewrite entry_map_seq by exact Hc.
    rewrite nth_vdiv. unfold ones. cbn [t_cols t_rows].
    rewrite <- Hlen, sum_rows_at_ones. reflexivity. }
  assert (Homm : entry omm c 0 = 1 - entry mask c 0).
  { unfold entry, omm. cbn [t_rows].
    rewrite (nth_indep _ [] (map (fun m => 1 - m) []))
      by (rewrite length_map; fold (shape0 mask); rewrite Hmn; exact Hc).
    rewrite map_nth.
    assert (Hrow : length (nth c (t_rows mask) []) = 1%nat)
      by (apply (wf2_row mask); [exact Hmwf | rewrite Hmn; exact Hc]).
    destruct (nth c (t_rows mask) []) as [|m [|m' r]]; try discriminate.
    reflexivity. }
  assert (Hupd : entry update c j =
                 nth j (sum_rows_at (t_cols pos) c (t_rows pos) classification) 0 /
                 Rmax (INR (count_occ Nat.eq_dec classification c)) 1).
  { unfold update, mean_rows. rewrite entry_map_seq by exact Hc.
    apply nth_vdiv. }
  rewrite Homm, Hmask, Hupd. unfold assigned_mean.
  destruct (count_occ Nat.eq_dec classification c) as [|k] eqn:Hcount.
  - cbn [Nat.eqb INR]. rewrite Rmax_right by lra. field.
  - cbn [Nat.eqb]. rewrite count_clamped_pos by lia.
    assert (Hk : INR (S k) <> 0) by (apply not_0_INR; lia).
    field. exact Hk.
Qed.

End Update.

Lemma update_centroids_nearest (pos centroids : tensor2)
    (batch centroids_batch : list nat) (new_centroids : tensor2)
    (classification : list nat) :
  update_centroids pos batch centroids centroids_batch =
    Ok (new_centroids, classification) ->
  nearest pos centroids batch centroids_batch = Ok classification.
Proof.
  unfold update_centroids.
  destruct (nearest pos centroids batch centroids_batch) as [cl|];
    [|discriminate].
  cbn [bind]. intros H.
  destruct (scatter_mean pos cl (shape0 centroids)) as [u|]; [|discriminate].
  cbn [bind] in H.
  destruct (scatter_mean _ cl (shape0 centroids)) as [m|]; [|discriminate].
  cbn [bind] in H.
  destruct (bop2 Rmult u m) as [k|]; [|discriminate]. cbn [bind] in H.
  destruct (bop2 Rmult centroids _) as [o|]; [|discriminate]. cbn [bind] in H.
  destruct (bop2 Rplus k o) as [n|]; [|discriminate]. cbn [bind] in H.
  injection H as _ ->. reflexivity.
Qed.

End UpdateFacts.

Module KMeansClaims.
Import KMeans KMeansFacts UpdateFacts.

(** C6. In one centroid update, once every point has found its nearest
    centroid, the update returns numbers only (no division by zero
    occurs, the counts being clamped to 1): a centroid with no assigned
    point keeps its previous value, entry by entry, and a centroid with
    assigned points becomes their mean. *)
Theorem empty_centroid_keeps_value (pos centroids : tensor2)
    (batch centroids_batch classification : list nat) :
  wf2 pos -> wf2 centroids -> t_cols pos = t_cols centroids ->
  nearest pos centroids batch centroids_batch = Ok classification ->
  exists new_centroids,
    update_centroids pos batch centroids centroids_batch =
      Ok (new_centroids, classification) /\
    shape0 new_centroids = shape0 centroids /\
    t_cols new_centroids = t_cols centroids /\
    forall c j, (c < shape0 centroids)%nat -> (j < t_cols centroids)%nat ->
      (count_occ Nat.eq_dec classification c = 0%nat ->
       entry new_centroids c j = entry centroids c j) /\
      ((0 < count_occ Nat.eq_dec classification c)%nat ->
       entry new_centroids c j = assigned_mean pos classification c j).
Proof.
  intros Hp Hc Hd Hn.
  destruct (update_centroids_entries pos centroids batch centroids_batch
              classification Hp Hc Hd Hn)
    as [nc [Hupd [_ [Hshape [Hcols Hentries]]]]].
  exists nc. split; [exact Hupd|]. split; [exact Hshape|]. split; [exact Hcols|].
  intros c j Hc' Hj. rewrite (Hentries c j Hc' Hj). split; intros Hcount.
  - rewrite Hcount. reflexivity.
  - destruct (count_occ Nat.eq_dec classification c); [lia | reflexivity].
Qed.

Lemma empty_centroid_keeps_value_witness :
  exists new_centroids,
    update_centroids lone_pos [0%nat] two_centroids [0; 1]%nat =
      Ok (new_centroids, [0%nat]) /\
    entry new_centroids 1 0 = 5 /\ entry new_centroids 0 0 = 1.
Proof.
  destruct (empty_centroid_keeps_value lone_pos two_centroids [0%nat]
              [0; 1]%nat [0%nat])
    as [nc [Hupd [_ [_ Hentries]]]].
  - repeat constructor.
  - repeat constructor.
  - reflexivity.
  - reflexivity.
  - exists nc. split; [exact Hupd|]. split.
    + destruct (Hentries 1%nat 0%nat) as [Hkeep _]; [unfold shape0; simpl; lia | simpl; lia |].
      rewrite Hkeep by reflexivity. reflexivity.
    + destruct (Hentries 0%nat 0%nat) as [_ Hmean]; [unfold shape0; simpl; lia | simpl; lia |].
      rewrite Hmean by (simpl; lia). unfold assigned_mean. cbn. field.
Defined.

Lemma nearest_of_two (p c0 c1 : list R) (b : nat) :
  nearest_from p b 0 [(c0, b); (c1, b)] None =
  Some (if Rltb (sqdist p c1) (sqdist p c0) then 1%nat else 0%nat).
Proof.
  cbn [nearest_from]. rewrite Nat.eqb_refl.
  destruct (Rltb (sqdist p c1) (sqdist p c0)); reflexivity.
Qed.

Lemma line_first_assignment :
  nearest line_pos line_centroids [0; 0; 0]%nat [0; 0]%nat = Ok [0; 0; 1]%nat.
Proof.
  unfold nearest, line_pos, line_centroids, shape0.
  cbn [t_rows length Nat.eqb negb combine mapM fst snd].
  rewrite !nearest_of_two.
  rewrite Rltb_false by (unfold sqdist, vsub, map2; cbn; lra).
  rewrite Rltb_false by (unfold sqdist, vsub, map2; cbn; lra).
  rewrite Rltb_true by (unfold sqdist, vsub, map2; cbn; lra).
  reflexivity.
Qed.

Lemma line_second_assignment :
  nearest line_pos line_moved [0; 0; 0]%nat [0; 0]%nat = Ok [0; 1; 1]%nat.
Proof.
  unfold nearest, line_pos, line_moved, shape0.
  cbn [t_rows length Nat.eqb negb combine mapM fst snd].
  rewrite !nearest_of_two.
  rewrite Rltb_false by (unfold sqdist, vsub, map2; cbn; lra).
  rewrite Rltb_true by (unfold sqdist, vsub, map2; cbn; lra).
  rewrite Rltb_true by (unfold sqdist, vsub, map2; cbn; lra).
  reflexivity.
Qed.

Lemma line_pos_wf : wf2 line_pos.
Proof. repeat constructor. Qed.
Lemma line_centroids_wf : wf2 line_centroids.
Proof. repeat constructor. Qed.
Lemma line_moved_wf : wf2 line_moved.
Proof. repeat constructor. Qed.

(** The update moves the first centroid by 1/2048 and keeps the second. *)
Lemma line_first_update :
  update_centroids line_pos [0; 0; 0]%nat line_centroids [0; 0]%nat =
  Ok (line_moved, [0; 0; 1]%nat).
Proof.
  destruct (update_centroids_entries line_pos line_centroids [0; 0; 0]%nat
              [0; 0]%nat [0; 0; 1]%nat line_pos_wf line_centroids_wf eq_refl
              line_first_assignment)
    as [nc [Hupd [Hwf [Hn [Hd Hentries]]]]].
  rewrite Hupd. do 2 f_equal.
  apply extensionality; try assumption; [apply line_moved_wf|].
  intros i j Hi Hj. rewrite Hn in Hi. rewrite Hd in Hj.
  rewrite Hentries by assumption.
  change (shape0 line_centroids) with 2%nat in Hi.
  change (t_cols line_centroids) with 3%nat in Hj.
  destruct i as [|[|i]]; [| |lia]; destruct j as [|[|[|j]]]; try lia;
    unfold assigned_mean, entry; cbn; field.
Qed.

Lemma line_converged : converged default_params line_centroids line_moved = Ok true.
Proof.
  unfold converged, bop2, line_centroids, line_moved, shape0.
  cbn [t_rows t_cols length bdim Nat.eqb bind expand map2 combine map fst snd
       forallb tol default_params].
  rewrite !Rltb_true; [reflexivity | |];
    apply sqrt_below; cbn; lra.
Qed.

Lemma stable_below_tol_as_stated_fails : ~ stable_below_tol_as_stated.
Proof.
  intros H.
  destruct (update_centroids_entries line_pos line_moved [0; 0; 0]%nat
              [0; 0]%nat [0; 1; 1]%nat line_pos_wf line_moved_wf eq_refl
              line_second_assignment)
    as [nc [Hupd _]].
  specialize (H default_params line_pos line_centroids [0; 0; 0]%nat [0; 0]%nat
                line_moved nc [0; 0; 1]%nat [0; 1; 1]%nat
                line_pos_wf line_centroids_wf eq_refl
                line_first_update line_converged Hupd).
  discriminate H.
Qed.

(** What the test of line 352 says when it holds: every centroid moved
    by less than [tol]. *)
Lemma converged_displacement (P : params) (centroids new_centroids : tensor2)
    (k : nat) :
  wf2 centroids -> wf2 new_centroids ->
  shape0 new_centroids = shape0 centroids ->
  t_cols new_centroids = t_cols centroids ->
  converged P centroids new_centroids = Ok true ->
  (k < shape0 centroids)%nat ->
  distance (nth k (t_rows centroids) []) (nth k (t_rows new_centroids) []) < tol P.
Proof.
  intros Hc Hn Hrows Hcols Hconv Hk. unfold converged, bop2 in Hconv.
  rewrite Hrows, Hcols, !bdim_same in Hconv. cbn [bind t_rows] in Hconv.
  injection Hconv as Hall. rewrite forallb_forall in Hall.
  apply Rltb_lt. unfold distance, vsub.
  set (f := fun ra rb : list R =>
              map2 Rminus (expand (t_cols centroids) ra) (expand (t_cols centroids) rb)) in *.
  replace (map2 Rminus (nth k (t_rows centroids) []) (nth k (t_rows new_centroids) []))
    with (nth k (map2 f (expand (shape0 centroids) (t_rows centroids))
                         (expand (shape0 centroids) (t_rows new_centroids))) []).
  - apply Hall. apply nth_In. rewrite map2_length.
    + unfold shape0. rewrite expand_same. exact Hk.
    + unfold shape0 at 1. rewrite expand_same. rewrite <- Hrows. unfold shape0.
      rewrite expand_same. fold (shape0 new_centroids) (shape0 centroids).
      symmetry. exact Hrows.
  - unfold shape0 at 1. rewrite expand_same. rewrite <- Hrows at 1.
    unfold shape0 at 1. rewrite expand_same.
    rewrite (nth_map2 f _ _ k [] [] []);
      [| exact Hk | fold (shape0 new_centroids); lia].
    unfold f.
    rewrite <- (wf2_row centroids k Hc Hk) at 1. rewrite expand_same.
    rewrite <- Hcols.
    rewrite <- (wf2_row new_centroids k Hn) by lia. rewrite expand_same.
    reflexivity.
Qed.

(** C7, amended. When one update step moves every centroid by less than
    [tol], the next update step can give a point only a centroid that was
    less than [2 * tol] farther from it than the centroid it had, the
    distances being those to the centroids before the step. So a point
    whose centroid was closer by [2 * tol] or more than every other
    centroid of its batch keeps its assignment. *)
Theorem assignment_stable_outside_margin (P : params)
    (pos centroids new_centroids newer_centroids : tensor2)
    (batch centroids_batch classification classification' : list nat)
    (i : nat) :
  wf2 pos -> wf2 centroids -> t_cols pos = t_cols centroids ->
  update_centroids pos batch centroids centroids_batch =
    Ok (new_centroids, classification) ->
  converged P centroids new_centroids = Ok true ->
  update_centroids pos batch new_centroids centroids_batch =
    Ok (newer_centroids, classification') ->
  (i < shape0 pos)%nat ->
  distance (nth i (t_rows pos) [])
           (nth (nth i classification' 0%nat) (t_rows centroids) []) <
  distance (nth i (t_rows pos) [])
           (nth (nth i classification 0%nat) (t_rows centroids) []) + 2 * tol P /\
  ((forall k, (k < shape0 centroids)%nat ->
      nth k centroids_batch 0%nat = nth i batch 0%nat ->
      k <> nth i classification 0%nat ->
      distance (nth i (t_rows pos) [])
               (nth (nth i classification 0%nat) (t_rows centroids) []) + 2 * tol P <=
      distance (nth i (t_rows pos) []) (nth k (t_rows centroids) [])) ->
   nth i classification' 0%nat = nth i classification 0%nat).
Proof.
  intros Hp Hc Hd Hupd Hconv Hupd' Hi.
  pose proof (update_centroids_nearest _ _ _ _ _ _ Hupd) as Hn.
  pose proof (update_centroids_nearest _ _ _ _ _ _ Hupd') as Hn'.
  destruct (update_centroids_entries pos centroids batch centroids_batch
              classification Hp Hc Hd Hn)
    as [nc [Hupd0 [Hwf [Hshape [Hcols _]]]]].
  rewrite Hupd in Hupd0. injection Hupd0 as <-.
  destruct (nearest_spec _ _ _ _ _ Hn) as [_ [_ [_ Hcl]]].
  destruct (nearest_spec _ _ _ _ _ Hn') as [_ [_ [_ Hcl']]].
  destruct (Hcl i Hi) as [Ha Hab]. destruct (Hcl' i Hi) as [Hb Hbb].
  rewrite Hshape in Hb.
  set (a := nth i classification 0%nat) in *.
  set (b := nth i classification' 0%nat) in *.
  set (x := nth i (t_rows pos) []) in *.
  assert (Hx : length x = t_cols centroids)
    by (unfold x; rewrite (wf2_row pos i Hp Hi); exact Hd).
  assert (Hrow : forall k, (k < shape0 centroids)%nat ->
            length (nth k (t_rows centroids) []) = t_cols centroids /\
            length (nth k (t_rows new_centroids) []) = t_cols centroids /\
            distance (nth k (t_rows centroids) []) (nth k (t_rows new_centroids) [])
              < tol P).
  { intros k Hk. split; [apply wf2_row; assumption|]. split.
    - rewrite <- Hcols. apply wf2_row; [exact Hwf | lia].
    - apply converged_displacement; assumption. }
  destruct (Hrow a Ha) as [Hla [Hla' Hda]].
  destruct (Hrow b Hb) as [Hlb [Hlb' Hdb]].
  assert (Hmin : distance x (nth b (t_rows new_centroids) []) <=
                 distance x (nth a (t_rows new_centroids) [])).
  { apply distance_sqdist_le.
    apply (nearest_minimal pos new_centroids batch centroids_batch classification'
             i a Hn' Hi); [lia | exact Hab]. }
  pose proof (distance_triangle x (nth b (t_rows new_centroids) [])
                (nth b (t_rows centroids) [])) as T1.
  pose proof (distance_triangle x (nth a (t_rows centroids) [])
                (nth a (t_rows new_centroids) [])) as T2.
  rewrite (distance_sym (nth b (t_rows new_centroids) [])) in T1.
  assert (Hclose : distance x (nth b (t_rows centroids) []) <
                   distance x (nth a (t_rows centroids) []) + 2 * tol P).
  { specialize (T1 ltac:(congruence) ltac:(congruence)).
    specialize (T2 ltac:(congruence) ltac:(congruence)). lra. }
  split; [exact Hclose|].
  intros Hmargin. destruct (Nat.eq_dec b a) as [E|E]; [exact E|].
  specialize (Hmargin b Hb Hbb E). lra.
Qed.

Lemma assignment_stable_outside_margin_witness :
  exists newer_centroids,
    update_centroids line_pos [0; 0; 0]%nat line_moved [0; 0]%nat =
      Ok (newer_centroids, [0; 1; 1]%nat) /\
    nth 2 [0; 1; 1]%nat 0%nat = nth 2 [0; 0; 1]%nat 0%nat.
Proof.
  destruct (update_centroids_entries line_pos line_moved [0; 0; 0]%nat
              [0; 0]%nat [0; 1; 1]%nat line_pos_wf line_moved_wf eq_refl
              line_second_assignment)
    as [nc [Hupd _]].
  exists nc. split; [exact Hupd|].
  apply (assignment_stable_outside_margin default_params line_pos line_centroids
           line_moved nc [0; 0; 0]%nat [0; 0]%nat [0; 0; 1]%nat [0; 1; 1]%nat 2).
  - exact line_pos_wf.
  - exact line_centroids_wf.
  - reflexivity.
  - exact line_first_update.
  - exact line_converged.
  - exact Hupd.
  - unfold shape0. simpl. lia.
  - intros k Hk _ Hne. unfold shape0 in Hk. simpl in Hk, Hne.
    destruct k as [|[|k]]; [|contradiction|lia].
    unfold distance, norm2, vsub, map2. cbn.
    replace ((16 - 16) * (16 - 16) + ((0 - 0) * (0 - 0) + ((0 - 0) * (0 - 0) + 0)))
      with 0 by ring.
    replace ((16 - 0) * (16 - 0) + ((0 - 0) * (0 - 0) + ((0 - 0) * (0 - 0) + 0)))
      with (16 * 16) by ring.
    rewrite sqrt_0, sqrt_square by lra. lra.
Defined.

End KMeansClaims.

(* ================================================================== *)
(** * Sparse products, graph components and labels *)

Module SparseFacts.
Import Sparse.

Lemma has_entry_spec (A : coo) (i j : nat) :
  has_entry A i j = true <-> In (i, j) A.
Proof.
  unfold has_entry. rewrite existsb_exists. split.
  - intros [[a b] [Hin E]]. cbn [fst snd] in E. apply andb_true_iff in E.
    destruct E as [E1 E2]. apply Nat.eqb_eq in E1, E2. subst. exact Hin.
  - intros H. exists (i, j). split; [exact H|]. cbn [fst snd].
    rewrite !Nat.eqb_refl. reflexivity.
Qed.

(** An entry of a product index comes from a pair of entries that share
    the middle index. *)
Lemma spspmm_spec (A B : coo) (m k n : nat) (out : coo) (i j : nat) :
  spspmm A B m k n = Ok out -> In (i, j) out ->
  (i < m)%nat /\ (j < n)%nat /\ exists l, In (i, l) A /\ In (l, j) B.
Proof.
  unfold spspmm. destruct (in_range A m k && in_range B k n); [|discriminate].
  cbn [negb]. intros H. injection H as <-. rewrite filter_In, in_prod_iff, !in_seq.
  cbn [fst snd]. intros [[Hi Hj] Hex]. split; [lia|]. split; [lia|].
  apply existsb_exists in Hex. destruct Hex as [l [_ Hl]].
  apply andb_true_iff in Hl. destruct Hl as [Ha Hb].
  exists l. split; apply has_entry_spec; assumption.
Qed.

(** The index of a product holds exactly the pairs joined through a
    middle index, each once. *)
Lemma spspmm_complete (A B : coo) (m k n : nat) (out : coo) (i j l : nat) :
  spspmm A B m k n = Ok out -> In (i, l) A -> In (l, j) B -> In (i, j) out.
Proof.
  unfold spspmm.
  destruct (in_range A m k && in_range B k n) eqn:Hr; [|discriminate].
  cbn [negb]. intros H Ha Hb. injection H as <-.
  apply andb_true_iff in Hr. destruct Hr as [Hra Hrb].
  unfold in_range in Hra, Hrb. rewrite forallb_forall in Hra, Hrb.
  specialize (Hra _ Ha). specialize (Hrb _ Hb). cbn [fst snd] in Hra, Hrb.
  apply andb_true_iff in Hra, Hrb. destruct Hra as [Hi Hl]. destruct Hrb as [_ Hj].
  apply Nat.ltb_lt in Hi, Hl, Hj.
  apply filter_In. split.
  - apply in_prod; apply in_seq; lia.
  - cbn [fst snd]. apply existsb_exists. exists l.
    split; [apply in_seq; lia|].
    apply andb_true_iff. split; apply has_entry_spec; assumption.
Qed.

Lemma spspmm_NoDup (A B : coo) (m k n : nat) (out : coo) :
  spspmm A B m k n = Ok out -> NoDup out.
Proof.
  unfold spspmm. destruct (in_range A m k && in_range B k n); [|discriminate].
  cbn [negb]. intros H. injection H as <-. apply NoDup_filter.
  assert (Hprod : forall (l1 l2 : list nat), NoDup l1 -> NoDup l2 ->
                    NoDup (list_prod l1 l2)).
  { intros l1 l2 H1 H2. induction H1 as [|a l1 Ha H1 IH]; simpl; [constructor|].
    apply NoDup_app.
    - apply NoDup_map_NoDup_ForallPairs; [|exact H2].
      intros x y _ _ E. injection E as ->. reflexivity.
    - exact IH.
    - intros [a' b'] Hin1 Hin2. apply in_map_iff in Hin1.
      destruct Hin1 as [x [E _]]. injection E as <- <-.
      apply in_prod_iff in Hin2. destruct Hin2 as [Hin2 _]. contradiction. }
  apply Hprod; apply seq_NoDup.
Qed.

End SparseFacts.

Module GraphFacts.
Import Graph.

Section Components.

Variables (N : nat) (key : nat -> nat).

Lemma labelling_init : labelling N key (seq 0 N).
Proof.
  split; [apply length_seq|]. intros n Hn. unfold lab_at.
  rewrite !seq_nth by lia. simpl. auto.
Qed.

Lemma lab_at_merge (lab : list nat) (u v n : nat) :
  (n < length lab)%nat ->
  lab_at (merge lab u v) n =
  if (lab_at lab n =? lab_at lab u)%nat || (lab_at lab n =? lab_at lab v)%nat
  then Nat.min (lab_at lab u) (lab_at lab v) else lab_at lab n.
Proof.
  intros Hn. unfold lab_at, merge.
  rewrite (nth_indep _ n ((fun x => if (x =? nth u lab u)%nat || (x =? nth v lab v)%nat
                                    then Nat.min (nth u lab u) (nth v lab v) else x) n))
    by (rewrite length_map; exact Hn).
  rewrite (map_nth (fun x => if (x =? nth u lab u)%nat || (x =? nth v lab v)%nat
                             then Nat.min (nth u lab u) (nth v lab v) else x)).
  reflexivity.
Qed.

Lemma labelling_merge (lab : list nat) (u v : nat) :
  labelling N key lab -> (u < N)%nat -> (v < N)%nat -> key u = key v ->
  labelling N key (merge lab u v).
Proof.
  intros [Hlen Hlab] Hu Hv Hkey.
  destruct (Hlab u Hu) as [Hau [Hua Hku]]. destruct (Hlab v Hv) as [Hbv [Hvb Hkv]].
  set (a := lab_at lab u) in *. set (b := lab_at lab v) in *.
  assert (Hmin : Nat.min a b = a \/ Nat.min a b = b) by lia.
  assert (Hkmin : key (Nat.min a b) = key u)
    by (destruct Hmin as [-> | ->]; congruence).
  assert (Hmin_fix : lab_at (merge lab u v) (Nat.min a b) = Nat.min a b).
  { rewrite lab_at_merge by (rewrite Hlen; lia). fold a b.
    destruct Hmin as [-> | ->].
    - rewrite Hua, Nat.eqb_refl. cbn [orb]. lia.
    - rewrite Hvb, Nat.eqb_refl, orb_true_r. lia. }
  split; [unfold merge; rewrite length_map; exact Hlen|].
  intros n Hn. destruct (Hlab n Hn) as [Hln [Hfix Hkn]].
  rewrite (lab_at_merge lab u v n) by (rewrite Hlen; exact Hn). fold a b.
  destruct ((lab_at lab n =? a)%nat || (lab_at lab n =? b)%nat) eqn:E.
  - split; [lia|]. split; [exact Hmin_fix|].
    rewrite Hkmin. apply orb_true_iff in E.
    destruct E as [E|E]; apply Nat.eqb_eq in E; congruence.
  - split; [exact Hln|]. split; [|exact Hkn].
    rewrite lab_at_merge by (rewrite Hlen; exact Hln). fold a b.
    rewrite Hfix, E. reflexivity.
Qed.

Lemma labelling_components (edges : list (nat * nat)) :
  Forall (fun e => (fst e < N)%nat /\ (snd e < N)%nat /\ key (fst e) = key (snd e))
         edges ->
  labelling N key (component_labels N edges).
Proof.
  unfold component_labels. intros He.
  assert (Hgen : forall lab, labelling N key lab ->
            labelling N key (fold_left (fun lab e => merge lab (fst e) (snd e)) edges lab)).
  { induction He as [|e edges [Hu [Hv Hk]] He IH]; intros lab Hlab; simpl.
    - exact Hlab.
    - apply IH. apply labelling_merge; assumption. }
  apply Hgen. apply labelling_init.
Qed.

End Components.

Section Connectivity.

Variables (N : nat) (edges : list (nat * nat)).

Hypothesis edges_in_range :
  Forall (fun e => (fst e < N)%nat /\ (snd e < N)%nat) edges.

(** A node stays connected to its label. *)
Lemma merge_sound (lab : list nat) (u v : nat) :
  length lab = N -> (u < N)%nat -> (v < N)%nat -> In (u, v) edges ->
  (forall n, (n < N)%nat -> connected edges n (lab_at lab n)) ->
  forall n, (n < N)%nat -> connected edges n (lab_at (merge lab u v) n).
Proof.
  intros Hlen Hu Hv Hin Hinv n Hn.
  rewrite lab_at_merge by (rewrite Hlen; exact Hn).
  assert (Hab : connected edges (lab_at lab u) (lab_at lab v)).
  { apply rst_trans with u; [apply rst_sym, Hinv; exact Hu|].
    apply rst_trans with v; [apply rst_step; exact Hin | apply Hinv; exact Hv]. }
  destruct ((lab_at lab n =? lab_at lab u)%nat || (lab_at lab n =? lab_at lab v)%nat)
    eqn:E; [|apply Hinv; exact Hn].
  apply rst_trans with (lab_at lab n); [apply Hinv; exact Hn|].
  apply orb_true_iff in E.
  destruct (Nat.min_spec (lab_at lab u) (lab_at lab v)) as [[_ ->] | [_ ->]];
    destruct E as [E|E]; apply Nat.eqb_eq in E; rewrite E;
    first [apply rst_refl | exact Hab | apply rst_sym; exact Hab].
Qed.

(** Merging keeps equal labels equal and joins the labels of the edge. *)
Lemma merge_complete (lab : list nat) (u v : nat) :
  length lab = N -> (u < N)%nat -> (v < N)%nat ->
  lab_at (merge lab u v) u = lab_at (merge lab u v) v /\
  forall x y, (x < N)%nat -> (y < N)%nat -> lab_at lab x = lab_at lab y ->
    lab_at (merge lab u v) x = lab_at (merge lab u v) y.
Proof.
  intros Hlen Hu Hv. split.
  - rewrite !lab_at_merge by (rewrite Hlen; assumption).
    rewrite !Nat.eqb_refl, orb_true_r. reflexivity.
  - intros x y Hx Hy E. rewrite !lab_at_merge by (rewrite Hlen; assumption).
    rewrite E. reflexivity.
Qed.

Lemma fold_merge_spec (es : list (nat * nat)) (lab : list nat) :
  Forall (fun e => (fst e < N)%nat /\ (snd e < N)%nat /\ In e edges) es ->
  length lab = N ->
  (forall n, (n < N)%nat -> connected edges n (lab_at lab n)) ->
  let lab' := fold_left (fun lab e => merge lab (fst e) (snd e)) es lab in
  length lab' = N /\
  (forall n, (n < N)%nat -> connected edges n (lab_at lab' n)) /\
  (forall e, In e es -> lab_at lab' (fst e) = lab_at lab' (snd e)) /\
  (forall x y, (x < N)%nat -> (y < N)%nat -> lab_at lab x = lab_at lab y ->
     lab_at lab' x = lab_at lab' y).
Proof.
  intros Hes. revert lab.
  induction Hes as [|[u v] es [Hu [Hv Hin]] Hes IH]; intros lab Hlen Hinv;
    cbn [fold_left fst snd] in *.
  - split; [exact Hlen|]. split; [exact Hinv|]. split; [intros e []|]. auto.
  - assert (Hlen' : length (merge lab u v) = N)
      by (unfold merge; rewrite length_map; exact Hlen).
    destruct (merge_complete lab u v Hlen Hu Hv) as [Huv Hkeep].
    destruct (IH (merge lab u v) Hlen'
                 (merge_sound lab u v Hlen Hu Hv Hin Hinv))
      as [Hl [Hs [He Hk]]].
    split; [exact Hl|]. split; [exact Hs|]. split.
    + intros e [<-|He']; [|apply He; exact He'].
      cbn [fst snd]. apply Hk; assumption.
    + intros x y Hx Hy E. apply Hk; try assumption. apply Hkeep; assumption.
Qed.

(** The labelling is that of the connected components: two nodes carry
    the same label exactly when a chain of edges joins them. *)
Lemma component_labels_connected (n m : nat) :
  (n < N)%nat -> (m < N)%nat ->
  lab_at (component_labels N edges) n = lab_at (component_labels N edges) m <->
  connected edges n m.
Proof.
  intros Hn Hm. unfold component_labels.
  destruct (fold_merge_spec edges (seq 0 N)) as [_ [Hs [He _]]].
  - apply Forall_forall. intros e Hin. rewrite Forall_forall in edges_in_range.
    destruct (edges_in_range e Hin) as [H1 H2]. auto.
  - apply length_seq.
  - intros k Hk. unfold lab_at. rewrite seq_nth by exact Hk. apply rst_refl.
  - split.
    + intros E. apply rst_trans with (lab_at (component_labels N edges) n);
        [apply Hs; exact Hn|].
      unfold component_labels. rewrite E. apply rst_sym, Hs. exact Hm.
    + intros Hc. clear Hn Hm.
      induction Hc as [x y Hxy | x | x y _ IH | x y z _ IH1 _ IH2].
      * apply (He (x, y) Hxy).
      * reflexivity.
      * symmetry. exact IH.
      * congruence.
Qed.

End Connectivity.

End GraphFacts.

Module LabelFacts.
Import Graph SymmetricKMeans GraphFacts.

Lemma set_one_spec (lb : list nat) (n i m : nat) :
  (n < length lb)%nat ->
  length (firstn n lb ++ i :: skipn (S n) lb) = length lb /\
  nth m (firstn n lb ++ i :: skipn (S n) lb) 0%nat =
  if (m =? n)%nat then i else nth m lb 0%nat.
Proof.
  intros Hn. split.
  - rewrite length_app, length_firstn. cbn [length]. rewrite length_skipn. lia.
  - destruct (m =? n)%nat eqn:E.
    + apply Nat.eqb_eq in E. subst m.
      rewrite app_nth2 by (rewrite length_firstn; lia).
      rewrite length_firstn. replace (n - Nat.min n (length lb))%nat with 0%nat by lia.
      reflexivity.
    + apply Nat.eqb_neq in E. destruct (Nat.lt_ge_cases m n) as [Hlt|Hge].
      * rewrite app_nth1 by (rewrite length_firstn; lia).
        rewrite nth_firstn. apply Nat.ltb_lt in Hlt. rewrite Hlt. reflexivity.
      * rewrite app_nth2 by (rewrite length_firstn; lia).
        rewrite length_firstn.
        replace (m - Nat.min n (length lb))%nat with (S (m - S n)) by lia.
        cbn [nth]. rewrite nth_skipn. f_equal. lia.
Qed.

Lemma set_all_spec (g : list nat) (lb : list nat) (i : nat) :
  Forall (fun n => (n < length lb)%nat) g ->
  length (fold_left (fun lb n => firstn n lb ++ i :: skipn (S n) lb) g lb) =
    length lb /\
  forall m,
    nth m (fold_left (fun lb n => firstn n lb ++ i :: skipn (S n) lb) g lb) 0%nat =
    if existsb (Nat.eqb m) g then i else nth m lb 0%nat.
Proof.
  revert lb. induction g as [|n g IH]; intros lb Hg; cbn [fold_left existsb].
  - split; [reflexivity|]. intros m. reflexivity.
  - apply Forall_cons_iff in Hg. destruct Hg as [Hn Hg].
    destruct (set_one_spec lb n i 0 Hn) as [Hlen _].
    destruct (IH (firstn n lb ++ i :: skipn (S n) lb)) as [Hlen' Hnth].
    { rewrite Hlen. exact Hg. }
    split; [rewrite Hlen'; exact Hlen|].
    intros m. rewrite Hnth. destruct (set_one_spec lb n i m Hn) as [_ Hm].
    rewrite Hm. destruct (m =? n)%nat; cbn [orb]; [|reflexivity].
    destruct (existsb (Nat.eqb m) g); reflexivity.
Qed.

Lemma existsb_eqb_in (m : nat) (g : list nat) :
  existsb (Nat.eqb m) g = true <-> In m g.
Proof.
  rewrite existsb_exists. split.
  - intros [x [Hx E]]. apply Nat.eqb_eq in E. subst. exact Hx.
  - intros H. exists m. split; [exact H | apply Nat.eqb_refl].
Qed.

(** After the assignment a node carries the index of a group that holds
    it, or its old label when no group does. *)
Lemma assign_labels_spec (groups : list (list nat)) (labels : list nat) (i : nat) :
  Forall (Forall (fun n => (n < length labels)%nat)) groups ->
  exists final,
    assign_labels labels i groups = Ok final /\
    length final = length labels /\
    forall m,
      (exists k, (k < length groups)%nat /\ In m (nth k groups []) /\
                 nth m final 0%nat = (i + k)%nat) \/
      ((forall k, (k < length groups)%nat -> ~ In m (nth k groups [])) /\
       nth m final 0%nat = nth m labels 0%nat).
Proof.
  revert labels i. induction groups as [|g groups IH]; intros labels i Hg.
  - exists labels. split; [reflexivity|]. split; [reflexivity|].
    intros m. right. split; [|reflexivity]. intros k Hk. simpl in Hk. lia.
  - apply Forall_cons_iff in Hg. destruct Hg as [Hg Hgs].
    destruct (set_all_spec g labels i Hg) as [Hlen Hnth].
    cbn [assign_labels]. apply all_lt_spec in Hg as Hall. rewrite Hall.
    destruct (IH (fold_left (fun lb n => firstn n lb ++ i :: skipn (S n) lb) g labels)
                 (S i)) as [final [Hfinal [Hflen Hfnth]]].
    { rewrite Hlen. exact Hgs. }
    exists final. split; [exact Hfinal|]. split; [rewrite Hflen; exact Hlen|].
    intros m. destruct (Hfnth m) as [[k [Hk [Hin Hval]]] | [Hnone Hval]].
    + left. exists (S k). cbn [length nth]. split; [lia|]. split; [exact Hin|]. lia.
    + rewrite Hnth in Hval. destruct (existsb (Nat.eqb m) g) eqn:E.
      * left. exists 0%nat. cbn [length nth]. split; [lia|].
        split; [apply existsb_eqb_in; exact E | lia].
      * right. split; [|exact Hval]. intros [|k] Hk Hin; cbn [nth length] in *.
        -- apply existsb_eqb_in in Hin. congruence.
        -- apply (Hnone k); [lia | exact Hin].
Qed.

Section Labels.

Variables (N : nat) (key : nat -> nat) (edges : list (nat * nat)).

Hypothesis edges_pure :
  Forall (fun e => (fst e < N)%nat /\ (snd e < N)%nat /\ key (fst e) = key (snd e))
         edges.

Local Abbreviation lab := (component_labels N edges).
Local Abbreviation reps := (filter (fun r => (nth r lab r =? r)%nat) (seq 0 N)).

Lemma reps_NoDup : NoDup reps.
Proof. apply NoDup_filter. apply seq_NoDup. Qed.

Lemma reps_spec (r : nat) : In r reps <-> (r < N)%nat /\ lab_at lab r = r.
Proof.
  rewrite filter_In, in_seq, Nat.eqb_eq. unfold lab_at. lia.
Qed.

Lemma group_spec (k n : nat) :
  (k < length reps)%nat ->
  In n (nth k (connected_components N edges) []) <->
  (n < N)%nat /\ lab_at lab n = nth k reps 0%nat.
Proof.
  intros Hk. unfold connected_components.
  rewrite (nth_indep _ [] ((fun r => filter (fun n => (nth n lab n =? r)%nat) (seq 0 N)) 0%nat))
    by (rewrite length_map; exact Hk).
  rewrite (map_nth (fun r => filter (fun n => (nth n lab n =? r)%nat) (seq 0 N))).
  rewrite filter_In, in_seq, Nat.eqb_eq. unfold lab_at. lia.
Qed.

Lemma groups_length : length (connected_components N edges) = length reps.
Proof. unfold connected_components. apply length_map. Qed.

(** The labels [SymmetricKMeans.forward] returns for a graph whose edges
    preserve [key]: one label per node, every label below the number of
    components in use, and equal labels only for equal keys. *)
Lemma labels_of_components :
  exists final,
    assign_labels (repeat 0%nat N) 0 (connected_components N edges) = Ok final /\
    length final = N /\
    (forall n, (n < N)%nat -> (nth n final 0%nat < length reps)%nat) /\
    (forall c, (c < length reps)%nat ->
       exists n, (n < N)%nat /\ nth n final 0%nat = c) /\
    (forall n m, (n < N)%nat -> (m < N)%nat ->
       nth n final 0%nat = nth m final 0%nat -> key n = key m).
Proof.
  pose proof (labelling_components N key edges edges_pure) as [Hlen Hlab].
  destruct (assign_labels_spec (connected_components N edges) (repeat 0%nat N) 0)
    as [final [Hfinal [Hflen Hfnth]]].
  { apply Forall_forall. intros g Hg. apply (In_nth _ _ []) in Hg.
    destruct Hg as [k [Hk <-]]. rewrite groups_length in Hk.
    apply Forall_forall. intros n Hn. rewrite repeat_length.
    apply (group_spec k n Hk). exact Hn. }
  rewrite repeat_length in Hflen.
  assert (Hnode : forall n, (n < N)%nat ->
            exists k, (k < length reps)%nat /\ nth n final 0%nat = k /\
                      nth k reps 0%nat = lab_at lab n).
  { intros n Hn. destruct (Hlab n Hn) as [Hrange [Hfix _]].
    destruct (Hfnth n) as [[k [Hk [Hin Hval]]] | [Hnone _]].
    - rewrite groups_length in Hk. exists k. split; [exact Hk|].
      split; [exact Hval|]. symmetry. apply (group_spec k n Hk). exact Hin.
    - exfalso.
      assert (Hrep : In (lab_at lab n) reps) by (apply reps_spec; auto).
      apply (In_nth _ _ 0%nat) in Hrep. destruct Hrep as [k [Hk Hrk]].
      apply (Hnone k); [rewrite groups_length; exact Hk|].
      apply (group_spec k n Hk). auto. }
  exists final. split; [exact Hfinal|]. split; [exact Hflen|].
  split; [|split].
  - intros n Hn. destruct (Hnode n Hn) as [k [Hk [Hval _]]]. lia.
  - intros c Hc. exists (nth c reps 0%nat).
    assert (Hin : In (nth c reps 0%nat) reps) by (apply nth_In; exact Hc).
    apply reps_spec in Hin. destruct Hin as [Hr Hfix].
    split; [exact Hr|]. destruct (Hnode _ Hr) as [k [Hk [Hval Hrk]]].
    rewrite Hfix in Hrk. rewrite Hval.
    apply (proj1 (NoDup_nth reps 0%nat) reps_NoDup k c Hk Hc Hrk).
  - intros n m Hn Hm Heq.
    destruct (Hnode n Hn) as [k [_ [Hvn Hrn]]].
    destruct (Hnode m Hm) as [k' [_ [Hvm Hrm]]].
    assert (Hsame : lab_at lab n = lab_at lab m) by congruence.
    destruct (Hlab n Hn) as [_ [_ Hkn]]. destruct (Hlab m Hm) as [_ [_ Hkm]].
    congruence.
Qed.

End Labels.

End LabelFacts.

(* ================================================================== *)
(** * SymmetricKMeans *)

Module ClusterFacts.
Import KMeans KMeansFacts UpdateFacts.

Lemma update_batch_respecting (pos centroids new_centroids : tensor2)
    (batch centroids_batch cl : list nat) :
  update_centroids pos batch centroids centroids_batch = Ok (new_centroids, cl) ->
  batch_respecting pos batch centroids_batch cl.
Proof.
  intros H. apply update_centroids_nearest in H. apply nearest_spec in H.
  destruct H as [H1 [H2 [_ H4]]]. split; [exact H1|]. split; [exact H2|].
  intros i Hi. apply H4. exact Hi.
Qed.

Lemma iterate_batch_respecting (P : params) (n : nat) (pos : tensor2)
    (batch : list nat) (centroids : tensor2) (centroids_batch : list nat)
    (last : option (list nat)) (cl : list nat) (cen : tensor2) (cb : list nat) :
  (forall cl0, last = Some cl0 -> batch_respecting pos batch centroids_batch cl0) ->
  iterate P n pos batch centroids centroids_batch last = Ok (cl, cen, cb) ->
  batch_respecting pos batch centroids_batch cl /\ cb = centroids_batch.
Proof.
  revert centroids last. induction n as [|n IH]; intros centroids last Hlast H;
    cbn [iterate] in H.
  - destruct last as [cl0|]; [|discriminate]. injection H as <- _ <-.
    split; [apply Hlast; reflexivity | reflexivity].
  - destruct (update_centroids pos batch centroids centroids_batch)
      as [[new_c cl1]|] eqn:Hupd; [|discriminate].
    cbn [bind] in H.
    destruct (converged P centroids new_c) as [stop|]; [|discriminate].
    cbn [bind] in H. apply update_batch_respecting in Hupd.
    destruct stop.
    + injection H as <- _ <-. split; [exact Hupd | reflexivity].
    + apply (IH new_c (Some cl1)); [|exact H].
      intros cl0 E. injection E as <-. exact Hupd.
Qed.

Lemma forward_batch_respecting (P : params) (fps : sampler) (pos : tensor2)
    (batch : list nat) (start_pos : option tensor2)
    (start_batch : option (list nat)) (fps_ratio : R)
    (cl : list nat) (cen : tensor2) (cb : list nat) :
  forward P fps pos batch start_pos start_batch fps_ratio = Ok (cl, cen, cb) ->
  batch_respecting pos batch cb cl.
Proof.
  unfold forward.
  destruct (match start_pos with
            | Some sp => match start_batch with
                         | Some sb => Ok (sp, sb)
                         | None => Err TypeError
                         end
            | None => Ok (pos, batch)
            end) as [[sp sb]|]; [|discriminate].
  cbn [bind]. destruct (index_select sp _) as [centroids|]; [|discriminate].
  cbn [bind]. destruct (index_select1 sb _) as [centroids_batch|]; [|discriminate].
  cbn [bind]. intros H. apply iterate_batch_respecting in H.
  - destruct H as [H ->]. exact H.
  - intros cl0 E. discriminate.
Qed.

End ClusterFacts.

Module SymmetricFacts.
Import SymmetricKMeans ClusterFacts SparseFacts.

Lemma big_batch_of_spec (Rn : nat) (batch bb : list nat) :
  big_batch_of Rn batch = Ok bb ->
  exists B,
    max_plus_1 batch = Ok B /\
    length bb = (Rn * length batch)%nat /\
    forall r n, (r < Rn)%nat -> (n < length batch)%nat ->
      nth (r * length batch + n) bb 0%nat = (nth n batch 0%nat + r * B)%nat.
Proof.
  unfold big_batch_of. destruct (max_plus_1 batch) as [B|]; [|discriminate].
  cbn [bind]. intros H. injection H as <-. exists B. split; [reflexivity|].
  assert (Hblocks : Forall (fun b : list nat => length b = length batch)
                      (map (fun r => map (fun b => (b + r * B)%nat) batch) (seq 0 Rn))).
  { apply Forall_forall. intros b Hb. apply in_map_iff in Hb.
    destruct Hb as [r [<- _]]. apply length_map. }
  split.
  - rewrite (length_concat_blocks _ _ Hblocks), length_map, length_seq. reflexivity.
  - intros r n Hr Hn.
    rewrite (nth_concat_blocks _ _ r n 0%nat Hblocks)
      by (rewrite ?length_map, ?length_seq; assumption).
    rewrite (nth_indep _ [] ((fun r => map (fun b => (b + r * B)%nat) batch) 0%nat))
      by (rewrite length_map, length_seq; exact Hr).
    rewrite (map_nth (fun r => map (fun b => (b + r * B)%nat) batch)).
    rewrite seq_nth by exact Hr. cbn [Nat.add].
    rewrite (nth_indep _ 0%nat ((fun b => (b + r * B)%nat) 0%nat))
      by (rewrite length_map; exact Hn).
    rewrite (map_nth (fun b => (b + r * B)%nat)). reflexivity.
Qed.

Lemma cat_copies_shape (n : nat) (t big : tensor2) :
  cat_copies n t = Ok big -> (0 < n)%nat /\ shape0 big = (n * shape0 t)%nat.
Proof.
  unfold cat_copies. destruct n as [|n]; [discriminate|].
  intros H.
  assert (E : big = mk2 (t_cols t) (concat (repeat (t_rows t) (S n))))
    by congruence.
  rewrite E. split; [lia|].
  unfold shape0. cbn [t_rows].
  rewrite (length_concat_blocks _ (length (t_rows t))).
  - rewrite repeat_length. reflexivity.
  - apply Forall_forall. intros b Hb. apply repeat_spec in Hb. subst. reflexivity.
Qed.

Lemma index2_spec (classification : list (list nat)) (rn : list (nat * nat))
    (out : list nat) (c n : nat) :
  index2 classification rn = Ok out ->
  In (c, n) (combine out (map snd rn)) ->
  exists r row, nth_error classification r = Some row /\
                nth_error row n = Some c.
Proof.
  unfold index2. intros H. apply mapM_inv in H.
  induction H as [|p c0 rn out Hp H IH]; simpl; [contradiction|].
  intros [E|Hin].
  - injection E as E1 E2. subst c0. rewrite <- E2.
    destruct (nth_error classification (fst p)) as [row|] eqn:Hrow; [|discriminate].
    destruct (nth_error row (snd p)) as [c'|] eqn:Hc; [|discriminate].
    injection Hp as ->. exists (fst p), row. split; assumption.
  - apply IH. exact Hin.
Qed.

(** The edges between points that share a best cluster join points of
    one batch, whenever every cluster is in the batch of its points. *)
Lemma cluster_edges_pure (P : params) (scores : list (list R))
    (classification : list (list nat)) (num_centroids : nat)
    (batch : list nat) (edges : Sparse.coo) (cb : list nat) (B : nat) :
  max_plus_1 batch = Ok B ->
  (forall r row n c, nth_error classification r = Some row ->
     nth_error row n = Some c ->
     (n < length batch)%nat /\ nth c cb 0%nat = (nth n batch 0%nat + r * B)%nat) ->
  cluster_edge_index_by_score P scores classification num_centroids batch =
    Ok edges ->
  Forall (fun e => (fst e < length batch)%nat /\ (snd e < length batch)%nat /\
                   nth (fst e) batch 0%nat = nth (snd e) batch 0%nat) edges.
Proof.
  intros HB Hcls. unfold cluster_edge_index_by_score.
  destruct (min_dim0 scores) as [min_scores|]; [|discriminate]. cbn [bind].
  rewrite HB. cbn [bind].
  destruct (Sparse.spspmm _ _ (rand_iter P) B (length batch)) as [bc|];
    [|discriminate].
  cbn [bind]. destruct (index2 classification bc) as [best_clusters|] eqn:Hidx;
    [|discriminate].
  cbn [bind]. intros Hedges. apply Forall_forall. intros [i j] Hin.
  cbn [fst snd].
  destruct (spspmm_spec _ _ _ _ _ _ i j Hedges Hin) as [Hi [Hj [c [Hic Hcj]]]].
  apply in_map_iff in Hic. destruct Hic as [[c' i'] [E Hic]].
  cbn [fst snd] in E. injection E as -> ->.
  destruct (index2_spec _ _ _ _ _ Hidx Hic) as [r [row [Hrow Hc]]].
  destruct (index2_spec _ _ _ _ _ Hidx Hcj) as [r' [row' [Hrow' Hc']]].
  destruct (Hcls _ _ _ _ Hrow Hc) as [_ Hbi].
  destruct (Hcls _ _ _ _ Hrow' Hc') as [_ Hbj].
  split; [exact Hi|]. split; [exact Hj|].
  destruct (max_plus_1_spec _ _ HB) as [Hlt _].
  pose proof (Hlt i Hi) as Hbi'. pose proof (Hlt j Hj) as Hbj'.
  rewrite Hbi in Hbj.
  assert (Hmod : ((nth i batch 0 + r * B) mod B = (nth j batch 0 + r' * B) mod B)%nat)
    by (rewrite Hbj; reflexivity).
  rewrite !Nat.Div0.mod_add, !Nat.mod_small in Hmod by assumption.
  exact Hmod.
Qed.

End SymmetricFacts.

(* ================================================================== *)
(** * Pooling *)

Module PoolingClaims.
Import Pooling ClusterFacts SymmetricFacts LabelFacts BloomFacts UpdateFacts.

(** What the labels of [SymmetricKMeans.forward] satisfy over the points
    of [pos]: one label per point, no label of the range unused, and no
    label shared across batches. *)
Lemma symmetric_forward_spec (P : SymmetricKMeans.params) (fps : KMeans.sampler)
    (pos : tensor2) (batch : list nat) (start_pos : option tensor2)
    (start_batch : option (list nat)) (fps_ratio : R) (labels : list nat) :
  SymmetricKMeans.forward P fps pos batch start_pos start_batch fps_ratio =
    Ok labels ->
  length batch = shape0 pos /\ length labels = shape0 pos /\
  exists G,
    (forall n, (n < shape0 pos)%nat -> (nth n labels 0 < G)%nat) /\
    (forall c, (c < G)%nat ->
       exists n, (n < shape0 pos)%nat /\ nth n labels 0%nat = c) /\
    (forall n m, (n < shape0 pos)%nat -> (m < shape0 pos)%nat ->
       nth n labels 0%nat = nth m labels 0%nat ->
       nth n batch 0%nat = nth m batch 0%nat).
Proof.
  unfold SymmetricKMeans.forward.
  destruct (SymmetricKMeans.cat_copies _ pos) as [big_pos|] eqn:Hbig;
    [|discriminate].
  cbn [bind].
  destruct (SymmetricKMeans.big_batch_of _ batch) as [bb|] eqn:Hbb;
    [|discriminate].
  cbn [bind].
  match goal with
  | |- context [bind ?m _] =>
      destruct m as [[big_start_pos big_start_batch]|]; [|discriminate]
  end.
  cbn [bind fst snd].
  destruct (KMeans.forward _ fps big_pos bb big_start_pos big_start_batch fps_ratio)
    as [[[cl cen] cb]|] eqn:Hkm; [|discriminate].
  cbn [bind].
  destruct (KMeans.score _ big_pos bb cen cl) as [scores|]; [|discriminate].
  cbn [bind].
  destruct (reshape_rows _ scores) as [scores'|]; [|discriminate].
  cbn [bind].
  destruct (reshape_rows _ cl) as [cls|] eqn:Hcls; [|discriminate].
  cbn [bind].
  destruct (SymmetricKMeans.cluster_edge_index_by_score P scores' cls _ batch)
    as [edges|] eqn:Hedges; [|discriminate].
  cbn [bind]. intros Hlabels.
  apply cat_copies_shape in Hbig. destruct Hbig as [HR Hbigshape].
  apply big_batch_of_spec in Hbb. destruct Hbb as [B [HB [Hbblen Hbbnth]]].
  apply forward_batch_respecting in Hkm.
  destruct Hkm as [Hcllen [Hbbshape Hresp]].
  rewrite Hbigshape in Hcllen, Hbbshape, Hresp.
  assert (Hbatch : length batch = shape0 pos) by nia.
  assert (Hpure : Forall
            (fun e => (fst e < shape0 pos)%nat /\ (snd e < shape0 pos)%nat /\
                      nth (fst e) batch 0%nat = nth (snd e) batch 0%nat)
            (filter (fun ij : nat * nat => (fst ij <=? snd ij)%nat) edges)).
  { apply Forall_forall. intros e He. apply filter_In in He. destruct He as [He _].
    assert (Hall := cluster_edges_pure P scores' cls (shape0 cen) batch edges cb B HB).
    rewrite Hbatch in Hall. rewrite Forall_forall in Hall.
    apply Hall; [|exact Hedges|exact He].
    intros r row n c Hrow Hc.
    destruct (reshape_rows_entry _ (shape0 pos) cl cls r n c row HR Hcllen Hcls Hrow Hc)
      as [Hr [Hn ->]].
    split; [exact Hn|].
    rewrite Hresp by nia.
    rewrite <- Hbatch. apply Hbbnth; [exact Hr | rewrite Hbatch; exact Hn]. }
  destruct (labels_of_components (shape0 pos) (fun n => nth n batch 0%nat) _ Hpure)
    as [final [Hfinal [Hflen [Hlt [Hused Hkey]]]]].
  rewrite Hfinal in Hlabels. injection Hlabels as <-.
  split; [exact Hbatch|]. split; [exact Hflen|].
  eexists. split; [exact Hlt|]. split; [exact Hused | exact Hkey].
Qed.

(** C8. In [Pooling.forward], once the clusters are made: every bloomed
    point has exactly one cluster id, below the cluster count [C]; every
    cluster id below [C] is the cluster of some bloomed point, so no
    output cluster is empty; two bloomed points of one cluster come from
    nodes of one batch example; and every original node is the origin of
    at least one bloomed point. *)
Theorem pooling_conservation (L : layer) (x pos : tensor2) (ei : edge_index)
    (edge_attr : list (list R)) (min_radius : R) (batch : list nat)
    (n_norm : R) (r : clustering) :
  forward_clusters L x pos ei edge_attr min_radius (Some batch) n_norm = Ok r ->
  length (clusters r) = length (bloom_batch r) /\
  (forall k, (k < length (bloom_batch r))%nat ->
     (nth k (clusters r) 0 < n_clusters r)%nat) /\
  (forall c, (c < n_clusters r)%nat ->
     exists k, (k < length (bloom_batch r))%nat /\ nth k (clusters r) 0%nat = c) /\
  (forall k k', (k < length (bloom_batch r))%nat ->
     (k' < length (bloom_batch r))%nat ->
     nth k (clusters r) 0%nat = nth k' (clusters r) 0%nat ->
     nth (nth k (bloom_batch r) 0%nat) batch 0%nat =
     nth (nth k' (bloom_batch r) 0%nat) batch 0%nat) /\
  (exists out, conv L x ei edge_attr n_norm = Ok out /\
     forall node, (node < shape0 out)%nat ->
       exists k, (k < length (bloom_batch r))%nat /\
                 nth k (bloom_batch r) 0%nat = node).
Proof.
  unfold forward_clusters.
  destruct (conv L x ei edge_attr n_norm) as [out|] eqn:Hconv; [|discriminate].
  cbn [bind].
  destruct (Bloom.forward _ _ _ pos min_radius false (1 / 100) true)
    as [[bpos bbatch]|] eqn:Hbloom; [|discriminate].
  cbn [bind].
  destruct (index_select1 batch bbatch) as [point_batch|] eqn:Hpb; [|discriminate].
  cbn [bind].
  destruct (SymmetricKMeans.forward _ _ bpos point_batch _ _ _) as [cl|] eqn:Hcl;
    [|discriminate].
  cbn [bind]. destruct (max_plus_1 cl) as [C|] eqn:HC; [|discriminate].
  cbn [bind]. intros H. injection H as <-.
  cbn [clusters bloom_batch n_clusters].
  apply symmetric_forward_spec in Hcl.
  destruct Hcl as [Hpblen [Hcllen [G [Hlt [Hused Hkey]]]]].
  apply index_select1_spec in Hpb. destruct Hpb as [Hpblen' Hpbnth].
  apply max_plus_1_spec in HC. destruct HC as [Hbelow [k0 [Hk0 Hmax]]].
  assert (HM : length cl = length bbatch) by congruence.
  assert (Hsame : shape0 bpos = length bbatch) by congruence.
  rewrite Hsame in Hlt, Hused, Hkey.
  split; [exact HM|]. split; [|split; [|split]].
  - intros k Hk. apply Hbelow. rewrite HM. exact Hk.
  - intros c Hc. apply Hused. rewrite HM in Hk0. specialize (Hlt k0 Hk0). lia.
  - intros k k' Hk Hk' Heq. rewrite <- !Hpbnth by assumption.
    apply Hkey; assumption.
  - exists out. split; [reflexivity|]. intros node Hnode.
    apply absolute_complete in Hbloom. destruct Hbloom as [_ [Hin _]].
    assert (Hrows : shape0 (cols_to (rs_dim (Rs_bloom L)) out) = shape0 out)
      by (unfold shape0, cols_to; cbn [t_rows]; apply length_map).
    rewrite Hrows in Hin. specialize (Hin node Hnode).
    apply (In_nth _ _ 0%nat) in Hin. exact Hin.
Qed.

Lemma pair_bloom (min_radius : R) :
  Bloom.forward (fun _ _ => []) 200
    (cols_to 4 (mk2 4 [[0; 0; 0; 0]; [0; 0; 0; 0]])) pair_pos min_radius false
    (1 / 100) true = Ok (pair_pos, [0; 1]%nat).
Proof.
  unfold Bloom.forward, cols_to. cbn [t_rows map firstn Bloom.bloom_loop].
  rewrite !zero_signal_node. cbn. unfold pair_pos. entrywise lra.
Qed.

Lemma pair_update :
  KMeans.update_centroids pair_pos [0; 1]%nat pair_pos [0; 1]%nat =
  Ok (pair_pos, [0; 1]%nat).
Proof.
  destruct (update_centroids_entries pair_pos pair_pos [0; 1]%nat [0; 1]%nat
              [0; 1]%nat)
    as [nc [Hupd [Hwf [Hn [Hd Hentries]]]]];
    try reflexivity; try (repeat constructor).
  rewrite Hupd. do 2 f_equal.
  apply extensionality; try assumption; [repeat constructor|].
  intros i j Hi Hj. rewrite Hn in Hi. rewrite Hd in Hj.
  rewrite Hentries by assumption.
  change (shape0 pair_pos) with 2%nat in Hi.
  change (t_cols pair_pos) with 3%nat in Hj.
  destruct i as [|[|i]]; [| |lia]; destruct j as [|[|[|j]]]; try lia;
    unfold assigned_mean, entry; cbn; field.
Qed.

Lemma pair_converged :
  KMeans.converged default_params pair_pos pair_pos = Ok true.
Proof.
  unfold KMeans.converged, bop2, pair_pos, shape0.
  cbn [t_rows t_cols length bdim Nat.eqb bind expand map2 combine map fst snd
       forallb KMeans.tol default_params].
  rewrite !Rltb_true; [reflexivity | |];
    apply sqrt_below; cbn; lra.
Qed.

Lemma iterate_S (P : KMeans.params) (n : nat) (pos : tensor2) (batch : list nat)
    (centroids : tensor2) (centroids_batch : list nat) (last : option (list nat)) :
  KMeans.iterate P (S n) pos batch centroids centroids_batch last =
  (step <- KMeans.update_centroids pos batch centroids centroids_batch ;;
   let '(new_centroids, classification) := step in
   stop <- KMeans.converged P centroids new_centroids ;;
   if stop then Ok (classification, new_centroids, centroids_batch)
   else KMeans.iterate P n pos batch new_centroids centroids_batch
                       (Some classification)).
Proof. reflexivity. Qed.

Lemma pair_kmeans (ratio : R) :
  KMeans.forward default_params (fun _ _ _ => [0; 1]%nat) pair_pos [0; 1]%nat
                 (Some pair_pos) (Some [0; 1]%nat) ratio =
  Ok ([0; 1]%nat, pair_pos, [0; 1]%nat).
Proof.
  unfold KMeans.forward. cbn [bind].
  change (index_select pair_pos [0; 1]%nat) with (Ok pair_pos).
  change (index_select1 [0; 1]%nat [0; 1]%nat) with (Ok [0; 1]%nat).
  cbn [bind]. change (KMeans.max_iter default_params) with (S 299).
  rewrite iterate_S, pair_update. cbn [bind]. rewrite pair_converged.
  reflexivity.
Qed.

Lemma pair_clusters :
  SymmetricKMeans.forward (cluster pair_layer) (fps pair_layer) pair_pos
    [0; 1]%nat (Some pair_pos) (Some [0; 1]%nat) (5 / 10) = Ok [0; 1]%nat.
Proof.
  unfold SymmetricKMeans.forward.
  change (SymmetricKMeans.cat_copies _ pair_pos) with (Ok pair_pos).
  change (SymmetricKMeans.big_batch_of _ [0; 1]%nat) with (Ok [0; 1]%nat).
  cbn [bind fst snd cluster pair_layer SymmetricKMeans.base fps].
  rewrite pair_kmeans. cbn [bind].
  unfold KMeans.score.
  change (index_select pair_pos [0; 1]%nat) with (Ok pair_pos).
  cbn [bind]. unfold bop2, pair_pos, shape0.
  cbn [t_rows t_cols length bdim Nat.eqb bind expand map2 combine map fst snd].
  unfold scatter_add1.
  cbn [length Nat.eqb negb map seq fold_right Nat.max sum_at bind reshape_rows
       SymmetricKMeans.rand_iter Nat.modulo Nat.divmod Nat.div chunks firstn skipn].
  unfold SymmetricKMeans.cluster_edge_index_by_score.
  cbn [SymmetricKMeans.min_dim0 fold_left bind max_plus_1 fold_right Nat.max
       SymmetricKMeans.nonzero_le length seq combine map fst snd concat app].
  cbn. rewrite !Rleb_refl.
  reflexivity.
Qed.

Lemma pooling_conservation_witness :
  exists r,
    forward_clusters pair_layer (mk2 1 [[1]; [1]]) pair_pos [] [] (1 / 10)
                     (Some [0; 1]%nat) 1 = Ok r /\
    clusters r = [0; 1]%nat /\ n_clusters r = 2%nat /\
    length (clusters r) = length (bloom_batch r).
Proof.
  assert (Hrun : forward_clusters pair_layer (mk2 1 [[1]; [1]]) pair_pos [] []
                   (1 / 10) (Some [0; 1]%nat) 1 =
                 Ok {| features := mk2 0 [[]; []]; bloom_pos := pair_pos;
                       bloom_batch := [0; 1]%nat; clusters := [0; 1]%nat;
                       n_clusters := 2 |}).
  { unfold forward_clusters. cbn [conv pair_layer bind rs_dim Rs_bloom
                                  fold_right block_dim Nat.mul Nat.add
                                  find_peaks res].
    rewrite pair_bloom. cbn [bind].
    change (index_select1 [0; 1]%nat [0; 1]%nat) with (Ok [0; 1]%nat).
    cbn [bind].
    change {| Rs_bloom := [(1, 0, 1%Z); (1, 1, (-1)%Z)]%nat;
              conv := fun _ _ _ _ => Ok (mk2 4 [[0; 0; 0; 0]; [0; 0; 0; 0]]);
              find_peaks := fun _ _ => [];
              res := 200;
              cluster := {| SymmetricKMeans.base := default_params;
                            SymmetricKMeans.rand_iter := 1 |};
              fps := fun _ _ _ => [0; 1]%nat |} with pair_layer.
    rewrite pair_clusters. reflexivity. }
  eexists. split; [exact Hrun|]. split; [reflexivity|]. split; [reflexivity|].
  exact (proj1 (pooling_conservation _ _ _ _ _ _ _ _ _ Hrun)).
Defined.

End PoolingClaims.

(* ================================================================== *)
(** * Message passing: shapes, isolated sources and scaling *)

Section PropagateFacts.

Lemma sum_rows_at_absent (d s : nat) (src : list (list R)) (index : list nat) :
  ~ In s index -> sum_rows_at d s src index = zeros1 d.
Proof.
  revert index. induction src as [|row src IH]; intros [|i index] H; simpl;
    try reflexivity.
  destruct (i =? s)%nat eqn:E.
  - apply Nat.eqb_eq in E. exfalso. apply H. left. exact E.
  - apply IH. intros Hin. apply H. right. exact Hin.
Qed.

Lemma scatter_add_rows (src : tensor2) (index : list nat) (dim_size : nat)
    (out : tensor2) :
  scatter_add src index dim_size = Ok out ->
  exists ix, broadcast index (shape0 src) = Ok ix /\
    shape0 out = dim_size /\ t_cols out = t_cols src /\
    forall s, (s < dim_size)%nat ->
      nth s (t_rows out) [] = sum_rows_at (t_cols src) s (t_rows src) ix.
Proof.
  unfold scatter_add. destruct (broadcast index (shape0 src)) as [ix|];
    [|discriminate].
  cbn [bind]. destruct (_ && _); [discriminate|]. intros H. injection H as <-.
  exists ix. split; [reflexivity|].
  unfold shape0. cbn [t_rows t_cols]. rewrite length_map, length_seq.
  split; [reflexivity|]. split; [reflexivity|]. intros s Hs.
  rewrite (nth_indep _ [] ((fun s0 => sum_rows_at (t_cols src) s0 (t_rows src) ix) 0%nat))
    by (rewrite length_map, length_seq; exact Hs).
  rewrite (map_nth (fun s0 => sum_rows_at (t_cols src) s0 (t_rows src) ix)).
  rewrite seq_nth by exact Hs. reflexivity.
Qed.

(** What [propagate] returns has one row per source; the row of a source
    that no edge starts from is zero. *)
Lemma propagate_rows (ei : edge_index) (size : option (nat * nat)) (x : tensor2)
    (message : tensor2 -> result tensor2) (out : tensor2) :
  propagate ei size x message = Ok out ->
  shape0 out = n_source_of size x /\
  (exists x_j m, message x_j = Ok m /\ t_cols out = t_cols m) /\
  forall s, (s < shape0 out)%nat -> ~ In s (sources ei) ->
    nth s (t_rows out) [] = zeros1 (t_cols out).
Proof.
  assert (Hgen : forall n,
            (x_j <- index_select x (targets ei) ;;
             m <- message x_j ;; scatter_add m (sources ei) n) = Ok out ->
            shape0 out = n /\
            (exists x_j m, message x_j = Ok m /\ t_cols out = t_cols m) /\
            forall s, (s < shape0 out)%nat -> ~ In s (sources ei) ->
              nth s (t_rows out) [] = zeros1 (t_cols out)).
  { intros n H. destruct (index_select x (targets ei)) as [x_j|]; [|discriminate].
    cbn [bind] in H. destruct (message x_j) as [m|] eqn:Hm; [|discriminate].
    cbn [bind] in H. apply scatter_add_rows in H.
    destruct H as [ix [Hix [Hr [Hc Hrow]]]].
    split; [exact Hr|]. split; [exists x_j, m; auto|].
    intros s Hs Hiso. rewrite Hrow by lia. rewrite Hc.
    apply sum_rows_at_absent. intros Hin. apply Hiso.
    apply (proj2 (broadcast_spec _ _ _ Hix)). exact Hin. }
  unfold propagate. destruct size as [[n_target n_source]|]; cbn [n_source_of].
  - destruct (negb _); [discriminate|]. apply Hgen.
  - apply Hgen.
Qed.

End PropagateFacts.

Module ConvolutionShape.
Import Convolution ConvolutionFacts.

Lemma message_cols (x_j : tensor2) (k : kernel_out) (groups : nat) (m : tensor2) :
  message x_j k groups = Ok m ->
  t_cols m = (groups * fst (k_shape_last2 k))%nat.
Proof.
  unfold message. destruct (k_shape_last2 k) as [cout cin] eqn:E.
  destruct (view x_j (shape0 x_j) groups cin) as [x'|]; [|discriminate].
  cbn [bind fst].
  destruct (k_shape0 k =? 0)%nat; [intros H; injection H as <-; reflexivity|].
  destruct k as [co ci ks | g co ci ks].
  - destruct (einsum_eij_egj ks x') as [o|]; [|discriminate]. cbn [bind].
    unfold reshape. destruct (_ =? _)%nat; [|discriminate].
    intros H. injection H as <-. reflexivity.
  - destruct (g =? groups)%nat; [|discriminate].
    destruct (einsum_egij_egj ks x') as [o|]; [|discriminate]. cbn [bind].
    unfold reshape. destruct (_ =? _)%nat; [|discriminate].
    intros H. injection H as <-. reflexivity.
Qed.

(** X1. Convolution.forward, lines 23-48. Whatever it returns has one row
    per source and [groups * cout] columns, and the row of a source that
    no edge starts from is zero. *)
Theorem isolated_source_is_zero (kern : kernel) (features : tensor2)
    (ei : edge_index) (edge_r : list (list R)) (size : option (nat * nat))
    (n_norm : R) (groups : nat) (out : tensor2) :
  forward kern features ei edge_r size n_norm groups = Ok out ->
  shape0 out = n_source_of size features /\
  t_cols out = (groups * fst (k_shape_last2 (kern edge_r)))%nat /\
  forall s, (s < shape0 out)%nat -> ~ In s (sources ei) ->
    nth s (t_rows out) [] = zeros1 (t_cols out).
Proof.
  unfold forward. intros H. apply propagate_rows in H.
  destruct H as [Hr [[x_j [m [Hm Hc]]] Hz]].
  split; [exact Hr|]. split; [|exact Hz].
  rewrite Hc, (message_cols _ _ _ _ Hm), k_div_shape_last2. reflexivity.
Qed.

(** X2. Convolution.message, lines 46-48: a kernel with a group dimension
    other than [groups] is handed to the three-index product, which
    refuses it, so [forward] raises whenever there is an edge. *)
Theorem wrong_group_dimension_raises (kern : kernel) (features : tensor2)
    (ei : edge_index) (edge_r : list (list R)) (size : option (nat * nat))
    (n_norm : R) (groups : nat) (g cout cin : nat)
    (ks : list (list (list (list R)))) :
  kern edge_r = K4 g cout cin ks -> g <> groups -> ks <> [] ->
  is_ok (forward kern features ei edge_r size n_norm groups) = false.
Proof.
  intros Hk Hg Hks. unfold forward. rewrite Hk. cbn [k_div].
  assert (Hmsg : forall x_j,
            is_ok (message x_j
                     (K4 g cout cin (map (map (fun m => mdiv m (sqrt n_norm))) ks))
                     groups) = false).
  { intros x_j. unfold message. cbn [k_shape_last2 k_shape0].
    destruct (view x_j (shape0 x_j) groups cin); [|reflexivity].
    cbn [bind]. rewrite length_map.
    destruct ks as [|k0 ks']; [contradiction|]. cbn [length Nat.eqb].
    replace (g =? groups)%nat with false by (symmetry; apply Nat.eqb_neq; exact Hg).
    reflexivity. }
  assert (Hgen : forall n,
            is_ok (x_j <- index_select features (targets ei) ;;
                   out <- message x_j
                            (K4 g cout cin
                                (map (map (fun m => mdiv m (sqrt n_norm))) ks))
                            groups ;;
                   scatter_add out (sources ei) n) = false).
  { intros n. destruct (index_select features (targets ei)) as [x_j|]; [|reflexivity].
    cbn [bind]. specialize (Hmsg x_j).
    destruct (message x_j _ groups); [discriminate | reflexivity]. }
  unfold propagate. destruct size as [[n_target n_source]|].
  - destruct (negb _); [reflexivity | apply Hgen].
  - apply Hgen.
Qed.

Lemma all_lt_false (idx : list nat) (n i : nat) :
  In i idx -> (n <= i)%nat -> all_lt idx n = false.
Proof.
  intros Hin Hi. destruct (all_lt idx n) eqn:E; [|reflexivity].
  apply all_lt_spec in E. rewrite Forall_forall in E. specialize (E i Hin). lia.
Qed.

(** With a column to fill, the message has one row per gathered row, or
    no row when the kernel has none. *)
Lemma message_rows (x_j : tensor2) (k : kernel_out) (groups : nat) (m : tensor2) :
  message x_j k groups = Ok m ->
  (groups * fst (k_shape_last2 k) <> 0)%nat ->
  shape0 m = if (k_shape0 k =? 0)%nat then 0%nat else shape0 x_j.
Proof.
  unfold message. destruct (k_shape_last2 k) as [cout cin] eqn:E.
  destruct (view x_j (shape0 x_j) groups cin) as [x'|]; [|discriminate].
  cbn [bind fst].
  destruct (k_shape0 k =? 0)%nat; [intros H _; injection H as <-; reflexivity|].
  assert (Hre : forall o, reshape (length o) groups cout o (shape0 x_j)
                            (groups * cout) = Ok m ->
                          (groups * cout <> 0)%nat -> shape0 m = shape0 x_j).
  { intros o H Hd. unfold reshape in H.
    destruct (_ =? _)%nat eqn:Eq; [|discriminate]. injection H as <-.
    apply Nat.eqb_eq in Eq. unfold shape0 at 1. cbn [t_rows].
    rewrite length_map. nia. }
  destruct k as [co ci ks | g co ci ks].
  - destruct (einsum_eij_egj ks x') as [o|]; [|discriminate]. cbn [bind].
    apply Hre.
  - destruct (g =? groups)%nat; [|discriminate].
    destruct (einsum_egij_egj ks x') as [o|]; [|discriminate]. cbn [bind].
    apply Hre.
Qed.

(** X8. Convolution.forward, line 38: the bounds of the graph. [forward]
    raises when [size[0]] is not the number of feature rows; when an edge
    has a target that is not a row of the features, these having an
    element; and when an edge has a source at or beyond the number of
    output rows, the message having an element: the output has a column,
    and the kernel returns a row or there are two edges or more. Without
    an element in the message the scatter reads no index. *)
Theorem malformed_graph_raises (kern : kernel) (features : tensor2)
    (ei : edge_index) (edge_r : list (list R)) (size : option (nat * nat))
    (n_norm : R) (groups : nat) :
  size_ok size features = false \/
  (exists e, In e ei /\ (shape0 features <= snd e)%nat /\
     shape0 features <> 0%nat /\ t_cols features <> 0%nat) \/
  (exists e, In e ei /\ (n_source_of size features <= fst e)%nat /\
     (groups * fst (k_shape_last2 (kern edge_r)) <> 0)%nat /\
     (k_shape0 (kern edge_r) <> 0%nat \/ (2 <= length ei)%nat)) ->
  is_ok (forward kern features ei edge_r size n_norm groups) = false.
Proof.
  intros H. unfold forward.
  set (k := k_div (kern edge_r) (sqrt n_norm)).
  assert (Hgen : forall n,
            (exists e, In e ei /\ (shape0 features <= snd e)%nat) \/
            (exists e, In e ei /\ (n <= fst e)%nat /\
               (groups * fst (k_shape_last2 (kern edge_r)) <> 0)%nat /\
               (k_shape0 (kern edge_r) <> 0%nat \/ (2 <= length ei)%nat)) ->
            is_ok (x_j <- index_select features (targets ei) ;;
                   out <- message x_j k groups ;;
                   scatter_add out (sources ei) n) = false).
  { intros n [[e [He Ht]]|[e [He [Hs [Hd Hrow]]]]].
    - unfold index_select.
      rewrite (all_lt_false (targets ei) _ (snd e)); [reflexivity | | exact Ht].
      unfold targets. apply in_map. exact He.
    - destruct (index_select features (targets ei)) as [x_j|] eqn:Hsel;
        [|reflexivity].
      cbn [bind]. destruct (message x_j k groups) as [out|] eqn:Hm; [|reflexivity].
      cbn [bind]. unfold scatter_add.
      assert (Hx : shape0 x_j = length ei).
      { unfold index_select in Hsel. destruct (all_lt _ _); [|discriminate].
        injection Hsel as <-. unfold shape0, targets. cbn [t_rows].
        rewrite !length_map. reflexivity. }
      pose proof (message_cols _ _ _ _ Hm) as Hc.
      pose proof (message_rows _ _ _ _ Hm) as Hr.
      unfold k in Hc, Hr. rewrite k_div_shape_last2 in Hc, Hr.
      rewrite k_div_shape0 in Hr. specialize (Hr Hd).
      unfold broadcast, sources. rewrite length_map, Hr.
      destruct (k_shape0 (kern edge_r) =? 0)%nat eqn:E0.
      + apply Nat.eqb_eq in E0. destruct Hrow as [Hrow|Hrow]; [contradiction|].
        destruct (length ei) as [|[|n']]; [lia | lia | reflexivity].
      + rewrite Hx, Nat.eqb_refl. cbn [bind]. rewrite Hc.
        replace (groups * fst (k_shape_last2 (kern edge_r)) =? 0)%nat with false
          by (symmetry; apply Nat.eqb_neq; exact Hd).
        rewrite (all_lt_false (map fst ei) _ (fst e)); [reflexivity | | exact Hs].
        apply in_map. exact He. }
  unfold propagate. destruct size as [[n_target n_source]|];
    cbn [size_ok n_source_of] in H.
  - destruct (n_target =? shape0 features)%nat; cbn [negb]; [|reflexivity].
    destruct H as [H|[[e [He [Ht _]]]|H]];
      [discriminate | apply Hgen; left; exists e; auto | apply Hgen; right; exact H].
  - destruct H as [H|[[e [He [Ht _]]]|H]];
      [discriminate | apply Hgen; left; exists e; auto | apply Hgen; right; exact H].
Qed.

Lemma isolated_source_is_zero_witness :
  shape0 (mk2 1 [[0]; [-1]; [-1]; [-1]; [-1]]) = 5%nat /\
  nth 0 (t_rows (mk2 1 [[0]; [-1]; [-1]; [-1]; [-1]])) [] = zeros1 1.
Proof.
  destruct (isolated_source_is_zero identity_scalar_kernel star_features
              star_edges_reversed ones_4_3 None 1 1
              (mk2 1 [[0]; [-1]; [-1]; [-1]; [-1]])
              ConvolutionClaims.flow_star_graph_reversed)
    as [Hrows [_ Hzero]].
  split; [exact Hrows|]. apply Hzero.
  - unfold shape0. simpl. lia.
  - simpl. intros [H|[H|[H|[H|[]]]]]; discriminate.
Defined.

Lemma wrong_group_dimension_raises_witness :
  is_ok (Convolution.forward two_group_kernel (mk2 1 [[1]]) [(0, 0)%nat]
           [[1; 0; 0]] None 1 1) = false.
Proof.
  apply (wrong_group_dimension_raises two_group_kernel (mk2 1 [[1]]) [(0, 0)%nat]
           [[1; 0; 0]] None 1 1 2 1 1 [[[[1]]; [[1]]]]).
  - reflexivity.
  - lia.
  - discriminate.
Defined.

Lemma malformed_graph_raises_witness :
  is_ok (Convolution.forward identity_scalar_kernel star_features [(0, 7)%nat]
           [[1; 1; 1]] None 1 1) = false /\
  is_ok (Convolution.forward identity_scalar_kernel star_features [(7, 0)%nat]
           [[1; 1; 1]] None 1 1) = false.
Proof.
  split.
  - apply (malformed_graph_raises identity_scalar_kernel star_features [(0, 7)%nat]
             [[1; 1; 1]] None 1 1).
    right. left. exists (0, 7)%nat. split; [left; reflexivity|].
    unfold shape0. simpl. split; [lia|]. split; discriminate.
  - apply (malformed_graph_raises identity_scalar_kernel star_features [(7, 0)%nat]
             [[1; 1; 1]] None 1 1).
    right. right. exists (7, 0)%nat. split; [left; reflexivity|].
    unfold n_source_of, shape0. simpl. split; [lia|]. split; [discriminate|].
    left. discriminate.
Defined.

End ConvolutionShape.

Module WTPConvShape.

(** X9. WTPConv.forward, lines 68-88. Whatever it returns has one row per
    source, and the row of a source that no edge starts from is zero,
    whatever the tensor product and the radial model are. *)
Theorem wtp_isolated_source_is_zero (L : WTPConv.layer) (features : tensor2)
    (ei : edge_index) (edge_r : list (list R)) (sh : option tensor2)
    (size : option (nat * nat)) (n_norm : R) (out : tensor2) :
  WTPConv.forward L features ei edge_r sh size n_norm = Ok out ->
  shape0 out = n_source_of size features /\
  forall s, (s < shape0 out)%nat -> ~ In s (sources ei) ->
    nth s (t_rows out) [] = zeros1 (t_cols out).
Proof.
  unfold WTPConv.forward. intros H. apply propagate_rows in H.
  destruct H as [Hr [_ Hz]]. auto.
Qed.

(** X10. WTPConv2.forward, lines 128-131: with an empty output
    representation [torch.cat] has nothing to join, and [forward] raises
    on every input. *)
Theorem empty_output_raises (L : WTPConv2.layer) (features : tensor2)
    (ei : edge_index) (edge_r : list (list R)) (sh : option tensor2)
    (size : option (nat * nat)) (n_norm : R) :
  WTPConv2.Rs_out L = [] ->
  is_ok (WTPConv2.forward L features ei edge_r sh size n_norm) = false.
Proof.
  intros Hout. unfold WTPConv2.forward.
  destruct (WTPConv2.lin1 L features); [|reflexivity]. cbn [bind].
  destruct (propagate _ _ _ _); [|reflexivity]. cbn [bind].
  destruct (WTPConv2.lin2 L _); [|reflexivity]. cbn [bind].
  unfold WTPConv2.has_self_interaction. rewrite Hout. reflexivity.
Qed.

Lemma wtp_isolated_source_is_zero_witness :
  exists out,
    WTPConv.forward copy_layer star_features star_edges_reversed ones_4_3 None
                    None 1 = Ok out /\
    nth 0 (t_rows out) [] = zeros1 (t_cols out).
Proof.
  eexists. split; [reflexivity|].
  eapply (wtp_isolated_source_is_zero copy_layer star_features star_edges_reversed
            ones_4_3 None None 1).
  - reflexivity.
  - unfold shape0. simpl. lia.
  - simpl. intros [H|[H|[H|[H|[]]]]]; discriminate.
Defined.

Lemma empty_output_raises_witness :
  is_ok (WTPConv2.forward no_output_layer (mk2 1 [[1]]) [(0, 0)%nat] [[1; 0; 0]]
           None None 1) = false.
Proof.
  apply (empty_output_raises no_output_layer). reflexivity.
Defined.

End WTPConvShape.

(* ================================================================== *)
(** * Convolution: scaling, linearity and the order of the edges *)

Module ConvolutionScaling.
Import Convolution ConvolutionFacts.

Lemma expand_map {A B : Type} (g : A -> B) (n : nat) (l : list A) :
  expand n (map g l) = map g (expand n l).
Proof.
  destruct l as [|x [|y l]]; simpl; try reflexivity.
  symmetry. apply map_repeat.
Qed.

Lemma bzip_map_l {A A' B C : Type} (f : A' -> B -> C) (g : A -> A')
    (xs : list A) (ys : list B) :
  bzip f (map g xs) ys = bzip (fun x y => f (g x) y) xs ys.
Proof.
  unfold bzip. rewrite length_map. destruct (bdim _ _); [|reflexivity].
  rewrite expand_map, map2_map_l. reflexivity.
Qed.

Lemma bzip_post {A B C D : Type} (f : A -> B -> C) (h : C -> D)
    (xs : list A) (ys : list B) :
  bzip (fun x y => h (f x y)) xs ys = option_map (map h) (bzip f xs ys).
Proof.
  unfold bzip. destruct (bdim _ _); [|reflexivity]. simpl.
  rewrite map_map2. reflexivity.
Qed.

Lemma combine_map_l {A A' B : Type} (g : A -> A') (a : list A) (b : list B) :
  combine (map g a) b = map (fun p => (g (fst p), snd p)) (combine a b).
Proof.
  revert b. induction a as [|x a IH]; intros [|y b]; simpl; try reflexivity.
  rewrite IH. reflexivity.
Qed.

Lemma vdiv_concat (l : list (list R)) (c : R) :
  concat (map (fun v => vdiv v c) l) = vdiv (concat l) c.
Proof. unfold vdiv. symmetry. apply concat_map. Qed.

Lemma mdiv_one (m : list (list R)) : mdiv m 1 = m.
Proof.
  unfold mdiv. rewrite (map_ext _ (fun row => row)) by apply vdiv_one.
  apply map_id.
Qed.

Lemma k_div_one (k : kernel_out) : k_div k 1 = k.
Proof.
  destruct k as [cout cin ks | g cout cin ks]; cbn [k_div]; f_equal.
  - rewrite (map_ext _ (fun m => m)) by apply mdiv_one. apply map_id.
  - rewrite (map_ext _ (fun m => m)); [apply map_id|].
    intros ms. rewrite (map_ext _ (fun m => m)) by apply mdiv_one. apply map_id.
Qed.

Lemma reshape_div (e g c : nat) (t : list (list (list R))) (N d : nat) (s : R) :
  reshape e g c (map (map (fun v => vdiv v s)) t) N d =
  rmap (fun out => sdiv out s) (reshape e g c t N d).
Proof.
  unfold reshape. destruct (_ =? _)%nat; [|reflexivity].
  cbn [rmap]. unfold sdiv. cbn [t_cols t_rows]. rewrite !map_map.
  do 2 f_equal. apply map_ext. intros l. apply vdiv_concat.
Qed.

(** Dividing the kernel divides the messages. *)
Lemma message_div (x_j : tensor2) (k : kernel_out) (groups : nat) (c : R) :
  message x_j (k_div k c) groups =
  rmap (fun t => sdiv t c) (message x_j k groups).
Proof.
  unfold message. rewrite k_div_shape_last2, k_div_shape0.
  destruct (k_shape_last2 k) as [cout cin].
  destruct (view x_j (shape0 x_j) groups cin) as [x'|]; [|reflexivity].
  cbn [bind]. destruct (k_shape0 k =? 0)%nat; [reflexivity|].
  destruct k as [co ci ks | g co ci ks]; cbn [k_div].
  - unfold einsum_eij_egj. rewrite bzip_map_l.
    assert (E : bzip (fun (K : list (list R)) xe => map (matvec (mdiv K c)) xe) ks x' =
                option_map (map (map (fun v => vdiv v c)))
                           (bzip (fun K xe => map (matvec K) xe) ks x')).
    { rewrite <- bzip_post. unfold bzip. destruct (bdim _ _); [|reflexivity].
      f_equal. apply map2_ext_in. intros K xe _ _. rewrite map_map.
      apply map_ext. intros x. apply matvec_mdiv. }
    rewrite E.
    destruct (bzip (fun K xe => map (matvec K) xe) ks x') as [out|]; [|reflexivity].
    cbn [option_map bind]. rewrite length_map. apply reshape_div.
  - destruct (g =? groups)%nat; [|reflexivity].
    unfold einsum_egij_egj. rewrite bzip_map_l.
    assert (E : bzip (fun (Kg : list (list (list R))) xe =>
                        map (fun p => matvec (fst p) (snd p))
                            (combine (map (fun m => mdiv m c) Kg) xe)) ks x' =
                option_map (map (map (fun v => vdiv v c)))
                           (bzip (fun Kg xe => map (fun p => matvec (fst p) (snd p))
                                                   (combine Kg xe)) ks x')).
    { rewrite <- bzip_post. unfold bzip. destruct (bdim _ _); [|reflexivity].
      f_equal. apply map2_ext_in. intros Kg xe _ _.
      rewrite combine_map_l, !map_map. apply map_ext. intros [K x]. cbn [fst snd].
      apply matvec_mdiv. }
    rewrite E.
    destruct (bzip (fun Kg xe => map (fun p => matvec (fst p) (snd p))
                                     (combine Kg xe)) ks x') as [out|]; [|reflexivity].
    cbn [option_map bind]. rewrite length_map. apply reshape_div.
Qed.

Lemma vadd_vdiv (a b : list R) (c : R) :
  vadd (vdiv a c) (vdiv b c) = vdiv (vadd a b) c.
Proof.
  unfold vdiv. revert b. induction a as [|x a IH]; intros [|y b]; simpl;
    try reflexivity.
  rewrite IH. f_equal. unfold Rdiv. ring.
Qed.

Lemma zeros1_vdiv (d : nat) (c : R) : vdiv (zeros1 d) c = zeros1 d.
Proof.
  unfold vdiv, zeros1. rewrite map_repeat. f_equal. unfold Rdiv. ring.
Qed.

Lemma sum_rows_at_vdiv (d s : nat) (src : list (list R)) (index : list nat) (c : R) :
  sum_rows_at d s (map (fun row => vdiv row c) src) index =
  vdiv (sum_rows_at d s src index) c.
Proof.
  revert index. induction src as [|row src IH]; intros [|i index]; simpl;
    try (symmetry; apply zeros1_vdiv).
  destruct (i =? s)%nat; [|apply IH]. rewrite IH. apply vadd_vdiv.
Qed.

Lemma scatter_add_sdiv (m : tensor2) (index : list nat) (n : nat) (c : R) :
  scatter_add (sdiv m c) index n = rmap (fun t => sdiv t c) (scatter_add m index n).
Proof.
  unfold scatter_add, sdiv, shape0. cbn [t_rows t_cols]. rewrite length_map.
  destruct (broadcast index (length (t_rows m))) as [ix|]; [|reflexivity].
  cbn [bind]. destruct (_ && _); [reflexivity|].
  cbn [rmap t_rows t_cols]. rewrite map_map. do 2 f_equal.
  apply map_ext. intros s. apply sum_rows_at_vdiv.
Qed.

Lemma propagate_sdiv (ei : edge_index) (size : option (nat * nat)) (x : tensor2)
    (msg msg' : tensor2 -> result tensor2) (c : R) :
  (forall x_j, msg' x_j = rmap (fun t => sdiv t c) (msg x_j)) ->
  propagate ei size x msg' = rmap (fun t => sdiv t c) (propagate ei size x msg).
Proof.
  intros H.
  assert (Hgen : forall n,
            (x_j <- index_select x (targets ei) ;;
             out <- msg' x_j ;; scatter_add out (sources ei) n) =
            rmap (fun t => sdiv t c)
                 (x_j <- index_select x (targets ei) ;;
                  out <- msg x_j ;; scatter_add out (sources ei) n)).
  { intros n. destruct (index_select x (targets ei)) as [x_j|]; [|reflexivity].
    cbn [bind]. rewrite H. destruct (msg x_j) as [m|]; [|reflexivity].
    cbn [rmap bind]. apply scatter_add_sdiv. }
  unfold propagate. destruct size as [[n_target n_source]|].
  - destruct (negb _); [reflexivity | apply Hgen].
  - apply Hgen.
Qed.

(** X3. Convolution.forward, lines 36-38: with any kernel and any number of
    groups, [n_norm] does nothing but divide the output by its square
    root. *)
Theorem n_norm_rescales (kern : kernel) (features : tensor2) (ei : edge_index)
    (edge_r : list (list R)) (size : option (nat * nat)) (n_norm : R)
    (groups : nat) :
  0 < n_norm ->
  forward kern features ei edge_r size n_norm groups =
  rmap (fun out => sdiv out (sqrt n_norm))
       (forward kern features ei edge_r size 1 groups).
Proof.
  intros _. unfold forward. rewrite sqrt_1, k_div_one.
  apply propagate_sdiv. intros x_j. apply message_div.
Qed.

Lemma n_norm_rescales_witness :
  Convolution.forward identity_scalar_kernel star_features star_edges ones_4_3
                      None 4 1 =
  rmap (fun out => sdiv out (sqrt 4))
       (Convolution.forward identity_scalar_kernel star_features star_edges
                            ones_4_3 None 1 1).
Proof.
  apply (n_norm_rescales identity_scalar_kernel star_features star_edges ones_4_3
           None 4 1).
  lra.
Defined.

End ConvolutionScaling.

Module ConvolutionLinear.
Import Convolution ConvolutionFacts.

Lemma dot_axpy (row x y : list R) (a : R) :
  length x = length y ->
  dot row (vadd (vscale a x) y) = a * dot row x + dot row y.
Proof.
  revert x y. induction row as [|r row IH]; intros [|u x] [|v y] H;
    try discriminate; simpl; try lra.
  rewrite IH by (simpl in H; lia). ring.
Qed.

Lemma matvec_axpy (M : list (list R)) (x y : list R) (a : R) :
  length x = length y ->
  matvec M (vadd (vscale a x) y) = vadd (vscale a (matvec M x)) (matvec M y).
Proof.
  intros H. unfold matvec.
  induction M as [|row M IH]; [reflexivity|].
  cbn [map]. rewrite dot_axpy by exact H.
  unfold vscale in *. cbn [map vadd]. f_equal. exact IH.
Qed.

Lemma vscale_zeros (a : R) (d : nat) : vscale a (zeros1 d) = zeros1 d.
Proof. unfold vscale, zeros1. rewrite map_repeat. f_equal. ring. Qed.

Lemma map2_same_seq {A B C : Type} (h : A -> B -> C) (F : nat -> A) (G : nat -> B)
    (l : list nat) :
  map2 h (map F l) (map G l) = map (fun s => h (F s) (G s)) l.
Proof.
  unfold map2. induction l as [|s l IH]; simpl; [reflexivity|].
  rewrite IH. reflexivity.
Qed.

Section Linear.

Variables (K : list R -> list (list R)) (cout cin : nat) (kern : kernel).
Hypothesis kern_per_edge : forall edge_r, kern edge_r = K3 cout cin (map K edge_r).

Variables (a : R) (f1 f2 : tensor2).
Hypothesis f1_wf : wf2 f1.
Hypothesis f2_wf : wf2 f2.
Hypothesis f1_cols : t_cols f1 = cin.
Hypothesis f2_cols : t_cols f2 = cin.
Hypothesis same_rows : shape0 f1 = shape0 f2.

Lemma axpy_shape : shape0 (axpy a f1 f2) = shape0 f1.
Proof.
  unfold axpy, shape0. cbn [t_rows]. rewrite map2_length_min.
  unfold shape0 in same_rows. lia.
Qed.

Lemma axpy_wf : wf2 (axpy a f1 f2).
Proof.
  unfold wf2, axpy. cbn [t_rows t_cols]. apply Forall_forall. intros row Hin.
  unfold map2 in Hin. apply in_map_iff in Hin. destruct Hin as [[r s] [<- Hin]].
  cbn [fst snd]. pose proof (in_combine_l _ _ _ _ Hin) as Hr.
  pose proof (in_combine_r _ _ _ _ Hin) as Hs.
  unfold wf2 in f1_wf, f2_wf. rewrite Forall_forall in f1_wf, f2_wf.
  rewrite vadd_length; rewrite vscale_length; [apply f1_wf; exact Hr|].
  rewrite (f1_wf r Hr), (f2_wf s Hs). congruence.
Qed.

Lemma edge_message_axpy (c : R) (r : list R) (e : nat * nat) :
  (snd e < shape0 f1)%nat ->
  edge_message K c (axpy a f1 f2) r e =
  vadd (vscale a (edge_message K c f1 r e)) (edge_message K c f2 r e).
Proof.
  intros He. unfold edge_message, axpy. cbn [t_rows].
  rewrite (nth_map2 _ _ _ _ [] [] []) by (unfold shape0 in *; lia).
  apply matvec_axpy.
  rewrite (wf2_row f1 _ f1_wf He), (wf2_row f2 _ f2_wf) by lia. congruence.
Qed.

Lemma sum_rows_axpy (c : R) (s : nat) (edge_r : list (list R)) (ei : edge_index) :
  Forall (fun t => (t < shape0 f1)%nat) (targets ei) ->
  sum_rows_at cout s (map2 (edge_message K c (axpy a f1 f2)) edge_r ei) (sources ei) =
  vadd (vscale a (sum_rows_at cout s (map2 (edge_message K c f1) edge_r ei)
                              (sources ei)))
       (sum_rows_at cout s (map2 (edge_message K c f2) edge_r ei) (sources ei)).
Proof.
  unfold map2, targets, sources. revert edge_r.
  induction ei as [|e ei IH]; intros edge_r Ht.
  - destruct edge_r; simpl; rewrite vscale_zeros, vadd_zeros_zeros; reflexivity.
  - destruct edge_r as [|r edge_r].
    + simpl. rewrite vscale_zeros, vadd_zeros_zeros. reflexivity.
    + cbn [map] in Ht. apply Forall_cons_iff in Ht. destruct Ht as [He Ht].
      cbn [combine map fst snd sum_rows_at].
      destruct (fst e =? s)%nat; [|apply IH; exact Ht].
      rewrite IH by exact Ht. rewrite edge_message_axpy by exact He.
      rewrite vscale_vadd. apply vadd_interchange.
Qed.

(** X4. Convolution.forward, lines 36-48, with one group and a kernel that
    acts edge by edge: the layer is linear in the features, errors
    included. *)
Theorem forward_linear (ei : edge_index) (edge_r : list (list R))
    (size : option (nat * nat)) (n_norm : R) :
  length edge_r = length ei ->
  forward kern (axpy a f1 f2) ei edge_r size n_norm 1 =
  (out1 <- forward kern f1 ei edge_r size n_norm 1 ;;
   out2 <- forward kern f2 ei edge_r size n_norm 1 ;;
   Ok (axpy a out1 out2)).
Proof.
  intros Hlen.
  rewrite (forward_ungrouped K cout cin kern kern_per_edge (axpy a f1 f2))
    by (apply axpy_wf || exact f1_cols || exact Hlen).
  rewrite (forward_ungrouped K cout cin kern kern_per_edge f1)
    by assumption.
  rewrite (forward_ungrouped K cout cin kern kern_per_edge f2)
    by assumption.
  assert (Hsize : size_ok size (axpy a f1 f2) = size_ok size f1 /\
                  size_ok size f2 = size_ok size f1).
  { unfold size_ok. destruct size as [[nt ns]|]; [|auto].
    rewrite axpy_shape, same_rows. auto. }
  assert (Hn : n_source_of size (axpy a f1 f2) = n_source_of size f1 /\
               n_source_of size f2 = n_source_of size f1).
  { unfold n_source_of. destruct size as [[nt ns]|]; [auto|].
    rewrite axpy_shape, same_rows. auto. }
  destruct Hsize as [-> ->]. destruct Hn as [-> ->].
  rewrite axpy_shape, <- same_rows.
  destruct (negb (size_ok size f1)); [reflexivity|].
  destruct (negb (all_lt (targets ei) (shape0 f1))) eqn:Et; [reflexivity|].
  destruct (negb (cout =? 0)%nat &&
            negb (all_lt (sources ei) (n_source_of size f1))); [reflexivity|].
  cbn [bind]. unfold axpy at 2. cbn [t_rows t_cols]. do 2 f_equal.
  unfold conv_rows. rewrite map2_same_seq. apply map_ext. intros s.
  apply sum_rows_axpy. apply all_lt_spec. apply negb_false_iff. exact Et.
Qed.

End Linear.

Section EdgeOrder.

Variables (K : list R -> list (list R)) (cout cin : nat) (kern : kernel).
Hypothesis kern_per_edge : forall edge_r, kern edge_r = K3 cout cin (map K edge_r).

Lemma vadd_swap (x y z : list R) : vadd x (vadd y z) = vadd y (vadd x z).
Proof.
  revert y z. induction x as [|u x IH]; intros [|v y] [|w z]; simpl;
    try reflexivity.
  rewrite IH. f_equal. ring.
Qed.

(** The sum at one source, over the edges paired with their geometry. *)
Lemma sum_rows_at_pairs (c : R) (features : tensor2) (s : nat)
    (edge_r : list (list R)) (ei : edge_index) :
  sum_rows_at cout s (map2 (edge_message K c features) edge_r ei) (sources ei) =
  fold_right (fun (er : (nat * nat) * list R) acc =>
                if (fst (fst er) =? s)%nat
                then vadd (edge_message K c features (snd er) (fst er)) acc
                else acc)
             (zeros1 cout) (combine ei edge_r).
Proof.
  unfold map2, sources. revert edge_r.
  induction ei as [|e ei IH]; intros [|r edge_r]; try reflexivity.
  cbn [combine map fst snd sum_rows_at fold_right]. rewrite IH. reflexivity.
Qed.

Lemma fold_pairs_permutation (c : R) (features : tensor2) (s : nat)
    (l l' : list ((nat * nat) * list R)) :
  Permutation l l' ->
  fold_right (fun (er : (nat * nat) * list R) acc =>
                if (fst (fst er) =? s)%nat
                then vadd (edge_message K c features (snd er) (fst er)) acc
                else acc) (zeros1 cout) l =
  fold_right (fun (er : (nat * nat) * list R) acc =>
                if (fst (fst er) =? s)%nat
                then vadd (edge_message K c features (snd er) (fst er)) acc
                else acc) (zeros1 cout) l'.
Proof.
  intros H. induction H as [|x l l' _ IH|x y l|l l' l'' _ IH1 _ IH2].
  - reflexivity.
  - simpl. rewrite IH. reflexivity.
  - simpl. destruct (fst (fst x) =? s)%nat, (fst (fst y) =? s)%nat;
      try reflexivity. apply vadd_swap.
  - congruence.
Qed.

Lemma all_lt_permutation (l l' : list nat) (n : nat) :
  Permutation l l' -> all_lt l n = all_lt l' n.
Proof.
  intros H. destruct (all_lt l n) eqn:E; symmetry.
  - apply all_lt_spec. apply all_lt_spec in E.
    apply (Permutation_Forall H). exact E.
  - destruct (all_lt l' n) eqn:E'; [|reflexivity].
    apply all_lt_spec in E'. apply (Permutation_Forall (Permutation_sym H)) in E'.
    apply all_lt_spec in E'. congruence.
Qed.

(** X5. Convolution.forward, lines 36-48, with one group and a kernel that
    acts edge by edge: listing the same edges, each with its own
    geometry, in another order gives the same result. *)
Theorem edge_order_irrelevant (features : tensor2) (ei ei' : edge_index)
    (edge_r edge_r' : list (list R)) (size : option (nat * nat)) (n_norm : R) :
  wf2 features -> t_cols features = cin ->
  length edge_r = length ei -> length edge_r' = length ei' ->
  Permutation (combine ei edge_r) (combine ei' edge_r') ->
  forward kern features ei edge_r size n_norm 1 =
  forward kern features ei' edge_r' size n_norm 1.
Proof.
  intros Hwf Hcols Hlen Hlen' Hperm.
  rewrite !(forward_ungrouped K cout cin kern kern_per_edge features)
    by assumption.
  assert (Hei : Permutation ei ei').
  { apply (Permutation_map fst) in Hperm.
    assert (E : forall (a : edge_index) (b : list (list R)),
              length b = length a -> map fst (combine a b) = a).
    { induction a as [|x a IH]; intros [|y b] H; try discriminate; [reflexivity|].
      simpl. rewrite IH by (simpl in H; lia). reflexivity. }
    rewrite !E in Hperm by assumption. exact Hperm. }
  rewrite (all_lt_permutation (targets ei) (targets ei'))
    by (apply Permutation_map; exact Hei).
  rewrite (all_lt_permutation (sources ei) (sources ei'))
    by (apply Permutation_map; exact Hei).
  destruct (negb (size_ok size features)); [reflexivity|].
  destruct (negb (all_lt (targets ei') _)); [reflexivity|].
  destruct (negb (cout =? 0)%nat && negb (all_lt (sources ei') _));
    [reflexivity|].
  do 2 f_equal. unfold conv_rows. apply map_ext. intros s.
  rewrite !sum_rows_at_pairs. apply fold_pairs_permutation. exact Hperm.
Qed.

End EdgeOrder.

Lemma forward_linear_witness :
  Convolution.forward vector_kernel (axpy 2 (mk2 1 [[1]]) (mk2 1 [[3]]))
                      [(0, 0)%nat] [[1; 0; 0]] None 1 1 =
  (out1 <- Convolution.forward vector_kernel (mk2 1 [[1]]) [(0, 0)%nat]
                               [[1; 0; 0]] None 1 1 ;;
   out2 <- Convolution.forward vector_kernel (mk2 1 [[3]]) [(0, 0)%nat]
                               [[1; 0; 0]] None 1 1 ;;
   Ok (axpy 2 out1 out2)).
Proof.
  apply (forward_linear vector_K 3 1 vector_kernel).
  - intros edge_r. reflexivity.
  - repeat constructor.
  - repeat constructor.
  - reflexivity.
  - reflexivity.
  - reflexivity.
  - reflexivity.
Defined.

Lemma edge_order_irrelevant_witness :
  Convolution.forward vector_kernel (mk2 1 [[1]; [2]]) [(0, 0); (1, 1)]%nat
                      [[1; 0; 0]; [0; 1; 0]] None 1 1 =
  Convolution.forward vector_kernel (mk2 1 [[1]; [2]]) [(1, 1); (0, 0)]%nat
                      [[0; 1; 0]; [1; 0; 0]] None 1 1.
Proof.
  apply (edge_order_irrelevant vector_K 3 1 vector_kernel).
  - intros edge_r. reflexivity.
  - repeat constructor.
  - reflexivity.
  - reflexivity.
  - reflexivity.
  - apply perm_swap.
Defined.

End ConvolutionLinear.

(* ================================================================== *)
(** * Convolution with groups and one kernel for all of them *)

Module ConvolutionGroups.
Import Convolution ConvolutionFacts.

Lemma firstn_vadd (w : nat) (a b : list R) :
  firstn w (vadd a b) = vadd (firstn w a) (firstn w b).
Proof.
  revert a b. induction w as [|w IH]; intros [|x a] [|y b]; simpl; try reflexivity.
  rewrite IH. reflexivity.
Qed.

Lemma skipn_vadd (k : nat) (a b : list R) :
  skipn k (vadd a b) = vadd (skipn k a) (skipn k b).
Proof.
  revert a b. induction k as [|k IH]; intros a b; [reflexivity|].
  destruct a as [|x a], b as [|y b]; simpl; try reflexivity.
  - destruct (skipn k a); reflexivity.
  - apply IH.
Qed.

Lemma firstn_repeat_le {A : Type} (x : A) (w n : nat) :
  (w <= n)%nat -> firstn w (repeat x n) = repeat x w.
Proof.
  revert n. induction w as [|w IH]; intros [|n] H; simpl; try reflexivity; [lia|].
  rewrite IH by lia. reflexivity.
Qed.

Lemma skipn_repeat_le {A : Type} (x : A) (k n : nat) :
  skipn k (repeat x n) = repeat x (n - k).
Proof.
  revert n. induction k as [|k IH]; intros [|n]; simpl; try reflexivity. apply IH.
Qed.

Lemma slice_zeros (q w g : nat) :
  (q < g)%nat -> firstn w (skipn (q * w) (zeros1 (g * w))) = zeros1 w.
Proof.
  intros H. unfold zeros1. rewrite skipn_repeat_le. apply firstn_repeat_le. nia.
Qed.

Lemma slice_sum (q w g s : nat) (rows : list (list R)) (index : list nat) :
  (q < g)%nat ->
  firstn w (skipn (q * w) (sum_rows_at (g * w) s rows index)) =
  sum_rows_at w s (map (fun row => firstn w (skipn (q * w) row)) rows) index.
Proof.
  intros H. revert index. induction rows as [|row rows IH]; intros [|i index];
    cbn [map sum_rows_at]; try (apply slice_zeros; exact H).
  destruct (i =? s)%nat; [|apply IH].
  rewrite skipn_vadd, firstn_vadd, IH. reflexivity.
Qed.

Lemma slice_concat {A : Type} (blocks : list (list A)) (w q : nat) :
  Forall (fun b => length b = w) blocks -> (q < length blocks)%nat ->
  firstn w (skipn (q * w) (concat blocks)) = nth q blocks [].
Proof.
  intros H. revert q. induction H as [|b blocks Hb H IH]; intros q Hq;
    simpl in Hq; [lia|].
  destruct q as [|q]; cbn [concat nth].
  - simpl. rewrite firstn_app, Hb, Nat.sub_diag, firstn_0, app_nil_r.
    apply firstn_all2. lia.
  - rewrite skipn_app, Hb.
    rewrite skipn_all2 by (rewrite Hb; simpl; lia).
    replace (S q * w - w)%nat with (q * w)%nat by (simpl; lia).
    apply IH. lia.
Qed.

Lemma chunks_length {A : Type} (g c : nat) (l : list A) : length (chunks g c l) = g.
Proof.
  revert l. induction g as [|g IH]; intros l; simpl; [reflexivity|].
  rewrite IH. reflexivity.
Qed.

Lemma nth_chunks {A : Type} (g c q : nat) (l : list A) :
  (q < g)%nat -> nth q (chunks g c l) [] = firstn c (skipn (q * c) l).
Proof.
  intros H.
  destruct (nth_error (chunks g c l) q) as [row|] eqn:E.
  - rewrite (nth_error_nth _ _ _ E). apply chunks_nth_error in E. tauto.
  - apply nth_error_None in E. rewrite chunks_length in E. lia.
Qed.

Section Shared.

Variables (K : list R -> list (list R)) (cout cin : nat) (kern : kernel).
Hypothesis kern_per_edge : forall edge_r, kern edge_r = K3 cout cin (map K edge_r).
Hypothesis K_rows : forall r, length (K r) = cout.

(** The message of one edge with [groups] groups: the kernel of the edge
    applied to every group of the target's features. *)
Lemma message_shared (groups : nat) (x_j : tensor2) (ks : list (list (list R))) :
  t_cols x_j = (groups * cin)%nat -> length ks = shape0 x_j ->
  message x_j (K3 cout cin ks) groups =
  Ok (mk2 (groups * cout)
          (map2 (fun Kx x => concat (map (matvec Kx) (chunks groups cin x)))
                ks (t_rows x_j))).
Proof.
  intros Hcols Hlen. unfold message. cbn [k_shape_last2 k_shape0].
  unfold view. rewrite Hcols.
  replace (shape0 x_j * (groups * cin) =? shape0 x_j * groups * cin)%nat with true
    by (symmetry; apply Nat.eqb_eq; lia).
  cbn [bind]. destruct (length ks =? 0)%nat eqn:E0.
  - apply Nat.eqb_eq in E0. destruct ks; [|discriminate].
    destruct x_j as [c rows]. unfold shape0 in Hlen. simpl in *.
    destruct rows; [|discriminate]. reflexivity.
  - unfold einsum_eij_egj. rewrite bzip_same by (rewrite length_map; exact Hlen).
    cbn [bind]. unfold reshape.
    rewrite map2_length by (rewrite length_map; exact Hlen).
    replace (length ks * groups * cout =? shape0 x_j * (groups * cout))%nat with true
      by (symmetry; apply Nat.eqb_eq; rewrite Hlen; lia).
    do 2 f_equal. rewrite map_map2, map2_map_r. reflexivity.
Qed.

Lemma forward_shared (groups : nat) (features : tensor2) (ei : edge_index)
    (edge_r : list (list R)) (size : option (nat * nat)) (n_norm : R) :
  t_cols features = (groups * cin)%nat -> length edge_r = length ei ->
  forward kern features ei edge_r size n_norm groups =
  if negb (size_ok size features) then Err SizeError
  else if negb (all_lt (targets ei) (shape0 features)) then Err IndexError
  else if negb (groups * cout =? 0)%nat &&
          negb (all_lt (sources ei) (n_source_of size features))
  then Err IndexError
  else Ok (mk2 (groups * cout)
             (map (fun s =>
                     sum_rows_at (groups * cout) s
                       (map2 (fun r (e : nat * nat) =>
                                concat (map (matvec (mdiv (K r) (sqrt n_norm)))
                                            (chunks groups cin
                                               (nth (snd e) (t_rows features) []))))
                             edge_r ei)
                       (sources ei))
                  (seq 0 (n_source_of size features)))).
Proof.
  intros Hcols Hlen. unfold forward. rewrite kern_per_edge.
  cbn [k_div]. rewrite map_map.
  assert (Hmsg : forall n,
            (x_j <- index_select features (targets ei) ;;
             out <- message x_j
                      (K3 cout cin (map (fun r => mdiv (K r) (sqrt n_norm)) edge_r))
                      groups ;;
             scatter_add out (sources ei) n) =
            if negb (all_lt (targets ei) (shape0 features)) then Err IndexError
            else if negb (groups * cout =? 0)%nat && negb (all_lt (sources ei) n)
            then Err IndexError
            else Ok (mk2 (groups * cout)
                       (map (fun s =>
                               sum_rows_at (groups * cout) s
                                 (map2 (fun r (e : nat * nat) =>
                                          concat (map (matvec (mdiv (K r) (sqrt n_norm)))
                                                      (chunks groups cin
                                                         (nth (snd e) (t_rows features) []))))
                                       edge_r ei)
                                 (sources ei))
                            (seq 0 n)))).
  { intros n. unfold index_select.
    destruct (all_lt (targets ei) (shape0 features)); [|reflexivity].
    cbn [negb bind]. rewrite message_shared.
    - cbn [bind]. unfold scatter_add.
      rewrite broadcast_same.
      2:{ unfold shape0, sources. cbn [t_rows].
          rewrite map2_length by (rewrite !length_map; unfold targets;
                                  rewrite length_map; exact Hlen).
          rewrite !length_map. symmetry. exact Hlen. }
      cbn [bind t_rows t_cols].
      destruct (negb (groups * cout =? 0)%nat && negb (all_lt (sources ei) n));
        [reflexivity|].
      do 3 f_equal.
      rewrite map2_map_l. unfold targets. rewrite !map2_map_r. reflexivity.
    - exact Hcols.
    - unfold shape0. cbn [t_rows]. rewrite !length_map. unfold targets.
      rewrite length_map. exact Hlen. }
  unfold propagate, size_ok, n_source_of.
  destruct size as [[n_target n_source]|].
  - destruct (n_target =? shape0 features)%nat; cbn [negb]; [apply Hmsg | reflexivity].
  - cbn [negb]. apply Hmsg.
Qed.

(** X6. Convolution.forward, lines 36-48, with [groups] groups and a kernel
    without a group dimension, as the test calls it: the columns of group
    [q] of the result are the convolution with one group of the columns
    of group [q] of the features, errors included. *)
Theorem shared_kernel_acts_per_group (groups q : nat) (features : tensor2)
    (ei : edge_index) (edge_r : list (list R)) (size : option (nat * nat))
    (n_norm : R) :
  wf2 features -> t_cols features = (groups * cin)%nat ->
  length edge_r = length ei -> (q < groups)%nat ->
  rmap (group_cols q cout)
       (forward kern features ei edge_r size n_norm groups) =
  forward kern (group_cols q cin features) ei edge_r size n_norm 1.
Proof.
  intros Hwf Hcols Hlen Hq.
  assert (Hwf' : wf2 (group_cols q cin features)).
  { unfold wf2, group_cols. cbn [t_rows t_cols]. apply Forall_map.
    unfold wf2 in Hwf. eapply Forall_impl; [|exact Hwf].
    intros row Hrow. rewrite length_firstn, length_skipn, Hrow, Hcols. nia. }
  rewrite (forward_shared groups features) by assumption.
  rewrite (forward_ungrouped K cout cin kern kern_per_edge (group_cols q cin features))
    by (exact Hwf' || reflexivity || exact Hlen).
  assert (Hshape : shape0 (group_cols q cin features) = shape0 features).
  { unfold group_cols, shape0. cbn [t_rows]. apply length_map. }
  replace (size_ok size (group_cols q cin features)) with (size_ok size features)
    by (unfold size_ok; rewrite Hshape; reflexivity).
  replace (n_source_of size (group_cols q cin features))
    with (n_source_of size features)
    by (unfold n_source_of; rewrite Hshape; reflexivity).
  rewrite Hshape.
  destruct (negb (size_ok size features)); [reflexivity|].
  destruct (negb (all_lt (targets ei) (shape0 features))) eqn:Et; [reflexivity|].
  replace (groups * cout =? 0)%nat with (cout =? 0)%nat
    by (destruct cout; [rewrite Nat.mul_0_r; reflexivity|];
        symmetry; apply Nat.eqb_neq; nia).
  destruct (negb (cout =? 0)%nat &&
            negb (all_lt (sources ei) (n_source_of size features)));
    [reflexivity|].
  cbn [rmap]. unfold group_cols at 1. cbn [t_rows]. do 2 f_equal.
  unfold conv_rows. rewrite map_map. apply map_ext. intros s.
  rewrite (slice_sum q cout groups) by exact Hq. f_equal.
  rewrite map_map2. apply map2_ext_in. intros r e _ He.
  apply negb_false_iff, all_lt_spec in Et. rewrite Forall_forall in Et.
  assert (Hin : (snd e < shape0 features)%nat).
  { apply Et. unfold targets. apply in_map. exact He. }
  rewrite slice_concat.
  - unfold edge_message, group_cols. cbn [t_rows].
    rewrite (nth_indep _ [] (matvec (mdiv (K r) (sqrt n_norm)) []))
      by (rewrite length_map, chunks_length; exact Hq).
    rewrite map_nth, nth_chunks by exact Hq. f_equal.
    rewrite (nth_indep (map _ (t_rows features)) []
               ((fun row => firstn cin (skipn (q * cin) row)) []))
      by (rewrite length_map; exact Hin).
    rewrite (map_nth (fun row => firstn cin (skipn (q * cin) row))). reflexivity.
  - apply Forall_map. apply Forall_forall. intros x _.
    rewrite matvec_length. unfold mdiv. rewrite length_map. apply K_rows.
  - rewrite length_map, chunks_length. exact Hq.
Qed.

End Shared.

Lemma shared_kernel_acts_per_group_witness :
  rmap (group_cols 1 1)
       (Convolution.forward identity_scalar_kernel (mk2 2 [[1; 2]]) [(0, 0)%nat]
                            [[1; 1; 1]] None 1 2) =
  Convolution.forward identity_scalar_kernel (group_cols 1 1 (mk2 2 [[1; 2]]))
                      [(0, 0)%nat] [[1; 1; 1]] None 1 1.
Proof.
  apply (shared_kernel_acts_per_group (fun _ => [[1]]) 1 1 identity_scalar_kernel).
  - intros edge_r. reflexivity.
  - intros r. reflexivity.
  - repeat constructor.
  - reflexivity.
  - reflexivity.
  - lia.
Defined.

End ConvolutionGroups.

(* ================================================================== *)
(** * Convolution with a kernel for every group *)

Module ConvolutionGroupKernel.
Import Convolution ConvolutionFacts ConvolutionGroups.

Section PerGroup.

Variables (Kg : list R -> list (list (list R))) (groups cout cin : nat)
          (kern : kernel).
Hypothesis kern_per_edge :
  forall edge_r, kern edge_r = K4 groups cout cin (map Kg edge_r).
Hypothesis Kg_groups : forall r, length (Kg r) = groups.
Hypothesis Kg_rows : forall r, Forall (fun m => length m = cout) (Kg r).

Lemma message_group_kernel (x_j : tensor2) (ks : list (list (list (list R)))) :
  t_cols x_j = (groups * cin)%nat -> length ks = shape0 x_j ->
  message x_j (K4 groups cout cin ks) groups =
  Ok (mk2 (groups * cout)
          (map2 (fun Ks x => concat (map (fun p => matvec (fst p) (snd p))
                                         (combine Ks (chunks groups cin x))))
                ks (t_rows x_j))).
Proof.
  intros Hcols Hlen. unfold message. cbn [k_shape_last2 k_shape0].
  unfold view. rewrite Hcols.
  replace (shape0 x_j * (groups * cin) =? shape0 x_j * groups * cin)%nat with true
    by (symmetry; apply Nat.eqb_eq; lia).
  cbn [bind]. destruct (length ks =? 0)%nat eqn:E0.
  - apply Nat.eqb_eq in E0. destruct ks; [|discriminate].
    destruct x_j as [c rows]. unfold shape0 in Hlen. simpl in *.
    destruct rows; [|discriminate]. reflexivity.
  - rewrite Nat.eqb_refl. unfold einsum_egij_egj.
    rewrite bzip_same by (rewrite length_map; exact Hlen).
    cbn [bind]. unfold reshape.
    rewrite map2_length by (rewrite length_map; exact Hlen).
    replace (length ks * groups * cout =? shape0 x_j * (groups * cout))%nat with true
      by (symmetry; apply Nat.eqb_eq; rewrite Hlen; lia).
    do 2 f_equal. rewrite map_map2, map2_map_r. reflexivity.
Qed.

Lemma forward_group_kernel (features : tensor2) (ei : edge_index)
    (edge_r : list (list R)) (size : option (nat * nat)) (n_norm : R) :
  t_cols features = (groups * cin)%nat -> length edge_r = length ei ->
  forward kern features ei edge_r size n_norm groups =
  if negb (size_ok size features) then Err SizeError
  else if negb (all_lt (targets ei) (shape0 features)) then Err IndexError
  else if negb (groups * cout =? 0)%nat &&
          negb (all_lt (sources ei) (n_source_of size features))
  then Err IndexError
  else Ok (mk2 (groups * cout)
             (map (fun s =>
                     sum_rows_at (groups * cout) s
                       (map2 (fun r (e : nat * nat) =>
                                concat (map (fun p => matvec (fst p) (snd p))
                                            (combine
                                               (map (fun m => mdiv m (sqrt n_norm)) (Kg r))
                                               (chunks groups cin
                                                  (nth (snd e) (t_rows features) [])))))
                             edge_r ei)
                       (sources ei))
                  (seq 0 (n_source_of size features)))).
Proof.
  intros Hcols Hlen. unfold forward. rewrite kern_per_edge.
  cbn [k_div]. rewrite map_map.
  assert (Hmsg : forall n,
            (x_j <- index_select features (targets ei) ;;
             out <- message x_j
                      (K4 groups cout cin
                          (map (fun r => map (fun m => mdiv m (sqrt n_norm)) (Kg r))
                               edge_r))
                      groups ;;
             scatter_add out (sources ei) n) =
            if negb (all_lt (targets ei) (shape0 features)) then Err IndexError
            else if negb (groups * cout =? 0)%nat && negb (all_lt (sources ei) n)
            then Err IndexError
            else Ok (mk2 (groups * cout)
                       (map (fun s =>
                               sum_rows_at (groups * cout) s
                                 (map2 (fun r (e : nat * nat) =>
                                          concat (map (fun p => matvec (fst p) (snd p))
                                                      (combine
                                                         (map (fun m => mdiv m (sqrt n_norm))
                                                              (Kg r))
                                                         (chunks groups cin
                                                            (nth (snd e) (t_rows features) [])))))
                                       edge_r ei)
                                 (sources ei))
                            (seq 0 n)))).
  { intros n. unfold index_select.
    destruct (all_lt (targets ei) (shape0 features)); [|reflexivity].
    cbn [negb bind]. rewrite message_group_kernel.
    - cbn [bind]. unfold scatter_add.
      rewrite broadcast_same.
      2:{ unfold shape0, sources. cbn [t_rows].
          rewrite map2_length by (rewrite !length_map; unfold targets;
                                  rewrite length_map; exact Hlen).
          rewrite !length_map. symmetry. exact Hlen. }
      cbn [bind t_rows t_cols].
      destruct (negb (groups * cout =? 0)%nat && negb (all_lt (sources ei) n));
        [reflexivity|].
      do 3 f_equal.
      rewrite map2_map_l. unfold targets. rewrite !map2_map_r. reflexivity.
    - exact Hcols.
    - unfold shape0. cbn [t_rows]. rewrite !length_map. unfold targets.
      rewrite length_map. exact Hlen. }
  unfold propagate, size_ok, n_source_of.
  destruct size as [[n_target n_source]|].
  - destruct (n_target =? shape0 features)%nat; cbn [negb]; [apply Hmsg | reflexivity].
  - cbn [negb]. apply Hmsg.
Qed.

(** X7. Convolution.forward, lines 36-47, with a kernel that has a group
    dimension: the columns of group [q] of the result are the
    convolution, with one group, of the columns of group [q] of the
    features by the kernel of group [q], errors included. *)
Theorem group_kernel_acts_per_group (q : nat) (kern_q : kernel)
    (features : tensor2) (ei : edge_index) (edge_r : list (list R))
    (size : option (nat * nat)) (n_norm : R) :
  (forall edge_r, kern_q edge_r =
                  K3 cout cin (map (fun r => nth q (Kg r) []) edge_r)) ->
  wf2 features -> t_cols features = (groups * cin)%nat ->
  length edge_r = length ei -> (q < groups)%nat ->
  rmap (group_cols q cout)
       (forward kern features ei edge_r size n_norm groups) =
  forward kern_q (group_cols q cin features) ei edge_r size n_norm 1.
Proof.
  intros Hkq Hwf Hcols Hlen Hq.
  assert (Hwf' : wf2 (group_cols q cin features)).
  { unfold wf2, group_cols. cbn [t_rows t_cols]. apply Forall_map.
    unfold wf2 in Hwf. eapply Forall_impl; [|exact Hwf].
    intros row Hrow. rewrite length_firstn, length_skipn, Hrow, Hcols. nia. }
  rewrite (forward_group_kernel features) by assumption.
  rewrite (forward_ungrouped (fun r => nth q (Kg r) []) cout cin kern_q Hkq
                             (group_cols q cin features))
    by (exact Hwf' || reflexivity || exact Hlen).
  assert (Hshape : shape0 (group_cols q cin features) = shape0 features).
  { unfold group_cols, shape0. cbn [t_rows]. apply length_map. }
  replace (size_ok size (group_cols q cin features)) with (size_ok size features)
    by (unfold size_ok; rewrite Hshape; reflexivity).
  replace (n_source_of size (group_cols q cin features))
    with (n_source_of size features)
    by (unfold n_source_of; rewrite Hshape; reflexivity).
  rewrite Hshape.
  destruct (negb (size_ok size features)); [reflexivity|].
  destruct (negb (all_lt (targets ei) (shape0 features))) eqn:Et; [reflexivity|].
  replace (groups * cout =? 0)%nat with (cout =? 0)%nat
    by (destruct cout; [rewrite Nat.mul_0_r; reflexivity|];
        symmetry; apply Nat.eqb_neq; nia).
  destruct (negb (cout =? 0)%nat &&
            negb (all_lt (sources ei) (n_source_of size features)));
    [reflexivity|].
  cbn [rmap]. unfold group_cols at 1. cbn [t_rows]. do 2 f_equal.
  unfold conv_rows. rewrite map_map. apply map_ext. intros s.
  rewrite (slice_sum q cout groups) by exact Hq. f_equal.
  rewrite map_map2. apply map2_ext_in. intros r e _ He.
  apply negb_false_iff, all_lt_spec in Et. rewrite Forall_forall in Et.
  assert (Hin : (snd e < shape0 features)%nat).
  { apply Et. unfold targets. apply in_map. exact He. }
  assert (Hcomb : length (combine (map (fun m => mdiv m (sqrt n_norm)) (Kg r))
                                  (chunks groups cin (nth (snd e) (t_rows features) [])))
                  = groups).
  { rewrite length_combine, length_map, chunks_length, Kg_groups. lia. }
  rewrite slice_concat.
  - unfold edge_message, group_cols. cbn [t_rows].
    rewrite (nth_indep _ [] ((fun p : list (list R) * list R => matvec (fst p) (snd p))
                               ([], [])))
      by (rewrite length_map, Hcomb; exact Hq).
    rewrite (map_nth (fun p : list (list R) * list R => matvec (fst p) (snd p))).
    rewrite combine_nth by (rewrite length_map, chunks_length; apply Kg_groups).
    cbn [fst snd]. rewrite nth_chunks by exact Hq.
    rewrite (nth_indep (map _ (Kg r)) [] ((fun m => mdiv m (sqrt n_norm)) []))
      by (rewrite length_map, Kg_groups; exact Hq).
    rewrite (map_nth (fun m => mdiv m (sqrt n_norm))). f_equal.
    rewrite (nth_indep (map _ (t_rows features)) []
               ((fun row => firstn cin (skipn (q * cin) row)) []))
      by (rewrite length_map; exact Hin).
    rewrite (map_nth (fun row => firstn cin (skipn (q * cin) row))). reflexivity.
  - apply Forall_map. apply Forall_forall. intros [m x] Hmx.
    apply in_combine_l in Hmx. cbn [fst snd]. rewrite matvec_length.
    apply in_map_iff in Hmx. destruct Hmx as [m0 [<- Hm0]].
    unfold mdiv. rewrite length_map.
    pose proof (Kg_rows r) as Hr. rewrite Forall_forall in Hr. apply Hr. exact Hm0.
  - rewrite length_map, Hcomb. exact Hq.
Qed.

End PerGroup.

Lemma group_kernel_acts_per_group_witness :
  rmap (group_cols 1 1)
       (Convolution.forward two_group_kernel (mk2 2 [[1; 2]]) [(0, 0)%nat]
                            [[1; 1; 1]] None 1 2) =
  Convolution.forward identity_scalar_kernel (group_cols 1 1 (mk2 2 [[1; 2]]))
                      [(0, 0)%nat] [[1; 1; 1]] None 1 1.
Proof.
  apply (group_kernel_acts_per_group (fun _ => [[[1]]; [[1]]]) 2 1 1
           two_group_kernel).
  - intros edge_r. reflexivity.
  - intros r. reflexivity.
  - intros r. repeat constructor.
  - intros edge_r. reflexivity.
  - repeat constructor.
  - reflexivity.
  - reflexivity.
  - lia.
Defined.

End ConvolutionGroupKernel.

(* ================================================================== *)
(** * Bloom: rows, origins and the fallback *)

Module BloomRows.
Import Bloom BloomFacts.

Lemma nonzero_gt_none (radii : list R) (thr : R) (i : nat) :
  Forall (fun r => r <= thr) radii -> nonzero_gt radii thr i = [].
Proof.
  revert i. induction radii as [|r radii IH]; intros i H; simpl; [reflexivity|].
  apply Forall_cons_iff in H. destruct H as [Hr H].
  rewrite Rltb_false by lra. apply IH. exact H.
Qed.

Lemma map_nth_seq {A : Type} (l : list A) (d : A) :
  map (fun i => nth i l d) (seq 0 (length l)) = l.
Proof.
  induction l as [|a l IH]; simpl; [reflexivity|].
  rewrite <- seq_shift, map_map. simpl. rewrite IH. reflexivity.
Qed.

Lemma all_lt_seq (n : nat) : all_lt (seq 0 n) n = true.
Proof.
  apply all_lt_spec. apply Forall_forall. intros i Hi. apply in_seq in Hi. lia.
Qed.

Lemma map2_Rplus_vadd (a b : list R) : map2 Rplus a b = vadd a b.
Proof.
  unfold map2. revert b. induction a as [|x a IH]; intros [|y b]; simpl;
    try reflexivity. rewrite IH. reflexivity.
Qed.

Lemma vadd_zeros_l (p : list R) : vadd (zeros1 (length p)) p = p.
Proof.
  unfold zeros1. induction p as [|x p IH]; simpl; [reflexivity|].
  rewrite IH. f_equal. lra.
Qed.

Lemma list_sum_ones {A : Type} (l : list A) :
  list_sum (map (fun _ => 1%nat) l) = length l.
Proof. induction l as [|a l IH]; simpl; [reflexivity | rewrite IH; reflexivity]. Qed.

Lemma concat_singletons {A B : Type} (f : A -> B) (l : list A) :
  concat (map (fun a => [f a]) l) = map f l.
Proof. induction l as [|a l IH]; simpl; [reflexivity | rewrite IH; reflexivity]. Qed.

Lemma map2_vadd_zeros (sigs : list (list R)) (rows : list (list R)) :
  length rows = length sigs -> Forall (fun p => length p = 3%nat) rows ->
  map2 (fun (_ : list R) p => vadd (zeros1 3) p) sigs rows = rows.
Proof.
  unfold map2. revert rows. induction sigs as [|s sigs IH]; intros [|p rows] Hlen Hwf;
    try discriminate; [reflexivity|].
  apply Forall_cons_iff in Hwf. destruct Hwf as [Hp Hwf].
  cbn [combine map fst snd]. rewrite IH; [|simpl in Hlen; lia | exact Hwf].
  f_equal. rewrite <- Hp. apply vadd_zeros_l.
Qed.

Lemma cat_uniform (d : nat) (pieces : list tensor2) :
  pieces <> [] -> Forall (fun t => t_cols t = d) pieces ->
  cat pieces = Ok (mk2 d (concat (map t_rows pieces))).
Proof.
  induction pieces as [|t pieces IH]; intros Hne H; [contradiction|].
  apply Forall_cons_iff in H. destruct H as [Ht H].
  destruct pieces as [|t' pieces].
  - simpl. rewrite app_nil_r. destruct t as [c rows]. simpl in Ht. subst c.
    reflexivity.
  - change (cat (t :: t' :: pieces))
      with (rest <- cat (t' :: pieces) ;;
            if (t_cols t =? t_cols rest)%nat
            then Ok (mk2 (t_cols t) (t_rows t ++ t_rows rest))
            else Err BroadcastError).
    rewrite IH by (discriminate || exact H). cbn [bind t_cols t_rows].
    rewrite Ht, Nat.eqb_refl. reflexivity.
Qed.

Lemma cat_rows (pieces : list tensor2) (all_peaks : tensor2) :
  cat pieces = Ok all_peaks ->
  shape0 all_peaks = list_sum (map shape0 pieces).
Proof.
  revert all_peaks. induction pieces as [|t pieces IH]; intros all_peaks H;
    [discriminate|].
  destruct pieces as [|t' pieces].
  - simpl in H. injection H as <-. simpl. lia.
  - change (cat (t :: t' :: pieces))
      with (rest <- cat (t' :: pieces) ;;
            if (t_cols t =? t_cols rest)%nat
            then Ok (mk2 (t_cols t) (t_rows t ++ t_rows rest))
            else Err BroadcastError) in H.
    destruct (cat (t' :: pieces)) as [rest|] eqn:E; [|discriminate].
    cbn [bind] in H. destruct (t_cols t =? t_cols rest)%nat; [|discriminate].
    injection H as <-. unfold shape0 at 1. cbn [t_rows].
    rewrite length_app. fold (shape0 t) (shape0 rest).
    rewrite (IH rest eq_refl). reflexivity.
Qed.

Lemma index_select_rows (x : tensor2) (idx : list nat) (out : tensor2) :
  index_select x idx = Ok out -> shape0 out = length idx /\ t_cols out = t_cols x.
Proof.
  unfold index_select. destruct (all_lt idx (shape0 x)); [|discriminate].
  intros H. injection H as <-. unfold shape0. cbn [t_rows t_cols].
  rewrite length_map. auto.
Qed.

(** The pair one node adds when every peak found is at or below the
    threshold. *)
Lemma bloom_node_no_peak (find_peaks : peak_finder) (res : nat)
    (min_radius absolute_min : R) (use_L1 : bool) (i : nat) (sig : list R) :
  sig <> [] ->
  Forall (fun pr : list R * R => snd pr <= min_radius) (find_peaks res sig) ->
  bloom_node find_peaks res min_radius false absolute_min use_L1 i sig =
  if use_L1 then Ok (mk2 (length (firstn 3 (skipn 1 sig)))
                         [firstn 3 (skipn 1 sig)], [i])
  else Ok (mk2 3 [zeros1 3], [i]).
Proof.
  intros Hne Hsmall. unfold bloom_node.
  destruct sig as [|x sig]; [contradiction|].
  cbn [map tensor_max bind].
  set (found := if Rltb 0 _ then find_peaks res (x :: sig) else []).
  assert (Hfound : Forall (fun pr : list R * R => snd pr <= min_radius) found).
  { unfold found. destruct (Rltb 0 _); [exact Hsmall | constructor]. }
  rewrite nonzero_gt_none.
  - reflexivity.
  - apply Forall_map. exact Hfound.
Qed.

Lemma bloom_loop_no_peak (find_peaks : peak_finder) (res : nat)
    (min_radius absolute_min : R) (use_L1 : bool) (signal : list (list R))
    (i : nat) :
  Forall (fun sig =>
            (if use_L1 then (4 <= length sig)%nat else sig <> []) /\
            Forall (fun pr : list R * R => snd pr <= min_radius)
                   (find_peaks res sig)) signal ->
  bloom_loop find_peaks res min_radius false absolute_min use_L1 i signal =
  Ok (map (fun sig => mk2 3 [if use_L1 then firstn 3 (skipn 1 sig) else zeros1 3])
          signal,
      map (fun k => [k]) (seq i (length signal))).
Proof.
  revert i. induction signal as [|sig signal IH]; intros i H; [reflexivity|].
  apply Forall_cons_iff in H. destruct H as [[Hsig Hsmall] H].
  cbn [bloom_loop]. rewrite bloom_node_no_peak.
  - rewrite (IH (S i) H). destruct use_L1; cbn [bind fst snd map length seq].
    + rewrite length_firstn, length_skipn.
      replace (Nat.min 3 (length sig - 1)) with 3%nat by lia. reflexivity.
    + reflexivity.
  - destruct use_L1; [|exact Hsig]. intros ->. simpl in Hsig. lia.
  - exact Hsmall.
Qed.

(** X11. Bloom.forward, lines 305-320 with [percentage] off. When no node has
    a peak above [min_radius], the bloomed points are the nodes, one each
    and in order: moved by the entries 1 to 3 of their signal with
    [use_L1], left where they are without. *)
Theorem no_peak_falls_back (find_peaks : peak_finder) (res : nat)
    (signal pos : tensor2) (min_radius absolute_min : R) (use_L1 : bool) :
  (0 < shape0 signal)%nat -> shape0 pos = shape0 signal ->
  wf2 pos -> t_cols pos = 3%nat ->
  Forall (fun sig =>
            (if use_L1 then (4 <= length sig)%nat else sig <> []) /\
            Forall (fun pr : list R * R => snd pr <= min_radius)
                   (find_peaks res sig)) (t_rows signal) ->
  forward find_peaks res signal pos min_radius false absolute_min use_L1 =
  Ok (if use_L1
      then mk2 3 (map2 (fun sig p => vadd (firstn 3 (skipn 1 sig)) p)
                       (t_rows signal) (t_rows pos))
      else pos,
      seq 0 (shape0 signal)).
Proof.
  intros Hsome Hrows Hwf Hcols Hsig. unfold forward.
  rewrite (bloom_loop_no_peak _ _ _ _ _ _ 0 Hsig). cbn [bind fst snd].
  rewrite (cat_uniform 3).
  2:{ unfold shape0 in Hsome. destruct (t_rows signal); [simpl in Hsome; lia|].
      discriminate. }
  2:{ apply Forall_map. apply Forall_forall. intros sig _. reflexivity. }
  cbn [bind]. rewrite map_map. cbn [t_rows].
  rewrite (concat_singletons (fun k : nat => k)), map_id.
  fold (shape0 signal). unfold index_select. rewrite <- Hrows, all_lt_seq.
  cbn [bind]. unfold shape0 at 1. rewrite map_nth_seq, Hcols.
  rewrite concat_singletons.
  set (fb := fun sig : list R => if use_L1 then firstn 3 (skipn 1 sig) else zeros1 3).
  assert (Hlen : length (map fb (t_rows signal)) = length (t_rows pos)).
  { rewrite length_map. symmetry. exact Hrows. }
  unfold bop2, shape0. cbn [t_rows t_cols].
  rewrite Hlen, !bdim_same. rewrite <- Hlen at 1. rewrite !expand_same.
  assert (Hrow : forall a p, In a (map fb (t_rows signal)) -> In p (t_rows pos) ->
            map2 Rplus (expand 3 a) (expand 3 p) = vadd a p).
  { intros a p Ha Hp. apply in_map_iff in Ha. destruct Ha as [sig [<- Hin]].
    rewrite Forall_forall in Hsig. destruct (Hsig sig Hin) as [Hl _].
    unfold wf2 in Hwf. rewrite Forall_forall in Hwf. specialize (Hwf p Hp).
    rewrite Hcols in Hwf. rewrite <- Hwf at 2. rewrite expand_same.
    assert (Ha3 : length (fb sig) = 3%nat).
    { unfold fb. destruct use_L1; [|reflexivity].
      rewrite length_firstn, length_skipn. lia. }
    rewrite <- Ha3 at 1. rewrite expand_same. apply map2_Rplus_vadd. }
  rewrite (map2_ext_in _ (fun a p => vadd a p) _ _ Hrow).
  rewrite map2_map_l. unfold fb. destruct use_L1; [reflexivity|].
  destruct pos as [c rows]. cbn [t_rows t_cols] in *. subst c.
  rewrite map2_vadd_zeros; [reflexivity | exact Hrows | exact Hwf].
Qed.

Lemma select_indices_length {A : Type} (d : A) (l : list A) (ix : list nat) :
  length (select d l (Indices ix)) = length ix.
Proof. simpl. apply length_map. Qed.

Lemma bloom_node_rows (find_peaks : peak_finder) (res : nat)
    (min_radius absolute_min : R) (use_L1 : bool) (i : nat) (sig : list R)
    (piece : tensor2) (ids : list nat) :
  bloom_node find_peaks res min_radius false absolute_min use_L1 i sig =
    Ok (piece, ids) ->
  shape0 piece = length ids /\ ids <> [] /\ Forall (eq i) ids.
Proof.
  unfold bloom_node. destruct (tensor_max (map Rabs sig)) as [m|]; [|discriminate].
  cbn [bind keep_len].
  destruct (length (nonzero_gt _ min_radius 0) =? 0)%nat eqn:E.
  - destruct use_L1; intros H; injection H as <- <-; (split; [reflexivity|]);
      (split; [discriminate | repeat constructor]).
  - intros H. injection H as <- <-. apply Nat.eqb_neq in E.
    unfold shape0. cbn [t_rows select]. rewrite map2_length_min, !length_map.
    rewrite repeat_length, Nat.min_id. split; [reflexivity|]. split.
    + destruct (length _); [contradiction | discriminate].
    + apply Forall_forall. intros x Hx. apply repeat_spec in Hx. auto.
Qed.

Lemma bloom_loop_rows (find_peaks : peak_finder) (res : nat)
    (min_radius absolute_min : R) (use_L1 : bool) (signal : list (list R))
    (i : nat) (pieces : list tensor2) (ids : list (list nat)) :
  bloom_loop find_peaks res min_radius false absolute_min use_L1 i signal =
    Ok (pieces, ids) ->
  list_sum (map shape0 pieces) = length (concat ids) /\
  Forall (fun x => (i <= x)%nat) (concat ids) /\
  StronglySorted le (concat ids).
Proof.
  revert i pieces ids. induction signal as [|sig signal IH];
    intros i pieces ids H; simpl in H.
  - injection H as <- <-. simpl. repeat split; constructor.
  - destruct (bloom_node _ _ _ _ _ _ i sig) as [[piece id]|] eqn:Hnode;
      [|discriminate].
    cbn [bind] in H.
    destruct (bloom_loop _ _ _ _ _ _ (S i) signal) as [[ps is']|] eqn:Hloop;
      [|discriminate].
    cbn [bind fst snd] in H. injection H as <- <-.
    destruct (IH _ _ _ Hloop) as [Hsum [Hge Hsorted]].
    destruct (bloom_node_rows _ _ _ _ _ _ _ _ _ Hnode) as [Hrows [_ Hall]].
    cbn [map concat]. rewrite length_app. split; [simpl; lia|]. split.
    + apply Forall_app. split.
      * eapply Forall_impl; [|exact Hall]. intros x <-. lia.
      * eapply Forall_impl; [|exact Hge]. intros x Hx. simpl in Hx. lia.
    + clear Hnode Hrows. induction Hall as [|x id Hx Hall IHid]; [exact Hsorted|].
      simpl. constructor; [exact IHid|]. apply Forall_app. split.
      * eapply Forall_impl; [|exact Hall]. intros y <-. lia.
      * eapply Forall_impl; [|exact Hge]. intros y Hy. simpl in Hy. lia.
Qed.

(** X12. Bloom.forward, lines 305-320 with [percentage] off: whatever it
    returns has one origin per bloomed position, and the origins come in
    node order. *)
Theorem absolute_rows_match_origins (find_peaks : peak_finder) (res : nat)
    (signal pos : tensor2) (min_radius absolute_min : R) (use_L1 : bool)
    (out : tensor2) (new_indices : list nat) :
  forward find_peaks res signal pos min_radius false absolute_min use_L1 =
    Ok (out, new_indices) ->
  shape0 out = length new_indices /\ StronglySorted le new_indices.
Proof.
  unfold forward.
  destruct (bloom_loop _ _ _ _ _ _ 0 (t_rows signal)) as [[pieces ids]|] eqn:Hloop;
    [|discriminate].
  cbn [bind fst snd]. destruct (cat pieces) as [all_peaks|] eqn:Hcat; [|discriminate].
  cbn [bind]. destruct (index_select pos (concat ids)) as [origin|] eqn:Hsel;
    [|discriminate].
  cbn [bind]. destruct (bop2 Rplus all_peaks origin) as [o|] eqn:Hadd; [|discriminate].
  cbn [bind]. intros H. injection H as <- <-.
  destruct (bloom_loop_rows _ _ _ _ _ _ _ _ _ Hloop) as [Hsum [_ Hsorted]].
  split; [|exact Hsorted].
  apply bop2_shape in Hadd. destruct Hadd as [Hrows _].
  rewrite (cat_rows _ _ Hcat), Hsum in Hrows.
  destruct (index_select_rows _ _ _ Hsel) as [Ho _]. rewrite Ho in Hrows.
  rewrite bdim_same in Hrows. injection Hrows as <-. reflexivity.
Qed.

Lemma select_mask_kept (found : list (list R * R)) (thr : R) :
  length (select_mask (map fst found) (map (fun r => Rltb thr r) (map snd found))) =
    length (filter (fun pr : list R * R => Rltb thr (snd pr)) found) /\
  length (select_mask (map snd found) (map (fun r => Rltb thr r) (map snd found))) =
    length (filter (fun pr : list R * R => Rltb thr (snd pr)) found).
Proof.
  induction found as [|[pk r] found [IH1 IH2]]; simpl; [auto|].
  destruct (Rltb thr r); simpl; rewrite ?IH1, ?IH2; auto.
Qed.

(** X13. Bloom.forward, lines 302-317 with [percentage] on: the body of the
    loop. A node adds one origin per peak found, but one row per peak
    above the threshold; a node with no peak found raises, and the
    fallback of line 308 is never taken. *)
Theorem percentage_node_rows (find_peaks : peak_finder) (res : nat)
    (min_radius absolute_min : R) (use_L1 : bool) (i : nat) (sig : list R)
    (piece : tensor2) (ids : list nat) :
  bloom_node find_peaks res min_radius true absolute_min use_L1 i sig =
    Ok (piece, ids) ->
  exists mx,
    tensor_max (map snd (find_peaks res sig)) = Ok mx /\
    ids = repeat i (length (find_peaks res sig)) /\
    ids <> [] /\
    shape0 piece =
      length (filter (fun pr : list R * R =>
                        Rltb (Rmax (min_radius * mx) absolute_min) (snd pr))
                     (find_peaks res sig)).
Proof.
  unfold bloom_node. destruct (tensor_max (map Rabs sig)) as [m|]; [|discriminate].
  cbn [bind]. destruct (Rltb 0 m); [|discriminate].
  destruct (tensor_max (map snd (find_peaks res sig))) as [mx|] eqn:Hmx;
    [|discriminate].
  cbn [bind keep_len]. rewrite !length_map.
  destruct (length (find_peaks res sig) =? 0)%nat eqn:E.
  { apply Nat.eqb_eq, length_zero_iff_nil in E. rewrite E in Hmx. discriminate. }
  apply Nat.eqb_neq in E. intros H. injection H as <- <-.
  exists mx. split; [reflexivity|]. split; [reflexivity|]. split.
  { destruct (length (find_peaks res sig)); [contradiction | discriminate]. }
  unfold shape0. cbn [t_rows select]. rewrite map2_length_min.
  destruct (select_mask_kept (find_peaks res sig)
                             (Rmax (min_radius * mx) absolute_min)) as [H1 H2].
  rewrite H1, H2, Nat.min_id. reflexivity.
Qed.

(** X14. Bloom.forward, lines 297-318: a signal with no node, or with no
    column, raises. *)
Theorem empty_signal_raises (find_peaks : peak_finder) (res : nat)
    (signal pos : tensor2) (min_radius absolute_min : R)
    (percentage use_L1 : bool) :
  wf2 signal -> shape0 signal = 0%nat \/ t_cols signal = 0%nat ->
  forward find_peaks res signal pos min_radius percentage absolute_min use_L1 =
  Err ReduceEmptyError.
Proof.
  intros Hwf H. unfold forward. destruct signal as [d rows].
  unfold shape0, wf2 in *. cbn [t_rows t_cols] in *.
  destruct rows as [|sig rows]; [reflexivity|].
  destruct H as [H|H]; [discriminate|]. subst d.
  apply Forall_cons_iff in Hwf. destruct Hwf as [Hsig _].
  destruct sig; [|discriminate]. reflexivity.
Qed.

Lemma no_peak_falls_back_witness :
  Bloom.forward (fun _ _ => []) 200 (mk2 4 [[0; 1; 2; 3]; [0; 0; 0; 0]]) pair_pos
                (1 / 10) false (1 / 100) true =
  Ok (mk2 3 (map2 (fun sig p => vadd (firstn 3 (skipn 1 sig)) p)
                  [[0; 1; 2; 3]; [0; 0; 0; 0]] (t_rows pair_pos)),
      seq 0 2).
Proof.
  apply (no_peak_falls_back (fun _ _ => []) 200
           (mk2 4 [[0; 1; 2; 3]; [0; 0; 0; 0]]) pair_pos (1 / 10) (1 / 100) true).
  - unfold shape0. simpl. lia.
  - reflexivity.
  - repeat constructor.
  - reflexivity.
  - repeat constructor; simpl; lia.
Defined.

Lemma absolute_rows_match_origins_witness :
  shape0 pair_pos = length [0; 1]%nat /\ StronglySorted le [0; 1]%nat.
Proof.
  apply (absolute_rows_match_origins (fun _ _ => []) 200
           (Pooling.cols_to 4 (mk2 4 [[0; 0; 0; 0]; [0; 0; 0; 0]])) pair_pos
           (1 / 10) (1 / 100) true pair_pos [0; 1]%nat).
  exact (PoolingClaims.pair_bloom (1 / 10)).
Defined.

Lemma one_peak_node :
  Bloom.bloom_node one_peak 200 (1 / 10) true (1 / 100) true 0 [1; 0; 0; 0] =
  Ok (mk2 3 [vscale 1 [0; 0; 1]], [0%nat]).
Proof.
  unfold Bloom.bloom_node, one_peak.
  cbn [map Bloom.tensor_max fold_left bind fst snd].
  rewrite Rltb_true.
  - cbn [map fst snd Bloom.tensor_max fold_left bind].
    rewrite Rltb_true.
    + reflexivity.
    + unfold Rmax. destruct (Rle_dec _ _); lra.
  - rewrite Rabs_R0, Rabs_R1. unfold Rmax.
    repeat destruct (Rle_dec _ _); lra.
Qed.

Lemma percentage_node_rows_witness :
  exists mx,
    Bloom.tensor_max (map snd (one_peak 200%nat [1; 0; 0; 0])) = Ok mx /\
    [0%nat] = repeat 0%nat (length (one_peak 200%nat [1; 0; 0; 0])).
Proof.
  destruct (percentage_node_rows one_peak 200 (1 / 10) (1 / 100) true 0
              [1; 0; 0; 0] (mk2 3 [vscale 1 [0; 0; 1]]) [0%nat] one_peak_node)
    as [mx [Hmx [Hids _]]].
  exists mx. split; [exact Hmx | exact Hids].
Defined.

Lemma empty_signal_raises_witness :
  Bloom.forward (fun _ _ => []) 200 (mk2 4 []) pair_pos (1 / 10) false (1 / 100) true =
  Err ReduceEmptyError.
Proof.
  apply (empty_signal_raises (fun _ _ => []) 200 (mk2 4 []) pair_pos (1 / 10)
           (1 / 100) false true).
  - constructor.
  - left. reflexivity.
Defined.

End BloomRows.

(* ================================================================== *)
(** * The bloom representation and the split of the convolution output *)

Module BloomSplit.
Import Pooling Unpooling.

Lemma rs_dim_app (a b : list rs_block) : rs_dim (a ++ b) = (rs_dim a + rs_dim b)%nat.
Proof.
  unfold rs_dim. induction a as [|x a IH]; simpl; [reflexivity|].
  rewrite IH. lia.
Qed.

Lemma rs_dim_bloom (bloom_lmax : nat) :
  rs_dim (Rs_bloom bloom_lmax) = ((bloom_lmax + 1) * (bloom_lmax + 1))%nat.
Proof.
  unfold Rs_bloom. induction bloom_lmax as [|n IH]; [reflexivity|].
  replace (S n + 1)%nat with (S (n + 1)) by lia.
  rewrite seq_S, map_app, rs_dim_app, IH. cbn [map rs_dim fold_right block_dim].
  lia.
Qed.

(** X15. Pooling.__init__ (lines 192-193) and Pooling.forward (lines
    203-204), the same in Unpooling: the bloom signal of degree up to
    [bloom_lmax] takes the first [(bloom_lmax + 1)^2] columns of the
    convolution output and the features the remaining [dim(Rs_out)]; from
    [bloom_lmax = 1] on the signal has the four columns the fallback of
    Bloom reads. *)
Theorem bloom_split_widths (bloom_lmax : nat) (Rs_out : list rs_block)
    (out : tensor2) :
  wf2 out -> t_cols out = rs_dim (Rs_inter bloom_lmax Rs_out) ->
  let d := rs_dim (Rs_bloom bloom_lmax) in
  d = ((bloom_lmax + 1) * (bloom_lmax + 1))%nat /\
  wf2 (cols_to d out) /\ t_cols (cols_to d out) = d /\
  wf2 (cols_from d out) /\ t_cols (cols_from d out) = rs_dim Rs_out /\
  ((1 <= bloom_lmax)%nat -> (4 <= t_cols (cols_to d out))%nat) /\
  forall i, nth i (t_rows out) [] =
            nth i (t_rows (cols_to d out)) [] ++ nth i (t_rows (cols_from d out)) [].
Proof.
  intros Hwf Hcols d. unfold Rs_inter in Hcols. rewrite rs_dim_app in Hcols.
  fold d in Hcols. pose proof (rs_dim_bloom bloom_lmax) as Hd. fold d in Hd.
  unfold wf2, cols_to, cols_from in *. cbn [t_rows t_cols].
  rewrite Forall_forall in Hwf.
  split; [exact Hd|]. split; [|split; [lia|split; [|split; [lia|split]]]].
  - apply Forall_forall. intros row Hin. apply in_map_iff in Hin.
    destruct Hin as [r [<- Hr]]. rewrite length_firstn, (Hwf r Hr). reflexivity.
  - apply Forall_forall. intros row Hin. apply in_map_iff in Hin.
    destruct Hin as [r [<- Hr]]. rewrite length_skipn, (Hwf r Hr). reflexivity.
  - intros Hl. rewrite Hd. nia.
  - intros i. revert i. induction (t_rows out) as [|row rows IH]; intros [|i];
      cbn [map nth]; try reflexivity.
    + symmetry. apply firstn_skipn.
    + apply IH. intros x Hx. apply Hwf. right. exact Hx.
Qed.

Lemma bloom_split_widths_witness :
  t_cols (Pooling.cols_to (rs_dim (Unpooling.Rs_bloom 1)) (mk2 5 [[1; 2; 3; 4; 5]]))
    = 4%nat /\
  t_cols (Pooling.cols_from (rs_dim (Unpooling.Rs_bloom 1)) (mk2 5 [[1; 2; 3; 4; 5]]))
    = 1%nat.
Proof.
  destruct (bloom_split_widths 1 [(1, 0, 1%Z)]%nat (mk2 5 [[1; 2; 3; 4; 5]]))
    as [_ [_ [Hsph [_ [Hx _]]]]].
  - repeat constructor.
  - reflexivity.
  - split; [exact Hsph | exact Hx].
Defined.

End BloomSplit.

(* ================================================================== *)
(** * KMeans: the loop and the score *)

Module KMeansLoop.
Import KMeans KMeansFacts UpdateFacts.

Lemma index_select_wf (x : tensor2) (idx : list nat) (out : tensor2) :
  wf2 x -> index_select x idx = Ok out ->
  wf2 out /\ t_cols out = t_cols x /\ shape0 out = length idx /\
  t_rows out = map (fun i => nth i (t_rows x) []) idx.
Proof.
  unfold index_select. intros Hwf.
  destruct (all_lt idx (shape0 x)) eqn:E; [|discriminate].
  intros H. injection H as <-. apply all_lt_spec in E.
  unfold wf2, shape0. cbn [t_rows t_cols]. rewrite length_map.
  split; [|auto]. apply Forall_map. eapply Forall_impl; [|exact E].
  intros i Hi. apply wf2_row; assumption.
Qed.

(** What the loop hands back is always the outcome of one update. *)
Lemma iterate_returns_update (P : params) (n : nat) (pos : tensor2)
    (batch : list nat) (centroids : tensor2) (centroids_batch : list nat)
    (last : option (list nat)) (cl : list nat) (cen : tensor2) (cb : list nat) :
  wf2 pos -> wf2 centroids -> t_cols pos = t_cols centroids ->
  (forall cl0, last = Some cl0 ->
     exists prev, wf2 prev /\ t_cols pos = t_cols prev /\
       update_centroids pos batch prev centroids_batch = Ok (centroids, cl0)) ->
  iterate P n pos batch centroids centroids_batch last = Ok (cl, cen, cb) ->
  cb = centroids_batch /\
  exists prev, wf2 prev /\ t_cols pos = t_cols prev /\
    update_centroids pos batch prev centroids_batch = Ok (cen, cl).
Proof.
  intros Hpos. revert centroids last.
  induction n as [|n IH]; intros centroids last Hcen Hcols Hlast H.
  - simpl in H. destruct last as [cl0|]; [|discriminate].
    injection H as <- <- <-. split; [reflexivity|]. apply Hlast. reflexivity.
  - cbn [iterate] in H.
    destruct (update_centroids pos batch centroids centroids_batch)
      as [[new_centroids cl1]|] eqn:Hup; [|discriminate].
    cbn [bind] in H.
    destruct (converged P centroids new_centroids) as [stop|]; [|discriminate].
    cbn [bind] in H. destruct stop.
    + injection H as <- <- <-. split; [reflexivity|]. exists centroids. auto.
    + pose proof (update_centroids_nearest _ _ _ _ _ _ Hup) as Hnear.
      destruct (update_centroids_entries pos centroids batch centroids_batch cl1
                  Hpos Hcen Hcols Hnear) as [new' [Hup' [Hwf' [_ [Hc' _]]]]].
      rewrite Hup in Hup'. injection Hup' as <-.
      apply (IH new_centroids (Some cl1)); [exact Hwf' | congruence | | exact H].
      intros cl0 E. injection E as <-. exists centroids. auto.
Qed.

(** X16. KMeans.forward, lines 343-355. Whatever it returns, on an early
    stop or after [max_iter] rounds, is the outcome of one update: every
    point has a centroid, and every centroid that has points is their
    mean. *)
Theorem forward_returns_means (P : params) (fps : sampler) (pos : tensor2)
    (batch : list nat) (start_pos : option tensor2)
    (start_batch : option (list nat)) (fps_ratio : R)
    (cl : list nat) (cen : tensor2) (cb : list nat) :
  wf2 pos ->
  (forall sp, start_pos = Some sp -> wf2 sp /\ t_cols sp = t_cols pos) ->
  forward P fps pos batch start_pos start_batch fps_ratio = Ok (cl, cen, cb) ->
  length cl = shape0 pos /\ length cb = shape0 cen /\ t_cols cen = t_cols pos /\
  (forall i, (i < shape0 pos)%nat -> (nth i cl 0 < shape0 cen)%nat) /\
  (forall c j, (c < shape0 cen)%nat -> (j < t_cols cen)%nat ->
     (0 < count_occ Nat.eq_dec cl c)%nat ->
     entry cen c j = assigned_mean pos cl c j).
Proof.
  intros Hpos Hstart. unfold forward.
  assert (Hrun : forall sp sb,
            wf2 sp -> t_cols sp = t_cols pos ->
            (centroids <- index_select sp (fps sp sb fps_ratio) ;;
             centroids_batch <- index_select1 sb (fps sp sb fps_ratio) ;;
             iterate P (max_iter P) pos batch centroids centroids_batch None) =
              Ok (cl, cen, cb) ->
            exists prev, wf2 prev /\ t_cols pos = t_cols prev /\
              update_centroids pos batch prev cb = Ok (cen, cl)).
  { intros sp sb Hsp Hc H.
    destruct (index_select sp _) as [centroids|] eqn:Hsel; [|discriminate].
    cbn [bind] in H. destruct (index_select1 sb _) as [cbatch|]; [|discriminate].
    cbn [bind] in H.
    destruct (index_select_wf _ _ _ Hsp Hsel) as [Hwf [Hcols _]].
    apply iterate_returns_update in H; [|exact Hpos | exact Hwf | congruence |].
    - destruct H as [-> Hprev]. exact Hprev.
    - intros cl0 E. discriminate. }
  intros H.
  assert (Hprev : exists prev, wf2 prev /\ t_cols pos = t_cols prev /\
                    update_centroids pos batch prev cb = Ok (cen, cl)).
  { destruct start_pos as [sp|].
    - destruct start_batch as [sb|]; [|discriminate]. cbn [bind] in H.
      destruct (Hstart sp eq_refl) as [Hsp Hc]. apply (Hrun sp sb Hsp Hc H).
    - cbn [bind] in H. apply (Hrun pos batch Hpos eq_refl H). }
  clear H Hrun. destruct Hprev as [prev [Hprev [Hcols Hup]]].
  pose proof (update_centroids_nearest _ _ _ _ _ _ Hup) as Hnear.
  destruct (update_centroids_entries pos prev batch cb cl Hpos Hprev Hcols Hnear)
    as [new' [Hup' [_ [Hrows [Hc' Hentries]]]]].
  rewrite Hup in Hup'. injection Hup' as <-.
  destruct (nearest_spec _ _ _ _ _ Hnear) as [Hlen [_ [Hcb Hin]]].
  split; [exact Hlen|]. split; [congruence|]. split; [congruence|]. split.
  - intros i Hi. rewrite Hrows. apply Hin. exact Hi.
  - intros c j Hc Hj Hcount. rewrite Hentries by congruence.
    destruct (count_occ Nat.eq_dec cl c =? 0)%nat eqn:E; [|reflexivity].
    apply Nat.eqb_eq in E. lia.
Qed.

(** X30. KMeans.forward, lines 343-355, with KMeans.update_centroids, line
    337. The classes it returns were made against the centroids as they
    were before the last update: the class of a point is a centroid of
    the point's batch, and no centroid of that batch was closer to the
    point then. *)
Theorem forward_assigns_nearest (P : params) (fps : sampler) (pos : tensor2)
    (batch : list nat) (start_pos : option tensor2)
    (start_batch : option (list nat)) (fps_ratio : R)
    (cl : list nat) (cen : tensor2) (cb : list nat) :
  wf2 pos ->
  (forall sp, start_pos = Some sp -> wf2 sp /\ t_cols sp = t_cols pos) ->
  forward P fps pos batch start_pos start_batch fps_ratio = Ok (cl, cen, cb) ->
  exists previous,
    update_centroids pos batch previous cb = Ok (cen, cl) /\
    shape0 previous = shape0 cen /\
    forall i, (i < shape0 pos)%nat ->
      nth (nth i cl 0%nat) cb 0%nat = nth i batch 0%nat /\
      forall k, (k < shape0 previous)%nat ->
        nth k cb 0%nat = nth i batch 0%nat ->
        sqdist (nth i (t_rows pos) []) (nth (nth i cl 0%nat) (t_rows previous) []) <=
        sqdist (nth i (t_rows pos) []) (nth k (t_rows previous) []).
Proof.
  intros Hpos Hstart. unfold forward. intros H.
  assert (Hprev : exists prev, wf2 prev /\ t_cols pos = t_cols prev /\
                    update_centroids pos batch prev cb = Ok (cen, cl)).
  { assert (Hrun : forall sp sb,
              wf2 sp -> t_cols sp = t_cols pos ->
              (centroids <- index_select sp (fps sp sb fps_ratio) ;;
               centroids_batch <- index_select1 sb (fps sp sb fps_ratio) ;;
               iterate P (max_iter P) pos batch centroids centroids_batch None) =
                Ok (cl, cen, cb) ->
              exists prev, wf2 prev /\ t_cols pos = t_cols prev /\
                update_centroids pos batch prev cb = Ok (cen, cl)).
    { intros sp sb Hsp Hc H'.
      destruct (index_select sp _) as [centroids|] eqn:Hsel; [|discriminate].
      cbn [bind] in H'. destruct (index_select1 sb _) as [cbatch|]; [|discriminate].
      cbn [bind] in H'.
      destruct (index_select_wf _ _ _ Hsp Hsel) as [Hwf [Hcols _]].
      apply iterate_returns_update in H'; [|exact Hpos | exact Hwf | congruence |].
      - destruct H' as [-> Hp]. exact Hp.
      - intros cl0 E. discriminate. }
    destruct start_pos as [sp|].
    - destruct start_batch as [sb|]; [|discriminate]. cbn [bind] in H.
      destruct (Hstart sp eq_refl) as [Hsp Hc]. apply (Hrun sp sb Hsp Hc H).
    - cbn [bind] in H. apply (Hrun pos batch Hpos eq_refl H). }
  destruct Hprev as [prev [Hprev [Hcols Hup]]].
  pose proof (update_centroids_nearest _ _ _ _ _ _ Hup) as Hnear.
  destruct (update_centroids_entries pos prev batch cb cl Hpos Hprev Hcols Hnear)
    as [new' [Hup' [_ [Hrows _]]]].
  rewrite Hup in Hup'. injection Hup' as <-.
  exists prev. split; [exact Hup|]. split; [congruence|].
  intros i Hi. destruct (nearest_spec _ _ _ _ _ Hnear) as [_ [_ [_ Hin]]].
  split; [apply Hin; exact Hi|].
  intros k Hk Hb. apply (nearest_minimal pos prev batch cb cl i k Hnear Hi Hk Hb).
Qed.

(** X17. KMeans.forward, lines 350-355 with [max_iter = 0]: the loop body
    never runs, [classification] is never bound, and the final [return]
    raises. *)
Theorem zero_iterations_raise (P : params) (fps : sampler) (pos : tensor2)
    (batch : list nat) (fps_ratio : R) :
  max_iter P = 0%nat ->
  (forall start_pos start_batch,
     is_ok (forward P fps pos batch start_pos start_batch fps_ratio) = false) /\
  (Forall (fun i => (i < shape0 pos)%nat /\ (i < length batch)%nat)
          (fps pos batch fps_ratio) ->
   forward P fps pos batch None None fps_ratio = Err UnboundLocalError).
Proof.
  intros H0. split.
  - intros start_pos start_batch. unfold forward. rewrite H0.
    destruct start_pos as [sp|]; [destruct start_batch as [sb|]|]; cbn [bind];
      try reflexivity.
    + destruct (index_select sp _); [|reflexivity]. cbn [bind].
      destruct (index_select1 sb _); reflexivity.
    + destruct (index_select pos _); [|reflexivity]. cbn [bind].
      destruct (index_select1 batch _); reflexivity.
  - intros Hin. unfold forward. rewrite H0. cbn [bind].
    unfold index_select, index_select1.
    replace (all_lt (fps pos batch fps_ratio) (shape0 pos)) with true.
    2:{ symmetry. apply all_lt_spec. eapply Forall_impl; [|exact Hin].
        intros i [Hi _]. exact Hi. }
    replace (all_lt (fps pos batch fps_ratio) (length batch)) with true.
    2:{ symmetry. apply all_lt_spec. eapply Forall_impl; [|exact Hin].
        intros i [_ Hi]. exact Hi. }
    reflexivity.
Qed.

Lemma norm2_nonneg (v : list R) : 0 <= norm2 v.
Proof. apply sqrt_pos. Qed.

(** X18. KMeans.forward, line 352 with [tol <= 0]: as long as there is a
    centroid, the test never holds and the loop never stops early. *)
Theorem nonpositive_tol_never_stops (P : params) (centroids new_centroids : tensor2)
    (stop : bool) :
  tol P <= 0 -> (0 < shape0 centroids)%nat ->
  shape0 new_centroids = shape0 centroids ->
  converged P centroids new_centroids = Ok stop -> stop = false.
Proof.
  intros Htol Hsome Hrows. unfold converged.
  destruct (bop2 Rminus centroids new_centroids) as [diff|] eqn:E; [|discriminate].
  cbn [bind]. intros H. injection H as <-.
  apply bop2_shape in E. destruct E as [E _].
  rewrite Hrows, bdim_same in E. injection E as E.
  unfold shape0 in E at 2. destruct (t_rows diff) as [|row rows]; [simpl in E; lia|].
  simpl. rewrite Rltb_false; [reflexivity|].
  pose proof (norm2_nonneg row). lra.
Qed.

Lemma norm1_nonneg (v : list R) : 0 <= norm1 v.
Proof.
  unfold norm1. induction v as [|x v IH]; simpl; [lra|].
  pose proof (Rabs_pos x). lra.
Qed.

Lemma pnorm_nonneg (p : nat) (v : list R) : 0 <= pnorm p v.
Proof.
  unfold pnorm. destruct p as [|[|[|p]]].
  - destruct (Req_dec_T _ 0); [lra|]. left. apply exp_pos.
  - apply norm1_nonneg.
  - apply norm2_nonneg.
  - destruct (Req_dec_T _ 0); [lra|]. left. apply exp_pos.
Qed.

Lemma sum_at_nonneg (s : nat) (src : list R) (index : list nat) :
  Forall (fun x => 0 <= x) src -> 0 <= sum_at s src index.
Proof.
  revert index. induction src as [|x src IH]; intros [|i index] H; simpl; try lra.
  apply Forall_cons_iff in H. destruct H as [Hx H].
  specialize (IH index H). destruct (i =? s)%nat; lra.
Qed.

Lemma Rsum_seq_S (f : nat -> R) (n : nat) :
  Rsum (map f (seq 0 (S n))) = Rsum (map f (seq 0 n)) + f n.
Proof.
  rewrite seq_S, map_app. unfold Rsum. simpl.
  generalize (map f (seq 0 n)). intros l.
  induction l as [|x l IH]; simpl; [lra | rewrite IH; lra].
Qed.

Lemma Rsum_indicator (i n : nat) (x : R) :
  (i < n)%nat ->
  Rsum (map (fun s => if (i =? s)%nat then x else 0) (seq 0 n)) = x.
Proof.
  induction n as [|n IH]; intros Hi; [lia|].
  rewrite Rsum_seq_S. destruct (Nat.eq_dec i n) as [->|Hne].
  - rewrite Nat.eqb_refl.
    assert (Hz : Rsum (map (fun s => if (n =? s)%nat then x else 0) (seq 0 n)) = 0).
    { clear. assert (H : forall m, (m <= n)%nat ->
                Rsum (map (fun s => if (n =? s)%nat then x else 0) (seq 0 m)) = 0).
      { induction m as [|m IHm]; intros Hm; [reflexivity|].
        rewrite Rsum_seq_S, IHm by lia.
        replace (n =? m)%nat with false by (symmetry; apply Nat.eqb_neq; lia). lra. }
      apply H. lia. }
    rewrite Hz. lra.
  - rewrite IH by lia.
    replace (i =? n)%nat with false by (symmetry; apply Nat.eqb_neq; lia). lra.
Qed.

Lemma Rsum_plus (f g : nat -> R) (l : list nat) :
  Rsum (map (fun s => f s + g s) l) = Rsum (map f l) + Rsum (map g l).
Proof.
  unfold Rsum. induction l as [|a l IH]; simpl; [lra | rewrite IH; lra].
Qed.

(** Scattering moves the entries without losing any. *)
Lemma sum_at_total (src : list R) (index : list nat) (n : nat) :
  length src = length index -> Forall (fun i => (i < n)%nat) index ->
  Rsum (map (fun s => sum_at s src index) (seq 0 n)) = Rsum src.
Proof.
  revert index. induction src as [|x src IH]; intros [|i index] Hlen Hr;
    try discriminate.
  - simpl. clear. unfold Rsum. induction (seq 0 n) as [|a l IHl]; simpl; [lra|].
    rewrite IHl. lra.
  - apply Forall_cons_iff in Hr. destruct Hr as [Hi Hr].
    rewrite (map_ext (fun s => sum_at s (x :: src) (i :: index))
                     (fun s => (if (i =? s)%nat then x else 0) + sum_at s src index)).
    2:{ intros s. simpl. destruct (i =? s)%nat; lra. }
    rewrite Rsum_plus, Rsum_indicator by exact Hi.
    rewrite IH by (simpl in Hlen; try lia; exact Hr). simpl. reflexivity.
Qed.

(** X19. KMeans.score, lines 330-332: one score per example, none negative;
    together they add up to the distances of all the points to their
    centroids. *)
Theorem score_total (P : params) (pos : tensor2) (batch : list nat)
    (centroids : tensor2) (classification : list nat) (scores : list R) :
  wf2 pos -> wf2 centroids -> t_cols pos = t_cols centroids ->
  length classification = shape0 pos ->
  score P pos batch centroids classification = Ok scores ->
  Forall (fun s => 0 <= s) scores /\
  Rsum scores =
  Rsum (map2 (fun p c => pnorm (score_norm P) (vsub p (nth c (t_rows centroids) [])))
             (t_rows pos) classification).
Proof.
  intros Hpos Hcen Hcols Hlen. unfold score.
  destruct (index_select centroids classification) as [assigned|] eqn:Hsel;
    [|discriminate].
  cbn [bind]. destruct (index_select_wf _ _ _ Hcen Hsel) as [Hwf [Hc [Hr Hrows]]].
  destruct (bop2 Rminus pos assigned) as [diff|] eqn:Hdiff; [|discriminate].
  cbn [bind]. unfold scatter_add1.
  destruct (broadcast batch (length (map (pnorm (score_norm P)) (t_rows diff))))
    as [ix|] eqn:Hb; [|discriminate].
  cbn [bind]. intros H. injection H as <-.
  destruct (broadcast_spec _ _ _ Hb) as [El _]. symmetry in El.
  assert (Hnn : Forall (fun x => 0 <= x) (map (pnorm (score_norm P)) (t_rows diff))).
  { apply Forall_map. apply Forall_forall. intros v _. apply pnorm_nonneg. }
  split.
  - apply Forall_map. apply Forall_forall. intros s _. apply sum_at_nonneg. exact Hnn.
  - rewrite sum_at_total; [|exact El|].
    2:{ clear Hb El. destruct ix as [|b ix]; [constructor|].
        destruct (fold_max_ge b ix) as [Hb Hall]. constructor; [lia|].
        eapply Forall_impl; [|exact Hall]. intros x Hx. simpl in Hx. lia. }
    f_equal. unfold bop2 in Hdiff. rewrite Hr, Hlen, Hc, <- Hcols in Hdiff.
    rewrite !bdim_same in Hdiff. injection Hdiff as <-. cbn [t_rows].
    unfold shape0 at 1. rewrite expand_same.
    replace (shape0 pos) with (length (t_rows assigned)) by (fold (shape0 assigned); congruence).
    rewrite expand_same, Hrows, map_map2, map2_map_r.
    apply map2_ext_in. intros p c Hp Hcin. f_equal. unfold vsub. f_equal.
    + unfold wf2 in Hpos. rewrite Forall_forall in Hpos. rewrite <- (Hpos p Hp).
      apply expand_same.
    + unfold index_select in Hsel.
      destruct (all_lt classification (shape0 centroids)) eqn:Ea; [|discriminate].
      apply all_lt_spec in Ea. rewrite Forall_forall in Ea. specialize (Ea c Hcin).
      rewrite Hcols, <- (wf2_row centroids c Hcen Ea). apply expand_same.
Qed.

Lemma forward_returns_means_witness :
  length [0; 1]%nat = shape0 pair_pos /\
  entry pair_pos 1 0 = assigned_mean pair_pos [0; 1]%nat 1 0.
Proof.
  destruct (forward_returns_means default_params (fun _ _ _ => [0; 1]%nat) pair_pos
              [0; 1]%nat (Some pair_pos) (Some [0; 1]%nat) (1 / 2)
              [0; 1]%nat pair_pos [0; 1]%nat)
    as [Hlen [_ [_ [_ Hmean]]]].
  - repeat constructor.
  - intros sp E. injection E as <-. split; [repeat constructor | reflexivity].
  - exact (PoolingClaims.pair_kmeans (1 / 2)).
  - split; [exact Hlen|]. apply Hmean; [unfold shape0; simpl; lia | simpl; lia | simpl; lia].
Defined.

Lemma forward_assigns_nearest_witness :
  exists previous,
    KMeans.update_centroids pair_pos [0; 1]%nat previous [0; 1]%nat =
      Ok (pair_pos, [0; 1]%nat) /\
    shape0 previous = shape0 pair_pos.
Proof.
  destruct (forward_assigns_nearest default_params (fun _ _ _ => [0; 1]%nat)
              pair_pos [0; 1]%nat (Some pair_pos) (Some [0; 1]%nat) (1 / 2)
              [0; 1]%nat pair_pos [0; 1]%nat)
    as [previous [Hup [Hrows _]]].
  - repeat constructor.
  - intros sp E. injection E as <-. split; [repeat constructor | reflexivity].
  - exact (PoolingClaims.pair_kmeans (1 / 2)).
  - exists previous. split; [exact Hup | exact Hrows].
Defined.

Lemma zero_iterations_raise_witness :
  KMeans.forward no_rounds (fun _ _ _ => [0; 1]%nat) pair_pos [0; 1]%nat None None
                 (1 / 2) = Err UnboundLocalError.
Proof.
  apply (proj2 (zero_iterations_raise no_rounds (fun _ _ _ => [0; 1]%nat) pair_pos
                  [0; 1]%nat (1 / 2) eq_refl)).
  repeat constructor; unfold shape0; simpl; lia.
Defined.

Lemma nonpositive_tol_never_stops_witness :
  exists stop,
    KMeans.converged exact_params pair_pos pair_pos = Ok stop /\ stop = false.
Proof.
  eexists. split; [reflexivity|].
  apply (nonpositive_tol_never_stops exact_params pair_pos pair_pos).
  - simpl. lra.
  - unfold shape0. simpl. lia.
  - reflexivity.
  - reflexivity.
Defined.

Lemma score_total_witness :
  exists scores,
    KMeans.score default_params pair_pos [0; 1]%nat pair_pos [0; 1]%nat = Ok scores /\
    Forall (fun s => 0 <= s) scores.
Proof.
  eexists. split; [reflexivity|].
  apply (score_total default_params pair_pos [0; 1]%nat pair_pos [0; 1]%nat).
  - repeat constructor.
  - repeat constructor.
  - reflexivity.
  - reflexivity.
  - reflexivity.
Defined.

End KMeansLoop.

(* ================================================================== *)
(** * Unpooling: merging bloomed points *)

Module UnpoolingFacts.
Import Graph GraphFacts LabelFacts Unpooling.

Lemma in_tagged (i a n : nat) (g : list nat) :
  In (i, n) (combine (repeat a (length g)) g) <-> i = a /\ In n g.
Proof.
  induction g as [|x g IH]; simpl; [tauto|].
  rewrite IH. split.
  - intros [E|[-> H]]; [injection E as <- <-; auto | auto].
  - intros [-> [->|H]]; auto.
Qed.

Lemma snd_tagged (a : nat) (g : list nat) :
  map snd (combine (repeat a (length g)) g) = g.
Proof. induction g as [|x g IH]; simpl; [reflexivity | rewrite IH; reflexivity]. Qed.

Lemma in_tagged_groups (gs : list (list nat)) (s i n : nat) :
  In (i, n)
     (concat (map (fun ig : nat * list nat =>
                     combine (repeat (fst ig) (length (snd ig))) (snd ig))
                  (combine (seq s (length gs)) gs))) <->
  exists k, (k < length gs)%nat /\ i = (s + k)%nat /\ In n (nth k gs []).
Proof.
  revert s. induction gs as [|g gs IH]; intros s; simpl.
  - split; [tauto | intros [k [Hk _]]; lia].
  - rewrite in_app_iff, in_tagged, IH. split.
    + intros [[-> Hn]|[k [Hk [-> Hn]]]].
      * exists 0%nat. split; [lia|]. split; [lia | exact Hn].
      * exists (S k). split; [lia|]. split; [lia | exact Hn].
    + intros [[|k] [Hk [-> Hn]]].
      * left. split; [lia | exact Hn].
      * right. exists k. split; [lia|]. split; [lia | exact Hn].
Qed.

Lemma snd_tagged_groups (gs : list (list nat)) (s : nat) :
  map snd (concat (map (fun ig : nat * list nat =>
                          combine (repeat (fst ig) (length (snd ig))) (snd ig))
                       (combine (seq s (length gs)) gs))) = concat gs.
Proof.
  revert s. induction gs as [|g gs IH]; intros s; simpl; [reflexivity|].
  rewrite map_app, snd_tagged, IH. reflexivity.
Qed.

(** The classes of a function over a list without repetition, one per
    value, do not overlap. *)
Lemma classes_NoDup (f : nat -> nat) (l rs : list nat) :
  NoDup l -> NoDup rs ->
  NoDup (concat (map (fun r => filter (fun n => (f n =? r)%nat) l) rs)).
Proof.
  intros Hl Hrs. induction Hrs as [|r rs Hr Hrs IH]; simpl; [constructor|].
  apply NoDup_app; [apply NoDup_filter; exact Hl | exact IH |].
  intros n Hin1 Hin2. apply filter_In in Hin1. destruct Hin1 as [_ E1].
  apply Nat.eqb_eq in E1. apply in_concat in Hin2.
  destruct Hin2 as [g [Hg Hn]]. apply in_map_iff in Hg.
  destruct Hg as [r' [<- Hr']]. apply filter_In in Hn. destruct Hn as [_ E2].
  apply Nat.eqb_eq in E2. apply Hr. congruence.
Qed.

Section Groups.

Variables (N : nat) (edges : list (nat * nat)).

Hypothesis edges_in_range :
  Forall (fun e => (fst e < N)%nat /\ (snd e < N)%nat) edges.

Local Abbreviation lab := (component_labels N edges).
Local Abbreviation reps := (filter (fun r => (nth r lab r =? r)%nat) (seq 0 N)).

Lemma lab_is_rep (n : nat) : (n < N)%nat -> In (lab_at lab n) reps.
Proof.
  intros Hn.
  assert (Hl : labelling N (fun _ => 0%nat) lab).
  { apply labelling_components. apply Forall_forall. intros e He.
    rewrite Forall_forall in edges_in_range.
    destruct (edges_in_range e He). auto. }
  destruct Hl as [_ Hl]. destruct (Hl n Hn) as [H1 [H2 _]].
  apply reps_spec. auto.
Qed.

Lemma groups_cover (n : nat) :
  In n (concat (connected_components N edges)) <-> (n < N)%nat.
Proof.
  unfold connected_components. rewrite in_concat. split.
  - intros [g [Hg Hn]]. apply in_map_iff in Hg. destruct Hg as [r [<- _]].
    apply filter_In in Hn. destruct Hn as [Hn _]. apply in_seq in Hn. lia.
  - intros Hn. exists (filter (fun m => (nth m lab m =? lab_at lab n)%nat) (seq 0 N)).
    split.
    + apply in_map_iff. exists (lab_at lab n). split; [reflexivity|].
      apply lab_is_rep. exact Hn.
    + apply filter_In. split; [apply in_seq; lia|].
      apply Nat.eqb_eq. reflexivity.
Qed.

Lemma groups_partition :
  Permutation (concat (connected_components N edges)) (seq 0 N).
Proof.
  apply NoDup_Permutation.
  - unfold connected_components.
    apply (classes_NoDup (fun n => nth n lab n)); [apply seq_NoDup | apply reps_NoDup].
  - apply seq_NoDup.
  - intros n. rewrite groups_cover, in_seq. lia.
Qed.

Lemma same_group_iff_connected (k k' n n' : nat) :
  (k < length (connected_components N edges))%nat ->
  (k' < length (connected_components N edges))%nat ->
  In n (nth k (connected_components N edges) []) ->
  In n' (nth k' (connected_components N edges) []) ->
  k = k' <-> connected edges n n'.
Proof.
  rewrite groups_length. intros Hk Hk' Hn Hn'.
  apply (group_spec N edges k n Hk) in Hn. destruct Hn as [Hn En].
  apply (group_spec N edges k' n' Hk') in Hn'. destruct Hn' as [Hn' En'].
  rewrite <- (component_labels_connected N edges edges_in_range n n' Hn Hn').
  rewrite En, En'. split; [intros ->; reflexivity|].
  intros E. apply (proj1 (NoDup_nth reps 0%nat) (reps_NoDup N edges)); assumption.
Qed.

End Groups.

(** X28. Unpooling.merge_clusters, lines 242-260. On at least one point and
    with the radius graph naming points only, the result lists every point
    exactly once, numbers the groups from 0 without a gap, and gives two
    points the same group exactly when a chain of kept edges joins them. *)
Theorem merge_clusters_partition (rg : radius_graph) (pos : tensor2) (r : R)
    (batch : list nat) :
  (0 < shape0 pos)%nat ->
  Forall (fun e => (fst e < shape0 pos)%nat /\ (snd e < shape0 pos)%nat)
         (rg pos r batch) ->
  exists pos_map,
    merge_clusters rg pos r batch = Ok pos_map /\
    Permutation (map snd pos_map) (seq 0 (shape0 pos)) /\
    (forall i n, In (i, n) pos_map ->
       forall i', (i' <= i)%nat -> exists n', In (i', n') pos_map) /\
    (forall i n i' n', In (i, n) pos_map -> In (i', n') pos_map ->
       (i = i' <->
        connected (filter (fun uv : nat * nat => negb (fst uv <? snd uv)%nat)
                          (rg pos r batch)) n n')).
Proof.
  intros Hpos Hrange.
  set (kept := filter (fun uv : nat * nat => negb (fst uv <? snd uv)%nat)
                      (rg pos r batch)).
  assert (Hkept : Forall (fun e => (fst e < shape0 pos)%nat /\
                                   (snd e < shape0 pos)%nat) kept).
  { apply Forall_forall. intros e He. apply filter_In in He.
    rewrite Forall_forall in Hrange. apply Hrange. tauto. }
  set (gs := connected_components (shape0 pos) kept).
  assert (Hnonempty : forall k, (k < length gs)%nat -> nth k gs [] <> []).
  { intros k Hk. unfold gs in *. rewrite groups_length in Hk.
    intros E.
    assert (Hin : In (nth k (filter (fun r0 => (nth r0 (component_labels (shape0 pos) kept) r0 =? r0)%nat)
                                    (seq 0 (shape0 pos))) 0%nat)
                     (nth k (connected_components (shape0 pos) kept) [])).
    { apply (group_spec _ _ k _ Hk).
      assert (Hrep := nth_In _ 0%nat Hk). apply reps_spec in Hrep.
      destruct Hrep as [H1 H2]. split; [exact H1 | exact H2]. }
    rewrite E in Hin. destruct Hin. }
  assert (Hgs : gs <> []).
  { intros E. pose proof (proj2 (groups_cover (shape0 pos) kept Hkept 0%nat) Hpos) as H0.
    fold gs in H0. rewrite E in H0. destruct H0. }
  exists (concat (map (fun ig : nat * list nat =>
                         combine (repeat (fst ig) (length (snd ig))) (snd ig))
                      (combine (seq 0 (length gs)) gs))).
  split; [|split; [|split]].
  - unfold merge_clusters. fold kept. fold gs.
    destruct gs as [|g gs']; [contradiction|]. reflexivity.
  - rewrite snd_tagged_groups. apply groups_partition. exact Hkept.
  - intros i n Hin i' Hi'. apply in_tagged_groups in Hin.
    destruct Hin as [k [Hk [-> _]]]. simpl in Hi'.
    assert (Hk' : (i' < length gs)%nat) by lia.
    specialize (Hnonempty i' Hk').
    destruct (nth i' gs []) as [|n' g'] eqn:E; [contradiction|].
    exists n'. apply in_tagged_groups. exists i'.
    split; [exact Hk'|]. split; [reflexivity|]. rewrite E. left. reflexivity.
  - intros i n i' n' Hin Hin'. apply in_tagged_groups in Hin, Hin'.
    destruct Hin as [k [Hk [-> Hn]]]. destruct Hin' as [k' [Hk' [-> Hn']]].
    simpl. apply (same_group_iff_connected _ _ Hkept k k' n n'); assumption.
Qed.

Lemma merge_clusters_partition_witness :
  exists pos_map,
    Unpooling.merge_clusters close_pair_graph line_pos 2 [0; 0; 0]%nat = Ok pos_map /\
    Permutation (map snd pos_map) (seq 0 3).
Proof.
  destruct (merge_clusters_partition close_pair_graph line_pos 2 [0; 0; 0]%nat)
    as [pos_map [Hrun [Hperm _]]].
  - unfold shape0. simpl. lia.
  - repeat constructor; simpl; lia.
  - exists pos_map. split; [exact Hrun | exact Hperm].
Defined.

End UnpoolingFacts.

(* ================================================================== *)
(** * Graphs given by both directions of every edge *)

Section HalfEdges.

Variables (keep : nat * nat -> bool) (edges : list (nat * nat)).

Hypothesis edges_symmetric : forall u v, In (u, v) edges -> In (v, u) edges.
Hypothesis keep_one_direction :
  forall u v, keep (u, v) = true \/ keep (v, u) = true.

(** Keeping one direction of every edge keeps the components. *)
Lemma half_edges_connected (n m : nat) :
  connected (filter keep edges) n m <-> connected edges n m.
Proof.
  unfold connected. split; intros H.
  - induction H as [u v Hin | u | u v _ IH | u v w _ IH1 _ IH2].
    + apply rst_step. apply filter_In in Hin. tauto.
    + apply rst_refl.
    + apply rst_sym. exact IH.
    + apply rst_trans with v; assumption.
  - induction H as [u v Hin | u | u v _ IH | u v w _ IH1 _ IH2].
    + destruct (keep_one_direction u v) as [K|K].
      * apply rst_step. apply filter_In. auto.
      * apply rst_sym, rst_step. apply filter_In. auto.
    + apply rst_refl.
    + apply rst_sym. exact IH.
    + apply rst_trans with v; assumption.
Qed.

End HalfEdges.

Module SymmetricEdges.
Import Sparse SparseFacts SymmetricKMeans.

(** X20. SymmetricKMeans.cluster_edge_index_by_score, lines 377-382, and the
    loop of lines 407-409: the index holds every pair in both directions
    and none twice, so adding an edge for [i <= j] only leaves the
    components of the graph as they are. *)
Theorem cluster_edges_symmetric (P : params) (scores : list (list R))
    (classification : list (list nat)) (num_centroids : nat)
    (batch : list nat) (edges : Sparse.coo) :
  cluster_edge_index_by_score P scores classification num_centroids batch =
    Ok edges ->
  NoDup edges /\
  (forall i j, In (i, j) edges -> In (j, i) edges /\ In (i, i) edges) /\
  (forall n m,
     connected (filter (fun ij : nat * nat => (fst ij <=? snd ij)%nat) edges) n m <->
     connected edges n m).
Proof.
  unfold cluster_edge_index_by_score.
  destruct (min_dim0 scores) as [min_scores|]; [|discriminate]. cbn [bind].
  destruct (max_plus_1 batch) as [B|]; [|discriminate]. cbn [bind].
  destruct (Sparse.spspmm _ _ (rand_iter P) B (length batch)) as [bc|];
    [|discriminate].
  cbn [bind]. destruct (index2 classification bc) as [best_clusters|];
    [|discriminate].
  cbn [bind]. intros Hedges.
  assert (Hsym : forall i j, In (i, j) edges -> In (j, i) edges /\ In (i, i) edges).
  { intros i j Hin.
    destruct (spspmm_spec _ _ _ _ _ _ i j Hedges Hin) as [_ [_ [c [Hic Hcj]]]].
    apply in_map_iff in Hic. destruct Hic as [[c' i'] [E Hic]].
    cbn [fst snd] in E. injection E as -> ->.
    split.
    - apply (spspmm_complete _ _ _ _ _ _ j i c Hedges); [|exact Hic].
      apply in_map_iff. exists (c, j). auto.
    - apply (spspmm_complete _ _ _ _ _ _ i i c Hedges); [|exact Hic].
      apply in_map_iff. exists (c, i). auto. }
  split; [apply (spspmm_NoDup _ _ _ _ _ _ Hedges)|]. split; [exact Hsym|].
  intros n m. apply half_edges_connected.
  - intros u v Hin. apply (Hsym u v Hin).
  - intros u v. cbn [fst snd]. destruct (Nat.le_gt_cases u v) as [H|H].
    + left. apply Nat.leb_le. exact H.
    + right. apply Nat.leb_le. lia.
Qed.

(** X21. SymmetricKMeans.forward, lines 389-395. [start_pos] counts only
    together with [start_batch]: alone it is dropped, and leaving both
    out is starting from the points themselves. *)
Theorem start_needs_both (P : params) (fps : KMeans.sampler) (pos : tensor2)
    (batch : list nat) (start_pos : tensor2) (fps_ratio : R) :
  forward P fps pos batch (Some start_pos) None fps_ratio =
    forward P fps pos batch None None fps_ratio /\
  forward P fps pos batch None None fps_ratio =
    forward P fps pos batch (Some pos) (Some batch) fps_ratio.
Proof.
  split; [reflexivity|]. unfold forward.
  destruct (cat_copies (rand_iter P) pos) as [big_pos|]; [|reflexivity].
  cbn [bind]. destruct (big_batch_of (rand_iter P) batch) as [big_batch|];
    [|reflexivity].
  cbn [bind fst snd]. reflexivity.
Qed.

Lemma pair_cluster_edges :
  SymmetricKMeans.cluster_edge_index_by_score (Pooling.cluster pair_layer)
    [[0; 0]] [[0; 1]%nat] 2 [0; 1]%nat = Ok [(0, 0); (1, 1)]%nat.
Proof.
  unfold SymmetricKMeans.cluster_edge_index_by_score.
  cbn. rewrite !Rleb_refl. reflexivity.
Qed.

Lemma cluster_edges_symmetric_witness :
  NoDup [(0, 0); (1, 1)]%nat /\
  (forall i j, In (i, j) [(0, 0); (1, 1)]%nat ->
     In (j, i) [(0, 0); (1, 1)]%nat /\ In (i, i) [(0, 0); (1, 1)]%nat).
Proof.
  destruct (cluster_edges_symmetric (Pooling.cluster pair_layer) [[0; 0]]
              [[0; 1]%nat] 2 [0; 1]%nat [(0, 0); (1, 1)]%nat pair_cluster_edges)
    as [Hnd [Hsym _]].
  split; [exact Hnd | exact Hsym].
Defined.

End SymmetricEdges.

Module UnpoolingGroups.
Import Graph Unpooling UnpoolingFacts.

(** X29. Unpooling.merge_clusters, lines 244-260, on a radius graph that
    holds both directions of every edge: skipping the edges with [v > u]
    loses nothing, and two points share a group exactly when a chain of
    edges of the radius graph joins them. *)
Theorem merge_clusters_components (rg : radius_graph) (pos : tensor2) (r : R)
    (batch : list nat) (pos_map : list (nat * nat)) :
  Forall (fun e => (fst e < shape0 pos)%nat /\ (snd e < shape0 pos)%nat)
         (rg pos r batch) ->
  (forall u v, In (u, v) (rg pos r batch) -> In (v, u) (rg pos r batch)) ->
  merge_clusters rg pos r batch = Ok pos_map ->
  forall i n i' n', In (i, n) pos_map -> In (i', n') pos_map ->
    (i = i' <-> connected (rg pos r batch) n n').
Proof.
  intros Hrange Hsym. unfold merge_clusters.
  set (kept := filter (fun uv : nat * nat => negb (fst uv <? snd uv)%nat)
                      (rg pos r batch)).
  set (gs := connected_components (shape0 pos) kept).
  destruct (map _ (combine (seq 0 (length gs)) gs)) as [|p ps] eqn:E; [discriminate|].
  rewrite <- E. clear E p ps. intros H. injection H as <-.
  intros i n i' n' Hin Hin'.
  assert (Hkept : Forall (fun e => (fst e < shape0 pos)%nat /\
                                   (snd e < shape0 pos)%nat) kept).
  { apply Forall_forall. intros e He. apply filter_In in He.
    rewrite Forall_forall in Hrange. apply Hrange. tauto. }
  apply in_tagged_groups in Hin, Hin'.
  destruct Hin as [k [Hk [-> Hn]]]. destruct Hin' as [k' [Hk' [-> Hn']]].
  simpl. rewrite (same_group_iff_connected _ _ Hkept k k' n n' Hk Hk' Hn Hn').
  apply half_edges_connected; [exact Hsym|].
  intros u v. cbn [fst snd]. destruct (Nat.lt_ge_cases u v) as [H|H].
  - right. apply negb_true_iff, Nat.ltb_ge. lia.
  - left. apply negb_true_iff, Nat.ltb_ge. lia.
Qed.

Lemma merge_clusters_components_witness :
  (0 = 0)%nat <-> connected (close_pair_graph line_pos 2 [0; 0; 0]%nat) 0%nat 1%nat.
Proof.
  apply (merge_clusters_components close_pair_graph line_pos 2 [0; 0; 0]%nat
           [(0, 0); (0, 1); (1, 2)]%nat).
  - repeat constructor; simpl; lia.
  - intros u v [E|[E|[]]]; injection E as <- <-; simpl; auto.
  - reflexivity.
  - simpl. auto.
  - simpl. auto.
Defined.

End UnpoolingGroups.

(* ================================================================== *)
(** * The pooled graph *)

Module PooledGraphFacts.
Import Sparse SparseFacts.

Lemma in_combine_seq_r (l : list nat) (s x k : nat) :
  In (x, k) (combine l (seq s (length l))) <->
  (s <= k)%nat /\ nth_error l (k - s) = Some x.
Proof.
  revert s. induction l as [|a l IH]; intros s; simpl.
  - split; [tauto|]. intros [_ H]. destruct (k - s)%nat; discriminate.
  - rewrite IH. split.
    + intros [E|[Hs H]].
      * injection E as <- <-. rewrite Nat.sub_diag. auto.
      * split; [lia|]. replace (k - s)%nat with (S (k - S s)) by lia. exact H.
    + intros [Hs H]. destruct (k - s)%nat as [|d] eqn:E.
      * left. injection H as <-. f_equal. lia.
      * right. split; [lia|]. replace (k - S s)%nat with d by lia. exact H.
Qed.

Lemma in_combine_seq_l (l : list nat) (s x k : nat) :
  In (k, x) (combine (seq s (length l)) l) <->
  (s <= k)%nat /\ nth_error l (k - s) = Some x.
Proof.
  revert s. induction l as [|a l IH]; intros s; simpl.
  - split; [tauto|]. intros [_ H]. destruct (k - s)%nat; discriminate.
  - rewrite IH. split.
    + intros [E|[Hs H]].
      * injection E as <- <-. rewrite Nat.sub_diag. auto.
      * split; [lia|]. replace (k - s)%nat with (S (k - S s)) by lia. exact H.
    + intros [Hs H]. destruct (k - s)%nat as [|d] eqn:E.
      * left. injection H as <-. f_equal. lia.
      * right. split; [lia|]. replace (k - S s)%nat with d by lia. exact H.
Qed.

Lemma nth_error_nth_iff (l : list nat) (k x : nat) :
  nth_error l k = Some x <-> (k < length l)%nat /\ nth k l 0%nat = x.
Proof.
  split.
  - intros H. split; [apply nth_error_Some; congruence|].
    apply nth_error_nth. exact H.
  - intros [Hk <-]. apply nth_error_nth'. exact Hk.
Qed.

Lemma in_range_spec (A : coo) (m n : nat) :
  in_range A m n = true <->
  Forall (fun rc => (fst rc < m)%nat /\ (snd rc < n)%nat) A.
Proof.
  unfold in_range. rewrite forallb_forall, Forall_forall.
  split; intros H rc Hin; specialize (H rc Hin).
  - apply andb_true_iff in H. destruct H as [H1 H2].
    apply Nat.ltb_lt in H1, H2. auto.
  - apply andb_true_iff. split; apply Nat.ltb_lt; tauto.
Qed.

(** A product of in-range indices is defined, and holds exactly the
    pairs joined through a middle index. *)
Lemma spspmm_defined (A B : coo) (m k n : nat) :
  Forall (fun rc => (fst rc < m)%nat /\ (snd rc < k)%nat) A ->
  Forall (fun rc => (fst rc < k)%nat /\ (snd rc < n)%nat) B ->
  exists out,
    spspmm A B m k n = Ok out /\ NoDup out /\
    Forall (fun rc => (fst rc < m)%nat /\ (snd rc < n)%nat) out /\
    forall i j, In (i, j) out <-> exists l, In (i, l) A /\ In (l, j) B.
Proof.
  intros HA HB. apply in_range_spec in HA, HB.
  destruct (spspmm A B m k n) as [out|e] eqn:E.
  - exists out. split; [reflexivity|]. split; [apply (spspmm_NoDup _ _ _ _ _ _ E)|].
    split.
    + apply Forall_forall. intros [i j] Hin.
      destruct (spspmm_spec _ _ _ _ _ _ i j E Hin) as [Hi [Hj _]]. auto.
    + intros i j. split.
      * intros Hin. apply (spspmm_spec _ _ _ _ _ _ i j E Hin).
      * intros [l [Ha Hb]]. apply (spspmm_complete _ _ _ _ _ _ i j l E Ha Hb).
  - unfold spspmm in E. rewrite HA, HB in E. discriminate.
Qed.

Lemma max_plus_1_defined (index : list nat) :
  index <> [] -> exists C, max_plus_1 index = Ok C.
Proof. destruct index; [contradiction|]. intros _. eexists. reflexivity. Qed.

Section NewEdges.

Variables (N : nat) (ei : edge_index) (bloom_batch cluster : list nat).

Hypothesis some_point : cluster <> [].
Hypothesis one_cluster_per_point : length bloom_batch = length cluster.
Hypothesis edges_in_range :
  Forall (fun e => (fst e < N)%nat /\ (snd e < N)%nat) ei.
Hypothesis origins_in_range : Forall (fun l => (l < N)%nat) bloom_batch.

(** The two products that take an edge end from its node to the clusters
    of the node's bloomed points. *)
Lemma node_to_cluster :
  exists C convert,
    max_plus_1 cluster = Ok C /\
    (forall out, Sparse.spspmm (map (fun rc : nat * nat => (snd rc, fst rc)) convert)
                               convert C N C = out ->
                 get_new_edge_index N ei bloom_batch cluster = out) /\
    Forall (fun rc => (fst rc < N)%nat /\ (snd rc < C)%nat) convert /\
    forall i c, In (i, c) convert <->
      exists b, (b < length cluster)%nat /\
                In (i, nth b bloom_batch 0%nat) ei /\ nth b cluster 0%nat = c.
Proof.
  destruct (max_plus_1_defined cluster some_point) as [C HC].
  pose proof (max_plus_1_spec cluster C HC) as [Hlt _].
  destruct (spspmm_defined ei (combine bloom_batch (seq 0 (length bloom_batch)))
                           N N (length bloom_batch) edges_in_range)
    as [conv1 [E1 [_ [R1 M1]]]].
  { apply Forall_forall. intros [l b] Hin. apply in_combine_seq_r in Hin.
    destruct Hin as [_ Hin]. rewrite Nat.sub_0_r in Hin.
    apply nth_error_nth_iff in Hin. destruct Hin as [Hb <-]. cbn [fst snd].
    split; [|exact Hb]. rewrite Forall_forall in origins_in_range.
    apply origins_in_range. apply nth_In. exact Hb. }
  destruct (spspmm_defined conv1 (combine (seq 0 (length bloom_batch)) cluster)
                           N (length bloom_batch) C R1)
    as [conv2 [E2 [_ [R2 M2]]]].
  { apply Forall_forall. intros [b c] Hin. rewrite one_cluster_per_point in Hin.
    apply in_combine_seq_l in Hin.
    destruct Hin as [_ Hin]. rewrite Nat.sub_0_r in Hin.
    apply nth_error_nth_iff in Hin. destruct Hin as [Hb <-]. cbn [fst snd].
    split; [lia | apply Hlt; exact Hb]. }
  exists C, conv2. split; [exact HC|]. split; [|split; [exact R2|]].
  - intros out <-. unfold get_new_edge_index, stack2. rewrite HC. cbn [bind].
    rewrite !length_seq, Nat.eqb_refl. cbn [bind].
    replace (length bloom_batch =? length cluster)%nat with true
      by (symmetry; apply Nat.eqb_eq; exact one_cluster_per_point).
    cbn [bind]. rewrite E1. cbn [bind]. rewrite E2. cbn [bind]. reflexivity.
  - intros i c. rewrite M2. split.
    + intros [b [H1 H2]]. rewrite one_cluster_per_point in H2.
      apply in_combine_seq_l in H2. destruct H2 as [_ H2].
      rewrite Nat.sub_0_r in H2. apply nth_error_nth_iff in H2.
      destruct H2 as [Hb Hc]. apply M1 in H1. destruct H1 as [l [Hil Hlb]].
      apply in_combine_seq_r in Hlb. destruct Hlb as [_ Hlb].
      rewrite Nat.sub_0_r in Hlb. apply nth_error_nth_iff in Hlb.
      destruct Hlb as [_ <-]. exists b. auto.
    + intros [b [Hb [Hil Hc]]]. exists b. split.
      * apply M1. exists (nth b bloom_batch 0%nat). split; [exact Hil|].
        apply in_combine_seq_r. split; [lia|]. rewrite Nat.sub_0_r.
        apply nth_error_nth_iff. split; [lia | reflexivity].
      * rewrite one_cluster_per_point. apply in_combine_seq_l. split; [lia|].
        rewrite Nat.sub_0_r. apply nth_error_nth_iff. auto.
Qed.

(** X23. get_new_edge_index, lines 138-169: two clusters are joined exactly
    when some node has edges to the origins of two bloomed points, one in
    each cluster. *)
Theorem new_edge_index_spec :
  exists out,
    get_new_edge_index N ei bloom_batch cluster = Ok out /\
    forall c c', In (c, c') out <->
      exists i b b',
        (b < length cluster)%nat /\ (b' < length cluster)%nat /\
        In (i, nth b bloom_batch 0%nat) ei /\
        In (i, nth b' bloom_batch 0%nat) ei /\
        nth b cluster 0%nat = c /\ nth b' cluster 0%nat = c'.
Proof.
  destruct node_to_cluster as [C [convert [HC [Hout [Hr Hm]]]]].
  destruct (spspmm_defined (map (fun rc : nat * nat => (snd rc, fst rc)) convert)
                           convert C N C) as [out [E [_ [_ M]]]].
  { apply Forall_forall. intros rc Hin. apply in_map_iff in Hin.
    destruct Hin as [[i c] [<- Hin]]. cbn [fst snd].
    rewrite Forall_forall in Hr. specialize (Hr _ Hin). cbn [fst snd] in Hr. lia. }
  { exact Hr. }
  exists out. split; [apply Hout; exact E|].
  intros c c'. rewrite M. split.
  - intros [i [H1 H2]]. apply in_map_iff in H1.
    destruct H1 as [[i0 c0] [E0 H1]]. cbn [fst snd] in E0. injection E0 as -> ->.
    apply Hm in H1, H2. destruct H1 as [b [Hb [He Hc]]].
    destruct H2 as [b' [Hb' [He' Hc']]]. exists i, b, b'. auto 10.
  - intros [i [b [b' [Hb [Hb' [He [He' [Hc Hc']]]]]]]]. exists i. split.
    + apply in_map_iff. exists (i, c). split; [reflexivity|].
      apply Hm. exists b. auto.
    + apply Hm. exists b'. auto.
Qed.

(** X24. get_new_edge_index, lines 164-169: the new index names clusters
    only, holds no pair twice, holds every pair in both directions, and
    holds a loop at each end of a pair. *)
Theorem new_edge_index_symmetric :
  exists out C,
    get_new_edge_index N ei bloom_batch cluster = Ok out /\
    max_plus_1 cluster = Ok C /\ NoDup out /\
    forall c c', In (c, c') out ->
      (c < C)%nat /\ (c' < C)%nat /\ In (c', c) out /\ In (c, c) out.
Proof.
  destruct node_to_cluster as [C [convert [HC [Hout [Hr Hm]]]]].
  destruct (spspmm_defined (map (fun rc : nat * nat => (snd rc, fst rc)) convert)
                           convert C N C) as [out [E [Hnd [Hrange M]]]].
  { apply Forall_forall. intros rc Hin. apply in_map_iff in Hin.
    destruct Hin as [[i c] [<- Hin]]. cbn [fst snd].
    rewrite Forall_forall in Hr. specialize (Hr _ Hin). cbn [fst snd] in Hr. lia. }
  { exact Hr. }
  exists out, C. split; [apply Hout; exact E|]. split; [exact HC|].
  split; [exact Hnd|]. intros c c' Hin.
  rewrite Forall_forall in Hrange. pose proof (Hrange _ Hin) as [Hc Hc'].
  cbn [fst snd] in Hc, Hc'. split; [exact Hc|]. split; [exact Hc'|].
  apply M in Hin. destruct Hin as [i [H1 H2]]. apply in_map_iff in H1.
  destruct H1 as [[i0 c0] [E0 H1]]. cbn [fst snd] in E0. injection E0 as -> ->.
  split; apply M.
  - exists i. split; [|exact H1]. apply in_map_iff. exists (i, c'). auto.
  - exists i. split; [|exact H1]. apply in_map_iff. exists (i, c). auto.
Qed.

End NewEdges.

Lemma filter_none {A : Type} (p : A -> bool) (l : list A) :
  (forall x, In x l -> p x = false) -> filter p l = [].
Proof.
  induction l as [|a l IH]; intros H; simpl; [reflexivity|].
  rewrite (H a) by (left; reflexivity). apply IH. intros x Hx. apply H. right. exact Hx.
Qed.

Lemma filter_seq_unique (p : nat -> bool) (s n b0 : nat) :
  (s <= b0 < s + n)%nat ->
  (forall b, (s <= b < s + n)%nat -> (p b = true <-> b = b0)) ->
  filter p (seq s n) = [b0].
Proof.
  revert s. induction n as [|n IH]; intros s Hb Hp; [lia|]. simpl.
  destruct (p s) eqn:E.
  - assert (s = b0) by (apply Hp; [lia | exact E]). subst b0. f_equal.
    apply filter_none. intros x Hx. apply in_seq in Hx.
    destruct (p x) eqn:Ex; [|reflexivity].
    assert (x = s) by (apply Hp; [lia | exact Ex]). lia.
  - assert (s <> b0).
    { intros ->. assert (p b0 = true) by (apply Hp; [lia | reflexivity]). congruence. }
    apply IH; [lia|]. intros b Hb'. apply Hp. lia.
Qed.

Lemma filter_map_pair (P : nat * nat -> bool) (a : nat) (l : list nat) :
  filter P (map (pair a) l) = map (pair a) (filter (fun b => P (a, b)) l).
Proof.
  induction l as [|b l IH]; simpl; [reflexivity|].
  destruct (P (a, b)); simpl; rewrite IH; reflexivity.
Qed.

(** Filtering a grid by the graph of a function leaves the graph. *)
Lemma filter_prod_functional (P : nat * nat -> bool) (f : nat -> nat)
    (rows : list nat) (B : nat) :
  (forall c b, In c rows -> (b < B)%nat -> (P (c, b) = true <-> b = f c)) ->
  (forall c, In c rows -> (f c < B)%nat) ->
  filter P (list_prod rows (seq 0 B)) = map (fun c => (c, f c)) rows.
Proof.
  induction rows as [|a rows IH]; intros HP Hf; simpl; [reflexivity|].
  rewrite filter_app, filter_map_pair.
  rewrite (filter_seq_unique _ 0 B (f a)).
  - simpl. f_equal. apply IH.
    + intros c b Hc. apply HP. right. exact Hc.
    + intros c Hc. apply Hf. right. exact Hc.
  - split; [lia|]. simpl. apply Hf. left. reflexivity.
  - intros b Hb. apply HP; [left; reflexivity | lia].
Qed.

(** The product of [get_new_batch] when the batch of a cluster's members
    is given by a function of the cluster. *)
Lemma get_new_batch_graph (gather_edge_index : coo) (batch : list nat)
    (C : nat) (cluster_batch : nat -> nat) :
  max_plus_1 (map fst gather_edge_index) = Ok C ->
  length gather_edge_index = length batch ->
  (forall c j, In (c, j) gather_edge_index ->
     (j < length batch)%nat /\ nth j batch 0%nat = cluster_batch c) ->
  (forall c, (c < C)%nat -> exists j, In (c, j) gather_edge_index) ->
  get_new_batch gather_edge_index batch = Ok (map cluster_batch (seq 0 C)).
Proof.
  intros HC Hlen Hmem Hall.
  pose proof (max_plus_1_spec _ _ HC) as [HltC _].
  assert (Hne : batch <> []).
  { intros ->. destruct gather_edge_index; [discriminate | discriminate]. }
  destruct (max_plus_1_defined batch Hne) as [B HB].
  pose proof (max_plus_1_spec _ _ HB) as [HltB _].
  unfold get_new_batch, stack2. rewrite HC, HB. cbn [bind].
  rewrite length_seq, Nat.eqb_refl. cbn [bind].
  rewrite Hlen, Nat.eqb_refl. cbn [negb].
  assert (HA : in_range gather_edge_index C (length batch) = true).
  { apply in_range_spec. apply Forall_forall. intros [c j] Hin. cbn [fst snd].
    split; [|apply (Hmem c j Hin)].
    apply (In_nth _ _ (0%nat, 0%nat)) in Hin. destruct Hin as [n [Hn E]].
    specialize (HltC n). rewrite length_map in HltC. specialize (HltC Hn).
    change 0%nat with (fst (0%nat, 0%nat)) in HltC at 1.
    rewrite map_nth, E in HltC. exact HltC. }
  assert (HBr : in_range (combine (seq 0 (length batch)) batch) (length batch) B = true).
  { apply in_range_spec. apply Forall_forall. intros [k b] Hin.
    apply in_combine_seq_l in Hin. destruct Hin as [_ Hin].
    rewrite Nat.sub_0_r in Hin. apply nth_error_nth_iff in Hin.
    destruct Hin as [Hk <-]. cbn [fst snd]. split; [exact Hk | apply HltB; exact Hk]. }
  unfold spspmm. rewrite HA, HBr. cbn [andb negb bind]. f_equal.
  rewrite (filter_prod_functional _ cluster_batch (seq 0 C) B).
  - rewrite map_map. reflexivity.
  - intros c b Hc Hb. apply in_seq in Hc. cbn [fst snd].
    rewrite existsb_exists. split.
    + intros [l [_ Hl]]. apply andb_true_iff in Hl. destruct Hl as [H1 H2].
      apply has_entry_spec in H1, H2. apply in_combine_seq_l in H2.
      destruct H2 as [_ H2]. rewrite Nat.sub_0_r in H2.
      apply nth_error_nth_iff in H2. destruct H2 as [_ <-].
      apply (Hmem c l H1).
    + intros ->. destruct (Hall c) as [j Hj]; [lia|].
      destruct (Hmem c j Hj) as [Hjlt Hjb]. exists j. split; [apply in_seq; lia|].
      apply andb_true_iff. split; apply has_entry_spec; [exact Hj|].
      apply in_combine_seq_l. split; [lia|]. rewrite Nat.sub_0_r.
      apply nth_error_nth_iff. auto.
  - intros c Hc. apply in_seq in Hc. destruct (Hall c) as [j Hj]; [lia|].
    destruct (Hmem c j Hj) as [Hjlt <-]. apply HltB. exact Hjlt.
Qed.

(** X25. get_new_batch, lines 172-179. When the members of every cluster
    share one batch and every cluster below [C] has a member, the result
    has one entry per cluster, the batch of the cluster's members. The
    batch of a member is read from [batch] at the member's second
    coordinate. *)
Theorem new_batch_per_cluster (gather_edge_index : coo) (batch : list nat)
    (C : nat) :
  max_plus_1 (map fst gather_edge_index) = Ok C ->
  length gather_edge_index = length batch ->
  (forall c j, In (c, j) gather_edge_index -> (j < length batch)%nat) ->
  (forall c j j', In (c, j) gather_edge_index -> In (c, j') gather_edge_index ->
     nth j batch 0%nat = nth j' batch 0%nat) ->
  (forall c, (c < C)%nat -> exists j, In (c, j) gather_edge_index) ->
  exists new_batch,
    get_new_batch gather_edge_index batch = Ok new_batch /\
    length new_batch = C /\
    forall c j, In (c, j) gather_edge_index ->
      nth c new_batch 0%nat = nth j batch 0%nat.
Proof.
  intros HC Hlen Hrange Hpure Hall.
  set (cluster_batch := fun c =>
         match find (fun cj : nat * nat => (fst cj =? c)%nat) gather_edge_index with
         | Some cj => nth (snd cj) batch 0%nat
         | None => 0%nat
         end).
  assert (Hcb : forall c j, In (c, j) gather_edge_index ->
            nth j batch 0%nat = cluster_batch c).
  { intros c j Hin. unfold cluster_batch.
    destruct (find _ gather_edge_index) as [[c' j']|] eqn:E.
    - apply find_some in E. destruct E as [Hin' E]. cbn [fst snd] in *.
      apply Nat.eqb_eq in E. subst c'. apply (Hpure c j j' Hin Hin').
    - pose proof (find_none _ _ E (c, j) Hin) as Hf. cbn [fst] in Hf.
      rewrite Nat.eqb_refl in Hf. discriminate. }
  exists (map cluster_batch (seq 0 C)). split; [|split].
  - apply get_new_batch_graph; [exact HC | exact Hlen | | exact Hall].
    intros c j Hin. split; [apply (Hrange c j Hin) | apply (Hcb c j Hin)].
  - rewrite length_map, length_seq. reflexivity.
  - intros c j Hin.
    assert (Hc : (c < C)%nat).
    { pose proof (max_plus_1_spec _ _ HC) as [HltC _].
      apply (In_nth _ _ (0%nat, 0%nat)) in Hin. destruct Hin as [n [Hn E]].
      specialize (HltC n). rewrite length_map in HltC. specialize (HltC Hn).
      change 0%nat with (fst (0%nat, 0%nat)) in HltC at 1.
      rewrite map_nth, E in HltC. exact HltC. }
    rewrite (nth_indep _ 0%nat (cluster_batch 0%nat))
      by (rewrite length_map, length_seq; exact Hc).
    rewrite map_nth, seq_nth by exact Hc. symmetry. apply (Hcb c j Hin).
Qed.

Lemma new_edge_index_spec_witness :
  exists out,
    get_new_edge_index 3 [(0, 1); (0, 2)]%nat [0; 1; 2]%nat [0; 1; 1]%nat = Ok out /\
    (In (0, 1)%nat out <-> False) /\ In (1, 1)%nat out.
Proof.
  destruct (new_edge_index_spec 3 [(0, 1); (0, 2)]%nat [0; 1; 2]%nat [0; 1; 1]%nat)
    as [out [Hrun Hspec]].
  - discriminate.
  - reflexivity.
  - repeat constructor; simpl; lia.
  - repeat constructor; simpl; lia.
  - exists out. split; [exact Hrun|]. split.
    + rewrite Hspec. split; [|contradiction].
      intros [i [b [b' [Hb [Hb' [H1 [H2 [Hc Hc']]]]]]]].
      simpl in Hb. destruct b as [|[|[|b]]]; simpl in Hc; try lia.
      simpl in H1. destruct H1 as [E|[E|[]]]; discriminate.
    + apply Hspec. exists 0%nat, 1%nat, 1%nat. simpl. auto 10.
Defined.

Lemma new_edge_index_symmetric_witness :
  exists out C,
    get_new_edge_index 3 [(0, 1); (0, 2)]%nat [0; 1; 2]%nat [0; 1; 1]%nat = Ok out /\
    max_plus_1 [0; 1; 1]%nat = Ok C /\ NoDup out.
Proof.
  destruct (new_edge_index_symmetric 3 [(0, 1); (0, 2)]%nat [0; 1; 2]%nat
                                     [0; 1; 1]%nat)
    as [out [C [Hrun [HC [Hnd _]]]]].
  - discriminate.
  - reflexivity.
  - repeat constructor; simpl; lia.
  - repeat constructor; simpl; lia.
  - exists out, C. auto.
Defined.

Lemma new_batch_per_cluster_witness :
  exists new_batch,
    get_new_batch [(0, 0); (0, 1); (1, 2)]%nat [0; 0; 1]%nat = Ok new_batch /\
    length new_batch = 2%nat /\ nth 1 new_batch 0%nat = 1%nat.
Proof.
  destruct (new_batch_per_cluster [(0, 0); (0, 1); (1, 2)]%nat [0; 0; 1]%nat 2)
    as [new_batch [Hrun [Hlen Hnth]]].
  - reflexivity.
  - reflexivity.
  - intros c j [E|[E|[E|[]]]]; injection E as <- <-; simpl; lia.
  - intros c j j' [E|[E|[E|[]]]] [E'|[E'|[E'|[]]]];
      inversion E; inversion E'; subst; simpl; congruence.
  - intros [|[|c]] Hc; [exists 0%nat | exists 2%nat | lia]; simpl; auto.
  - exists new_batch. split; [exact Hrun|]. split; [exact Hlen|].
    apply (Hnth 1%nat 2%nat). simpl. auto.
Defined.

End PooledGraphFacts.

(* ================================================================== *)
(** * SymmetricKMeans with a single run *)

Module SingleRun.
Import Sparse SparseFacts Graph GraphFacts LabelFacts SymmetricKMeans
       KMeansFacts ClusterFacts SymmetricFacts PooledGraphFacts.

Section Labels.

Variables (N : nat) (edges : list (nat * nat)).

Hypothesis edges_in_range :
  Forall (fun e => (fst e < N)%nat /\ (snd e < N)%nat) edges.

(** Two nodes get the same label exactly when a chain of edges joins
    them. *)
Lemma labels_iff_connected (final : list nat) (n m : nat) :
  assign_labels (repeat 0%nat N) 0 (connected_components N edges) = Ok final ->
  (n < N)%nat -> (m < N)%nat ->
  nth n final 0%nat = nth m final 0%nat <-> connected edges n m.
Proof.
  intros Hfinal Hn Hm.
  set (lab := component_labels N edges).
  set (reps := filter (fun r => (nth r lab r =? r)%nat) (seq 0 N)).
  assert (Hl : labelling N (fun _ => 0%nat) lab).
  { apply labelling_components. apply Forall_forall. intros e He.
    rewrite Forall_forall in edges_in_range.
    destruct (edges_in_range e He). auto. }
  destruct Hl as [_ Hlab].
  destruct (assign_labels_spec (connected_components N edges) (repeat 0%nat N) 0)
    as [final' [Hfinal' [_ Hfnth]]].
  { apply Forall_forall. intros g Hg. apply (In_nth _ _ []) in Hg.
    destruct Hg as [k [Hk <-]]. rewrite groups_length in Hk.
    apply Forall_forall. intros x Hx. rewrite repeat_length.
    apply (group_spec N edges k x Hk). exact Hx. }
  rewrite Hfinal in Hfinal'. injection Hfinal' as <-.
  assert (Hnode : forall x, (x < N)%nat ->
            exists k, (k < length reps)%nat /\ nth x final 0%nat = k /\
                      nth k reps 0%nat = lab_at lab x).
  { intros x Hx. destruct (Hlab x Hx) as [Hrange [Hfix _]].
    destruct (Hfnth x) as [[k [Hk [Hin Hval]]] | [Hnone _]].
    - rewrite groups_length in Hk. exists k. split; [exact Hk|].
      split; [exact Hval|]. symmetry. apply (group_spec N edges k x Hk). exact Hin.
    - exfalso.
      assert (Hrep : In (lab_at lab x) reps) by (apply reps_spec; auto).
      apply (In_nth _ _ 0%nat) in Hrep. destruct Hrep as [k [Hk Hrk]].
      apply (Hnone k); [rewrite groups_length; exact Hk|].
      apply (group_spec N edges k x Hk). auto. }
  rewrite <- (component_labels_connected N edges edges_in_range n m Hn Hm).
  fold lab. destruct (Hnode n Hn) as [k [Hk [Hvn Hrn]]].
  destruct (Hnode m Hm) as [k' [Hk' [Hvm Hrm]]].
  rewrite Hvn, Hvm, <- Hrn, <- Hrm. split; [intros ->; reflexivity|].
  apply (proj1 (NoDup_nth reps 0%nat) (reps_NoDup N edges)); assumption.
Qed.

End Labels.

Lemma nonzero_le_row (r0 st : nat) (s : list R) (r b : nat) :
  In (r, b)
     (concat (map (fun bsm : nat * (R * R) =>
                     if Rleb (fst (snd bsm)) (snd (snd bsm))
                     then [(r0, fst bsm)] else [])
                  (combine (seq st (length s)) (combine s s)))) <->
  r = r0 /\ (st <= b < st + length s)%nat.
Proof.
  revert st. induction s as [|x s IH]; intros st; simpl.
  - split; [tauto | lia].
  - rewrite Rleb_refl. simpl. rewrite IH. split.
    + intros [E|[-> H]]; [injection E as <- <-; lia | lia].
    + intros [-> H]. destruct (Nat.eq_dec b st) as [->|Hne]; [left; reflexivity|].
      right. lia.
Qed.

Lemma nonzero_le_single (scores : list R) (r b : nat) :
  In (r, b) (nonzero_le [scores] scores) <-> r = 0%nat /\ (b < length scores)%nat.
Proof.
  unfold nonzero_le. cbn [length seq combine map concat fst snd].
  rewrite app_nil_r, nonzero_le_row. lia.
Qed.

Lemma index2_complete (classification : list (list nat)) (rn : list (nat * nat))
    (out : list nat) (r n : nat) :
  index2 classification rn = Ok out -> In (r, n) rn ->
  exists row c, nth_error classification r = Some row /\
                nth_error row n = Some c /\
                In (c, n) (combine out (map snd rn)).
Proof.
  unfold index2. intros H. apply mapM_inv in H.
  induction H as [|p c0 rn out Hp H IH]; simpl; [contradiction|].
  intros [E|Hin].
  - subst p. cbn [fst snd] in *.
    destruct (nth_error classification r) as [row|] eqn:Hrow; [|discriminate].
    destruct (nth_error row n) as [c'|] eqn:Hc; [|discriminate].
    injection Hp as ->. exists row, c0. auto.
  - destruct (IH Hin) as [row [c [H1 [H2 H3]]]]. exists row, c. auto.
Qed.

Lemma score_length (P : KMeans.params) (pos : tensor2) (batch : list nat)
    (cen : tensor2) (cl : list nat) (scores : list R) (B : nat) :
  length cl = shape0 pos -> length batch = shape0 pos ->
  KMeans.score P pos batch cen cl = Ok scores -> max_plus_1 batch = Ok B ->
  length scores = B.
Proof.
  intros Hcl Hbatch. unfold KMeans.score.
  destruct (index_select cen cl) as [a|] eqn:Hsel; [|discriminate].
  cbn [bind]. destruct (bop2 Rminus pos a) as [diff|] eqn:Hdiff; [|discriminate].
  cbn [bind].
  assert (Ha : shape0 a = shape0 pos).
  { unfold index_select in Hsel. destruct (all_lt cl (shape0 cen)); [|discriminate].
    injection Hsel as <-. unfold shape0 at 1. cbn [t_rows].
    rewrite length_map. exact Hcl. }
  destruct (bop2_shape _ _ _ _ Hdiff) as [Hn _].
  rewrite Ha, bdim_same in Hn. injection Hn as Hn.
  unfold scatter_add1. rewrite broadcast_same
    by (rewrite length_map; fold (shape0 diff); congruence).
  cbn [bind]. intros H. injection H as <-. rewrite length_map, length_seq.
  destruct batch; [discriminate|]. simpl. intros E. injection E as <-. reflexivity.
Qed.

Lemma reshape_rows_one {A : Type} (l : list A) : reshape_rows 1 l = Ok [l].
Proof.
  unfold reshape_rows. rewrite Nat.mod_1_r. cbn [Nat.eqb chunks].
  rewrite Nat.div_1_r, firstn_all. reflexivity.
Qed.

Lemma cat_copies_one (t : tensor2) : cat_copies 1 t = Ok t.
Proof.
  unfold cat_copies. destruct t as [d rows]. cbn [repeat concat t_rows t_cols].
  rewrite app_nil_r. reflexivity.
Qed.

Lemma big_batch_one (batch : list nat) :
  big_batch_of 1 batch = rmap (fun _ => batch) (max_plus_1 batch).
Proof.
  unfold big_batch_of. destruct (max_plus_1 batch) as [B|]; [|reflexivity].
  cbn [bind rmap seq map concat]. rewrite app_nil_r. f_equal.
  rewrite (map_ext _ (fun b => b)) by (intros b; lia). apply map_id.
Qed.

(** The edges one run makes: two points are joined exactly when the run
    gives them the same centroid. *)
Lemma single_run_edges (P : params) (scores : list R) (cl : list nat)
    (num_centroids : nat) (batch : list nat) (B : nat) (edges : coo) :
  rand_iter P = 1%nat -> max_plus_1 batch = Ok B -> length scores = B ->
  length cl = length batch ->
  cluster_edge_index_by_score P [scores] [cl] num_centroids batch = Ok edges ->
  forall n m, In (n, m) edges <->
    (n < length batch)%nat /\ (m < length batch)%nat /\
    nth n cl 0%nat = nth m cl 0%nat.
Proof.
  intros HR HB Hs Hcl. unfold cluster_edge_index_by_score.
  cbn [min_dim0 fold_left bind]. rewrite HB, HR. cbn [bind].
  destruct (spspmm (nonzero_le [scores] scores) _ 1 B (length batch)) as [bc|] eqn:Hbc;
    [|discriminate].
  cbn [bind]. destruct (index2 [cl] bc) as [best_clusters|] eqn:Hidx; [|discriminate].
  cbn [bind]. intros Hedges.
  destruct (max_plus_1_spec _ _ HB) as [HltB _].
  assert (Hbcin : forall n, (n < length batch)%nat -> In (0%nat, n) bc).
  { intros n Hn. apply (spspmm_complete _ _ _ _ _ _ 0%nat n (nth n batch 0%nat) Hbc).
    - apply nonzero_le_single. split; [reflexivity|]. rewrite Hs. apply HltB. exact Hn.
    - apply in_combine_seq_r. split; [lia|]. rewrite Nat.sub_0_r.
      apply nth_error_nth_iff. auto. }
  assert (Hci : forall c n,
            In (c, n) (combine best_clusters (map snd bc)) <->
            (n < length batch)%nat /\ c = nth n cl 0%nat).
  { intros c n. split.
    - intros Hin. destruct (index2_spec _ _ _ _ _ Hidx Hin) as [r [row [Hrow Hc]]].
      destruct r as [|r]; [|destruct r; discriminate].
      injection Hrow as <-. apply nth_error_nth_iff in Hc.
      destruct Hc as [Hn Hc]. split; [lia | auto].
    - intros [Hn ->].
      destruct (index2_complete _ _ _ 0%nat n Hidx (Hbcin n Hn))
        as [row [c [Hrow [Hc Hin]]]].
      injection Hrow as <-. apply nth_error_nth_iff in Hc. destruct Hc as [_ <-].
      exact Hin. }
  intros n m. split.
  - intros Hin.
    destruct (spspmm_spec _ _ _ _ _ _ n m Hedges Hin) as [_ [_ [c [Hnc Hcm]]]].
    apply in_map_iff in Hnc. destruct Hnc as [[c' n'] [E Hnc]].
    cbn [fst snd] in E. injection E as -> ->.
    apply Hci in Hnc, Hcm. destruct Hnc as [Hn Hc]. destruct Hcm as [Hm Hc'].
    split; [exact Hn|]. split; [exact Hm | congruence].
  - intros [Hn [Hm Heq]].
    apply (spspmm_complete _ _ _ _ _ _ n m (nth n cl 0%nat) Hedges).
    + apply in_map_iff. exists (nth n cl 0%nat, n). split; [reflexivity|].
      apply Hci. auto.
    + apply Hci. auto.
Qed.

Lemma same_class_connected (N : nat) (cl : list nat) (edges : list (nat * nat)) :
  (forall n m, In (n, m) edges <->
     (n < N)%nat /\ (m < N)%nat /\ nth n cl 0%nat = nth m cl 0%nat) ->
  forall n m, (n < N)%nat -> (m < N)%nat ->
    connected edges n m <-> nth n cl 0%nat = nth m cl 0%nat.
Proof.
  intros He n m Hn Hm. split.
  - intros H. clear Hn Hm. unfold connected in H.
    induction H as [u v Hin | u | u v _ IH | u v w _ IH1 _ IH2];
      [apply He in Hin; tauto | reflexivity | congruence | congruence].
  - intros Heq. apply rst_step. apply He. auto.
Qed.

(** X22. SymmetricKMeans.forward, lines 384-414, with [rand_iter = 1]: the
    labels renumber the clusters of the one KMeans run; two points share
    a label exactly when that run gives them the same centroid. *)
Theorem single_run_is_kmeans (P : params) (fps : KMeans.sampler) (pos : tensor2)
    (batch : list nat) (start_pos : option tensor2)
    (start_batch : option (list nat)) (fps_ratio : R)
    (cl : list nat) (cen : tensor2) (cb labels : list nat) :
  rand_iter P = 1%nat ->
  KMeans.forward (base P) fps pos batch start_pos start_batch fps_ratio =
    Ok (cl, cen, cb) ->
  forward P fps pos batch start_pos start_batch fps_ratio = Ok labels ->
  forall n m, (n < shape0 pos)%nat -> (m < shape0 pos)%nat ->
    (nth n labels 0%nat = nth m labels 0%nat <->
     nth n cl 0%nat = nth m cl 0%nat).
Proof.
  intros HR Hkm. unfold forward. rewrite HR, cat_copies_one, big_batch_one.
  cbn [bind]. destruct (max_plus_1 batch) as [B|] eqn:HB; [|discriminate].
  cbn [rmap bind].
  assert (Hstart :
    match start_batch with
    | Some sb =>
        match start_pos with
        | Some sp =>
            big_start_pos <- cat_copies 1 sp ;;
            big_start_batch <- big_batch_of 1 sb ;;
            Ok (Some big_start_pos, Some big_start_batch)
        | None => Err TypeError
        end
    | None => Ok (None, None)
    end = Ok (start_pos, start_batch) \/
    is_ok (match start_batch with
           | Some sb =>
               match start_pos with
               | Some sp =>
                   big_start_pos <- cat_copies 1 sp ;;
                   big_start_batch <- big_batch_of 1 sb ;;
                   Ok (Some big_start_pos, Some big_start_batch)
               | None => Err TypeError
               end
           | None => Ok (None, None)
           end) = false).
  { destruct start_batch as [sb|]; destruct start_pos as [sp|].
    - rewrite cat_copies_one, big_batch_one. cbn [bind].
      destruct (max_plus_1 sb); [left | right]; reflexivity.
    - right. reflexivity.
    - unfold KMeans.forward in Hkm. discriminate.
    - left. reflexivity. }
  destruct Hstart as [-> | Hbad].
  2:{ destruct (match start_batch with Some _ => _ | None => _ end);
        [discriminate | discriminate]. }
  cbn [bind fst snd]. rewrite Hkm. cbn [bind].
  destruct (KMeans.score (base P) pos batch cen cl) as [scores|] eqn:Hscore;
    [|discriminate].
  cbn [bind]. rewrite !reshape_rows_one. cbn [bind].
  destruct (cluster_edge_index_by_score P [scores] [cl] (shape0 cen) batch)
    as [edges|] eqn:Hedges; [|discriminate].
  cbn [bind]. intros Hlabels n m Hn Hm.
  apply forward_batch_respecting in Hkm. destruct Hkm as [Hcl [Hbatch _]].
  pose proof (score_length _ _ _ _ _ _ _ Hcl Hbatch Hscore HB) as Hs.
  pose proof (single_run_edges P scores cl (shape0 cen) batch B edges HR HB Hs
                ltac:(congruence) Hedges) as He.
  rewrite Hbatch in He.
  assert (Hsym : forall u v, In (u, v) edges -> In (v, u) edges).
  { intros u v Hin. apply He in Hin. apply He. destruct Hin as [H1 [H2 H3]]. auto. }
  assert (Hrange : Forall (fun e => (fst e < shape0 pos)%nat /\
                                    (snd e < shape0 pos)%nat)
                          (filter (fun ij : nat * nat => (fst ij <=? snd ij)%nat) edges)).
  { apply Forall_forall. intros [u v] Hin. apply filter_In in Hin.
    destruct Hin as [Hin _]. apply He in Hin. cbn [fst snd]. tauto. }
  rewrite (labels_iff_connected _ _ Hrange labels n m Hlabels Hn Hm).
  rewrite (half_edges_connected _ edges Hsym).
  - apply (same_class_connected (shape0 pos) cl edges He n m Hn Hm).
  - intros u v. cbn [fst snd]. destruct (Nat.le_gt_cases u v) as [H|H].
    + left. apply Nat.leb_le. exact H.
    + right. apply Nat.leb_le. lia.
Qed.

Lemma single_run_is_kmeans_witness :
  (nth 0 [0; 1] 0 = nth 1 [0; 1] 0 <-> nth 0 [0; 1] 0 = nth 1 [0; 1] 0)%nat.
Proof.
  apply (single_run_is_kmeans (Pooling.cluster pair_layer) (Pooling.fps pair_layer)
           pair_pos [0; 1]%nat (Some pair_pos) (Some [0; 1]%nat) (5 / 10)
           [0; 1]%nat pair_pos [0; 1]%nat [0; 1]%nat).
  - reflexivity.
  - exact (PoolingClaims.pair_kmeans (5 / 10)).
  - exact PoolingClaims.pair_clusters.
  - unfold shape0. simpl. lia.
  - unfold shape0. simpl. lia.
Defined.

End SingleRun.

(* ================================================================== *)
(** * Pooling: the new graph of the clusters *)

Module PooledGraphInPooling.
Import Sparse SparseFacts Pooling PooledGraphFacts PoolingClaims BloomFacts.

(** What the first lines of [Pooling.forward] establish about the
    bloomed points and their clusters. *)
Lemma clustering_facts (L : layer) (x pos : tensor2) (ei : edge_index)
    (edge_attr : list (list R)) (min_radius : R) (batch : list nat)
    (n_norm : R) (r : clustering) :
  forward_clusters L x pos ei edge_attr min_radius (Some batch) n_norm = Ok r ->
  clusters r <> [] /\
  length (bloom_batch r) = length (clusters r) /\
  max_plus_1 (clusters r) = Ok (n_clusters r) /\
  Forall (fun l => (l < shape0 pos)%nat) (bloom_batch r) /\
  exists point_batch,
    index_select1 batch (bloom_batch r) = Ok point_batch /\
    length point_batch = length (bloom_batch r) /\
    (forall k, (k < length (bloom_batch r))%nat ->
       nth k point_batch 0%nat = nth (nth k (bloom_batch r) 0%nat) batch 0%nat) /\
    (forall c, (c < n_clusters r)%nat ->
       exists k, (k < length (bloom_batch r))%nat /\ nth k (clusters r) 0%nat = c) /\
    (forall k k', (k < length (bloom_batch r))%nat ->
       (k' < length (bloom_batch r))%nat ->
       nth k (clusters r) 0%nat = nth k' (clusters r) 0%nat ->
       nth k point_batch 0%nat = nth k' point_batch 0%nat).
Proof.
  unfold forward_clusters.
  destruct (conv L x ei edge_attr n_norm) as [out|] eqn:Hconv; [|discriminate].
  cbn [bind].
  destruct (Bloom.forward _ _ _ pos min_radius false (1 / 100) true)
    as [[bpos bbatch]|] eqn:Hbloom; [|discriminate].
  cbn [bind].
  destruct (index_select1 batch bbatch) as [point_batch|] eqn:Hpb; [|discriminate].
  cbn [bind].
  destruct (SymmetricKMeans.forward _ _ bpos point_batch _ _ _) as [cl|] eqn:Hcl;
    [|discriminate].
  cbn [bind]. destruct (max_plus_1 cl) as [C|] eqn:HC; [|discriminate].
  cbn [bind]. intros H. injection H as <-.
  cbn [clusters bloom_batch n_clusters].
  apply symmetric_forward_spec in Hcl.
  destruct Hcl as [Hpblen [Hcllen [G [Hlt [Hused Hkey]]]]].
  pose proof (index_select1_spec _ _ _ Hpb) as [Hpblen' Hpbnth].
  pose proof (max_plus_1_spec _ _ HC) as [Hbelow [k0 [Hk0 Hmax]]].
  assert (HM : length cl = length bbatch) by congruence.
  assert (Hsame : shape0 bpos = length bbatch) by congruence.
  rewrite Hsame in Hlt, Hused, Hkey.
  split; [intros ->; discriminate|].
  split; [congruence|]. split; [exact HC|]. split.
  - unfold Bloom.forward in Hbloom.
    destruct (Bloom.bloom_loop _ _ _ _ _ _ 0 _) as [[pieces ids]|]; [|discriminate].
    cbn [bind fst snd] in Hbloom.
    destruct (Bloom.cat pieces); [|discriminate]. cbn [bind] in Hbloom.
    unfold index_select in Hbloom.
    destruct (all_lt (concat ids) (shape0 pos)) eqn:E; [|discriminate].
    cbn [bind] in Hbloom. destruct (bop2 Rplus _ _); [|discriminate].
    cbn [bind] in Hbloom. injection Hbloom as _ <-.
    apply all_lt_spec. exact E.
  - exists point_batch. split; [exact Hpb|]. split; [exact Hpblen'|].
    split; [exact Hpbnth|]. split.
    + intros c Hc. apply Hused. rewrite HM in Hk0. specialize (Hlt k0 Hk0). lia.
    + intros k k' Hk Hk' Heq. apply Hkey; assumption.
Qed.

(** X26. Pooling.forward, lines 201-206, 215 and 218: once the clusters are
    made, and if the edges of the input graph name nodes only, the call
    of get_new_edge_index returns; the new edges name clusters only, none
    twice, each in both directions. *)
Theorem pooled_edges_defined (L : layer) (x pos : tensor2) (ei : edge_index)
    (edge_attr : list (list R)) (min_radius : R) (batch : list nat)
    (n_norm : R) (r : clustering) :
  forward_clusters L x pos ei edge_attr min_radius (Some batch) n_norm = Ok r ->
  Forall (fun e => (fst e < shape0 pos)%nat /\ (snd e < shape0 pos)%nat) ei ->
  exists new_edge_index,
    get_new_edge_index (shape0 pos) ei (bloom_batch r) (clusters r) =
      Ok new_edge_index /\
    NoDup new_edge_index /\
    forall c c', In (c, c') new_edge_index ->
      (c < n_clusters r)%nat /\ (c' < n_clusters r)%nat /\
      In (c', c) new_edge_index.
Proof.
  intros Hrun Hei.
  destruct (clustering_facts _ _ _ _ _ _ _ _ _ Hrun)
    as [Hne [Hlen [HC [Hrange _]]]].
  destruct (node_to_cluster (shape0 pos) ei (bloom_batch r) (clusters r)
              Hne Hlen Hei Hrange) as [C [convert [HC' [Hout [Hr Hm]]]]].
  rewrite HC in HC'. injection HC' as <-.
  destruct (spspmm_defined (map (fun rc : nat * nat => (snd rc, fst rc)) convert)
                           convert (n_clusters r) (shape0 pos) (n_clusters r))
    as [out [E [Hnd [Hrg M]]]].
  { apply Forall_forall. intros rc Hin. apply in_map_iff in Hin.
    destruct Hin as [[i c] [<- Hin]]. cbn [fst snd].
    rewrite Forall_forall in Hr. specialize (Hr _ Hin). cbn [fst snd] in Hr. lia. }
  { exact Hr. }
  exists out. split; [apply Hout; exact E|]. split; [exact Hnd|].
  intros c c' Hin. rewrite Forall_forall in Hrg.
  pose proof (Hrg _ Hin) as [Hc Hc']. cbn [fst snd] in Hc, Hc'.
  split; [exact Hc|]. split; [exact Hc'|].
  apply M in Hin. destruct Hin as [i [H1 H2]]. apply in_map_iff in H1.
  destruct H1 as [[i0 c0] [E0 H1]]. cbn [fst snd] in E0. injection E0 as -> ->.
  apply M. exists i. split; [|exact H1]. apply in_map_iff. exists (i, c'). auto.
Qed.

Lemma map_fst_combine_same (a b : list nat) :
  length a = length b -> map fst (combine a b) = a.
Proof.
  revert b. induction a as [|x a IH]; intros [|y b] H; try discriminate;
    [reflexivity|].
  simpl. rewrite IH by (simpl in H; lia). reflexivity.
Qed.

Lemma in_combine_nth (a b : list nat) (x y : nat) :
  length a = length b ->
  In (x, y) (combine a b) <->
  exists k, (k < length a)%nat /\ nth k a 0%nat = x /\ nth k b 0%nat = y.
Proof.
  revert b. induction a as [|u a IH]; intros [|v b] Hlen; try discriminate.
  - simpl. split; [tauto | intros [k [Hk _]]; lia].
  - simpl. rewrite IH by (simpl in Hlen; lia). split.
    + intros [E|[k [Hk [Hx Hy]]]].
      * injection E as <- <-. exists 0%nat. split; [lia | auto].
      * exists (S k). split; [lia | auto].
    + intros [[|k] [Hk [Hx Hy]]].
      * left. congruence.
      * right. exists k. split; [lia | auto].
Qed.

(** X27. Pooling.forward, lines 201-206, 213 and 220, when every node bloomed
    into exactly one point: the call of get_new_batch returns one batch
    per cluster, the batch of the nodes the cluster holds. *)
Theorem pooled_batch_one_point_per_node (L : layer) (x pos : tensor2)
    (ei : edge_index) (edge_attr : list (list R)) (min_radius : R)
    (batch : list nat) (n_norm : R) (r : clustering) (point_batch : list nat) :
  forward_clusters L x pos ei edge_attr min_radius (Some batch) n_norm = Ok r ->
  bloom_batch r = seq 0 (length (bloom_batch r)) ->
  index_select1 batch (bloom_batch r) = Ok point_batch ->
  exists new_batch,
    get_new_batch (combine (clusters r) (bloom_batch r)) point_batch =
      Ok new_batch /\
    length new_batch = n_clusters r /\
    forall node, (node < length (bloom_batch r))%nat ->
      nth (nth node (clusters r) 0%nat) new_batch 0%nat = nth node batch 0%nat.
Proof.
  intros Hrun Hone Hpb.
  destruct (clustering_facts _ _ _ _ _ _ _ _ _ Hrun)
    as [Hne [Hlen [HC [_ [pb [Hpb' [Hpblen [Hpbnth [Hused Hpure]]]]]]]]].
  rewrite Hpb in Hpb'. injection Hpb' as <-.
  set (M := length (bloom_batch r)) in *.
  assert (Hid : forall k, (k < M)%nat -> nth k (bloom_batch r) 0%nat = k).
  { intros k Hk. rewrite Hone. apply seq_nth. exact Hk. }
  set (member := fun c =>
         match find (fun k => (nth k (clusters r) 0 =? c)%nat) (seq 0 M) with
         | Some k => k
         | None => 0%nat
         end).
  assert (Hmember : forall k, (k < M)%nat ->
            (member (nth k (clusters r) 0%nat) < M)%nat /\
            nth (member (nth k (clusters r) 0%nat)) (clusters r) 0%nat =
            nth k (clusters r) 0%nat).
  { intros k Hk. unfold member.
    destruct (find _ (seq 0 M)) as [k'|] eqn:E.
    - apply find_some in E. destruct E as [Hin E]. apply in_seq in Hin.
      apply Nat.eqb_eq in E. split; [lia | exact E].
    - exfalso. assert (Hk' : In k (seq 0 M)) by (apply in_seq; lia).
      pose proof (find_none _ _ E k Hk') as Hf. cbv beta in Hf.
      rewrite Nat.eqb_refl in Hf. discriminate. }
  assert (Hfst : map fst (combine (clusters r) (bloom_batch r)) = clusters r).
  { apply map_fst_combine_same. symmetry. exact Hlen. }
  exists (map (fun c => nth (member c) point_batch 0%nat) (seq 0 (n_clusters r))).
  split; [|split].
  - apply get_new_batch_graph.
    + rewrite Hfst. exact HC.
    + rewrite length_combine, Hpblen. fold M. lia.
    + intros c j Hin. apply in_combine_nth in Hin; [|symmetry; exact Hlen].
      destruct Hin as [k [Hk [Hc Hj]]]. rewrite <- Hlen in Hk. fold M in Hk.
      rewrite (Hid k Hk) in Hj. subst j. rewrite Hpblen. fold M.
      split; [exact Hk|]. subst c.
      destruct (Hmember k Hk) as [Hm Hsame].
      symmetry. apply Hpure; assumption.
    + intros c Hc. destruct (Hused c Hc) as [k [Hk Hkc]].
      exists (nth k (bloom_batch r) 0%nat). apply in_combine_nth; [symmetry; exact Hlen|].
      exists k. split; [rewrite <- Hlen; exact Hk | auto].
  - rewrite length_map, length_seq. reflexivity.
  - intros node Hnode.
    pose proof (max_plus_1_spec _ _ HC) as [Hbelow _].
    assert (Hc : (nth node (clusters r) 0 < n_clusters r)%nat)
      by (apply Hbelow; rewrite <- Hlen; exact Hnode).
    rewrite (nth_indep _ 0%nat ((fun c => nth (member c) point_batch 0%nat) 0%nat))
      by (rewrite length_map, length_seq; exact Hc).
    rewrite (map_nth (fun c => nth (member c) point_batch 0%nat)).
    rewrite seq_nth by exact Hc. cbn [Nat.add].
    destruct (Hmember node Hnode) as [Hm Hsame].
    rewrite (Hpure _ node Hm Hnode Hsame).
    rewrite Hpbnth by exact Hnode. rewrite (Hid node Hnode). reflexivity.
Qed.

Lemma pair_clustering :
  Pooling.forward_clusters pair_layer (mk2 1 [[1]; [1]]) pair_pos [] [] (1 / 10)
                           (Some [0; 1]%nat) 1 =
  Ok {| Pooling.features := mk2 0 [[]; []]; Pooling.bloom_pos := pair_pos;
        Pooling.bloom_batch := [0; 1]%nat; Pooling.clusters := [0; 1]%nat;
        Pooling.n_clusters := 2 |}.
Proof.
  unfold Pooling.forward_clusters.
  cbn [Pooling.conv pair_layer bind rs_dim Pooling.Rs_bloom fold_right block_dim
       Nat.mul Nat.add Pooling.find_peaks Pooling.res].
  rewrite PoolingClaims.pair_bloom. cbn [bind].
  change (index_select1 [0; 1]%nat [0; 1]%nat) with (Ok [0; 1]%nat).
  cbn [bind].
  change {| Pooling.Rs_bloom := [(1, 0, 1%Z); (1, 1, (-1)%Z)]%nat;
            Pooling.conv := fun _ _ _ _ => Ok (mk2 4 [[0; 0; 0; 0]; [0; 0; 0; 0]]);
            Pooling.find_peaks := fun _ _ => [];
            Pooling.res := 200;
            Pooling.cluster := {| SymmetricKMeans.base := default_params;
                                  SymmetricKMeans.rand_iter := 1 |};
            Pooling.fps := fun _ _ _ => [0; 1]%nat |} with pair_layer.
  rewrite PoolingClaims.pair_clusters. reflexivity.
Qed.

Lemma pooled_edges_defined_witness :
  exists new_edge_index,
    get_new_edge_index 2 [(0, 1); (1, 0)]%nat [0; 1]%nat [0; 1]%nat =
      Ok new_edge_index /\
    NoDup new_edge_index.
Proof.
  destruct (pooled_edges_defined pair_layer (mk2 1 [[1]; [1]]) pair_pos
              [(0, 1); (1, 0)]%nat [] (1 / 10) [0; 1]%nat 1
              {| Pooling.features := mk2 0 [[]; []]; Pooling.bloom_pos := pair_pos;
                 Pooling.bloom_batch := [0; 1]%nat; Pooling.clusters := [0; 1]%nat;
                 Pooling.n_clusters := 2 |})
    as [new_edge_index [Hrun [Hnd _]]].
  - exact pair_clustering.
  - repeat constructor; unfold shape0; simpl; lia.
  - exists new_edge_index. split; [exact Hrun | exact Hnd].
Defined.

Lemma pooled_batch_one_point_per_node_witness :
  exists new_batch,
    get_new_batch (combine [0; 1] [0; 1])%nat [0; 1]%nat = Ok new_batch /\
    length new_batch = 2%nat.
Proof.
  destruct (pooled_batch_one_point_per_node pair_layer (mk2 1 [[1]; [1]]) pair_pos
              [] [] (1 / 10) [0; 1]%nat 1
              {| Pooling.features := mk2 0 [[]; []]; Pooling.bloom_pos := pair_pos;
                 Pooling.bloom_batch := [0; 1]%nat; Pooling.clusters := [0; 1]%nat;
                 Pooling.n_clusters := 2 |} [0; 1]%nat)
    as [new_batch [Hrun [Hlen _]]].
  - exact pair_clustering.
  - reflexivity.
  - reflexivity.
  - exists new_batch. split; [exact Hrun | exact Hlen].
Defined.

End PooledGraphInPooling.
